(** * compton: the window registry, fading and the redirect controller

    A shallow embedding of the parts of the compositor that its
    specification makes claims about.

    - [Module Win] follows [win.c] (src/unnamed/part_001): the opacity
      target, the local frame regions, leader resolution and the
      window life cycle ([add_win], [map_win], [unmap_win],
      [win_check_fade_finished], [find_win]).
    - [Module Compton] follows [src/compton.c]: [run_fade],
      [paint_preprocess], [add_damage], [restack_win],
      [win_blur_background], the unredirect timer and [session_run].

    C [double]s are binary64 primitive floats; [B2R] gives a double its
    real value, to state what the quotients computed in double are.
    32-bit integers are [Z] with the wrap-around written out where the
    code can wrap.  [Module WinProofs], [Module FloatProofs] and
    [Module ComptonProofs] hold the theorems. *)

From Stdlib Require Import ZArith List Bool Lia Floats Uint63 Reals Lra.
Import ListNotations.

Local Open Scope Z_scope.

(** ** Machine integers *)

(** Two's-complement reading of a C [int] (32 bits). *)
Definition wrap32 (z : Z) : Z := (z + 2 ^ 31) mod 2 ^ 32 - 2 ^ 31.

(** [(double) z] for an unsigned integer below 2^63. *)
Definition double_of_uint (z : Z) : float := PrimFloat.of_uint63 (Uint63.of_Z z).

(** [max2] of utils.h. *)
Definition max2 (a b : Z) : Z := if a <? b then b else a.

Module Win.

(** ** Data model ([win.h], [common.h]) *)

Definition xcb_window_t := Z.
Definition XCB_NONE : xcb_window_t := 0.

(** [#define OPAQUE 0xffffffff] (win.c:43). *)
Definition OPAQUE : Z := 0xffffffff.

Inductive winstate_t :=
| WSTATE_UNMAPPED
| WSTATE_MAPPING
| WSTATE_MAPPED
| WSTATE_FADING
| WSTATE_UNMAPPING
| WSTATE_DESTROYING.

Definition winstate_eqb (a b : winstate_t) : bool :=
  match a, b with
  | WSTATE_UNMAPPED, WSTATE_UNMAPPED | WSTATE_MAPPING, WSTATE_MAPPING
  | WSTATE_MAPPED, WSTATE_MAPPED | WSTATE_FADING, WSTATE_FADING
  | WSTATE_UNMAPPING, WSTATE_UNMAPPING | WSTATE_DESTROYING, WSTATE_DESTROYING => true
  | _, _ => false
  end.

Inductive wintype_t :=
| WINTYPE_UNKNOWN | WINTYPE_DESKTOP | WINTYPE_DOCK | WINTYPE_TOOLBAR
| WINTYPE_MENU | WINTYPE_UTILITY | WINTYPE_SPLASH | WINTYPE_DIALOG
| WINTYPE_NORMAL | WINTYPE_DROPDOWN_MENU | WINTYPE_POPUP_MENU
| WINTYPE_TOOLTIP | WINTYPE_NOTIFY | WINTYPE_COMBO | WINTYPE_DND.

Inductive window_class := XCB_WINDOW_CLASS_INPUT_OUTPUT | XCB_WINDOW_CLASS_INPUT_ONLY.

Inductive map_state_t :=
| XCB_MAP_STATE_UNMAPPED | XCB_MAP_STATE_UNVIEWABLE | XCB_MAP_STATE_VIEWABLE.

(** [margin_t]. *)
Record margin_t := { top : Z; left : Z; bottom : Z; right : Z }.

Definition MARGIN_INIT : margin_t := {| top := 0; left := 0; bottom := 0; right := 0 |}.

(** The fields of [struct win] that the modelled functions read or
    write.  [ptr] is the address of the node: two nodes of the stack
    may carry the same [id] (one of them being destroyed), never the
    same [ptr]. *)
Record win := {
  ptr : nat;
  id : xcb_window_t;
  a_class : window_class;
  a_map_state : map_state_t;
  g_width : Z;
  g_height : Z;
  state : winstate_t;
  in_openclose : bool;
  ever_damaged : bool;
  reg_ignore_valid : bool;
  window_type : wintype_t;
  focused : bool;
  client_win : xcb_window_t;
  leader : xcb_window_t;
  cache_leader : xcb_window_t;
  opacity : float;
  opacity_tgt : float;
  has_opacity_prop : bool;
  opacity_prop : Z
}.

(** [win_option_t] and the options of [session_t::o] that are read. *)
Record win_option_t := { wo_opacity : float }.

Record options_t := {
  wintype_option : wintype_t -> win_option_t;
  inactive_opacity : float;
  active_opacity : float;
  inactive_opacity_override : bool;
  experimental_backends : bool
}.

(** [session_t]: the window stack [window_stack] (head = top of the
    stack, following [next]), the uthash table [windows] as the list of
    its entries in insertion order (key = window id, value = node), and
    the allocator state. *)
Record session_t := {
  o : options_t;
  window_stack : list win;
  windows : list (xcb_window_t * nat);
  redirected : bool;
  active_win : option nat;
  overlay : xcb_window_t;
  next_ptr : nat
}.

(** Field updates ([w->f = v]). *)
Definition set_a_map_state (v : map_state_t) (w : win) : win :=
  Build_win (ptr w) (id w) (a_class w) v (g_width w) (g_height w) (state w)
    (in_openclose w) (ever_damaged w) (reg_ignore_valid w) (window_type w) (focused w)
    (client_win w) (leader w) (cache_leader w) (opacity w) (opacity_tgt w)
    (has_opacity_prop w) (opacity_prop w).

Definition set_g_width (v : Z) (w : win) : win :=
  Build_win (ptr w) (id w) (a_class w) (a_map_state w) v (g_height w) (state w)
    (in_openclose w) (ever_damaged w) (reg_ignore_valid w) (window_type w) (focused w)
    (client_win w) (leader w) (cache_leader w) (opacity w) (opacity_tgt w)
    (has_opacity_prop w) (opacity_prop w).

Definition set_g_height (v : Z) (w : win) : win :=
  Build_win (ptr w) (id w) (a_class w) (a_map_state w) (g_width w) v (state w)
    (in_openclose w) (ever_damaged w) (reg_ignore_valid w) (window_type w) (focused w)
    (client_win w) (leader w) (cache_leader w) (opacity w) (opacity_tgt w)
    (has_opacity_prop w) (opacity_prop w).

Definition set_state (v : winstate_t) (w : win) : win :=
  Build_win (ptr w) (id w) (a_class w) (a_map_state w) (g_width w) (g_height w) v
    (in_openclose w) (ever_damaged w) (reg_ignore_valid w) (window_type w) (focused w)
    (client_win w) (leader w) (cache_leader w) (opacity w) (opacity_tgt w)
    (has_opacity_prop w) (opacity_prop w).

Definition set_in_openclose (v : bool) (w : win) : win :=
  Build_win (ptr w) (id w) (a_class w) (a_map_state w) (g_width w) (g_height w)
    (state w) v (ever_damaged w) (reg_ignore_valid w) (window_type w) (focused w)
    (client_win w) (leader w) (cache_leader w) (opacity w) (opacity_tgt w)
    (has_opacity_prop w) (opacity_prop w).

Definition set_ever_damaged (v : bool) (w : win) : win :=
  Build_win (ptr w) (id w) (a_class w) (a_map_state w) (g_width w) (g_height w)
    (state w) (in_openclose w) v (reg_ignore_valid w) (window_type w) (focused w)
    (client_win w) (leader w) (cache_leader w) (opacity w) (opacity_tgt w)
    (has_opacity_prop w) (opacity_prop w).

Definition set_reg_ignore_valid (v : bool) (w : win) : win :=
  Build_win (ptr w) (id w) (a_class w) (a_map_state w) (g_width w) (g_height w)
    (state w) (in_openclose w) (ever_damaged w) v (window_type w) (focused w)
    (client_win w) (leader w) (cache_leader w) (opacity w) (opacity_tgt w)
    (has_opacity_prop w) (opacity_prop w).

Definition set_client_win (v : xcb_window_t) (w : win) : win :=
  Build_win (ptr w) (id w) (a_class w) (a_map_state w) (g_width w) (g_height w)
    (state w) (in_openclose w) (ever_damaged w) (reg_ignore_valid w) (window_type w)
    (focused w) v (leader w) (cache_leader w) (opacity w) (opacity_tgt w)
    (has_opacity_prop w) (opacity_prop w).

Definition set_cache_leader (v : xcb_window_t) (w : win) : win :=
  Build_win (ptr w) (id w) (a_class w) (a_map_state w) (g_width w) (g_height w)
    (state w) (in_openclose w) (ever_damaged w) (reg_ignore_valid w) (window_type w)
    (focused w) (client_win w) (leader w) v (opacity w) (opacity_tgt w)
    (has_opacity_prop w) (opacity_prop w).

Definition set_opacity (v : float) (w : win) : win :=
  Build_win (ptr w) (id w) (a_class w) (a_map_state w) (g_width w) (g_height w)
    (state w) (in_openclose w) (ever_damaged w) (reg_ignore_valid w) (window_type w)
    (focused w) (client_win w) (leader w) (cache_leader w) v (opacity_tgt w)
    (has_opacity_prop w) (opacity_prop w).

Definition set_opacity_tgt (v : float) (w : win) : win :=
  Build_win (ptr w) (id w) (a_class w) (a_map_state w) (g_width w) (g_height w)
    (state w) (in_openclose w) (ever_damaged w) (reg_ignore_valid w) (window_type w)
    (focused w) (client_win w) (leader w) (cache_leader w) (opacity w) v
    (has_opacity_prop w) (opacity_prop w).

Definition set_window_stack (v : list win) (ps : session_t) : session_t :=
  Build_session_t (o ps) v (windows ps) (redirected ps) (active_win ps) (overlay ps)
    (next_ptr ps).

Definition set_windows (v : list (xcb_window_t * nat)) (ps : session_t) : session_t :=
  Build_session_t (o ps) (window_stack ps) v (redirected ps) (active_win ps) (overlay ps)
    (next_ptr ps).

Definition set_active_win (v : option nat) (ps : session_t) : session_t :=
  Build_session_t (o ps) (window_stack ps) (windows ps) (redirected ps) v (overlay ps)
    (next_ptr ps).

Definition set_redirected (v : bool) (ps : session_t) : session_t :=
  Build_session_t (o ps) (window_stack ps) (windows ps) v (active_win ps) (overlay ps)
    (next_ptr ps).

(** [safe_isnan] of utils.h. *)
Definition safe_isnan (d : float) : bool := PrimFloat.is_nan d.

Definition fading_out (st : winstate_t) : bool :=
  match st with
  | WSTATE_UNMAPPED | WSTATE_UNMAPPING | WSTATE_DESTROYING => true
  | _ => false
  end.

(** ** Opacity target (win.c:431-460) *)

Section OpacityTarget.

(** [win_is_focused_real] is an inline function of win.h, which is not
    among the sources; it is a parameter of what follows. *)
Variable win_is_focused_real : session_t -> win -> bool.

(** [win_calc_opacity_target], statement by statement: the default 1,
    the two early returns, the property / window type / focus cascade,
    and the inactive override applied last. *)
Definition win_calc_opacity_target (ps : session_t) (w : win) : float :=
  let opacity := 1%float in
  if winstate_eqb (state w) WSTATE_UNMAPPED then 0%float
  else if winstate_eqb (state w) WSTATE_UNMAPPING
          || winstate_eqb (state w) WSTATE_DESTROYING then 0%float
  else
    let opacity :=
      if has_opacity_prop w then
        PrimFloat.div (double_of_uint (opacity_prop w)) (double_of_uint OPAQUE)
      else if negb (safe_isnan (wo_opacity (wintype_option (o ps) (window_type w)))) then
        wo_opacity (wintype_option (o ps) (window_type w))
      else if win_is_focused_real ps w then active_opacity (o ps)
      else if negb (focused w) then inactive_opacity (o ps)
      else opacity in
    if inactive_opacity_override (o ps) && negb (focused w)
    then inactive_opacity (o ps)
    else opacity.

(** The priority order of the specification (section 4.3), first match
    wins, written from its words. *)
Definition opacity_target_by_priority (ps : session_t) (w : win) : float :=
  if fading_out (state w) then 0%float
  else if inactive_opacity_override (o ps) && negb (focused w) then inactive_opacity (o ps)
  else if has_opacity_prop w then
    PrimFloat.div (double_of_uint (opacity_prop w)) (double_of_uint 0xFFFFFFFF)
  else if negb (PrimFloat.is_nan (wo_opacity (wintype_option (o ps) (window_type w)))) then
    wo_opacity (wintype_option (o ps) (window_type w))
  else if win_is_focused_real ps w then active_opacity (o ps)
  else if negb (focused w) then inactive_opacity (o ps)
  else 1%float.

End OpacityTarget.

(** ** Local regions (win.c:126-164) *)

(** pixman regions are an external library; a region is modelled by a
    list of boxes [x1 <= x < x2], [y1 <= y < y2] whose union it is. *)
Record rect_t := { x1 : Z; y1 : Z; x2 : Z; y2 : Z }.

Definition region_t := list rect_t.

Definition good_rect (b : rect_t) : bool := (x1 b <? x2 b) && (y1 b <? y2 b).

Definition in_rect (px py : Z) (b : rect_t) : Prop :=
  x1 b <= px < x2 b /\ y1 b <= py < y2 b.

Definition in_region (px py : Z) (r : region_t) : Prop :=
  Exists (in_rect px py) r.

(** [pixman_region32_init]: the empty region. *)
Definition pixman_region32_init : region_t := [].

(** [pixman_region32_fini] releases the boxes of a region.  The callers
    modelled here ([gen_by_val]) pass the region [pixman_region32_init]
    has just made, which it leaves empty. *)
Definition pixman_region32_fini (r : region_t) : region_t := pixman_region32_init.

(** [pixman_region32_init_rect]: one box, or the empty region when the
    box is empty or malformed. *)
Definition pixman_region32_init_rect (x y width height : Z) : region_t :=
  let b := {| x1 := x; y1 := y; x2 := wrap32 (x + width); y2 := wrap32 (y + height) |} in
  if good_rect b then [b] else [].

(** [pixman_region32_init_rects]: the union of the boxes, empty and
    malformed ones dropped. *)
Definition pixman_region32_init_rects (boxes : list rect_t) : region_t :=
  filter good_rect boxes.

Definition rect_intersect (a b : rect_t) : rect_t :=
  {| x1 := Z.max (x1 a) (x1 b); y1 := Z.max (y1 a) (y1 b);
     x2 := Z.min (x2 a) (x2 b); y2 := Z.min (y2 a) (y2 b) |}.

(** [pixman_region32_intersect]. *)
Definition pixman_region32_intersect (r1 r2 : region_t) : region_t :=
  filter good_rect (flat_map (fun a => map (rect_intersect a) r2) r1).

Section Regions.

(** [win_calc_frame_extents] is an inline function of win.h, which is
    not among the sources: the extents it returns are a parameter, so
    every statement below holds whatever extents are reported. *)
Variable win_calc_frame_extents : win -> margin_t.

Definition noframe_width (w : win) : Z :=
  let extents := win_calc_frame_extents w in
  max2 (wrap32 (g_width w - wrap32 (left extents + right extents))) 0.

Definition noframe_height (w : win) : Z :=
  let extents := win_calc_frame_extents w in
  max2 (wrap32 (g_height w - wrap32 (top extents + bottom extents))) 0.

(** [win_get_region_noframe_local]; [res] is the region passed in. *)
Definition win_get_region_noframe_local (w : win) (res : region_t) : region_t :=
  let extents := win_calc_frame_extents w in
  let x := left extents in
  let y := top extents in
  let width := noframe_width w in
  let height := noframe_height w in
  let res := pixman_region32_fini res in
  if (0 <? width) && (0 <? height)
  then pixman_region32_init_rect x y width height
  else res.

(** [gen_by_val(win_get_region_noframe_local)]. *)
Definition win_get_region_noframe_local_by_val (w : win) : region_t :=
  let ret := pixman_region32_init in
  win_get_region_noframe_local w ret.

(** [win_get_region_frame_local]: the four bands, then the intersection
    with the window rectangle. *)
Definition win_get_region_frame_local (w : win) (res : region_t) : region_t :=
  let extents := win_calc_frame_extents w in
  let res := pixman_region32_fini res in
  let res :=
    pixman_region32_init_rects
      [ {| x1 := 0; y1 := 0; x2 := g_width w; y2 := top extents |};
        {| x1 := 0; y1 := wrap32 (g_height w - bottom extents);
           x2 := g_width w; y2 := g_height w |};
        {| x1 := 0; y1 := 0; x2 := left extents; y2 := g_height w |};
        {| x1 := wrap32 (g_width w - right extents); y1 := 0;
           x2 := g_width w; y2 := g_height w |} ] in
  let reg_win := pixman_region32_init_rect 0 0 (g_width w) (g_height w) in
  pixman_region32_intersect res reg_win.

(** [gen_by_val(win_get_region_frame_local)]. *)
Definition win_get_region_frame_local_by_val (w : win) : region_t :=
  let ret := pixman_region32_init in
  win_get_region_frame_local w ret.

End Regions.

(** ** Results of fallible code *)

(** A call either returns or stops the program: a failed [assert], or
    a pointer to a node that is not in the stack. *)
Inductive result (A : Type) :=
| Ok (a : A)
| Crash.

Arguments Ok {A} a.
Arguments Crash {A}.

Definition bind {A B : Type} (r : result A) (k : A -> result B) : result B :=
  match r with
  | Ok a => k a
  | Crash => Crash
  end.

Notation "x <- c ;; k" := (bind c (fun x => k))
  (at level 61, c at next level, right associativity).

Definition assert (b : bool) : result unit := if b then Ok tt else Crash.

(** ** The stack and the id index *)

(** [*p] for a node pointer [p]. *)
Definition get_win (l : list win) (p : nat) : option win :=
  find (fun w => Nat.eqb (ptr w) p) l.

(** [p->f = v], as an update of the node in place. *)
Definition upd_win (p : nat) (f : win -> win) (l : list win) : list win :=
  map (fun w => if Nat.eqb (ptr w) p then f w else w) l.

Definition with_win (ps : session_t) (p : nat) (f : win -> win) : session_t :=
  set_window_stack (upd_win p f (window_stack ps)) ps.

(** uthash on the key [id].  [add_win] looks a key up before it adds
    it, so a key has at most one entry. *)
Definition HASH_FIND_INT (h : list (xcb_window_t * nat)) (key : xcb_window_t) : option nat :=
  option_map snd (find (fun e => fst e =? key) h).

Definition HASH_ADD_INT (h : list (xcb_window_t * nat)) (key : xcb_window_t) (p : nat) :
  list (xcb_window_t * nat) :=
  h ++ [(key, p)].

Definition HASH_DEL (h : list (xcb_window_t * nat)) (p : nat) : list (xcb_window_t * nat) :=
  filter (fun e => negb (Nat.eqb (snd e) p)) h.

(** [find_win] (win.c:1834-1843). *)
Definition find_win (ps : session_t) (id : xcb_window_t) : result (option nat) :=
  if id =? 0 then Ok None
  else
    match HASH_FIND_INT (windows ps) id with
    | None => Ok None
    | Some p =>
        match get_win (window_stack ps) p with
        | None => Crash
        | Some w =>
            _ <- assert (negb (winstate_eqb (state w) WSTATE_DESTROYING)) ;;
            Ok (Some p)
        end
    end.

(** [find_toplevel] (win.c:1851-1863): the first window of the table,
    in the order of [HASH_ITER2], whose client window is [id]. *)
Fixpoint find_toplevel_iter (stack : list win) (h : list (xcb_window_t * nat))
  (id : xcb_window_t) : result (option nat) :=
  match h with
  | [] => Ok None
  | (_, p) :: h' =>
      match get_win stack p with
      | None => Crash
      | Some w =>
          _ <- assert (negb (winstate_eqb (state w) WSTATE_DESTROYING)) ;;
          if client_win w =? id then Ok (Some p) else find_toplevel_iter stack h' id
      end
  end.

Definition find_toplevel (ps : session_t) (id : xcb_window_t) : result (option nat) :=
  if id =? 0 then Ok None else find_toplevel_iter (window_stack ps) (windows ps) id.

(** ** Leader resolution (win.c:1148-1169) *)

Section Leader.

(** [WIN_GET_LEADER_MAX_RECURSION] is a macro of win.h, which is not
    among the sources. *)
Variable WIN_GET_LEADER_MAX_RECURSION : Z.

(** [win_get_leader_raw].  The recursion of the C function is the
    recursion on [fuel]; [None] means the fuel ran out before the call
    returned. *)
Fixpoint win_get_leader_raw (fuel : nat) (ps : session_t) (p : nat) (recursions : Z) :
  option (result (session_t * xcb_window_t)) :=
  match fuel with
  | O => None
  | S fuel' =>
      match get_win (window_stack ps) p with
      | None => Some Crash
      | Some w =>
          if (cache_leader w =? 0) && (negb (client_win w =? 0) || negb (leader w =? 0))
          then
            let cl := if leader w =? 0 then client_win w else leader w in
            let ps1 := with_win ps p (set_cache_leader cl) in
            if negb (cl =? 0) && negb (cl =? client_win w) then
              match find_toplevel ps1 cl with
              | Crash => Some Crash
              | Ok None => Some (Ok (ps1, cl))
              | Ok (Some wp) =>
                  if WIN_GET_LEADER_MAX_RECURSION <? recursions
                  then Some (Ok (ps1, XCB_NONE))
                  else
                    match win_get_leader_raw fuel' ps1 wp (recursions + 1) with
                    | None => None
                    | Some Crash => Some Crash
                    | Some (Ok (ps2, l)) =>
                        Some (Ok (with_win ps2 p (set_cache_leader l), l))
                    end
              end
            else Some (Ok (ps1, cl))
          else Some (Ok (ps, cache_leader w))
      end
  end.

(** Fuel that is enough for a call at depth [recursions]. *)
Definition leader_fuel (recursions : Z) : nat :=
  S (Z.to_nat (WIN_GET_LEADER_MAX_RECURSION + 1 - recursions)).

(** [clear_cache_win_leaders] (win.c:59-63). *)
Definition clear_cache_win_leaders (ps : session_t) : session_t :=
  set_window_stack (map (set_cache_leader XCB_NONE) (window_stack ps)) ps.

End Leader.

(** [win_unmark_client] (win.c:823-832): the client window is cleared;
    the event mask it sets on the server is not modelled.  The leader
    cache is left as it is. *)
Definition win_unmark_client (ps : session_t) (p : nat) : session_t :=
  with_win ps p (set_client_win XCB_NONE).

(** ** Window life cycle (win.c:893-1055, 1452-1644, 1671-1807) *)

(** The reply of [xcb_get_window_attributes], as far as it is read. *)
Record window_attributes := { wa_class : window_class; wa_map_state : map_state_t }.

Definition class_eqb (a b : window_class) : bool :=
  match a, b with
  | XCB_WINDOW_CLASS_INPUT_OUTPUT, XCB_WINDOW_CLASS_INPUT_OUTPUT
  | XCB_WINDOW_CLASS_INPUT_ONLY, XCB_WINDOW_CLASS_INPUT_ONLY => true
  | _, _ => false
  end.

(** [win_def] of [add_win], with the fields [add_win] fills in; [p] is
    the address [cmalloc] returned. *)
Definition win_def (p : nat) (wid : xcb_window_t) (a : window_attributes) : win :=
  {| ptr := p;
     id := wid;
     a_class := wa_class a;
     a_map_state := wa_map_state a;
     g_width := 0;
     g_height := 0;
     state := WSTATE_UNMAPPED;
     in_openclose := true;
     ever_damaged := false;
     reg_ignore_valid := false;
     window_type := WINTYPE_UNKNOWN;
     focused := false;
     client_win := XCB_NONE;
     leader := XCB_NONE;
     cache_leader := XCB_NONE;
     opacity := 0%float;
     opacity_tgt := 0%float;
     has_opacity_prop := false;
     opacity_prop := OPAQUE |}.

(** [new->next = *p; *p = new] for [p = w->prev]: [new] goes right
    above the node [pw]. *)
Fixpoint insert_above (pw : nat) (new : win) (l : list win) : list win :=
  match l with
  | [] => [new]
  | w :: l' => if Nat.eqb (ptr w) pw then new :: w :: l' else w :: insert_above pw new l'
  end.

(** [*w->prev = w->next], after the [reg_ignore] of [w->next] has been
    invalidated. *)
Fixpoint unlink (p : nat) (l : list win) : list win :=
  match l with
  | [] => []
  | w :: l' =>
      if Nat.eqb (ptr w) p then
        match l' with
        | [] => []
        | n :: l'' => set_reg_ignore_valid false n :: l''
        end
      else w :: unlink p l'
  end.

(** [add_win].  [a] is the reply to [xcb_get_window_attributes] ([None]
    when the request failed) and [damage_error] says whether
    [xcb_damage_create_checked] failed. *)
Definition add_win (ps : session_t) (wid prev : xcb_window_t)
  (a : option window_attributes) (damage_error : bool) : result session_t :=
  if wid =? overlay ps then Ok ps
  else
    duplicated_win <- find_win ps wid ;;
    match duplicated_win, a with
    | Some _, _ => Ok ps
    | None, None => Ok ps
    | None, Some a =>
        match wa_map_state a with
        | XCB_MAP_STATE_UNVIEWABLE => Ok ps
        | _ =>
            let new := win_def (next_ptr ps) wid a in
            if negb (class_eqb (a_class new) XCB_WINDOW_CLASS_INPUT_ONLY) && damage_error
            then Ok ps
            else
              stack <-
                (if prev =? 0 then Ok (new :: window_stack ps)
                 else
                   match HASH_FIND_INT (windows ps) prev with
                   | None => Crash
                   | Some pw =>
                       match get_win (window_stack ps) pw with
                       | None => Crash
                       | Some _ => Ok (insert_above pw new (window_stack ps))
                       end
                   end) ;;
              Ok {| o := o ps;
                    window_stack := stack;
                    windows := HASH_ADD_INT (windows ps) wid (next_ptr ps);
                    redirected := redirected ps;
                    active_win := active_win ps;
                    overlay := overlay ps;
                    next_ptr := S (next_ptr ps) |}
        end
    end.

(** [finish_unmap_win]; the images it releases are not modelled. *)
Definition finish_unmap_win (ps : session_t) (p : nat) : session_t :=
  with_win ps p
    (fun w => set_state WSTATE_UNMAPPED
                (set_reg_ignore_valid false (set_ever_damaged false w))).

(** [finish_destroy_win]: the node leaves the stack and is freed. *)
Definition finish_destroy_win (ps : session_t) (p : nat) : result session_t :=
  match get_win (window_stack ps) p with
  | None => Crash
  | Some w =>
      let ps :=
        if negb (winstate_eqb (state w) WSTATE_UNMAPPED) then finish_unmap_win ps p else ps in
      let ps := set_window_stack (unlink p (window_stack ps)) ps in
      Ok (match active_win ps with
          | Some q => if Nat.eqb q p then set_active_win None ps else ps
          | None => ps
          end)
  end.

(** [finish_map_win]. *)
Definition finish_map_win (ps : session_t) (p : nat) : session_t :=
  with_win ps p (fun w => set_state WSTATE_MAPPED (set_in_openclose false w)).

Definition not_fading (st : winstate_t) : bool :=
  winstate_eqb st WSTATE_MAPPED || winstate_eqb st WSTATE_UNMAPPED.

(** [win_check_fade_finished]. *)
Definition win_check_fade_finished (ps : session_t) (p : nat) : result session_t :=
  match get_win (window_stack ps) p with
  | None => Crash
  | Some w =>
      if not_fading (state w) then
        _ <- assert (PrimFloat.eqb (opacity_tgt w) (opacity w)) ;;
        Ok ps
      else if PrimFloat.eqb (opacity w) (opacity_tgt w) then
        match state w with
        | WSTATE_UNMAPPING => Ok (finish_unmap_win ps p)
        | WSTATE_DESTROYING => finish_destroy_win ps p
        | WSTATE_MAPPING => Ok (finish_map_win ps p)
        | WSTATE_FADING => Ok (with_win ps p (set_state WSTATE_MAPPED))
        | _ => Crash
        end
      else Ok ps
  end.

(** [win_skip_fading]. *)
Definition win_skip_fading (ps : session_t) (p : nat) : result session_t :=
  match get_win (window_stack ps) p with
  | None => Crash
  | Some w =>
      if not_fading (state w) then
        _ <- assert (PrimFloat.eqb (opacity_tgt w) (opacity w)) ;;
        Ok ps
      else
        win_check_fade_finished (with_win ps p (set_opacity (opacity_tgt w))) p
  end.

Section Lifecycle.

Variable win_is_focused_real : session_t -> win -> bool.

(** [win_set_focused] reaches [win_update_focused] for the window and
    for the windows of its group, which depends on the rule matcher and
    on win.h; its effect on the session is a parameter.  What the proofs
    use of it is [registry_frame] below. *)
Variable win_set_focused : session_t -> nat -> bool -> session_t.

(** The part of [map_win] between the geometry reply and the change of
    state (win.c:1713-1761): client window detection, focus, the
    opacity property and the shadow, all read from the X server. *)
Variable map_win_refresh : session_t -> nat -> session_t.

(** [unmap_win]; [_w] is [*_w], [None] for a null pointer. *)
Definition unmap_win (ps : session_t) (_w : option nat) (destroy : bool) : result session_t :=
  let target_state := if destroy then WSTATE_DESTROYING else WSTATE_UNMAPPING in
  match _w with
  | None => Ok ps
  | Some p =>
      match get_win (window_stack ps) p with
      | None => Crash
      | Some w =>
          if negb destroy && class_eqb (a_class w) XCB_WINDOW_CLASS_INPUT_ONLY then Ok ps
          else
            _ <- assert (negb (winstate_eqb (state w) WSTATE_DESTROYING && negb destroy)) ;;
            if winstate_eqb (state w) target_state then Ok ps
            else
              let ps := if destroy then set_windows (HASH_DEL (windows ps) p) ps else ps in
              if winstate_eqb (state w) WSTATE_UNMAPPED
                 || class_eqb (a_class w) XCB_WINDOW_CLASS_INPUT_ONLY
              then (if negb destroy then Ok ps else finish_destroy_win ps p)
              else
                let ps := win_set_focused ps p false in
                let ps :=
                  with_win ps p
                    (fun w => set_state target_state
                                (set_a_map_state XCB_MAP_STATE_UNMAPPED w)) in
                let ps :=
                  with_win ps p
                    (fun w => set_in_openclose destroy
                                (set_opacity_tgt
                                   (win_calc_opacity_target win_is_focused_real ps w) w)) in
                if negb (redirected ps) then win_skip_fading ps p else Ok ps
      end
  end.

(** [map_win]; [g] is the reply to [xcb_get_geometry] (width and
    height), [None] when the request failed. *)
Definition map_win (ps : session_t) (p : nat) (g : option (Z * Z)) : result session_t :=
  match get_win (window_stack ps) p with
  | None => Crash
  | Some w =>
      if class_eqb (a_class w) XCB_WINDOW_CLASS_INPUT_ONLY then Ok ps
      else
        _ <- assert (negb (winstate_eqb (state w) WSTATE_DESTROYING)) ;;
        if negb (winstate_eqb (state w) WSTATE_UNMAPPED)
           && negb (winstate_eqb (state w) WSTATE_UNMAPPING)
        then Ok ps
        else
          ps <- (if winstate_eqb (state w) WSTATE_UNMAPPING
                 then win_skip_fading ps p else Ok ps) ;;
          match g with
          | None => Ok ps
          | Some (width, height) =>
              let ps :=
                with_win ps p
                  (fun w => set_a_map_state XCB_MAP_STATE_VIEWABLE
                              (set_g_height height (set_g_width width w))) in
              let ps := map_win_refresh ps p in
              let ps := with_win ps p (set_state WSTATE_MAPPING) in
              let ps :=
                with_win ps p
                  (fun w => set_ever_damaged false
                              (set_opacity_tgt
                                 (win_calc_opacity_target win_is_focused_real ps w) w)) in
              if negb (redirected ps) then win_skip_fading ps p else Ok ps
          end
  end.

(** The sessions [unmap_win] goes through once it has decided to fade
    the window out. *)
Definition unmap_win_fade (ps1 : session_t) (p : nat) (destroy : bool) : session_t :=
  let target_state := if destroy then WSTATE_DESTROYING else WSTATE_UNMAPPING in
  let ps := win_set_focused ps1 p false in
  let ps :=
    with_win ps p
      (fun w => set_state target_state (set_a_map_state XCB_MAP_STATE_UNMAPPED w)) in
  with_win ps p
    (fun w => set_in_openclose destroy
                (set_opacity_tgt (win_calc_opacity_target win_is_focused_real ps w) w)).

(** The session [map_win] reaches when it has started the fade-in. *)
Definition map_win_fade (ps1 : session_t) (p : nat) (width height : Z) : session_t :=
  let ps :=
    with_win ps1 p
      (fun w => set_a_map_state XCB_MAP_STATE_VIEWABLE
                  (set_g_height height (set_g_width width w))) in
  let ps := map_win_refresh ps p in
  let ps := with_win ps p (set_state WSTATE_MAPPING) in
  with_win ps p
    (fun w => set_ever_damaged false
                (set_opacity_tgt (win_calc_opacity_target win_is_focused_real ps w) w)).

(** What happens to the registry between two returns to the event loop.

    Modelled from the spec: the event dispatcher (section 4.8) is not
    among the sources.  CreateNotify adds the window, MapNotify,
    UnmapNotify and DestroyNotify look the window up with [find_win]
    and call [map_win], [unmap_win (.., false)] and
    [unmap_win (.., true)].  The other events are what the preprocess
    pass does to one node of the stack: a fade step changes the opacity
    of a window that is fading, [win_check_fade_finished] follows it,
    and [win_skip_fading] is called when fading is cut short. *)
Inductive event :=
| CreateNotify (wid : positive) (prev : xcb_window_t) (a : option window_attributes)
    (damage_error : bool)
| MapNotify (wid : xcb_window_t) (g : option (Z * Z))
| UnmapNotify (wid : xcb_window_t)
| DestroyNotify (wid : xcb_window_t)
| FadeStep (p : nat) (v : float)
| FadeCheck (p : nat)
| SkipFading (p : nat)
| Redirect (b : bool).

Definition on_node (ps : session_t) (p : nat) (k : win -> result session_t) : result session_t :=
  match get_win (window_stack ps) p with
  | None => Ok ps
  | Some w => k w
  end.

Definition handle (ps : session_t) (ev : event) : result session_t :=
  match ev with
  | CreateNotify wid prev a damage_error => add_win ps (Z.pos wid) prev a damage_error
  | MapNotify wid g =>
      w <- find_win ps wid ;;
      match w with
      | None => Ok ps
      | Some p => map_win ps p g
      end
  | UnmapNotify wid => w <- find_win ps wid ;; unmap_win ps w false
  | DestroyNotify wid => w <- find_win ps wid ;; unmap_win ps w true
  | FadeStep p v =>
      on_node ps p (fun w =>
        if not_fading (state w) then Ok ps else Ok (with_win ps p (set_opacity v)))
  | FadeCheck p => on_node ps p (fun _ => win_check_fade_finished ps p)
  | SkipFading p => on_node ps p (fun _ => win_skip_fading ps p)
  | Redirect b => Ok (set_redirected b ps)
  end.

Fixpoint run (ps : session_t) (evs : list event) : result session_t :=
  match evs with
  | [] => Ok ps
  | ev :: evs' => ps' <- handle ps ev ;; run ps' evs'
  end.

End Lifecycle.

(** A session with no window. *)
Definition session_init (opts : options_t) (redir : bool) (ov : xcb_window_t) : session_t :=
  {| o := opts; window_stack := []; windows := []; redirected := redir;
     active_win := None; overlay := ov; next_ptr := 0 |}.

(** What [win_set_focused] and the refresh of [map_win] leave alone:
    the order of the stack, the address, id and class of every node,
    the id index, the [redirected] flag and the allocator; the only
    change of state is MAPPED to FADING ([win_update_focused],
    win.c:1085-1090), and the opacity of no window changes. *)
Definition node_frame (w w' : win) : Prop :=
  ptr w' = ptr w /\ id w' = id w /\ a_class w' = a_class w /\
  opacity w' = opacity w /\
  (state w' = state w \/ (state w = WSTATE_MAPPED /\ state w' = WSTATE_FADING)).

Definition registry_frame (ps ps' : session_t) : Prop :=
  Forall2 node_frame (window_stack ps) (window_stack ps') /\
  windows ps' = windows ps /\
  redirected ps' = redirected ps /\
  next_ptr ps' = next_ptr ps.

(** The invariant of the registry. *)
Record registry_inv (ps : session_t) : Prop := {
  inv_nodup_ptr : NoDup (map ptr (window_stack ps));
  inv_nodup_key : NoDup (map fst (windows ps));
  inv_key_nonzero : forall k p, In (k, p) (windows ps) -> k <> 0;
  inv_index : forall k p, In (k, p) (windows ps) ->
      exists w, In w (window_stack ps) /\ ptr w = p /\ id w = k /\
                state w <> WSTATE_DESTROYING;
  inv_indexed : forall w, In w (window_stack ps) -> state w <> WSTATE_DESTROYING ->
      In (id w, ptr w) (windows ps);
  inv_input_only : forall w, In w (window_stack ps) ->
      a_class w = XCB_WINDOW_CLASS_INPUT_ONLY -> state w = WSTATE_UNMAPPED;
  inv_fresh : forall w, In w (window_stack ps) -> (ptr w < next_ptr ps)%nat
}.

(** ** Example inputs *)

Definition example_options : options_t :=
  {| wintype_option := fun _ => {| wo_opacity := nan |};
     inactive_opacity := 0.75%float;
     active_opacity := 1%float;
     inactive_opacity_override := false;
     experimental_backends := true |}.

Definition example_attributes : window_attributes :=
  {| wa_class := XCB_WINDOW_CLASS_INPUT_OUTPUT; wa_map_state := XCB_MAP_STATE_UNMAPPED |}.

(** No window is focused, and the focus and refresh steps change
    nothing. *)
Definition never_focused (ps : session_t) (w : win) : bool := false.
Definition focus_unchanged (ps : session_t) (p : nat) (b : bool) : session_t := ps.
Definition refresh_unchanged (ps : session_t) (p : nat) : session_t := ps.

(** Scenario S2 of the specification up to the moment window 0x10 is
    half faded in. *)
Definition scenario_fading_in : list event :=
  [ CreateNotify 16 0 (Some example_attributes) false;
    MapNotify 16 (Some (640, 480));
    FadeStep 0 0.5%float ].

(** The rest of the scenario: the window is destroyed, its id is used
    again, and the fade-out runs to its end. *)
Definition scenario_destroy : list event :=
  [ DestroyNotify 16;
    CreateNotify 16 0 (Some example_attributes) false;
    FadeStep 0 0.25%float;
    FadeCheck 0;
    FadeStep 0 0%float;
    FadeCheck 0 ].

Definition run_example (ps : session_t) (evs : list event) : session_t :=
  match run never_focused focus_unchanged refresh_unchanged ps evs with
  | Ok ps' => ps'
  | Crash => ps
  end.

Definition session_fading_in : session_t :=
  run_example (session_init example_options true 0) scenario_fading_in.

(** A window 100 x 50 whose frame extents exceed it in both
    directions. *)
Definition example_extents (w : win) : margin_t :=
  {| top := 30; left := 60; bottom := 40; right := 70 |}.

Definition example_window : win :=
  set_g_height 50 (set_g_width 100 (win_def 0 16 example_attributes)).

(** Two windows whose leaders point at each other's client window. *)
Definition example_cycle : session_t :=
  {| o := example_options;
     window_stack :=
       [ Build_win 0 16 XCB_WINDOW_CLASS_INPUT_OUTPUT XCB_MAP_STATE_VIEWABLE 10 10
           WSTATE_MAPPED false true true WINTYPE_NORMAL false 17 19 XCB_NONE
           1%float 1%float false OPAQUE;
         Build_win 1 18 XCB_WINDOW_CLASS_INPUT_OUTPUT XCB_MAP_STATE_VIEWABLE 10 10
           WSTATE_MAPPED false true true WINTYPE_NORMAL false 19 17 XCB_NONE
           1%float 1%float false OPAQUE ];
     windows := [(16, 0%nat); (18, 1%nat)];
     redirected := true;
     active_win := None;
     overlay := 0;
     next_ptr := 2 |}.

(** A frame window with the client window 17 and no leader, its
    leader cache empty. *)
Definition example_framed : session_t :=
  {| o := example_options;
     window_stack :=
       [ Build_win 0 16 XCB_WINDOW_CLASS_INPUT_OUTPUT XCB_MAP_STATE_VIEWABLE 10 10
           WSTATE_MAPPED false true true WINTYPE_NORMAL false 17 XCB_NONE XCB_NONE
           1%float 1%float false OPAQUE ];
     windows := [(16, 0%nat)];
     redirected := true;
     active_win := None;
     overlay := 0;
     next_ptr := 1 |}.

(** ** Auxiliary notions for the proofs *)

(** The invariant with one node [q] exempted: between [HASH_DEL] and the
    change of state of [unmap_win], and between [finish_unmap_win] and
    the unlinking of [finish_destroy_win], the node being destroyed is
    in no state that the invariant describes. *)
Record inv_except (q : option nat) (ps : session_t) : Prop := {
  ie_nodup_ptr : NoDup (map ptr (window_stack ps));
  ie_nodup_key : NoDup (map fst (windows ps));
  ie_key_nonzero : forall k p, In (k, p) (windows ps) -> k <> 0;
  ie_index : forall k p, In (k, p) (windows ps) ->
      exists w, In w (window_stack ps) /\ ptr w = p /\ id w = k /\
                state w <> WSTATE_DESTROYING;
  ie_indexed : forall w, In w (window_stack ps) -> Some (ptr w) <> q ->
      state w <> WSTATE_DESTROYING -> In (id w, ptr w) (windows ps);
  ie_exempt : forall p k, q = Some p -> ~ In (k, p) (windows ps);
  ie_input_only : forall w, In w (window_stack ps) ->
      a_class w = XCB_WINDOW_CLASS_INPUT_ONLY -> state w = WSTATE_UNMAPPED;
  ie_fresh : forall w, In w (window_stack ps) -> (ptr w < next_ptr ps)%nat
}.

Definition core_preserving (f : win -> win) : Prop :=
  forall w, ptr (f w) = ptr w /\ id (f w) = id w /\ a_class (f w) = a_class w.

(** The same node, up to [reg_ignore_valid]. *)
Definition same_node (w w' : win) : Prop :=
  ptr w' = ptr w /\ id w' = id w /\ a_class w' = a_class w /\ state w' = state w /\
  opacity w' = opacity w /\ opacity_tgt w' = opacity_tgt w.

(** [ps'] has the id index, the allocator and the [redirected] flag of
    [ps] and every node of [ps] other than [p]; its nodes are nodes of
    [ps], with the id and the class they had. *)
Definition touches_only (p : nat) (ps ps' : session_t) : Prop :=
  windows ps' = windows ps /\ next_ptr ps' = next_ptr ps /\
  redirected ps' = redirected ps /\
  (forall r, r <> p -> In r (map ptr (window_stack ps)) ->
             In r (map ptr (window_stack ps'))) /\
  (forall w', In w' (window_stack ps') ->
     exists w, In w (window_stack ps) /\ ptr w = ptr w' /\ id w = id w' /\
               a_class w = a_class w').

Definition state_preserving (f : win -> win) : Prop :=
  forall w, ptr (f w) = ptr w /\ id (f w) = id w /\ a_class (f w) = a_class w /\
            state (f w) = state w.

(** What [add_win] returns when it adds the window: the new node is
    [win_def] at the fresh address, somewhere in the stack, and the
    nodes that were there are unchanged. *)
Definition added (ps ps' : session_t) (wid : xcb_window_t) (a : window_attributes) : Prop :=
  let new := win_def (next_ptr ps) wid a in
  windows ps' = HASH_ADD_INT (windows ps) wid (next_ptr ps) /\
  next_ptr ps' = S (next_ptr ps) /\
  redirected ps' = redirected ps /\
  NoDup (map ptr (window_stack ps')) /\
  (forall w, In w (window_stack ps') <-> w = new \/ In w (window_stack ps)).

(** ** Ignore regions and screens (win.c:1426-1434, 1640-1666) *)

(** The loop of [win_is_region_ignore_valid] over the stack, from the
    top. *)
Fixpoint win_is_region_ignore_valid_iter (stack : list win) (p : nat) : bool :=
  match stack with
  | [] => true
  | i :: next =>
      if Nat.eqb (ptr i) p then true
      else if negb (reg_ignore_valid i) then false
      else win_is_region_ignore_valid_iter next p
  end.

(** [win_is_region_ignore_valid]. *)
Definition win_is_region_ignore_valid (ps : session_t) (p : nat) : bool :=
  win_is_region_ignore_valid_iter (window_stack ps) p.

(** [xcb_xinerama_screen_info_t]. *)
Record xcb_xinerama_screen_info_t := {
  x_org : Z;
  y_org : Z;
  scr_width : Z;
  scr_height : Z
}.

(** Whether the screen [s] holds the rectangle of the window. *)
Definition screen_holds (s : xcb_xinerama_screen_info_t) (g_x g_y widthb heightb : Z) : bool :=
  (x_org s <=? g_x) && (y_org s <=? g_y)
  && (g_x + widthb <=? x_org s + scr_width s)
  && (g_y + heightb <=? y_org s + scr_height s).

(** The loop of [win_update_screen] from the index [i] on. *)
Fixpoint win_update_screen_loop (scrs : list xcb_xinerama_screen_info_t) (i : Z)
  (g_x g_y widthb heightb : Z) : Z :=
  match scrs with
  | [] => -1
  | s :: scrs' =>
      if screen_holds s g_x g_y widthb heightb then i
      else win_update_screen_loop scrs' (i + 1) g_x g_y widthb heightb
  end.

(** [win_update_screen]: the new value of [w->xinerama_scr] for the
    screens [ps->xinerama_scrs] (null when Xinerama is off) and the
    fields [w->g.x], [w->g.y], [w->widthb] and [w->heightb]. *)
Definition win_update_screen (xinerama_scrs : option (list xcb_xinerama_screen_info_t))
  (g_x g_y widthb heightb : Z) : Z :=
  match xinerama_scrs with
  | None => -1
  | Some scrs => win_update_screen_loop scrs 0 g_x g_y widthb heightb
  end.

(** Two screens of 1920x1080 side by side. *)
Definition example_screens : list xcb_xinerama_screen_info_t :=
  [ {| x_org := 0; y_org := 0; scr_width := 1920; scr_height := 1080 |};
    {| x_org := 1920; y_org := 0; scr_width := 1920; scr_height := 1080 |} ].

(** A session in which the window 0x10 has been created and not mapped
    yet. *)
Definition session_created : session_t :=
  run_example (session_init example_options true 0)
    [CreateNotify 16 0 (Some example_attributes) false].

End Win.

(** * [src/compton.c] *)

(** ** C conversions between integers and doubles *)

(** [(double) z] for a signed integer. *)
Definition double_of_int (z : Z) : float :=
  if z <? 0 then PrimFloat.opp (double_of_uint (- z)) else double_of_uint z.

(** [(long) d]: truncation toward zero. *)
Definition long_of_double (d : float) : Z :=
  match Prim2SF d with
  | S754_finite s m e =>
      let v := if 0 <=? e then Z.pos m * 2 ^ e else Z.pos m / 2 ^ (- e) in
      if s then - v else v
  | _ => 0
  end.

(** [(int) round(d)]: the nearest integer, halves away from zero. *)
Definition int_of_round (d : float) : Z :=
  match Prim2SF d with
  | S754_finite s m e =>
      let v := if 0 <=? e then Z.pos m * 2 ^ e
               else (2 * Z.pos m + 2 ^ (- e)) / (2 * 2 ^ (- e)) in
      if s then - v else v
  | _ => 0
  end.

(** ** The real value of a double

    The arithmetic of a binary64 double is the one of [SpecFloat]:
    [Prim2SF] gives the sign, the mantissa and the exponent of a
    double, and every operation rounds the exact result to the nearest
    double, ties to even.  The definitions below give a double its
    real value, to state what the quotients and the roundings of the
    program compute. *)

(** Two to the power [e]. *)
Definition bpow (e : Z) : R := powerRZ 2 e.

(** The real [m * 2^e]. *)
Definition F2R (m e : Z) : R := (IZR m * bpow e)%R.

(** The real value of a [spec_float]; 0 for an infinity or a NaN. *)
Definition SF2R (z : spec_float) : R :=
  match z with
  | S754_finite s m e => if s then (- F2R (Z.pos m) e)%R else F2R (Z.pos m) e
  | _ => 0%R
  end.

(** The real value of a double. *)
Definition B2R (f : float) : R := SF2R (Prim2SF f).

(** A zero or a positive finite double. *)
Definition nonneg_finite (z : spec_float) : Prop :=
  valid_binary z = true /\
  ((exists s, z = S754_zero s) \/ exists m e, z = S754_finite false m e).

(** A positive finite double. *)
Definition pos_finite (z : spec_float) : Prop :=
  valid_binary z = true /\ exists m e, z = S754_finite false m e.

(** [K * 2^k] is a positive number of the format: [K] has at most 53
    bits at the exponent [k], and [k] is not below the least exponent. *)
Definition in_format (K k : Z) : Prop :=
  0 < K /\ SpecFloat.fexp prec emax (Zdigits2 K + k) <= k.

(** [z] is a rounding of the real [x >= 0]: it is a zero or a positive
    finite double, a zero when [x] is 0, and no number of the format
    lies strictly between [x] and [z]. *)
Definition rounds_to (x : R) (z : spec_float) : Prop :=
  nonneg_finite z /\
  (x = 0%R -> SF2R z = 0%R) /\
  forall K k, in_format K k ->
    ((x <= F2R K k)%R -> (SF2R z <= F2R K k)%R) /\
    ((F2R K k <= x)%R -> (F2R K k <= SF2R z)%R).

(** The state of [shr_1] in [binary_round_aux]: the mantissa [shr_m r]
    at the exponent [e] is the truncation of [x], and the round and
    sticky bits are clear when [x] is that number exactly. *)
Definition inb (x : R) (r : shr_record) (e : Z) : Prop :=
  0 <= shr_m r /\
  (F2R (shr_m r) e <= x < F2R (shr_m r + 1) e)%R /\
  (x = F2R (shr_m r) e -> shr_r r = false /\ shr_s r = false).

(** What [binary_round_aux] returns for the sign [s], the rounded
    mantissa [m] and the exponent [e]. *)
Definition mk_float (s : bool) (m e : Z) : spec_float :=
  match m with
  | Z0 => S754_zero s
  | Zpos p => if e <=? emax - prec then S754_finite s p e else S754_infinity s
  | Zneg _ => S754_nan
  end.

Module Compton.

(** ** Data model ([common.h]) *)

Definition Window := Z.
(** The null XID, [None] in Xlib. *)
Definition XNone : Z := 0.

(** [opacity_t] is a 32-bit unsigned integer, [OPAQUE] its maximum. *)
Definition OPAQUE : Z := 0xffffffff.

Inductive map_state_t := IsUnmapped | IsUnviewable | IsViewable.

Inductive winmode_t := WMODE_TRANS | WMODE_SOLID | WMODE_ARGB.

Inductive switch_t := UNSET | OFF | ON.

Inductive backend_t := BKEND_XRENDER | BKEND_GLX | BKEND_XR_GLX_HYBRID.

Definition map_state_eqb (a b : map_state_t) : bool :=
  match a, b with
  | IsUnmapped, IsUnmapped | IsUnviewable, IsUnviewable | IsViewable, IsViewable => true
  | _, _ => false
  end.

Definition winmode_eqb (a b : winmode_t) : bool :=
  match a, b with
  | WMODE_TRANS, WMODE_TRANS | WMODE_SOLID, WMODE_SOLID | WMODE_ARGB, WMODE_ARGB => true
  | _, _ => false
  end.

(** A region of the X server, by its rectangles (x, y, width,
    height). *)
Definition region := list (Z * Z * Z * Z).

(** The functions a [fade_callback] points to (compton.c:2130, 2202,
    2490). *)
Inductive fade_callback_t := CB_finish_map_win | CB_unmap_callback | CB_destroy_callback.

(** The fields of [struct win] that are read or written below; [ptr]
    is the address of the node, [fade_callback] is [None] for the null
    pointer and [extents] for the null handle. *)
Record win := {
  ptr : nat;
  id : Window;
  g_x : Z;
  g_y : Z;
  g_width : Z;
  g_height : Z;
  a_map_state : map_state_t;
  destroyed : bool;
  ever_damaged : bool;
  paint_pixmap : Z;
  opacity : Z;
  opacity_tgt : Z;
  fade : bool;
  fade_last : bool;
  to_paint : bool;
  paint_excluded : bool;
  unredir_if_possible_excluded : bool;
  mode : winmode_t;
  frame_opacity : float;
  flags : Z;
  fade_callback : option fade_callback_t;
  extents : option region;
  in_openclose : bool
}.

Record options_t := {
  backend : backend_t;
  fade_in_step : Z;
  fade_out_step : Z;
  fade_delta : Z;
  alpha_step : float;
  o_frame_opacity : float;
  unredir_if_possible : bool;
  unredir_if_possible_delay : Z;
  redirected_force : switch_t;
  stoppaint_force : switch_t;
  resize_damage : Z;
  blur_background_fixed : bool;
  force_win_blend : bool;
  reredir_on_root_change : bool;
  no_fading_openclose : bool
}.

(** [session_t].  [ps_list] is [ps->list], the window stack from the top
    down; [all_damage] is the handle of the accumulated damage,
    [None] for the null handle; [tmout_unredir_enabled] is
    [ps->tmout_unredir->enabled]; [painted] records every call of
    [paint_all], with the value [redirected] had when it was made. *)
Record session_t := {
  o : options_t;
  ps_list : list win;
  root_width : Z;
  root_height : Z;
  redirected : bool;
  all_damage : option region;
  screen_reg : option region;
  alpha_picts : list Z;
  fade_time : Z;
  idling : bool;
  reg_ignore_expire : bool;
  ev_received : bool;
  tmout_unredir_enabled : bool;
  tmout_unredir_firstrun : Z;
  tmout_unredir_lastrun : Z;
  tmout_unredir_hit : bool;
  painted : list bool
}.

Definition set_ps_list (v : list win) (ps : session_t) : session_t :=
  Build_session_t (o ps) v (root_width ps) (root_height ps) (redirected ps)
    (all_damage ps) (screen_reg ps) (alpha_picts ps) (fade_time ps) (idling ps)
    (reg_ignore_expire ps) (ev_received ps) (tmout_unredir_enabled ps)
    (tmout_unredir_firstrun ps) (tmout_unredir_lastrun ps) (tmout_unredir_hit ps)
    (painted ps).

Definition set_root (width height : Z) (reg : option region) (ps : session_t) : session_t :=
  Build_session_t (o ps) (ps_list ps) width height (redirected ps)
    (all_damage ps) reg (alpha_picts ps) (fade_time ps) (idling ps)
    (reg_ignore_expire ps) (ev_received ps) (tmout_unredir_enabled ps)
    (tmout_unredir_firstrun ps) (tmout_unredir_lastrun ps) (tmout_unredir_hit ps)
    (painted ps).

Definition set_redirected (v : bool) (ps : session_t) : session_t :=
  Build_session_t (o ps) (ps_list ps) (root_width ps) (root_height ps) v
    (all_damage ps) (screen_reg ps) (alpha_picts ps) (fade_time ps) (idling ps)
    (reg_ignore_expire ps) (ev_received ps) (tmout_unredir_enabled ps)
    (tmout_unredir_firstrun ps) (tmout_unredir_lastrun ps) (tmout_unredir_hit ps)
    (painted ps).

Definition set_all_damage (v : option region) (ps : session_t) : session_t :=
  Build_session_t (o ps) (ps_list ps) (root_width ps) (root_height ps) (redirected ps)
    v (screen_reg ps) (alpha_picts ps) (fade_time ps) (idling ps)
    (reg_ignore_expire ps) (ev_received ps) (tmout_unredir_enabled ps)
    (tmout_unredir_firstrun ps) (tmout_unredir_lastrun ps) (tmout_unredir_hit ps)
    (painted ps).

Definition set_fade_time (v : Z) (ps : session_t) : session_t :=
  Build_session_t (o ps) (ps_list ps) (root_width ps) (root_height ps) (redirected ps)
    (all_damage ps) (screen_reg ps) (alpha_picts ps) v (idling ps)
    (reg_ignore_expire ps) (ev_received ps) (tmout_unredir_enabled ps)
    (tmout_unredir_firstrun ps) (tmout_unredir_lastrun ps) (tmout_unredir_hit ps)
    (painted ps).

Definition set_idling (v : bool) (ps : session_t) : session_t :=
  Build_session_t (o ps) (ps_list ps) (root_width ps) (root_height ps) (redirected ps)
    (all_damage ps) (screen_reg ps) (alpha_picts ps) (fade_time ps) v
    (reg_ignore_expire ps) (ev_received ps) (tmout_unredir_enabled ps)
    (tmout_unredir_firstrun ps) (tmout_unredir_lastrun ps) (tmout_unredir_hit ps)
    (painted ps).

Definition set_reg_ignore_expire (v : bool) (ps : session_t) : session_t :=
  Build_session_t (o ps) (ps_list ps) (root_width ps) (root_height ps) (redirected ps)
    (all_damage ps) (screen_reg ps) (alpha_picts ps) (fade_time ps) (idling ps)
    v (ev_received ps) (tmout_unredir_enabled ps)
    (tmout_unredir_firstrun ps) (tmout_unredir_lastrun ps) (tmout_unredir_hit ps)
    (painted ps).

Definition set_ev_received (v : bool) (ps : session_t) : session_t :=
  Build_session_t (o ps) (ps_list ps) (root_width ps) (root_height ps) (redirected ps)
    (all_damage ps) (screen_reg ps) (alpha_picts ps) (fade_time ps) (idling ps)
    (reg_ignore_expire ps) v (tmout_unredir_enabled ps)
    (tmout_unredir_firstrun ps) (tmout_unredir_lastrun ps) (tmout_unredir_hit ps)
    (painted ps).

Definition set_tmout_unredir (enabled : bool) (firstrun lastrun : Z) (ps : session_t) :
  session_t :=
  Build_session_t (o ps) (ps_list ps) (root_width ps) (root_height ps) (redirected ps)
    (all_damage ps) (screen_reg ps) (alpha_picts ps) (fade_time ps) (idling ps)
    (reg_ignore_expire ps) (ev_received ps) enabled firstrun lastrun
    (tmout_unredir_hit ps) (painted ps).

Definition set_tmout_unredir_hit (v : bool) (ps : session_t) : session_t :=
  Build_session_t (o ps) (ps_list ps) (root_width ps) (root_height ps) (redirected ps)
    (all_damage ps) (screen_reg ps) (alpha_picts ps) (fade_time ps) (idling ps)
    (reg_ignore_expire ps) (ev_received ps) (tmout_unredir_enabled ps)
    (tmout_unredir_firstrun ps) (tmout_unredir_lastrun ps) v (painted ps).

Definition set_painted (v : list bool) (ps : session_t) : session_t :=
  Build_session_t (o ps) (ps_list ps) (root_width ps) (root_height ps) (redirected ps)
    (all_damage ps) (screen_reg ps) (alpha_picts ps) (fade_time ps) (idling ps)
    (reg_ignore_expire ps) (ev_received ps) (tmout_unredir_enabled ps)
    (tmout_unredir_firstrun ps) (tmout_unredir_lastrun ps) (tmout_unredir_hit ps) v.

Definition set_opacity (v : Z) (w : win) : win :=
  Build_win (ptr w) (id w) (g_x w) (g_y w) (g_width w) (g_height w) (a_map_state w)
    (destroyed w) (ever_damaged w) (paint_pixmap w) v (opacity_tgt w) (fade w)
    (fade_last w) (to_paint w) (paint_excluded w) (unredir_if_possible_excluded w)
    (mode w) (frame_opacity w) (flags w) (fade_callback w) (extents w) (in_openclose w).

Definition set_fade (v : bool) (w : win) : win :=
  Build_win (ptr w) (id w) (g_x w) (g_y w) (g_width w) (g_height w) (a_map_state w)
    (destroyed w) (ever_damaged w) (paint_pixmap w) (opacity w) (opacity_tgt w) v
    (fade_last w) (to_paint w) (paint_excluded w) (unredir_if_possible_excluded w)
    (mode w) (frame_opacity w) (flags w) (fade_callback w) (extents w) (in_openclose w).

Definition set_fade_last (v : bool) (w : win) : win :=
  Build_win (ptr w) (id w) (g_x w) (g_y w) (g_width w) (g_height w) (a_map_state w)
    (destroyed w) (ever_damaged w) (paint_pixmap w) (opacity w) (opacity_tgt w) (fade w)
    v (to_paint w) (paint_excluded w) (unredir_if_possible_excluded w)
    (mode w) (frame_opacity w) (flags w) (fade_callback w) (extents w) (in_openclose w).

Definition set_to_paint (v : bool) (w : win) : win :=
  Build_win (ptr w) (id w) (g_x w) (g_y w) (g_width w) (g_height w) (a_map_state w)
    (destroyed w) (ever_damaged w) (paint_pixmap w) (opacity w) (opacity_tgt w) (fade w)
    (fade_last w) v (paint_excluded w) (unredir_if_possible_excluded w)
    (mode w) (frame_opacity w) (flags w) (fade_callback w) (extents w) (in_openclose w).

Definition set_frame_opacity (v : float) (w : win) : win :=
  Build_win (ptr w) (id w) (g_x w) (g_y w) (g_width w) (g_height w) (a_map_state w)
    (destroyed w) (ever_damaged w) (paint_pixmap w) (opacity w) (opacity_tgt w) (fade w)
    (fade_last w) (to_paint w) (paint_excluded w) (unredir_if_possible_excluded w)
    (mode w) v (flags w) (fade_callback w) (extents w) (in_openclose w).

Definition set_flags (v : Z) (w : win) : win :=
  Build_win (ptr w) (id w) (g_x w) (g_y w) (g_width w) (g_height w) (a_map_state w)
    (destroyed w) (ever_damaged w) (paint_pixmap w) (opacity w) (opacity_tgt w) (fade w)
    (fade_last w) (to_paint w) (paint_excluded w) (unredir_if_possible_excluded w)
    (mode w) (frame_opacity w) v (fade_callback w) (extents w) (in_openclose w).

Definition set_paint_pixmap (v : Z) (w : win) : win :=
  Build_win (ptr w) (id w) (g_x w) (g_y w) (g_width w) (g_height w) (a_map_state w)
    (destroyed w) (ever_damaged w) v (opacity w) (opacity_tgt w) (fade w)
    (fade_last w) (to_paint w) (paint_excluded w) (unredir_if_possible_excluded w)
    (mode w) (frame_opacity w) (flags w) (fade_callback w) (extents w) (in_openclose w).

Definition set_ever_damaged (v : bool) (w : win) : win :=
  Build_win (ptr w) (id w) (g_x w) (g_y w) (g_width w) (g_height w) (a_map_state w)
    (destroyed w) v (paint_pixmap w) (opacity w) (opacity_tgt w) (fade w)
    (fade_last w) (to_paint w) (paint_excluded w) (unredir_if_possible_excluded w)
    (mode w) (frame_opacity w) (flags w) (fade_callback w) (extents w) (in_openclose w).

(** The assignment [w->fade_callback = callback]. *)
Definition with_fade_callback (v : option fade_callback_t) (w : win) : win :=
  Build_win (ptr w) (id w) (g_x w) (g_y w) (g_width w) (g_height w) (a_map_state w)
    (destroyed w) (ever_damaged w) (paint_pixmap w) (opacity w) (opacity_tgt w) (fade w)
    (fade_last w) (to_paint w) (paint_excluded w) (unredir_if_possible_excluded w)
    (mode w) (frame_opacity w) (flags w) v (extents w) (in_openclose w).

Definition set_extents (v : option region) (w : win) : win :=
  Build_win (ptr w) (id w) (g_x w) (g_y w) (g_width w) (g_height w) (a_map_state w)
    (destroyed w) (ever_damaged w) (paint_pixmap w) (opacity w) (opacity_tgt w) (fade w)
    (fade_last w) (to_paint w) (paint_excluded w) (unredir_if_possible_excluded w)
    (mode w) (frame_opacity w) (flags w) (fade_callback w) v (in_openclose w).

Definition set_in_openclose (v : bool) (w : win) : win :=
  Build_win (ptr w) (id w) (g_x w) (g_y w) (g_width w) (g_height w) (a_map_state w)
    (destroyed w) (ever_damaged w) (paint_pixmap w) (opacity w) (opacity_tgt w) (fade w)
    (fade_last w) (to_paint w) (paint_excluded w) (unredir_if_possible_excluded w)
    (mode w) (frame_opacity w) (flags w) (fade_callback w) (extents w) v.

(** ** Regions and damage (compton.c:235-248, 2637-2644) *)

(** [free_region] is an inline function of common.h, which is not among
    the sources.  Its callers fix what it does: after
    [free_region(ps, &damage)] [add_damage] tests [!damage], and
    [session_run] calls it "to stop painting": it destroys the region
    and leaves the null handle. *)
Definition free_region (p : option region) : option region := None.

(** [copy_region]: a new region with the same rectangles. *)
Definition copy_region (p : option region) : option region := p.

(** [is_region_empty] (compton.c:1661-1685): no rectangle is fetched. *)
Definition is_region_empty (r : region) : bool :=
  match r with
  | [] => true
  | _ => false
  end.

(** [add_damage]. *)
Definition add_damage (ps : session_t) (damage : option region) : session_t :=
  let damage := if negb (redirected ps) then free_region damage else damage in
  match damage with
  | None => ps
  | Some d =>
      match all_damage ps with
      | Some a => set_all_damage (Some (a ++ d)) ps
      | None => set_all_damage (Some d) ps
      end
  end.

(** [force_repaint]. *)
Definition force_repaint (ps : session_t) : session_t :=
  match copy_region (screen_reg ps) with
  | Some reg => add_damage (set_ev_received true ps) (Some reg)
  | None => ps
  end.

(** ** Redirection and the unredirect timeout (compton.c:4810-4843,
    4947-5027) *)

(** [redir_start]. *)
Definition redir_start (ps : session_t) : session_t :=
  if negb (redirected ps) then force_repaint (set_redirected true ps) else ps.

(** [redir_stop]; [free_wpaint], which it calls on every window, is an
    inline function of compton.h (not among the sources) and is left
    out. *)
Definition redir_stop (ps : session_t) : session_t :=
  if redirected ps then set_redirected false ps else ps.

(** [timeout_reset] on [ps->tmout_unredir]. *)
Definition timeout_reset (ps : session_t) (now : Z) : session_t :=
  set_tmout_unredir (tmout_unredir_enabled ps) now now ps.

(** [tmout_unredir_callback]. *)
Definition tmout_unredir_callback (ps : session_t) : session_t :=
  let ps := set_tmout_unredir_hit true ps in
  set_tmout_unredir false (tmout_unredir_firstrun ps) (tmout_unredir_lastrun ps) ps.

Section Timeout.

(** [timeout_get_newrun] and [TIMEOUT_RUN_TOLERANCE] are declared in
    common.h, which is not among the sources. *)
Variable timeout_get_newrun : Z -> Z -> Z -> Z.
Variable TIMEOUT_RUN_TOLERANCE : float.

(** Whether [timeout_run] invokes the unredirect timeout at [now]. *)
Definition tmout_unredir_due (ps : session_t) (now : Z) : bool :=
  let interval := unredir_if_possible_delay (o ps) in
  let max := now + long_of_double (PrimFloat.mul (double_of_int interval)
                                     TIMEOUT_RUN_TOLERANCE) in
  let newrun :=
    timeout_get_newrun interval (tmout_unredir_firstrun ps) (tmout_unredir_lastrun ps) in
  newrun <=? max.

(** [timeout_run], for the unredirect timeout: [timeout_invoke] records
    the time and runs the callback. *)
Definition timeout_run (ps : session_t) (now : Z) : session_t :=
  if tmout_unredir_enabled ps then
    if tmout_unredir_due ps now then
      tmout_unredir_callback
        (set_tmout_unredir (tmout_unredir_enabled ps) (tmout_unredir_firstrun ps) now ps)
    else ps
  else ps.

End Timeout.

(** ** Fading (compton.c:305-330, 996-1006) *)

(** [normalize_d_range] of common.h (not among the sources): the clamp
    of [d] to [[min, max]], on doubles. *)
Definition normalize_d_range (d min max : float) : float :=
  if PrimFloat.ltb d min then min
  else if PrimFloat.ltb max d then max
  else d.

(** [normalize_d]: the clamp to [[0, 1]]. *)
Definition normalize_d (d : float) : float := normalize_d_range d 0 1.

(** The same clamp on integers.  In [run_fade] the operands are
    integers below 2^32 converted to double: a sum or difference that
    lies within the bounds is below 2^53 and exact, one that lies
    outside stays outside after rounding, so the clamp of the double
    is the clamp of the integer ([fade_in_double_spec] and
    [fade_out_double_spec] below). *)
Definition normalize_range (d min max : Z) : Z :=
  if d <? min then min
  else if max <? d then max
  else d.

(** [run_fade]; [steps] has been converted to [unsigned]. *)
Definition run_fade (ps : session_t) (w : win) (steps : Z) : session_t * win :=
  if opacity w =? opacity_tgt w then (ps, w)
  else
    let w :=
      if negb (fade w) then set_opacity (opacity_tgt w) w
      else if negb (steps =? 0) then
        if opacity w <? opacity_tgt w then
          set_opacity
            (normalize_range (opacity w + fade_in_step (o ps) * steps) 0 (opacity_tgt w)) w
        else
          set_opacity
            (normalize_range (opacity w - fade_out_step (o ps) * steps)
               (opacity_tgt w) OPAQUE) w
      else w in
    let ps := if negb (opacity w =? opacity_tgt w) then set_idling false ps else ps in
    (ps, w).

(** The two assignments of [run_fade] computed in double as the C code
    does, to compare the integer clamp with. *)
Definition fade_in_double (opacity_ fade_in_step_ steps opacity_tgt_ : Z) : Z :=
  long_of_double
    (normalize_d_range
       (PrimFloat.add (double_of_uint opacity_)
          (PrimFloat.mul (double_of_uint fade_in_step_) (double_of_uint steps)))
       0 (double_of_uint opacity_tgt_)).

Definition fade_out_double (opacity_ fade_out_step_ steps opacity_tgt_ : Z) : Z :=
  long_of_double
    (normalize_d_range
       (PrimFloat.sub (double_of_uint opacity_)
          (PrimFloat.mul (double_of_uint fade_out_step_) (double_of_uint steps)))
       (double_of_uint opacity_tgt_) (double_of_uint OPAQUE)).

(** [run_fade] with the two assignments in double, line by line as in
    compton.c:305-330; it is [run_fade] on 32-bit values
    ([run_fade_in_double] below). *)
Definition run_fade_double (ps : session_t) (w : win) (steps : Z) : session_t * win :=
  if opacity w =? opacity_tgt w then (ps, w)
  else
    let w :=
      if negb (fade w) then set_opacity (opacity_tgt w) w
      else if negb (steps =? 0) then
        if opacity w <? opacity_tgt w then
          set_opacity
            (fade_in_double (opacity w) (fade_in_step (o ps)) steps (opacity_tgt w)) w
        else
          set_opacity
            (fade_out_double (opacity w) (fade_out_step (o ps)) steps (opacity_tgt w)) w
      else w in
    let ps := if negb (opacity w =? opacity_tgt w) then set_idling false ps else ps in
    (ps, w).

Section Preprocess.

(** [FADE_DELTA_TOLERANCE] is a macro of common.h, which is not among
    the sources. *)
Variable FADE_DELTA_TOLERANCE : float.

(** The fading step calculation of [paint_preprocess] (compton.c:
    996-1006): the quotient computed in double and converted to
    [time_ms_t], then the number of steps and the new [fade_time]. *)
Definition fade_steps_raw (ps : session_t) (now : Z) : Z :=
  long_of_double
    (PrimFloat.div
       (PrimFloat.add (double_of_int (now - fade_time ps))
          (PrimFloat.mul FADE_DELTA_TOLERANCE (double_of_int (fade_delta (o ps)))))
       (double_of_int (fade_delta (o ps)))).

Definition fade_steps (ps : session_t) (now : Z) : Z * Z :=
  let steps := 0 in
  let steps := if negb (fade_time ps =? 0) then fade_steps_raw ps now else steps in
  let '(fade_time', steps) :=
    if (fade_time ps =? 0) || (steps <? 0) then (now, 0) else (fade_time ps, steps) in
  (steps, fade_time' + steps * fade_delta (o ps)).

(** What the specification says the step count is. *)
Definition fade_steps_by_spec (ps : session_t) (now : Z) : Z * Z :=
  let steps := (now - fade_time ps) / fade_delta (o ps) in
  (steps, fade_time ps + steps * fade_delta (o ps)).

(** [get_alpha_pict_d] and [get_alpha_pict_o] (compton.c:975-989). *)
Definition get_alpha_pict_d (ps : session_t) (opa : float) : Z :=
  nth (Z.to_nat (int_of_round (PrimFloat.div (normalize_d opa) (alpha_step (o ps)))))
    (alpha_picts ps) XNone.

Definition get_alpha_pict_o (ps : session_t) (opa : Z) : Z :=
  get_alpha_pict_d ps (PrimFloat.div (double_of_uint opa) (double_of_uint OPAQUE)).

(** [init_alpha_picts] (compton.c:4681-4696); [solid_picture] is not
    among the sources: it returns the id of a new picture. *)
Definition init_alpha_picts (solid_picture : float -> Z) (alpha_step_ : float) :
  Datatypes.list Z :=
  let num := int_of_round (PrimFloat.div 1 alpha_step_) + 1 in
  map (fun i =>
         let o_ := PrimFloat.mul (double_of_int (Z.of_nat i)) alpha_step_ in
         if PrimFloat.ltb alpha_step_ (PrimFloat.sub 1 o_) then solid_picture o_ else XNone)
      (seq 0 (Z.to_nat num)).

(** The test of compton.c:1052-1061, on the window after [run_fade]. *)
Definition to_paint_decision (ps : session_t) (w : win) : bool :=
  if negb (ever_damaged w)
     || (g_x w + g_width w <? 1) || (g_y w + g_height w <? 1)
     || (root_width ps <=? g_x w) || (root_height ps <=? g_y w)
     || ((map_state_eqb (a_map_state w) IsUnmapped || destroyed w)
         && (paint_pixmap w =? XNone))
     || (get_alpha_pict_o ps (opacity w) =? nth 0 (alpha_picts ps) XNone)
     || paint_excluded w
  then false
  else true.

(** The conditions the specification lists for a window that is not
    painted, from its words; the opacity is the fraction
    [opacity / OPAQUE]. *)
Definition off_screen (ps : session_t) (w : win) : bool :=
  (g_x w + g_width w <=? 0) || (g_y w + g_height w <=? 0)
  || (root_width ps <=? g_x w) || (root_height ps <=? g_y w).

Definition not_painted_by_spec (ps : session_t) (w : win) : bool :=
  negb (ever_damaged w)
  || off_screen ps w
  || ((map_state_eqb (a_map_state w) IsUnmapped || destroyed w)
      && (paint_pixmap w =? XNone))
  || (opacity w * 255 <? OPAQUE)
  || paint_excluded w.

(** The functions of win.c and the inline functions of compton.h that
    the loop calls are not among the sources of this file; they are
    parameters. *)
Variable win_calc_opacity : session_t -> win -> win.
Variable win_determine_mode : session_t -> win -> win.
Variable win_has_frame : win -> bool.
Variable win_is_solid : session_t -> win -> bool.
Variable win_is_fullscreen : session_t -> win -> bool.
Variable get_opacity_percent : win -> float.
Variable WFLAG_OPCT_CHANGE : Z.
Variable win_extents : win -> option region.

(** [add_damage_from_win] is not among the sources either: the damage
    of a window reaches [all_damage] through [add_damage]. *)
Definition add_damage_from_win (ps : session_t) (w : win) : session_t :=
  add_damage ps (copy_region (win_extents w)).

(** ** Fade callbacks (compton.c:332-350, 2153-2182, 2432-2471) *)

(** [update_reg_ignore_expire] and [free_wpaint] are inline functions
    of compton.h and [win_determine_fade] is a function of another
    file; none is among the sources.  What the first makes of
    [ps->reg_ignore_expire] and what the others make of the window are
    parameters. *)
Variable update_reg_ignore_expire : session_t -> win -> bool.
Variable free_wpaint : session_t -> win -> win.
Variable win_determine_fade : session_t -> win -> win.

(** [finish_map_win]. *)
Definition finish_map_win (ps : session_t) (w : win) : session_t * win :=
  let w := set_in_openclose false w in
  (ps, if no_fading_openclose (o ps) then win_determine_fade ps w else w).

(** [finish_unmap_win]; the border size and the shadow it frees are not
    modelled. *)
Definition finish_unmap_win (ps : session_t) (w : win) : session_t * win :=
  let w := set_ever_damaged false w in
  let w := set_in_openclose false w in
  let ps := set_reg_ignore_expire (update_reg_ignore_expire ps w) ps in
  let '(ps, w) :=
    match extents w with
    | Some r => (add_damage ps (Some r), set_extents None w)
    | None => (ps, w)
    end in
  (ps, free_wpaint ps w).

(** [unmap_callback]. *)
Definition unmap_callback (ps : session_t) (w : win) : session_t * win :=
  finish_unmap_win ps w.

(** [finish_destroy_win] for a node of the stack: after
    [finish_unmap_win] the node is unlinked and freed, so no window is
    handed back; [assert(w->destroyed)] is not modelled, and neither
    are [active_win] and the [prev_trans] links it clears. *)
Definition finish_destroy_win (ps : session_t) (w : win) : session_t * option win :=
  let '(ps, _) := finish_unmap_win ps w in
  (ps, None).

(** [destroy_callback]. *)
Definition destroy_callback (ps : session_t) (w : win) : session_t * option win :=
  finish_destroy_win ps w.

(** The call [old_callback(ps, w)] through the function pointer. *)
Definition run_fade_callback (cb : fade_callback_t) (ps : session_t) (w : win) :
  session_t * option win :=
  match cb with
  | CB_finish_map_win => let '(ps, w) := finish_map_win ps w in (ps, Some w)
  | CB_unmap_callback => let '(ps, w) := unmap_callback ps w in (ps, Some w)
  | CB_destroy_callback => destroy_callback ps w
  end.

(** [set_fade_callback]; it hands back the window, or nothing when the
    callback has freed it. *)
Definition set_fade_callback (ps : session_t) (w : win) (callback : option fade_callback_t)
  (exec_callback : bool) : session_t * option win :=
  let old_callback := fade_callback w in
  let w := with_fade_callback callback w in
  match old_callback with
  | Some cb =>
      if exec_callback then
        let '(ps, ow) := run_fade_callback cb ps w in
        (set_idling false ps, ow)
      else (ps, Some w)
  | None => (ps, Some w)
  end.

(** [check_fade_fin] is an inline function of compton.h, which is not
    among the sources.  Its name, its two callers (compton.c:1172-1175
    on a window that is not painted, compton.c:1999-2005 on the painted
    ones, both prepared for the window to be freed by it) and
    [set_fade_callback], which exists to "possibly execute the previous
    callback", fix what it does: when the fade of a window that has a
    callback is finished, the callback is run and cleared. *)
Definition check_fade_fin (ps : session_t) (w : win) : session_t * option win :=
  match fade_callback w with
  | Some _ =>
      if opacity w =? opacity_tgt w then set_fade_callback ps w None true
      else (ps, Some w)
  | None => (ps, Some w)
  end.

(** What the assertion of compton.c:1173 checks of a window that is not
    painted.  The functions below do not stop where it fails: what they
    return there is not a state of the program. *)
Definition fade_callback_asserted (w : win) : bool :=
  Bool.eqb (destroyed w)
    (match fade_callback w with Some CB_destroy_callback => true | _ => false end).

(** What the loop carries from one window to the next: the paint list
    [t] (the last window added first), [unredir_possible] and
    [is_highest]. *)
Record loop_t := {
  t : list win;
  unredir_possible : bool;
  is_highest : bool
}.

(** "Calculate frame_opacity" (compton.c:1067-1090), after the window
    extents have been fetched: the frame opacity of a window that is
    painted, and [reg_ignore_expire] when a solid window that was
    painted gets or loses a frame that is not opaque. *)
Definition preprocess_frame (ps : session_t) (mode_old : winmode_t) (w : win) :
  session_t * win :=
  let w := match extents w with
           | None => set_extents (win_extents w) w
           | Some _ => w
           end in
  let frame_opacity_old := frame_opacity w in
  let w :=
    if negb (PrimFloat.eqb (o_frame_opacity (o ps)) 0)
       && negb (PrimFloat.eqb 1 (o_frame_opacity (o ps)))
       && win_has_frame w
    then set_frame_opacity
           (PrimFloat.mul (get_opacity_percent w) (o_frame_opacity (o ps))) w
    else set_frame_opacity 0 w in
  let ps :=
    if to_paint w && winmode_eqb WMODE_SOLID mode_old
       && negb (Bool.eqb (PrimFloat.eqb 0 frame_opacity_old)
                  (PrimFloat.eqb 0 (frame_opacity w)))
    then set_reg_ignore_expire true ps else ps in
  (ps, w).

(** The damage of a window whose painting status or opacity changes,
    and [reg_ignore_expire] when it becomes or ceases to be a painted
    solid window (compton.c:1099-1111). *)
Definition preprocess_damage (ps : session_t) (to_paint_ : bool) (opacity_old : Z)
  (mode_old : winmode_t) (w : win) : session_t :=
  let ps :=
    if negb (Bool.eqb to_paint_ (to_paint w)) || negb (opacity w =? opacity_old)
    then add_damage_from_win ps w else ps in
  if negb (Bool.eqb (to_paint_ && winmode_eqb WMODE_SOLID (mode w))
             (to_paint w && winmode_eqb WMODE_SOLID mode_old))
  then set_reg_ignore_expire true ps else ps.

(** The test of compton.c:1152-1155 on the highest window that is
    painted: it is solid, its frame is opaque or missing, it is
    fullscreen and no rule excludes it. *)
Definition unredir_condition (ps : session_t) (w : win) : bool :=
  win_is_solid ps w
  && (PrimFloat.eqb (frame_opacity w) 0 || negb (win_has_frame w))
  && win_is_fullscreen ps w
  && negb (unredir_if_possible_excluded w).

(** "(Un)redirect screen" (compton.c:1147-1160), on a window that is
    painted. *)
Definition preprocess_unredir (ps : session_t) (to_paint_ : bool) (w : win) (st : loop_t) :
  loop_t :=
  if unredir_if_possible (o ps) && is_highest st && to_paint_ then
    {| t := t st;
       unredir_possible := if unredir_condition ps w then true else unredir_possible st;
       is_highest := false |}
  else st.

(** The first part of an iteration of the loop of [paint_preprocess]
    (compton.c:1010-1111): the fade step, the decision whether the
    window is painted, its mode, its extents and frame opacity, and the
    damage.  It returns the session, the window and the value of
    [to_paint]. *)
Definition preprocess_decide (ps : session_t) (steps : Z) (w : win) :
  session_t * win * bool :=
  let mode_old := mode w in
  let opacity_old := opacity w in
  let w := if map_state_eqb (a_map_state w) IsUnmapped then set_fade (fade_last w) w else w in
  let w := if negb (Z.land WFLAG_OPCT_CHANGE (flags w) =? 0)
           then win_calc_opacity ps w else w in
  let '(ps, w) := run_fade ps w (steps mod 2 ^ 32) in
  let to_paint_ := to_paint_decision ps w in
  let w := if to_paint_ && (negb (to_paint w) || negb (opacity w =? opacity_old))
           then win_determine_mode ps w else w in
  let '(ps, w) := if to_paint_ then preprocess_frame ps mode_old w else (ps, w) in
  (preprocess_damage ps to_paint_ opacity_old mode_old w, w, to_paint_).

(** One iteration of the loop of [paint_preprocess] (compton.c:
    1010-1186), for the fields modelled; the ignore regions of the
    windows, the border size and the shadow are left out.  It returns
    the session, the window as it is stored back (nothing when its
    callback has freed it), the loop state and the value of
    [to_paint]. *)
Definition preprocess_win (ps : session_t) (steps : Z) (w : win) (st : loop_t) :
  session_t * option win * loop_t * bool :=
  let '(ps, w, to_paint_) := preprocess_decide ps steps w in
  let '(st, w) :=
    if to_paint_ then (preprocess_unredir ps to_paint_ w st, set_flags 0 w) else (st, w) in
  let destroyed_ := (opacity_tgt w =? opacity w) && destroyed w in
  let st :=
    if to_paint_
    then {| t := w :: t st; unredir_possible := unredir_possible st;
            is_highest := is_highest st |}
    else st in
  let '(ps, ow) := if to_paint_ then (ps, Some w) else check_fade_fin ps w in
  let ow :=
    if negb destroyed_ then
      option_map
        (fun w => let w := set_to_paint to_paint_ w in
                  if to_paint w then set_fade_last (fade w) w else w)
        ow
    else ow in
  (ps, ow, st, to_paint_).

(** The loop follows the link [next] that it read before the window
    was handled; a window that was freed is no longer in the stack
    afterwards. *)
Fixpoint preprocess_loop (ps : session_t) (steps : Z) (l : list win) (st : loop_t) :
  session_t * list win * loop_t :=
  match l with
  | [] => (ps, [], st)
  | w :: l' =>
      let '(ps, ow, st, _) := preprocess_win ps steps w st in
      let '(ps, l'', st) := preprocess_loop ps steps l' st in
      (ps, match ow with Some w => w :: l'' | None => l'' end, st)
  end.

(** The end of [paint_preprocess] (compton.c:1190-1212): the decision
    to stop or start redirection.  It returns the session and the final
    value of [unredir_possible]. *)
Definition preprocess_redirect (ps : session_t) (unredir_possible_ is_highest_ : bool)
  (now : Z) : session_t * bool :=
  let unredir_possible_ :=
    match redirected_force (o ps) with
    | UNSET => unredir_possible_
    | OFF => true
    | ON => false
    end in
  let unredir_possible_ :=
    if unredir_if_possible (o ps) && is_highest_ && negb (redirected ps)
    then true else unredir_possible_ in
  let ps :=
    if unredir_possible_ then
      if redirected ps then
        if (unredir_if_possible_delay (o ps) =? 0) || tmout_unredir_hit ps
        then redir_stop ps
        else if negb (tmout_unredir_enabled ps)
        then
          let ps := timeout_reset ps now in
          set_tmout_unredir true (tmout_unredir_firstrun ps) (tmout_unredir_lastrun ps) ps
        else ps
      else ps
    else
      redir_start
        (set_tmout_unredir false (tmout_unredir_firstrun ps) (tmout_unredir_lastrun ps) ps) in
  (ps, unredir_possible_).

(** [paint_preprocess] at the time [now]; it returns the session, the
    paint list and the final [unredir_possible]. *)
Definition paint_preprocess (ps : session_t) (now : Z) : session_t * list win * bool :=
  let '(steps, fade_time') := fade_steps ps now in
  let ps := set_fade_time fade_time' ps in
  let '(ps, l, st) :=
    preprocess_loop ps steps (ps_list ps)
      {| t := []; unredir_possible := false; is_highest := true |} in
  let ps := set_ps_list l ps in
  let '(ps, possible) := preprocess_redirect ps (unredir_possible st) (is_highest st) now in
  (ps, t st, possible).

(** The highest window that the loop paints, with the session as it
    is at the "(Un)redirect screen" test of that window; [None] when
    the loop paints no window. *)
Fixpoint topmost_painted (ps : session_t) (steps : Z) (l : list win) :
  option (session_t * win) :=
  match l with
  | [] => None
  | w :: l' =>
      let '(ps, w, to_paint_) := preprocess_decide ps steps w in
      if to_paint_ then Some (ps, w)
      else topmost_painted (fst (check_fade_fin ps w)) steps l'
  end.

(** The unredirect condition of the specification, from its words: the
    pass at the time [now] finds that the topmost painted window is
    solid, fullscreen and not excluded by a rule.  The test is made
    when the option [unredir_if_possible] is set. *)
Definition unredir_condition_found (ps : session_t) (now : Z) : bool :=
  unredir_if_possible (o ps)
  && match topmost_painted (set_fade_time (snd (fade_steps ps now)) ps)
             (fst (fade_steps ps now)) (ps_list ps) with
     | Some (ps, w) => unredir_condition ps w
     | None => false
     end.

(** Whether the pass at the time [now] paints no window. *)
Definition nothing_to_paint (ps : session_t) (now : Z) : bool :=
  match topmost_painted (set_fade_time (snd (fade_steps ps now)) ps)
          (fst (fade_steps ps now)) (ps_list ps) with
  | Some _ => false
  | None => true
  end.

(** ** The main loop (compton.c:5890-5956) *)

(** [resize_region] is declared in common.h, which is not among the
    sources; it takes the handle by value, so it can change the
    rectangles of the region and not the handle. *)
Variable resize_region : region -> Z -> region.

(** The node of address [p] in the stack, and the stack with that
    node replaced, or taken out when it was freed. *)
Definition get_win (l : list win) (p : nat) : option win :=
  find (fun n => Nat.eqb (ptr n) p) l.

Fixpoint put_win (l : list win) (p : nat) (ow : option win) : list win :=
  match l with
  | [] => []
  | n :: l' =>
      if Nat.eqb (ptr n) p
      then match ow with Some w => w :: l' | None => l' end
      else n :: put_win l' p ow
  end.

(** A function on a window and the session, applied to the node [p] of
    the stack. *)
Definition at_win (f : session_t -> win -> session_t * option win) (ps : session_t) (p : nat) :
  session_t :=
  match get_win (ps_list ps) p with
  | Some w => let '(ps, ow) := f ps w in set_ps_list (put_win (ps_list ps) p ow) ps
  | None => ps
  end.

(** What the painting loop of [paint_all] (compton.c:1778-1880) makes
    of a window it paints: it draws on the server, which is not
    modelled, and [win_paint_win] fetches the pixmap of a window that
    has none. *)
Variable win_paint_win : session_t -> win -> win.

(** [paint_all] for the paint list [t_], the lowest window first: the
    call is recorded, with the value of [redirected]; the windows are
    painted; then [check_fade_fin] is called on every painted window
    (compton.c:1999-2005). *)
Definition paint_all (ps : session_t) (t_ : list win) : session_t :=
  let ps := set_painted (redirected ps :: painted ps) ps in
  let ps := fold_left (at_win (fun ps w => (ps, Some (win_paint_win ps w)))) (map ptr t_) ps in
  fold_left (at_win check_fade_fin) (map ptr t_) ps.

(** [configure_win] on the root window (compton.c:2303-2336);
    [screen_reg_] is what [get_screen_region], which is not among the
    sources, returns for the new size.  The target buffer and what is
    done for GLX are not modelled. *)
Definition configure_root (ps : session_t) (width height : Z) (screen_reg_ : option region) :
  session_t :=
  let ps := set_root width height screen_reg_ ps in
  let ps :=
    if reredir_on_root_change (o ps) && redirected ps then redir_start (redir_stop ps)
    else ps in
  force_repaint ps.

(** What [mainloop] does to the fields modelled: it runs the timeouts,
    and the event handlers add damage, change the windows and
    reconfigure the root window. *)
Inductive action :=
| Damage (r : option region)
| Windows (l : list win)
| ConfigureRoot (width height : Z) (screen_reg_ : option region)
| TimeoutRun (now : Z).

Variable timeout_get_newrun : Z -> Z -> Z -> Z.
Variable TIMEOUT_RUN_TOLERANCE : float.

Definition mainloop (ps : session_t) (a : action) : session_t :=
  match a with
  | Damage r => add_damage ps r
  | Windows l => set_ps_list l ps
  | ConfigureRoot width height screen_reg_ => configure_root ps width height screen_reg_
  | TimeoutRun now => timeout_run timeout_get_newrun TIMEOUT_RUN_TOLERANCE ps now
  end.

(** The part of [session_run] before the loop. *)
Definition session_run_first (ps : session_t) (now : Z) : session_t :=
  let ps := set_reg_ignore_expire true ps in
  let '(ps, t_, _) := paint_preprocess ps now in
  let ps := if redirected ps then paint_all ps t_ else ps in
  set_idling false ps.

(** The part of an iteration of the loop that follows [mainloop]
    (compton.c:5927-5955). *)
Definition session_run_paint (ps : session_t) (now : Z) : session_t :=
  let ps := set_idling true ps in
  let '(ps, t_, _) := paint_preprocess ps now in
  let ps := set_tmout_unredir_hit false ps in
  let ps :=
    if negb (redirected ps)
       || match stoppaint_force (o ps) with ON => true | _ => false end
    then set_all_damage (free_region (all_damage ps)) ps
    else ps in
  let all_damage_orig :=
    if 0 <? resize_damage (o ps) then copy_region (all_damage ps) else None in
  let ps :=
    set_all_damage
      (option_map (fun r => resize_region r (resize_damage (o ps))) (all_damage ps)) ps in
  let ps :=
    match all_damage ps with
    | Some r =>
        if negb (is_region_empty r) then
          let ps := paint_all ps t_ in
          let ps := set_reg_ignore_expire false ps in
          set_all_damage None ps
        else ps
    | None => ps
    end in
  if idling ps then set_fade_time 0 ps else ps.

(** The start of an iteration: [ev_received] is cleared and [mainloop]
    runs until it returns false. *)
Definition session_run_events (ps : session_t) (acts : Datatypes.list action) : session_t :=
  fold_left mainloop acts (set_ev_received false ps).

(** One iteration of the loop: the actions of [mainloop], then the
    paint at the time [now]. *)
Definition session_run_iter (ps : session_t) (it : Datatypes.list action * Z) : session_t :=
  session_run_paint (session_run_events ps (fst it)) (snd it).

(** The call of [paint_preprocess] in an iteration that starts from
    [ps]: what it returns. *)
Definition session_run_pass (ps : session_t) (it : Datatypes.list action * Z) :
  session_t * Datatypes.list win * bool :=
  paint_preprocess (set_idling true (session_run_events ps (fst it))) (snd it).

(** [session_run] for the iterations [its]. *)
Definition session_run (ps : session_t) (now : Z) (its : Datatypes.list (Datatypes.list action * Z)) :
  session_t :=
  fold_left session_run_iter its (session_run_first ps now).

End Preprocess.

(** ** Restacking (compton.c:2222-2294) *)

Section Restack.

(** [update_reg_ignore_expire] is an inline function of compton.h, which
    is not among the sources; what it makes of [ps->reg_ignore_expire]
    is a parameter. *)
Variable update_reg_ignore_expire : session_t -> win -> bool.

(** The index of the node [p] in the stack, following the unhook loop;
    the length of the stack when [p] is not in it. *)
Fixpoint index_of (p : nat) (l : Datatypes.list win) : nat :=
  match l with
  | [] => O
  | w :: l' => if Nat.eqb (ptr w) p then O else S (index_of p l')
  end.

(** The rehook loop: the index of the first window with the id
    [new_above] that is not destroyed, and whether there is one. *)
Fixpoint find_above (new_above : Window) (l : Datatypes.list win) : nat * bool :=
  match l with
  | [] => (O, false)
  | w :: l' =>
      if (id w =? new_above) && negb (destroyed w) then (O, true)
      else let '(n, found) := find_above new_above l' in (S n, found)
  end.

(** [*prev_old = w->next; w->next = *prev; *prev = w], for the links
    [prev_old] at index [i] and [prev] at index [j] of the stack: the
    node leaves its place and goes in front of the node that was at
    [j], or to the end. *)
Definition relink (i j : nat) (l : Datatypes.list win) : Datatypes.list win :=
  match nth_error l i with
  | Some w =>
      let l' := firstn i l ++ skipn (S i) l in
      let j' := if Nat.leb j i then j else Nat.pred j in
      firstn j' l' ++ w :: skipn j' l'
  | None => l
  end.

(** [old_above]: the id of [w->next], [None] at the bottom of the
    stack. *)
Definition old_above (ps : session_t) (p : nat) : Window :=
  match nth_error (ps_list ps) (S (index_of p (ps_list ps))) with
  | Some n => id n
  | None => XNone
  end.

(** [restack_win]; the boolean says whether the failure to find
    [new_above] was reported. *)
Definition restack_win (ps : session_t) (p : nat) (new_above : Window) : session_t * bool :=
  match nth_error (ps_list ps) (index_of p (ps_list ps)) with
  | Some w =>
      let ps := set_reg_ignore_expire (update_reg_ignore_expire ps w) ps in
      let old_above := old_above ps p in
      if negb (old_above =? new_above) then
        let prev_old := index_of p (ps_list ps) in
        let '(prev, found) := find_above new_above (ps_list ps) in
        if negb (new_above =? 0) && negb found then (ps, true)
        else (set_ps_list (relink prev_old prev (ps_list ps)) ps, false)
      else (ps, false)
  | None => (ps, false)
  end.

End Restack.

(** ** Background blur (compton.c:1322-1378) *)

Section Blur.

(** [get_opacity_percent] is defined in a file that is not among the
    sources; [DOUBLE_TO_XFIXED], [XFIXED_TO_DOUBLE] and
    [normalize_conv_kern] are declared in headers that are not. *)
Variable get_opacity_percent : win -> float.
Variable DOUBLE_TO_XFIXED : float -> Z.
Variable XFIXED_TO_DOUBLE : Z -> float.
Variable normalize_conv_kern : Z -> Z -> Datatypes.list Z -> Datatypes.list Z.

(** [factor_center] (compton.c:1329-1336). *)
Definition factor_center (ps : session_t) (w : win) : float :=
  let factor_center := 1%float in
  if negb (blur_background_fixed (o ps)) then
    let pct :=
      PrimFloat.sub 1
        (PrimFloat.mul (get_opacity_percent w)
           (PrimFloat.sub 1 (PrimFloat.div 1 9))) in
    PrimFloat.div (PrimFloat.mul pct 8) (PrimFloat.sub 0x1.199999999999ap+0 pct)
  else factor_center.

(** The body of the loop that prepares the kernels (compton.c:
    1344-1376), for one kernel [kern_src] of [ps->o.blur_kerns] and its
    cache entry [kern_dst]: both arrays as they are after the
    iteration.  A kernel is its width and height, then its weights. *)
Definition blur_kern_prepare (ps : session_t) (w : win)
  (kern_src : Datatypes.list Z) (kern_dst : option (Datatypes.list Z)) :
  Datatypes.list Z * option (Datatypes.list Z) :=
  match blur_background_fixed (o ps), kern_dst with
  | true, Some _ => (kern_src, kern_dst)
  | _, _ =>
      let kwid := long_of_double (XFIXED_TO_DOUBLE (nth 0 kern_src 0)) in
      let khei := long_of_double (XFIXED_TO_DOUBLE (nth 1 kern_src 0)) in
      let center := Z.to_nat (2 + Z.quot khei 2 * kwid + Z.quot kwid 2) in
      let kern_src :=
        firstn center kern_src
        ++ DOUBLE_TO_XFIXED (factor_center ps w) :: skipn (S center) kern_src in
      let copied := firstn (Z.to_nat (kwid * khei + 2)) kern_src in
      (kern_src,
       Some (firstn 2 copied ++ normalize_conv_kern kwid khei (skipn 2 copied)))
  end.

(** The factor the specification gives, from its words. *)
Definition factor_center_by_spec (ps : session_t) (w : win) : float :=
  if blur_background_fixed (o ps) then 1%float
  else
    let p := PrimFloat.sub 1 (PrimFloat.mul (get_opacity_percent w)
                                (PrimFloat.sub 1 (PrimFloat.div 1 9))) in
    PrimFloat.div (PrimFloat.mul 8 p) (PrimFloat.sub 0x1.199999999999ap+0 p).

End Blur.

(** ** Auxiliary notions of the proofs *)

(** The fields that decide redirection and record painting. *)
Definition same_ctl (ps ps' : session_t) : Prop :=
  o ps' = o ps /\
  redirected ps' = redirected ps /\
  tmout_unredir_enabled ps' = tmout_unredir_enabled ps /\
  tmout_unredir_firstrun ps' = tmout_unredir_firstrun ps /\
  tmout_unredir_lastrun ps' = tmout_unredir_lastrun ps /\
  tmout_unredir_hit ps' = tmout_unredir_hit ps /\
  painted ps' = painted ps.

(** What the loop of a preprocess pass and the fade callbacks do to the
    session: they clear or set [idling] and [reg_ignore_expire], add
    damage and change the window stack. *)
Inductive touched (ps : session_t) : session_t -> Prop :=
| touched_refl : touched ps ps
| touched_idling ps' v : touched ps ps' -> touched ps (set_idling v ps')
| touched_expire ps' v : touched ps ps' -> touched ps (set_reg_ignore_expire v ps')
| touched_damage ps' d : touched ps ps' -> touched ps (add_damage ps' d)
| touched_list ps' l : touched ps ps' -> touched ps (set_ps_list l ps').

(** What [redir_start] and [redir_stop] leave alone. *)
Definition same_timer (ps ps' : session_t) : Prop :=
  o ps' = o ps /\
  tmout_unredir_enabled ps' = tmout_unredir_enabled ps /\
  tmout_unredir_firstrun ps' = tmout_unredir_firstrun ps /\
  tmout_unredir_lastrun ps' = tmout_unredir_lastrun ps /\
  tmout_unredir_hit ps' = tmout_unredir_hit ps /\
  painted ps' = painted ps.

(** The final value of [unredir_possible]. *)
Definition possible_final (ps : session_t) (possible highest : bool) : bool :=
  snd (preprocess_redirect ps possible highest 0).

(** ** Example inputs *)

(** The default options: [alpha_step] 0.03, fading steps of 0.028 and
    0.03 of [OPAQUE] every 10 ms; unredirection after 200 ms. *)
Definition example_options : options_t :=
  {| backend := BKEND_XRENDER;
     fade_in_step := 120259084;
     fade_out_step := 128849018;
     fade_delta := 10;
     alpha_step := 0x1.eb851eb851eb8p-6;
     o_frame_opacity := 1;
     unredir_if_possible := true;
     unredir_if_possible_delay := 200;
     redirected_force := UNSET;
     stoppaint_force := UNSET;
     resize_damage := 0;
     blur_background_fixed := false;
     force_win_blend := false;
     reredir_on_root_change := false;
     no_fading_openclose := false |}.

(** Picture ids as the server could hand them out: 100, 103, 106, ... *)
Definition example_solid_picture (o_ : float) : Z :=
  100 + long_of_double (PrimFloat.mul o_ 100).

Definition example_alpha_picts : Datatypes.list Z :=
  Eval vm_compute in init_alpha_picts example_solid_picture (alpha_step example_options).

(** A redirected session on a 1920x1080 screen whose last fading step
    was at 100 ms. *)
Definition example_session : session_t :=
  {| o := example_options;
     ps_list := [];
     root_width := 1920;
     root_height := 1080;
     redirected := true;
     all_damage := None;
     screen_reg := Some [(0, 0, 1920, 1080)];
     alpha_picts := example_alpha_picts;
     fade_time := 100;
     idling := true;
     reg_ignore_expire := false;
     ev_received := false;
     tmout_unredir_enabled := false;
     tmout_unredir_firstrun := 0;
     tmout_unredir_lastrun := 0;
     tmout_unredir_hit := false;
     painted := [] |}.

(** A mapped, damaged window with the geometry and the opacity given. *)
Definition example_win (p : nat) (wid : Window) (x y width height : Z) (destroyed_ : bool)
  (opacity_ opacity_tgt_ : Z) : win :=
  {| ptr := p;
     id := wid;
     g_x := x;
     g_y := y;
     g_width := width;
     g_height := height;
     a_map_state := IsViewable;
     destroyed := destroyed_;
     ever_damaged := true;
     paint_pixmap := 5;
     opacity := opacity_;
     opacity_tgt := opacity_tgt_;
     fade := true;
     fade_last := true;
     to_paint := false;
     paint_excluded := false;
     unredir_if_possible_excluded := false;
     mode := WMODE_SOLID;
     frame_opacity := 0;
     flags := 0;
     fade_callback := if destroyed_ then Some CB_destroy_callback else None;
     extents := None;
     in_openclose := false |}.

(** A window on the screen at 1% opacity (42949673 / [OPAQUE]). *)
Definition example_faint_win : win := example_win 0 16 10 10 100 100 false 42949673 42949673.

(** A window fading in from 1000000000 to [OPAQUE]. *)
Definition example_fading_win : win := example_win 0 16 10 10 100 100 false 1000000000 OPAQUE.

(** A stack of four windows, the second of them destroyed and fading
    out. *)
Definition example_stack : session_t :=
  set_ps_list
    [example_win 0 1 10 10 100 100 false OPAQUE OPAQUE;
     example_win 1 5 10 10 100 100 true OPAQUE 0;
     example_win 2 7 10 10 100 100 false OPAQUE OPAQUE;
     example_win 3 9 10 10 100 100 false OPAQUE OPAQUE]
    example_session.

Definition example_update_reg_ignore_expire (ps : session_t) (w : win) : bool := true.

(** A session with one opaque window that covers the screen, and
    stand-ins for the functions that are not among the sources: windows
    without frames that are solid and fullscreen, a timeout that is due
    one interval after its first run. *)
Definition example_fullscreen : session_t :=
  set_ps_list [example_win 0 16 0 0 1920 1080 false OPAQUE OPAQUE] example_session.

(** A screen that is not redirected and has no window. *)
Definition example_unredirected : session_t := set_redirected false example_session.

Definition example_keep (ps : session_t) (w : win) : win := w.
Definition example_no_frame (w : win) : bool := false.
Definition example_always (ps : session_t) (w : win) : bool := true.
Definition example_percent (w : win) : float := 1.
Definition example_extents (w : win) : option region :=
  Some [(g_x w, g_y w, g_width w, g_height w)].
Definition example_resize_region (r : region) (d : Z) : region := r.
Definition example_free_wpaint (ps : session_t) (w : win) : win := set_paint_pixmap XNone w.
Definition example_get_newrun (interval firstrun lastrun : Z) : Z := firstrun + interval.

(** The first pass at 1000 ms, then an iteration at 1100 ms and one at
    1210 ms, each with a run of the timeouts. *)
Definition example_iterations : Datatypes.list (Datatypes.list action * Z) :=
  [([TimeoutRun 1100], 1100)].

Definition example_iteration : Datatypes.list action * Z := ([TimeoutRun 1210], 1210).

Definition example_run (its : Datatypes.list (Datatypes.list action * Z)) : session_t :=
  session_run 0x1.999999999999ap-3 example_keep example_keep example_no_frame
    example_always example_always example_percent 4 example_extents
    example_update_reg_ignore_expire example_free_wpaint example_keep
    example_resize_region example_keep example_get_newrun 0 example_fullscreen 1000 its.

(** A 3x3 kernel of ones in 16.16 fixed point, with stand-ins for the
    conversions of the headers. *)
Definition example_kernel : Datatypes.list Z :=
  [196608; 196608; 65536; 65536; 65536; 65536; 65536; 65536; 65536; 65536; 65536].

Definition example_to_xfixed (d : float) : Z := long_of_double (PrimFloat.mul d 65536).
Definition example_to_double (x : Z) : float := PrimFloat.div (double_of_int x) 65536.
Definition example_normalize (wid hei : Z) (k : Datatypes.list Z) : Datatypes.list Z := k.

(** ** Circulating a window (compton.c:2416-2430) *)

(** Whether the rehook loop of [restack_win] stops at [n]. *)
Definition is_above (new_above : Window) (n : win) : bool :=
  (id n =? new_above) && negb (destroyed n).

Section Circulate.

Variable update_reg_ignore_expire : session_t -> win -> bool.

(** [find_win] is an inline function of compton.h, which is not among
    the sources; it returns a node of the stack or null. *)
Variable find_win : session_t -> Window -> option nat.

(** [PlaceOnTop] of X.h. *)
Definition PlaceOnTop : Z := 0.

(** [circulate_win] for the event fields [window] and [place]; [None]
    when [ps->list] is null where the code reads [ps->list->id]. *)
Definition circulate_win (ps : session_t) (window place : Z) : option (session_t * bool) :=
  match find_win ps window with
  | None => Some (ps, false)
  | Some p =>
      if place =? PlaceOnTop then
        match ps_list ps with
        | [] => None
        | top :: _ => Some (restack_win update_reg_ignore_expire ps p (id top))
        end
      else Some (restack_win update_reg_ignore_expire ps p XNone)
  end.

End Circulate.

(** A stand-in for [find_win] of compton.h, which is not among the
    sources: the first window of the stack with the id that is not
    destroyed. *)
Definition example_find_win (ps : session_t) (wid : Window) : option nat :=
  option_map ptr (find (is_above wid) (ps_list ps)).

(** ** The ignore list (compton.c:738-758) *)

(** [ps->ignore_head] is the list of the sequence numbers of the
    requests whose errors are to be ignored; [ps->ignore_tail] is the
    address of the last [next] field, which the list determines. *)

(** [discard_ignore]. *)
Fixpoint discard_ignore (ignore_head : Datatypes.list Z) (sequence : Z) : Datatypes.list Z :=
  match ignore_head with
  | [] => []
  | s :: next => if s <? sequence then discard_ignore next sequence else ignore_head
  end.

(** [should_ignore]: the list it leaves and its result. *)
Definition should_ignore (ignore_head : Datatypes.list Z) (sequence : Z) :
  Datatypes.list Z * bool :=
  let ignore_head := discard_ignore ignore_head sequence in
  (ignore_head,
   match ignore_head with
   | s :: _ => s =? sequence
   | [] => false
   end).

(** Sequence numbers in the order the requests were made. *)
Fixpoint ascending (l : Datatypes.list Z) : Prop :=
  match l with
  | [] => True
  | s :: l' => (forall s', In s' l' -> s <= s') /\ ascending l'
  end.

(** ** Timeouts (compton.c:4846-4945) *)

(** [timeout_t]; [tm_ptr] is the address of the node, [tm_callback]
    and [tm_data] the addresses it stores. *)
Record timeout_t := {
  tm_ptr : nat;
  tm_enabled : bool;
  tm_data : nat;
  tm_callback : nat;
  tm_firstrun : Z;
  tm_lastrun : Z;
  tm_interval : Z
}.

(** [timeout_insert] at the time [now]; [p] is the address [malloc]
    returned.  It returns the list and the new node. *)
Definition timeout_insert (tmout_lst : Datatypes.list timeout_t) (p : nat) (interval : Z)
  (callback data : nat) (now : Z) : Datatypes.list timeout_t * nat :=
  ({| tm_ptr := p;
      tm_enabled := true;
      tm_data := data;
      tm_callback := callback;
      tm_firstrun := now;
      tm_lastrun := now;
      tm_interval := interval |} :: tmout_lst,
   p).

(** [timeout_drop]. *)
Fixpoint timeout_drop (tmout_lst : Datatypes.list timeout_t) (prm : nat) :
  Datatypes.list timeout_t * bool :=
  match tmout_lst with
  | [] => ([], false)
  | ptmout :: next =>
      if Nat.eqb prm (tm_ptr ptmout) then (next, true)
      else let '(next', found) := timeout_drop next prm in (ptmout :: next', found)
  end.

Section PollTime.

(** [timeout_get_newrun] and [TIME_MS_MAX] are declared in common.h,
    which is not among the sources. *)
Variable timeout_get_newrun : timeout_t -> Z.
Variable TIME_MS_MAX : Z.

(** The loop of [timeout_get_poll_time], from the node [tmout_lst] on
    with the [wait] found so far. *)
Fixpoint timeout_get_poll_time_loop (now wait : Z) (tmout_lst : Datatypes.list timeout_t) : Z :=
  match tmout_lst with
  | [] => wait
  | ptmout :: next =>
      if tm_enabled ptmout then
        let newrun := timeout_get_newrun ptmout in
        if newrun <=? now then 0
        else
          let newwait := newrun - now in
          timeout_get_poll_time_loop now (if newwait <? wait then newwait else wait) next
      else timeout_get_poll_time_loop now wait next
  end.

(** Whether a timeout is enabled and due at [now]. *)
Definition timeout_due (now : Z) (t : timeout_t) : bool :=
  tm_enabled t && (timeout_get_newrun t <=? now).

(** [timeout_get_poll_time] at the time [now]. *)
Definition timeout_get_poll_time (tmout_lst : Datatypes.list timeout_t) (now : Z) : Z :=
  timeout_get_poll_time_loop now TIME_MS_MAX tmout_lst.

End PollTime.

(** ** Software optimization of the timeout (compton.c:4400-4430) *)

Record timeval := { tv_sec : Z; tv_usec : Z }.

Section Swopti.

(** [SWOPTI_TOLERANCE] and [US_PER_SEC] are macros of common.h, which
    is not among the sources. *)
Variable SWOPTI_TOLERANCE : Z.
Variable US_PER_SEC : Z.

(** [swopti_handle_timeout] for [ps->paint_tm_offset],
    [ps->refresh_intv] and the microseconds [now_usec] of the current
    time; the result is [*ptv], [None] when the assertion fails.  The
    operands are [long]s far below 2^63, and [%] is the remainder of
    the division that truncates. *)
Definition swopti_handle_timeout (paint_tm_offset refresh_intv now_usec : Z)
  (ptv : option timeval) : option (option timeval) :=
  match ptv with
  | None => Some None
  | Some tv =>
      let offset := Z.rem (tv_usec tv + now_usec - paint_tm_offset) refresh_intv in
      let offset := if offset <? 0 then offset + refresh_intv else offset in
      if (0 <=? offset) && (offset <? refresh_intv) then
        if (offset <? SWOPTI_TOLERANCE) || (refresh_intv - SWOPTI_TOLERANCE <? offset)
        then Some (Some tv)
        else
          let usec := tv_usec tv + (refresh_intv - offset) in
          if US_PER_SEC <? usec
          then Some (Some {| tv_sec := tv_sec tv + 1; tv_usec := usec - US_PER_SEC |})
          else Some (Some {| tv_sec := tv_sec tv; tv_usec := usec |})
      else None
  end.

(** The time a [timeval] stands for, in microseconds. *)
Definition timeval_usec (tv : timeval) : Z := tv_sec tv * US_PER_SEC + tv_usec tv.

End Swopti.

(** Two timeouts inserted at 1000 ms and 1050 ms, the first disabled
    since, and a stand-in for [timeout_get_newrun]: one interval after
    the first run. *)
Definition example_timeouts : Datatypes.list timeout_t :=
  [ {| tm_ptr := 1; tm_enabled := true; tm_data := 0; tm_callback := 7;
       tm_firstrun := 1050; tm_lastrun := 1050; tm_interval := 300 |};
    {| tm_ptr := 0; tm_enabled := false; tm_data := 0; tm_callback := 8;
       tm_firstrun := 1000; tm_lastrun := 1000; tm_interval := 200 |} ].

Definition example_newrun (t : timeout_t) : Z := tm_firstrun t + tm_interval t.

End Compton.

(** * Proofs about [win.c] *)

Module WinProofs.

Import Win.

(** ** Opacity target *)

(** C1.  For every window the opacity target computed by
    [win_calc_opacity_target] is the one the priority order gives: 0 in
    the states UNMAPPED, UNMAPPING and DESTROYING; otherwise
    [inactive_opacity] when [inactive_opacity_override] is set and the
    window is not focused, else the [_NET_WM_WINDOW_OPACITY] value
    divided by 0xFFFFFFFF when the property is present, else the window
    type's default when it is not NaN, else [active_opacity] for a
    really focused window, [inactive_opacity] when the focused flag is
    false, and 1.0 otherwise. *)
Theorem win_calc_opacity_target_priority :
  forall (win_is_focused_real : session_t -> win -> bool) (ps : session_t) (w : win),
    win_calc_opacity_target win_is_focused_real ps w
    = opacity_target_by_priority win_is_focused_real ps w.
Proof.
  intros focused_real ps w.
  unfold win_calc_opacity_target, opacity_target_by_priority, safe_isnan, fading_out.
  destruct (state w); simpl;
    destruct (inactive_opacity_override (o ps)), (focused w), (has_opacity_prop w);
    simpl; try reflexivity;
    destruct (PrimFloat.is_nan (wo_opacity (wintype_option (o ps) (window_type w))));
    simpl; try reflexivity;
    destruct (focused_real ps w); reflexivity.
Qed.

(** ** Regions *)

Lemma good_rect_spec (b : rect_t) :
  good_rect b = true <-> x1 b < x2 b /\ y1 b < y2 b.
Proof.
  unfold good_rect. rewrite andb_true_iff, !Z.ltb_lt. tauto.
Qed.

Lemma in_rect_intersect (px py : Z) (a b : rect_t) :
  in_rect px py (rect_intersect a b) <-> in_rect px py a /\ in_rect px py b.
Proof.
  unfold in_rect, rect_intersect; simpl. lia.
Qed.

Lemma in_rect_good (px py : Z) (b : rect_t) : in_rect px py b -> good_rect b = true.
Proof.
  unfold in_rect. intros H. apply good_rect_spec. lia.
Qed.

(** The list model of [pixman_region32_intersect] is the intersection of
    the two point sets. *)
Lemma in_region_intersect (px py : Z) (r1 r2 : region_t) :
  in_region px py (pixman_region32_intersect r1 r2)
  <-> in_region px py r1 /\ in_region px py r2.
Proof.
  unfold in_region, pixman_region32_intersect.
  rewrite !Exists_exists. split.
  - intros (b & Hb & Hin).
    apply filter_In in Hb. destruct Hb as [Hb _].
    apply in_flat_map in Hb. destruct Hb as (a & Ha & Hb).
    apply in_map_iff in Hb. destruct Hb as (c & <- & Hc).
    apply in_rect_intersect in Hin. destruct Hin as [Hina Hinc].
    split; [exists a | exists c]; auto.
  - intros [(a & Ha & Hina) (c & Hc & Hinc)].
    exists (rect_intersect a c). split.
    + apply filter_In. split.
      * apply in_flat_map. exists a. split; [assumption|].
        apply in_map. assumption.
      * apply (in_rect_good px py). apply in_rect_intersect. auto.
    + apply in_rect_intersect. auto.
Qed.

Lemma in_region_init_rect (px py x y width height : Z) :
  in_region px py (pixman_region32_init_rect x y width height) ->
  x <= px < wrap32 (x + width) /\ y <= py < wrap32 (y + height).
Proof.
  unfold pixman_region32_init_rect, in_region.
  destruct (good_rect _); intros H; inversion H; subst.
  - exact H1.
  - inversion H1.
Qed.

Lemma wrap32_small (z : Z) : - 2 ^ 31 <= z < 2 ^ 31 -> wrap32 z = z.
Proof.
  intros H. unfold wrap32. rewrite Z.mod_small; lia.
Qed.

Lemma max2_nonneg (a : Z) : 0 <= max2 a 0.
Proof.
  unfold max2. destruct (Z.ltb_spec a 0); lia.
Qed.

Lemma max2_clamp (a : Z) : a <= 0 -> max2 a 0 = 0.
Proof.
  unfold max2. destruct (Z.ltb_spec a 0); lia.
Qed.

(** C10.  Whatever frame extents [win_calc_frame_extents] reports, the
    region of [win_get_region_frame_local] lies inside the window
    rectangle [0, width] x [0, height]; [win_get_region_noframe_local]
    clamps the width and the height of the interior at zero, returns
    the empty region when either is not positive, and never a box of
    negative or zero width or height. *)
Theorem frame_regions_inside_window :
  forall (win_calc_frame_extents : win -> margin_t) (w : win),
    0 <= g_width w < 2 ^ 16 ->
    0 <= g_height w < 2 ^ 16 ->
    (forall px py,
        in_region px py (win_get_region_frame_local_by_val win_calc_frame_extents w) ->
        0 <= px < g_width w /\ 0 <= py < g_height w) /\
    0 <= noframe_width win_calc_frame_extents w /\
    0 <= noframe_height win_calc_frame_extents w /\
    (let extents := win_calc_frame_extents w in
     wrap32 (g_width w - wrap32 (left extents + right extents)) <= 0 \/
     wrap32 (g_height w - wrap32 (top extents + bottom extents)) <= 0 ->
     win_get_region_noframe_local_by_val win_calc_frame_extents w = []) /\
    Forall (fun b => x1 b < x2 b /\ y1 b < y2 b)
      (win_get_region_noframe_local_by_val win_calc_frame_extents w).
Proof.
  intros ext w Hw Hh. repeat split.
  - unfold win_get_region_frame_local_by_val, win_get_region_frame_local in H.
    apply in_region_intersect in H. destruct H as [_ H].
    apply in_region_init_rect in H. rewrite wrap32_small in H; lia.
  - unfold win_get_region_frame_local_by_val, win_get_region_frame_local in H.
    apply in_region_intersect in H. destruct H as [_ H].
    apply in_region_init_rect in H. rewrite wrap32_small in H; lia.
  - unfold win_get_region_frame_local_by_val, win_get_region_frame_local in H.
    apply in_region_intersect in H. destruct H as [_ H].
    apply in_region_init_rect in H. rewrite (wrap32_small (0 + g_height w)) in H; lia.
  - unfold win_get_region_frame_local_by_val, win_get_region_frame_local in H.
    apply in_region_intersect in H. destruct H as [_ H].
    apply in_region_init_rect in H. rewrite (wrap32_small (0 + g_height w)) in H; lia.
  - apply max2_nonneg.
  - apply max2_nonneg.
  - intros extents H.
    unfold win_get_region_noframe_local_by_val, win_get_region_noframe_local,
      noframe_width, noframe_height.
    fold extents.
    destruct H as [H | H]; rewrite (max2_clamp _ H); simpl.
    + reflexivity.
    + rewrite andb_false_r. reflexivity.
  - unfold win_get_region_noframe_local_by_val, win_get_region_noframe_local.
    destruct (_ && _); [| constructor].
    unfold pixman_region32_init_rect.
    destruct (good_rect _) eqn:Hg; constructor; [| constructor].
    apply good_rect_spec in Hg. exact Hg.
Qed.

(** ** Leader resolution *)

Section LeaderProofs.

Variable MAX : Z.

Lemma win_get_leader_raw_returns :
  forall (n : nat) (ps : session_t) (p : nat) (recursions : Z),
    (Z.to_nat (MAX + 1 - recursions) < n)%nat ->
    exists res, win_get_leader_raw MAX n ps p recursions = Some res.
Proof.
  induction n as [| n IH]; intros ps p r Hn; [lia |].
  cbn [win_get_leader_raw].
  destruct (get_win (window_stack ps) p) as [w |]; try (eexists; reflexivity).
  destruct (_ && _); try (eexists; reflexivity).
  destruct (_ && _); try (eexists; reflexivity).
  destruct (find_toplevel _ _) as [[wp |] |]; try (eexists; reflexivity).
  destruct (Z.ltb_spec MAX r) as [Hlt | Hle]; try (eexists; reflexivity).
  destruct (IH (with_win ps p
                  (set_cache_leader (if leader w =? 0 then client_win w else leader w)))
               wp (r + 1)) as [res Hres]; [lia |].
  rewrite Hres. destruct res as [[ps2 l] |]; eexists; reflexivity.
Qed.

(** More fuel does not change what a call returns. *)
Lemma win_get_leader_raw_fuel_mono :
  forall (n m : nat) (ps : session_t) (p : nat) (recursions : Z) res,
    (n <= m)%nat ->
    win_get_leader_raw MAX n ps p recursions = Some res ->
    win_get_leader_raw MAX m ps p recursions = Some res.
Proof.
  induction n as [| n IH]; intros m ps p r res Hle H; [discriminate |].
  destruct m as [| m]; [lia |].
  cbn [win_get_leader_raw] in *.
  destruct (get_win (window_stack ps) p) as [w |]; [| exact H].
  destruct (_ && _); [| exact H].
  destruct (_ && _); [| exact H].
  destruct (find_toplevel _ _) as [[wp |] |]; try exact H.
  destruct (MAX <? r); [exact H |].
  destruct (win_get_leader_raw MAX n _ wp (r + 1)) as [res' |] eqn:Hrec; [| discriminate].
  rewrite (IH m _ _ _ _ ltac:(lia) Hrec). exact H.
Qed.

(** C9 (amended).  Leader resolution returns on every input: with the
    fuel [leader_fuel], which depends on the depth only and not on the
    windows, [win_get_leader_raw] returns a result, so no graph of
    WM_TRANSIENT_FOR / WM_CLIENT_LEADER links, cyclic or not, makes it
    recurse for ever; a call that has to follow a link when
    [recursions] exceeds [WIN_GET_LEADER_MAX_RECURSION] returns
    XCB_NONE; and a window with neither client window nor leader
    resolves to what its leader cache holds and changes nothing: to
    XCB_NONE when the cache is empty, as it is for every window after
    [clear_cache_win_leaders]. *)
Theorem win_get_leader_raw_bounded :
  (forall (ps : session_t) (p : nat) (recursions : Z),
      exists res,
        win_get_leader_raw MAX (leader_fuel MAX recursions) ps p recursions = Some res) /\
  (forall (fuel : nat) (ps : session_t) (p : nat) (recursions : Z) (w : win) (wp : nat),
      get_win (window_stack ps) p = Some w ->
      cache_leader w = XCB_NONE ->
      leader w <> XCB_NONE ->
      leader w <> client_win w ->
      find_toplevel (with_win ps p (set_cache_leader (leader w))) (leader w)
      = Ok (Some wp) ->
      MAX < recursions ->
      win_get_leader_raw MAX (S fuel) ps p recursions
      = Some (Ok (with_win ps p (set_cache_leader (leader w)), XCB_NONE))) /\
  (forall (fuel : nat) (ps : session_t) (p : nat) (recursions : Z) (w : win),
      get_win (window_stack ps) p = Some w ->
      client_win w = XCB_NONE ->
      leader w = XCB_NONE ->
      win_get_leader_raw MAX (S fuel) ps p recursions = Some (Ok (ps, cache_leader w)) /\
      win_get_leader_raw MAX (S fuel) (clear_cache_win_leaders ps) p recursions
      = Some (Ok (clear_cache_win_leaders ps, XCB_NONE))).
Proof.
  split; [| split].
  - intros ps p r. unfold leader_fuel. apply win_get_leader_raw_returns. lia.
  - intros fuel ps p r w wp Hw Hcache Hl Hlc Hfind Hr.
    cbn [win_get_leader_raw]. rewrite Hw, Hcache.
    unfold XCB_NONE in *.
    apply Z.eqb_neq in Hl, Hlc. apply Z.ltb_lt in Hr.
    rewrite !Hl, Hlc, orb_true_r. simpl. rewrite Hfind, Hr. reflexivity.
  - intros fuel ps p r w Hw Hc Hl. split.
    + cbn [win_get_leader_raw]. rewrite Hw, Hc, Hl.
      unfold XCB_NONE. simpl. rewrite andb_false_r. reflexivity.
    + cbn [win_get_leader_raw]. unfold clear_cache_win_leaders at 1.
      cbn [window_stack set_window_stack].
      assert (Hm : get_win (map (set_cache_leader XCB_NONE) (window_stack ps)) p
                   = Some (set_cache_leader XCB_NONE w)).
      { revert Hw. unfold get_win. induction (window_stack ps) as [| n l IH]; cbn [map find].
        - discriminate.
        - change (ptr (set_cache_leader XCB_NONE n)) with (ptr n).
          destruct (Nat.eqb (ptr n) p); [intros [= ->]; reflexivity | exact IH]. }
      rewrite Hm. cbn [cache_leader client_win leader set_cache_leader].
      rewrite Hc, Hl. reflexivity.
Qed.

End LeaderProofs.

(** ** The registry *)

Lemma get_win_In (l : list win) (p : nat) (w : win) :
  get_win l p = Some w -> In w l /\ ptr w = p.
Proof.
  unfold get_win. intros H. apply find_some in H. destruct H as [Hin Hp].
  apply Nat.eqb_eq in Hp. auto.
Qed.

Lemma get_win_None (l : list win) (p : nat) :
  get_win l p = None <-> ~ In p (map ptr l).
Proof.
  unfold get_win. induction l as [| w l IH]; simpl.
  - tauto.
  - destruct (Nat.eqb_spec (ptr w) p) as [E | E].
    + split; [discriminate | intros H; exfalso; apply H; auto].
    + rewrite IH. intuition.
Qed.

Lemma get_win_NoDup (l : list win) (w : win) :
  NoDup (map ptr l) -> In w l -> get_win l (ptr w) = Some w.
Proof.
  unfold get_win. induction l as [| v l IH]; simpl; intros Hnd Hin; [contradiction |].
  inversion Hnd as [| ? ? Hnotin Hnd']; subst.
  destruct Hin as [-> | Hin].
  - rewrite Nat.eqb_refl. reflexivity.
  - destruct (Nat.eqb_spec (ptr v) (ptr w)) as [E | E].
    + exfalso. apply Hnotin. rewrite E. apply in_map. assumption.
    + apply IH; assumption.
Qed.

Lemma upd_win_ptr (p : nat) (f : win -> win) (l : list win) :
  (forall w, ptr (f w) = ptr w) -> map ptr (upd_win p f l) = map ptr l.
Proof.
  intros Hf. unfold upd_win. rewrite map_map. apply map_ext.
  intros w. destruct (Nat.eqb (ptr w) p); auto.
Qed.

Lemma In_upd_win (p : nat) (f : win -> win) (l : list win) (w' : win) :
  In w' (upd_win p f l) <->
  exists w, In w l /\ w' = (if Nat.eqb (ptr w) p then f w else w).
Proof.
  unfold upd_win. rewrite in_map_iff. split; intros (w & H1 & H2); exists w; auto.
Qed.

Lemma get_win_upd_same (p : nat) (f : win -> win) (l : list win) :
  (forall w, ptr (f w) = ptr w) ->
  get_win (upd_win p f l) p = option_map f (get_win l p).
Proof.
  intros Hf. unfold get_win, upd_win. induction l as [| w l IH]; simpl; [reflexivity |].
  destruct (Nat.eqb_spec (ptr w) p) as [E | E].
  - rewrite Hf, E, Nat.eqb_refl. reflexivity.
  - apply Nat.eqb_neq in E. rewrite E. exact IH.
Qed.

Lemma get_win_upd_other (p q : nat) (f : win -> win) (l : list win) :
  (forall w, ptr (f w) = ptr w) -> q <> p ->
  get_win (upd_win p f l) q = get_win l q.
Proof.
  intros Hf Hq. unfold get_win, upd_win. induction l as [| w l IH]; simpl; [reflexivity |].
  destruct (Nat.eqb_spec (ptr w) p) as [E | E].
  - rewrite Hf, E. destruct (Nat.eqb_spec p q); [congruence | exact IH].
  - destruct (Nat.eqb (ptr w) q); [reflexivity | exact IH].
Qed.

Lemma HASH_FIND_INT_In (h : list (xcb_window_t * nat)) (k : xcb_window_t) (p : nat) :
  HASH_FIND_INT h k = Some p -> In (k, p) h.
Proof.
  unfold HASH_FIND_INT.
  destruct (find (fun e => fst e =? k) h) as [[k' p'] |] eqn:E; simpl; [| discriminate].
  intros [= <-]. apply find_some in E. destruct E as [Hin Hk]. simpl in Hk.
  apply Z.eqb_eq in Hk. subst. assumption.
Qed.

Lemma HASH_FIND_INT_None (h : list (xcb_window_t * nat)) (k : xcb_window_t) :
  HASH_FIND_INT h k = None <-> ~ In k (map fst h).
Proof.
  unfold HASH_FIND_INT. induction h as [| [k' p'] h IH]; simpl.
  - tauto.
  - destruct (Z.eqb_spec k' k) as [E | E]; simpl.
    + split; [discriminate | intros H; exfalso; apply H; auto].
    + rewrite IH. intuition.
Qed.

Lemma HASH_FIND_INT_NoDup (h : list (xcb_window_t * nat)) (k : xcb_window_t) (p : nat) :
  NoDup (map fst h) -> In (k, p) h -> HASH_FIND_INT h k = Some p.
Proof.
  unfold HASH_FIND_INT. induction h as [| [k' p'] h IH]; simpl; intros Hnd Hin;
    [contradiction |].
  inversion Hnd as [| ? ? Hnotin Hnd']; subst.
  destruct Hin as [[= -> ->] | Hin].
  - rewrite Z.eqb_refl. reflexivity.
  - destruct (Z.eqb_spec k' k) as [E | E].
    + exfalso. apply Hnotin. subst. change k with (fst (k, p)). apply in_map. assumption.
    + apply IH; assumption.
Qed.

Lemma In_HASH_DEL (h : list (xcb_window_t * nat)) (p : nat) (k : xcb_window_t) (q : nat) :
  In (k, q) (HASH_DEL h p) <-> In (k, q) h /\ q <> p.
Proof.
  unfold HASH_DEL. rewrite filter_In. simpl.
  rewrite negb_true_iff, Nat.eqb_neq. tauto.
Qed.

Lemma NoDup_map_filter {A B : Type} (f : A -> B) (g : A -> bool) (l : list A) :
  NoDup (map f l) -> NoDup (map f (filter g l)).
Proof.
  induction l as [| a l IH]; simpl; intros H; [constructor |].
  inversion H as [| ? ? Hnotin Hnd]; subst.
  destruct (g a); simpl; [constructor |]; auto.
  intros Hin. apply Hnotin. apply in_map_iff in Hin. destruct Hin as (x & <- & Hx).
  apply filter_In in Hx. apply in_map. tauto.
Qed.

Lemma registry_inv_iff (ps : session_t) : registry_inv ps <-> inv_except None ps.
Proof.
  split; intros [H1 H2 H3 H4 H5 H6 H7]; constructor; auto; try discriminate.
  intros w Hin. apply H5; [assumption | discriminate].
Qed.

Lemma inv_except_ext (q : option nat) (ps ps' : session_t) :
  window_stack ps' = window_stack ps ->
  windows ps' = windows ps ->
  next_ptr ps' = next_ptr ps ->
  inv_except q ps -> inv_except q ps'.
Proof.
  intros E1 E2 E3 [H1 H2 H3 H4 H5 H6 H7 H8].
  constructor; rewrite ?E1, ?E2, ?E3; assumption.
Qed.

(** An update of the node [p] keeps the invariant when it keeps an
    InputOnly window unmapped and, unless [p] is the exempted node,
    does not change whether the node is being destroyed. *)
Lemma inv_except_upd (q : option nat) (ps : session_t) (p : nat) (f : win -> win) :
  inv_except q ps ->
  core_preserving f ->
  (forall w, get_win (window_stack ps) p = Some w ->
     (a_class w = XCB_WINDOW_CLASS_INPUT_ONLY -> state (f w) = WSTATE_UNMAPPED) /\
     (q = Some p \/
      (state (f w) = WSTATE_DESTROYING <-> state w = WSTATE_DESTROYING))) ->
  inv_except q (with_win ps p f).
Proof.
  intros [H1 H2 H3 H4 H5 H6 H7 H8] Hf Hp.
  assert (Hptr : forall w, ptr (f w) = ptr w) by (intros w; apply Hf).
  constructor; simpl; auto.
  - rewrite upd_win_ptr; assumption.
  - intros k p' Hin. destruct (H4 k p' Hin) as (w & Hw & Hpw & Hid & Hst).
    exists (if Nat.eqb (ptr w) p then f w else w). split; [| split; [| split]].
    + apply In_upd_win. exists w. auto.
    + destruct (Nat.eqb (ptr w) p); [rewrite Hptr |]; assumption.
    + destruct (Nat.eqb (ptr w) p); [rewrite (proj1 (proj2 (Hf w))) |]; assumption.
    + destruct (Nat.eqb_spec (ptr w) p) as [E | E]; [| assumption].
      destruct (Hp w) as [_ [Hq | Hq]].
      * rewrite <- E. apply get_win_NoDup; assumption.
      * exfalso. apply (H6 p k Hq). congruence.
      * intros Hd. apply Hst. apply Hq. assumption.
  - intros w' Hin Hq Hst. apply In_upd_win in Hin. destruct Hin as (w & Hw & ->).
    destruct (Nat.eqb_spec (ptr w) p) as [E | E]; [| apply H5; assumption].
    destruct (Hf w) as (Ep & Ei & _). rewrite Ep, Ei. rewrite Ep in Hq.
    apply H5; [assumption | assumption |].
    destruct (Hp w) as [_ [Hq' | Hq']].
    + rewrite <- E. apply get_win_NoDup; assumption.
    + congruence.
    + intros Hd. apply Hst. apply Hq'. assumption.
  - intros w' Hin Hc. apply In_upd_win in Hin. destruct Hin as (w & Hw & ->).
    destruct (Nat.eqb_spec (ptr w) p) as [E | E]; [| apply H7; assumption].
    destruct (Hf w) as (_ & _ & Ec). rewrite Ec in Hc.
    apply (Hp w); [| assumption].
    rewrite <- E. apply get_win_NoDup; assumption.
  - intros w' Hin. apply In_upd_win in Hin. destruct Hin as (w & Hw & ->).
    destruct (Nat.eqb (ptr w) p); [rewrite Hptr |]; apply H8; assumption.
Qed.

Lemma inv_except_HASH_DEL (ps : session_t) (p : nat) :
  inv_except None ps ->
  inv_except (Some p) (set_windows (HASH_DEL (windows ps) p) ps).
Proof.
  intros [H1 H2 H3 H4 H5 H6 H7 H8]. constructor; simpl; auto.
  - apply NoDup_map_filter. assumption.
  - intros k q Hin. apply In_HASH_DEL in Hin. apply (H3 k q). tauto.
  - intros k q Hin. apply In_HASH_DEL in Hin. apply H4. tauto.
  - intros w Hin Hq Hst. apply In_HASH_DEL. split.
    + apply H5; [assumption | discriminate | assumption].
    + congruence.
  - intros p' k [= <-] Hin. apply In_HASH_DEL in Hin. tauto.
Qed.

(** A node that is being destroyed, or is no longer in the stack, need
    not be exempted; a node that is being destroyed may be. *)
Lemma inv_except_unexempt (ps : session_t) (p : nat) :
  inv_except (Some p) ps ->
  (forall w, In w (window_stack ps) -> ptr w = p -> state w = WSTATE_DESTROYING) ->
  inv_except None ps.
Proof.
  intros [H1 H2 H3 H4 H5 H6 H7 H8] Hp. constructor; auto; try discriminate.
  intros w Hin _ Hst. apply H5; try assumption.
  intros [= E]. apply Hst. apply Hp; assumption.
Qed.

Lemma inv_except_exempt (ps : session_t) (p : nat) :
  inv_except None ps ->
  (forall w, In w (window_stack ps) -> ptr w = p -> state w = WSTATE_DESTROYING) ->
  inv_except (Some p) ps.
Proof.
  intros [H1 H2 H3 H4 H5 H6 H7 H8] Hp. constructor; auto.
  - intros w Hin _ Hst. apply H5; [assumption | discriminate | assumption].
  - intros p' k [= <-] Hin. destruct (H4 k p Hin) as (w & Hw & Hpw & _ & Hst).
    apply Hst. apply Hp; assumption.
Qed.

Lemma In_unlink (p : nat) (l : list win) (w' : win) :
  NoDup (map ptr l) ->
  In w' (unlink p l) -> ptr w' <> p /\ exists w, In w l /\ same_node w w'.
Proof.
  induction l as [| v l IH]; simpl; intros Hnd Hin; [contradiction |].
  inversion Hnd as [| ? ? Hnotin Hnd']; subst.
  destruct (Nat.eqb_spec (ptr v) p) as [E | E].
  - destruct l as [| n l]; [contradiction |].
    assert (Hall : forall x, In x (n :: l) -> ptr x <> p).
    { intros x Hx Ex. apply Hnotin. rewrite E, <- Ex. apply in_map. assumption. }
    destruct Hin as [<- | Hin].
    + split; [apply (Hall n); left; reflexivity |].
      exists n. split; [right; left; reflexivity | repeat split].
    + split; [apply Hall; right; assumption |].
      exists w'. split; [right; right; assumption | repeat split].
  - destruct Hin as [<- | Hin].
    + split; [assumption |]. exists v. split; [left; reflexivity | repeat split].
    + destruct (IH Hnd' Hin) as [Hp (w & Hw & Hs)].
      split; [assumption |]. exists w. split; [right; assumption | assumption].
Qed.

Lemma unlink_In (p : nat) (l : list win) (w : win) :
  In w l -> ptr w <> p -> exists w', In w' (unlink p l) /\ same_node w w'.
Proof.
  induction l as [| v l IH]; simpl; intros Hin Hp; [contradiction |].
  destruct (Nat.eqb_spec (ptr v) p) as [E | E].
  - destruct Hin as [-> | Hin]; [contradiction |].
    destruct l as [| n l]; [contradiction |].
    destruct Hin as [<- | Hin].
    + exists (set_reg_ignore_valid false n). split; [left; reflexivity | repeat split].
    + exists w. split; [right; assumption | repeat split].
  - destruct Hin as [-> | Hin].
    + exists w. split; [left; reflexivity | repeat split].
    + destruct (IH Hin Hp) as (w' & Hw' & Hs). exists w'. split; [right |]; assumption.
Qed.

Lemma NoDup_unlink (p : nat) (l : list win) :
  NoDup (map ptr l) -> NoDup (map ptr (unlink p l)).
Proof.
  induction l as [| v l IH]; simpl; intros Hnd; [constructor |].
  inversion Hnd as [| ? ? Hnotin Hnd']; subst.
  destruct (Nat.eqb_spec (ptr v) p) as [E | E].
  - destruct l as [| n l]; [constructor | exact Hnd'].
  - simpl. constructor; [| apply IH; assumption].
    intros Hin. apply in_map_iff in Hin. destruct Hin as (x & Ex & Hx).
    apply In_unlink in Hx; [| assumption]. destruct Hx as [_ (w & Hw & Hs)].
    apply Hnotin. rewrite <- Ex. destruct Hs as (-> & _). apply in_map. assumption.
Qed.

Lemma inv_except_unlink (ps : session_t) (p : nat) :
  inv_except (Some p) ps ->
  inv_except None (set_window_stack (unlink p (window_stack ps)) ps).
Proof.
  intros [H1 H2 H3 H4 H5 H6 H7 H8]. constructor; simpl; auto; try discriminate.
  - apply NoDup_unlink. assumption.
  - intros k q Hin. destruct (H4 k q Hin) as (w & Hw & Hpw & Hid & Hst).
    assert (Hq : ptr w <> p).
    { intros E. apply (H6 p k eq_refl). congruence. }
    destruct (unlink_In p _ w Hw Hq) as (w' & Hw' & Hs).
    destruct Hs as (Ep & Ei & _ & Es & _).
    exists w'. rewrite Ep, Ei, Es. auto.
  - intros w' Hin _ Hst. apply In_unlink in Hin; [| assumption].
    destruct Hin as [Hp (w & Hw & Ep & Ei & _ & Es & _)].
    rewrite Ep, Ei. apply H5; [assumption | congruence | congruence].
  - intros w' Hin Hc. apply In_unlink in Hin; [| assumption].
    destruct Hin as [Hp (w & Hw & Ep & Ei & Ec & Es & _)].
    rewrite Es. apply H7; congruence.
  - intros w' Hin. apply In_unlink in Hin; [| assumption].
    destruct Hin as [Hp (w & Hw & Ep & _)]. rewrite Ep. apply H8. assumption.
Qed.

(** The frame. *)
Lemma frame_map_ptr (l l' : list win) :
  Forall2 node_frame l l' -> map ptr l' = map ptr l.
Proof.
  induction 1 as [| w w' l l' Hf _ IH]; simpl; [reflexivity |].
  destruct Hf as (-> & _). rewrite IH. reflexivity.
Qed.

Lemma frame_In (l l' : list win) (w' : win) :
  Forall2 node_frame l l' -> In w' l' -> exists w, In w l /\ node_frame w w'.
Proof.
  induction 1 as [| v v' l l' Hf _ IH]; simpl; intros Hin; [contradiction |].
  destruct Hin as [<- | Hin].
  - exists v. auto.
  - destruct (IH Hin) as (w & Hw & Hfw). exists w. auto.
Qed.

Lemma In_frame (l l' : list win) (w : win) :
  Forall2 node_frame l l' -> In w l -> exists w', In w' l' /\ node_frame w w'.
Proof.
  induction 1 as [| v v' l l' Hf _ IH]; simpl; intros Hin; [contradiction |].
  destruct Hin as [<- | Hin].
  - exists v'. auto.
  - destruct (IH Hin) as (w' & Hw & Hfw). exists w'. auto.
Qed.

Lemma inv_except_frame (q : option nat) (ps ps' : session_t) :
  registry_frame ps ps' -> inv_except q ps -> inv_except q ps'.
Proof.
  intros (Hst & Hw & _ & Hn) [H1 H2 H3 H4 H5 H6 H7 H8].
  constructor; rewrite ?Hw, ?Hn; auto.
  - rewrite (frame_map_ptr _ _ Hst). assumption.
  - intros k p Hin. destruct (H4 k p Hin) as (w & Hin' & Hp & Hi & Hs).
    destruct (In_frame _ _ w Hst Hin') as (w' & Hw' & Ep & Ei & _ & _ & Es).
    exists w'. rewrite Ep, Ei. repeat split; auto.
    destruct Es as [-> | [_ ->]]; [assumption | discriminate].
  - intros w' Hin Hq Hs. destruct (frame_In _ _ w' Hst Hin) as (w & Hw' & Ep & Ei & _ & _ & Es).
    rewrite Ep, Ei. apply H5; [assumption | congruence |].
    destruct Es as [<- | [-> _]]; [assumption | discriminate].
  - intros w' Hin Hc. destruct (frame_In _ _ w' Hst Hin) as (w & Hw' & Ep & Ei & Ec & _ & Es).
    rewrite Ec in Hc. pose proof (H7 w Hw' Hc) as Hu.
    destruct Es as [-> | [E _]]; [assumption | congruence].
  - intros w' Hin. destruct (frame_In _ _ w' Hst Hin) as (w & Hw' & Ep & _).
    rewrite Ep. apply H8. assumption.
Qed.

Lemma frame_get_win (l l' : list win) (p : nat) :
  Forall2 node_frame l l' ->
  match get_win l p, get_win l' p with
  | Some w, Some w' => node_frame w w'
  | None, None => True
  | _, _ => False
  end.
Proof.
  unfold get_win. induction 1 as [| v v' l l' Hf _ IH]; simpl; [exact I |].
  destruct Hf as (Ep & Hrest). rewrite Ep.
  destruct (Nat.eqb (ptr v) p); [| exact IH].
  split; assumption.
Qed.

(** ** What the life-cycle functions do to the registry *)

Lemma touches_only_refl (p : nat) (ps : session_t) : touches_only p ps ps.
Proof. repeat split; auto. intros w Hw. exists w. auto. Qed.

Lemma touches_only_trans (p : nat) (ps1 ps2 ps3 : session_t) :
  touches_only p ps1 ps2 -> touches_only p ps2 ps3 -> touches_only p ps1 ps3.
Proof.
  intros (A1 & A2 & A3 & A4 & A5) (B1 & B2 & B3 & B4 & B5).
  repeat split; try congruence; auto.
  intros w3 H3. destruct (B5 w3 H3) as (w2 & H2 & E1 & E2 & E3).
  destruct (A5 w2 H2) as (w1 & H1 & F1 & F2 & F3).
  exists w1. repeat split; congruence.
Qed.

Lemma touches_only_with_win (p q : nat) (ps : session_t) (f : win -> win) :
  core_preserving f -> touches_only p ps (with_win ps q f).
Proof.
  intros Hf. repeat split; simpl.
  - intros r _ Hr. rewrite upd_win_ptr; [assumption | intros w; apply Hf].
  - intros w' Hw'. apply In_upd_win in Hw'. destruct Hw' as (w & Hw & ->).
    exists w. destruct (Nat.eqb (ptr w) q); [| auto].
    destruct (Hf w) as (-> & -> & ->). auto.
Qed.

Lemma touches_only_frame (p : nat) (ps ps' : session_t) :
  registry_frame ps ps' -> touches_only p ps ps'.
Proof.
  intros (Hst & Hw & Hr & Hn). repeat split; auto.
  - intros r _ Hin. rewrite (frame_map_ptr _ _ Hst). assumption.
  - intros w' Hw'. destruct (frame_In _ _ w' Hst Hw') as (w & Hin & E1 & E2 & E3 & _).
    exists w. auto.
Qed.

Lemma In_unlink_same (p : nat) (l : list win) (w' : win) :
  In w' (unlink p l) -> exists w, In w l /\ same_node w w'.
Proof.
  induction l as [| v l IH]; simpl; intros Hin; [contradiction |].
  destruct (Nat.eqb (ptr v) p).
  - destruct l as [| n l]; [contradiction |].
    destruct Hin as [<- | Hin].
    + exists n. split; [right; left; reflexivity | repeat split].
    + exists w'. split; [right; right; assumption | repeat split].
  - destruct Hin as [<- | Hin].
    + exists v. split; [left; reflexivity | repeat split].
    + destruct (IH Hin) as (w & Hw & Hs). exists w. split; [right |]; assumption.
Qed.

Lemma In_ptr_unlink (p r : nat) (l : list win) :
  r <> p -> In r (map ptr l) -> In r (map ptr (unlink p l)).
Proof.
  intros Hr Hin. apply in_map_iff in Hin. destruct Hin as (w & <- & Hw).
  destruct (unlink_In p l w Hw Hr) as (w' & Hw' & E & _).
  rewrite <- E. apply in_map. assumption.
Qed.

Ltac core_tac :=
  let w := fresh "w" in
  intros w; repeat split; reflexivity.

Lemma finish_unmap_win_touches (p : nat) (ps : session_t) :
  touches_only p ps (finish_unmap_win ps p).
Proof. apply touches_only_with_win. core_tac. Qed.

Lemma finish_destroy_win_touches (p : nat) (ps ps' : session_t) :
  finish_destroy_win ps p = Ok ps' -> touches_only p ps ps'.
Proof.
  unfold finish_destroy_win. destruct (get_win _ p) as [w |]; [| discriminate].
  intros [= <-].
  set (ps1 := if negb _ then finish_unmap_win ps p else ps).
  assert (H1 : touches_only p ps ps1).
  { subst ps1. destruct (negb _); [apply finish_unmap_win_touches | apply touches_only_refl]. }
  eapply touches_only_trans; [exact H1 |].
  set (ps2 := set_window_stack _ ps1).
  assert (H2 : touches_only p ps1 ps2).
  { repeat split; simpl.
    - intros r Hr Hin. apply In_ptr_unlink; assumption.
    - intros w' Hw'. apply In_unlink_same in Hw'.
      destruct Hw' as (v & Hv & E1 & E2 & E3 & _). exists v. auto. }
  eapply touches_only_trans; [exact H2 |].
  destruct (active_win _) as [q |]; [destruct (Nat.eqb q p) |];
    try apply touches_only_refl.
  repeat split; simpl; auto. intros w' Hw'. exists w'. auto.
Qed.

Lemma finish_destroy_win_gone (p : nat) (ps ps' : session_t) :
  NoDup (map ptr (window_stack ps)) ->
  finish_destroy_win ps p = Ok ps' -> get_win (window_stack ps') p = None.
Proof.
  unfold finish_destroy_win. destruct (get_win _ p) as [w |]; [| discriminate].
  intros Hnd [= <-]. apply get_win_None.
  set (ps1 := if negb _ then finish_unmap_win ps p else ps).
  assert (Hnd1 : NoDup (map ptr (window_stack ps1))).
  { subst ps1. destruct (negb _); [| assumption].
    simpl. rewrite upd_win_ptr; [assumption | reflexivity]. }
  assert (Hgoal : ~ In p (map ptr (unlink p (window_stack ps1)))).
  { intros Hin. apply in_map_iff in Hin. destruct Hin as (x & Ex & Hx).
    apply In_unlink in Hx; [| assumption]. tauto. }
  destruct (active_win _) as [q |]; [destruct (Nat.eqb q p) |]; exact Hgoal.
Qed.

Lemma finish_destroy_win_inv (p : nat) (ps ps' : session_t) :
  inv_except (Some p) ps ->
  finish_destroy_win ps p = Ok ps' -> inv_except None ps'.
Proof.
  unfold finish_destroy_win. destruct (get_win _ p) as [w |] eqn:Hw; [| discriminate].
  intros Hinv [= <-].
  set (ps1 := if negb _ then finish_unmap_win ps p else ps).
  assert (H1 : inv_except (Some p) ps1).
  { subst ps1. destruct (winstate_eqb (state w) WSTATE_UNMAPPED); simpl; [assumption |].
    apply inv_except_upd; [assumption | core_tac |].
    intros v _. split; [reflexivity | left; reflexivity]. }
  apply inv_except_unlink in H1.
  destruct (active_win _) as [q |]; [destruct (Nat.eqb q p) |];
    (eapply inv_except_ext; [| | | exact H1]; reflexivity).
Qed.

Lemma winstate_eqb_eq (a b : winstate_t) : winstate_eqb a b = true <-> a = b.
Proof. destruct a, b; simpl; split; (reflexivity || discriminate). Qed.

Lemma winstate_eqb_neq (a b : winstate_t) : winstate_eqb a b = false <-> a <> b.
Proof. destruct a, b; simpl; split; (congruence || discriminate || reflexivity || auto). Qed.

Lemma class_eqb_eq (a b : window_class) : class_eqb a b = true <-> a = b.
Proof. destruct a, b; simpl; split; (reflexivity || discriminate). Qed.

Lemma get_win_all (l : list win) (p : nat) (w : win) :
  NoDup (map ptr l) -> get_win l p = Some w ->
  forall v, In v l -> ptr v = p -> v = w.
Proof.
  intros Hnd Hw v Hv Ep. subst p.
  rewrite (get_win_NoDup l v Hnd Hv) in Hw. congruence.
Qed.

Lemma win_check_fade_finished_touches (p : nat) (ps ps' : session_t) :
  win_check_fade_finished ps p = Ok ps' -> touches_only p ps ps'.
Proof.
  unfold win_check_fade_finished. destruct (get_win _ p) as [w |]; [| discriminate].
  destruct (not_fading (state w)).
  - destruct (assert _); simpl; [| discriminate]. intros [= <-]. apply touches_only_refl.
  - destruct (PrimFloat.eqb _ _); [| intros [= <-]; apply touches_only_refl].
    destruct (state w); try discriminate; try (intros [= <-]).
    + apply touches_only_with_win; core_tac.
    + apply touches_only_with_win; core_tac.
    + apply touches_only_with_win; core_tac.
    + apply finish_destroy_win_touches.
Qed.

Lemma win_check_fade_finished_inv (p : nat) (ps ps' : session_t) :
  inv_except None ps ->
  win_check_fade_finished ps p = Ok ps' -> inv_except None ps'.
Proof.
  intros Hinv. unfold win_check_fade_finished.
  destruct (get_win _ p) as [w |] eqn:Hw; [| discriminate].
  pose proof (get_win_In _ _ _ Hw) as [Hin Hp].
  destruct (not_fading (state w)).
  - destruct (assert _); simpl; [| discriminate]. intros [= <-]. assumption.
  - destruct (PrimFloat.eqb _ _); [| intros [= <-]; assumption].
    destruct (state w) eqn:Hs; try discriminate; try (intros [= <-]).
    + apply inv_except_upd; [assumption | core_tac |].
      intros v Hv. rewrite Hw in Hv. injection Hv as <-. simpl. split.
      * intros Hc. apply (ie_input_only _ _ Hinv) in Hc; [congruence | assumption].
      * right. rewrite Hs. split; discriminate.
    + apply inv_except_upd; [assumption | core_tac |].
      intros v Hv. rewrite Hw in Hv. injection Hv as <-. simpl. split.
      * intros Hc. apply (ie_input_only _ _ Hinv) in Hc; [congruence | assumption].
      * right. rewrite Hs. split; discriminate.
    + apply inv_except_upd; [assumption | core_tac |].
      intros v Hv. rewrite Hw in Hv. injection Hv as <-. simpl. split.
      * reflexivity.
      * right. rewrite Hs. split; discriminate.
    + apply finish_destroy_win_inv. apply inv_except_exempt; [assumption |].
      intros v Hv Ev.
      rewrite (get_win_all _ _ _ (ie_nodup_ptr _ _ Hinv) Hw v Hv Ev). assumption.
Qed.

(** A node leaves the stack in [win_check_fade_finished] only when it is
    being destroyed and its opacity has reached the target. *)
Lemma win_check_fade_finished_gone (p : nat) (ps ps' : session_t) (w : win) :
  get_win (window_stack ps) p = Some w ->
  win_check_fade_finished ps p = Ok ps' ->
  get_win (window_stack ps') p = None ->
  state w = WSTATE_DESTROYING /\ PrimFloat.eqb (opacity w) (opacity_tgt w) = true.
Proof.
  intros Hw. unfold win_check_fade_finished. rewrite Hw.
  assert (Hkeep : forall f, (forall v, ptr (f v) = ptr v) ->
                            get_win (window_stack (with_win ps p f)) p <> None).
  { intros f Hf. simpl. rewrite get_win_upd_same, Hw by assumption. discriminate. }
  destruct (not_fading (state w)).
  - destruct (assert _); simpl; [| discriminate]. intros [= <-]. congruence.
  - destruct (PrimFloat.eqb _ _); [| intros [= <-]; congruence].
    destruct (state w); try discriminate; try (intros [= <-]); intros Hnone;
      try (exfalso; revert Hnone; apply Hkeep; reflexivity).
    split; reflexivity.
Qed.

Lemma inv_except_upd_same (q : option nat) (ps : session_t) (p : nat) (f : win -> win) :
  state_preserving f -> inv_except q ps -> inv_except q (with_win ps p f).
Proof.
  intros Hf Hinv. apply inv_except_upd; [assumption | |].
  - intros w. destruct (Hf w) as (? & ? & ? & _). auto.
  - intros w Hw. apply get_win_In in Hw. destruct Hw as [Hin _].
    destruct (Hf w) as (_ & _ & _ & Es). rewrite Es. split; [| right; tauto].
    apply (ie_input_only _ _ Hinv). assumption.
Qed.

Ltac same_tac :=
  let w := fresh "w" in
  intros w; repeat split; reflexivity.

Lemma upd_win_at (p : nat) (f : win -> win) (l : list win) (v : win) :
  (forall w, ptr (f w) = ptr w) ->
  In v (upd_win p f l) -> ptr v = p -> exists v0, In v0 l /\ ptr v0 = p /\ v = f v0.
Proof.
  intros Hf Hin Hp. apply In_upd_win in Hin. destruct Hin as (v0 & Hv0 & ->).
  destruct (Nat.eqb_spec (ptr v0) p) as [E | E].
  - exists v0. auto.
  - contradiction.
Qed.

Lemma win_skip_fading_touches (p : nat) (ps ps' : session_t) :
  win_skip_fading ps p = Ok ps' -> touches_only p ps ps'.
Proof.
  unfold win_skip_fading. destruct (get_win _ p) as [w |]; [| discriminate].
  destruct (not_fading (state w)).
  - destruct (assert _); simpl; [| discriminate]. intros [= <-]. apply touches_only_refl.
  - intros H. apply win_check_fade_finished_touches in H.
    eapply touches_only_trans; [| exact H].
    apply touches_only_with_win. core_tac.
Qed.

Lemma win_skip_fading_inv (p : nat) (ps ps' : session_t) :
  inv_except None ps -> win_skip_fading ps p = Ok ps' -> inv_except None ps'.
Proof.
  intros Hinv. unfold win_skip_fading. destruct (get_win _ p) as [w |]; [| discriminate].
  destruct (not_fading (state w)).
  - destruct (assert _); simpl; [| discriminate]. intros [= <-]. assumption.
  - apply win_check_fade_finished_inv.
    apply inv_except_upd_same; [same_tac | assumption].
Qed.

Lemma touches_only_node (p r : nat) (ps ps' : session_t) (w v : win) :
  NoDup (map ptr (window_stack ps)) ->
  touches_only p ps ps' ->
  get_win (window_stack ps) r = Some w ->
  get_win (window_stack ps') r = Some v ->
  id v = id w /\ a_class v = a_class w.
Proof.
  intros Hnd (_ & _ & _ & _ & H5) Hw Hv.
  apply get_win_In in Hv. destruct Hv as [Hv Hr].
  destruct (H5 v Hv) as (w0 & Hw0 & E1 & E2 & E3).
  rewrite (get_win_all _ _ _ Hnd Hw w0 Hw0) in * by congruence. auto.
Qed.

Lemma indexed_node (q : option nat) (ps : session_t) (k : xcb_window_t) (r : nat) (v : win) :
  inv_except q ps ->
  In (k, r) (windows ps) ->
  get_win (window_stack ps) r = Some v ->
  id v = k /\ state v <> WSTATE_DESTROYING.
Proof.
  intros Hinv Hin Hv. destruct (ie_index _ _ Hinv k r Hin) as (x & Hx & Ex & Ei & Es).
  rewrite (get_win_all _ _ _ (ie_nodup_ptr _ _ Hinv) Hv x Hx Ex) in *. auto.
Qed.

Section LifecycleProofs.

Variable win_is_focused_real : session_t -> win -> bool.
Variable win_set_focused : session_t -> nat -> bool -> session_t.
Variable map_win_refresh : session_t -> nat -> session_t.

Hypothesis win_set_focused_frame :
  forall ps p b, registry_frame ps (win_set_focused ps p b).
Hypothesis map_win_refresh_frame :
  forall ps p, registry_frame ps (map_win_refresh ps p).

Local Abbreviation unmap_win := (unmap_win win_is_focused_real win_set_focused).
Local Abbreviation map_win := (map_win win_is_focused_real map_win_refresh).
Local Abbreviation handle := (handle win_is_focused_real win_set_focused map_win_refresh).
Local Abbreviation run := (run win_is_focused_real win_set_focused map_win_refresh).
Local Abbreviation unmap_win_fade := (unmap_win_fade win_is_focused_real win_set_focused).
Local Abbreviation map_win_fade := (map_win_fade win_is_focused_real map_win_refresh).

Lemma unmap_win_unfold (ps : session_t) (p : nat) (destroy : bool) (w : win) :
  get_win (window_stack ps) p = Some w ->
  unmap_win ps (Some p) destroy =
  let target_state := if destroy then WSTATE_DESTROYING else WSTATE_UNMAPPING in
  if negb destroy && class_eqb (a_class w) XCB_WINDOW_CLASS_INPUT_ONLY then Ok ps
  else
    _ <- assert (negb (winstate_eqb (state w) WSTATE_DESTROYING && negb destroy)) ;;
    if winstate_eqb (state w) target_state then Ok ps
    else
      let ps1 := if destroy then set_windows (HASH_DEL (windows ps) p) ps else ps in
      if winstate_eqb (state w) WSTATE_UNMAPPED
         || class_eqb (a_class w) XCB_WINDOW_CLASS_INPUT_ONLY
      then (if negb destroy then Ok ps1 else finish_destroy_win ps1 p)
      else
        let ps4 := unmap_win_fade ps1 p destroy in
        if negb (redirected ps4) then win_skip_fading ps4 p else Ok ps4.
Proof.
  intros Hw. unfold Win.unmap_win. rewrite Hw. reflexivity.
Qed.

Lemma unmap_win_fade_touches (ps1 : session_t) (p : nat) (destroy : bool) :
  touches_only p ps1 (unmap_win_fade ps1 p destroy).
Proof.
  unfold Win.unmap_win_fade.
  eapply touches_only_trans; [apply touches_only_frame, win_set_focused_frame |].
  eapply touches_only_trans; apply touches_only_with_win; core_tac.
Qed.

(** The node after [unmap_win] has started its fade-out. *)
Lemma unmap_win_fade_node (ps1 : session_t) (p : nat) (destroy : bool) (w : win) :
  get_win (window_stack ps1) p = Some w ->
  exists w',
    get_win (window_stack (unmap_win_fade ps1 p destroy)) p = Some w' /\
    ptr w' = ptr w /\ id w' = id w /\ a_class w' = a_class w /\
    opacity w' = opacity w /\
    state w' = (if destroy then WSTATE_DESTROYING else WSTATE_UNMAPPING) /\
    opacity_tgt w' = 0%float.
Proof.
  intros Hw. unfold Win.unmap_win_fade.
  pose proof (frame_get_win _ _ p (proj1 (win_set_focused_frame ps1 p false))) as Hf.
  rewrite Hw in Hf.
  destruct (get_win (window_stack (win_set_focused ps1 p false)) p) as [v |] eqn:Hv;
    [| contradiction].
  destruct Hf as (Ep & Ei & Ec & Eo & _).
  simpl. rewrite !get_win_upd_same by reflexivity. rewrite Hv. simpl.
  eexists. split; [reflexivity |]. simpl. repeat split; auto.
  unfold win_calc_opacity_target. simpl. destruct destroy; reflexivity.
Qed.

Lemma unmap_win_inv (ps ps' : session_t) (p : nat) (destroy : bool) :
  inv_except None ps ->
  unmap_win ps (Some p) destroy = Ok ps' -> inv_except None ps'.
Proof.
  intros Hinv.
  destruct (get_win (window_stack ps) p) as [w |] eqn:Hw;
    [| unfold Win.unmap_win; rewrite Hw; discriminate].
  rewrite (unmap_win_unfold _ _ _ _ Hw). cbv zeta.
  destruct (negb destroy && _) eqn:Hio; [intros [= <-]; assumption |].
  destruct (assert _) eqn:Ha; simpl; [| discriminate].
  destruct (winstate_eqb (state w) (if destroy then _ else _)) eqn:Ht;
    [intros [= <-]; assumption |].
  assert (Hnd : state w <> WSTATE_DESTROYING).
  { destruct destroy.
    - apply winstate_eqb_neq. exact Ht.
    - unfold assert in Ha. rewrite andb_true_r in Ha.
      destruct (winstate_eqb (state w) WSTATE_DESTROYING) eqn:E; [discriminate |].
      apply winstate_eqb_neq. exact E. }
  set (ps1 := if destroy then set_windows (HASH_DEL (windows ps) p) ps else ps).
  assert (Hstack1 : window_stack ps1 = window_stack ps)
    by (subst ps1; destruct destroy; reflexivity).
  assert (Hinv1 : inv_except (if destroy then Some p else None) ps1).
  { subst ps1. destruct destroy; [apply inv_except_HASH_DEL |]; assumption. }
  destruct (_ || _) eqn:Hb.
  - destruct destroy; simpl.
    + apply finish_destroy_win_inv. assumption.
    + intros [= <-]. assumption.
  - apply orb_false_iff in Hb. destruct Hb as [Hnu Hnc].
    assert (Hclass : a_class w <> XCB_WINDOW_CLASS_INPUT_ONLY).
    { intros E. apply class_eqb_eq in E. congruence. }
    assert (Hinv4 : inv_except None (unmap_win_fade ps1 p destroy)).
    { unfold Win.unmap_win_fade.
      set (ps2 := win_set_focused ps1 p false).
      assert (Hinv2 : inv_except (if destroy then Some p else None) ps2)
        by (eapply inv_except_frame; [apply win_set_focused_frame | exact Hinv1]).
      pose proof (frame_get_win _ _ p (proj1 (win_set_focused_frame ps1 p false))) as Hf.
      rewrite Hstack1, Hw in Hf. fold ps2 in Hf.
      destruct (get_win (window_stack ps2) p) as [v |] eqn:Hv; [| contradiction].
      destruct Hf as (Ep & Ei & Ec & Eo & Es).
      apply inv_except_upd_same; [same_tac |].
      destruct destroy.
      - apply inv_except_unexempt with (p := p).
        + apply inv_except_upd; [assumption | core_tac |].
          intros v' Hv'. split; [| left; reflexivity].
          rewrite Hv in Hv'. injection Hv' as <-. congruence.
        + simpl. intros x Hx Ex. apply upd_win_at in Hx; [| reflexivity | assumption].
          destruct Hx as (x0 & _ & _ & ->). reflexivity.
      - apply inv_except_upd; [assumption | core_tac |].
        intros v' Hv'. rewrite Hv in Hv'. injection Hv' as <-. simpl.
        split; [congruence |]. right. split; [discriminate |].
        intros Ed. destruct Es as [Es | [_ Es]]; congruence. }
    destruct (negb (redirected _)); [| intros [= <-]; assumption].
    apply win_skip_fading_inv. assumption.
Qed.

Lemma unmap_win_keeps (ps ps' : session_t) (p : nat) (destroy : bool) :
  unmap_win ps (Some p) destroy = Ok ps' ->
  next_ptr ps' = next_ptr ps /\
  forall r, r <> p -> In r (map ptr (window_stack ps)) ->
            In r (map ptr (window_stack ps')).
Proof.
  destruct (get_win (window_stack ps) p) as [w |] eqn:Hw;
    [| unfold Win.unmap_win; rewrite Hw; discriminate].
  rewrite (unmap_win_unfold _ _ _ _ Hw). cbv zeta.
  destruct (negb destroy && _); [intros [= <-]; auto |].
  destruct (assert _); simpl; [| discriminate].
  destruct (winstate_eqb (state w) (if destroy then _ else _)); [intros [= <-]; auto |].
  set (ps1 := if destroy then set_windows (HASH_DEL (windows ps) p) ps else ps).
  assert (H1 : next_ptr ps1 = next_ptr ps /\ window_stack ps1 = window_stack ps)
    by (subst ps1; destruct destroy; auto).
  destruct H1 as [Hn1 Hs1]. rewrite <- Hn1, <- Hs1.
  destruct (_ || _).
  - destruct (negb destroy); [intros [= <-]; auto |].
    intros H. apply finish_destroy_win_touches in H. destruct H as (_ & ? & _ & ? & _). auto.
  - pose proof (unmap_win_fade_touches ps1 p destroy) as H4.
    destruct (negb (redirected _)).
    + intros H. apply win_skip_fading_touches in H.
      destruct (touches_only_trans _ _ _ _ H4 H) as (_ & ? & _ & ? & _). auto.
    + intros [= <-]. destruct H4 as (_ & ? & _ & ? & _). auto.
Qed.

(** The destroyed window is out of the id index when [unmap_win]
    returns, whatever happens to the node. *)
Lemma unmap_win_destroy_windows (ps ps' : session_t) (p : nat) (w : win) :
  get_win (window_stack ps) p = Some w ->
  state w <> WSTATE_DESTROYING ->
  unmap_win ps (Some p) true = Ok ps' ->
  windows ps' = HASH_DEL (windows ps) p.
Proof.
  intros Hw Hnd. rewrite (unmap_win_unfold _ _ _ _ Hw). cbv zeta. simpl.
  apply winstate_eqb_neq in Hnd. rewrite Hnd. simpl.
  set (ps1 := set_windows (HASH_DEL (windows ps) p) ps).
  destruct (_ || _).
  - intros H. apply finish_destroy_win_touches in H. destruct H as (-> & _). reflexivity.
  - pose proof (unmap_win_fade_touches ps1 p true) as H4.
    destruct (negb (redirected _)).
    + intros H. apply win_skip_fading_touches in H.
      destruct (touches_only_trans _ _ _ _ H4 H) as (-> & _). reflexivity.
    + intros [= <-]. destruct H4 as (-> & _). reflexivity.
Qed.

(** While the screen is redirected, the node of a window destroyed in
    the middle of a fade stays in the stack, in the state DESTROYING,
    with the opacity it had and the target 0. *)
Lemma unmap_win_destroy_node (ps ps' : session_t) (p : nat) (w : win) :
  get_win (window_stack ps) p = Some w ->
  state w <> WSTATE_DESTROYING ->
  state w <> WSTATE_UNMAPPED ->
  a_class w <> XCB_WINDOW_CLASS_INPUT_ONLY ->
  redirected ps = true ->
  unmap_win ps (Some p) true = Ok ps' ->
  exists w',
    get_win (window_stack ps') p = Some w' /\ id w' = id w /\
    state w' = WSTATE_DESTROYING /\ opacity w' = opacity w /\
    opacity_tgt w' = 0%float.
Proof.
  intros Hw Hnd Hnu Hnc Hred. rewrite (unmap_win_unfold _ _ _ _ Hw).
  cbv beta iota zeta.
  apply winstate_eqb_neq in Hnd, Hnu. rewrite Hnd, Hnu.
  destruct (class_eqb (a_class w) XCB_WINDOW_CLASS_INPUT_ONLY) eqn:Hc;
    [apply class_eqb_eq in Hc; contradiction |].
  cbn [negb andb orb assert bind].
  set (ps1 := set_windows (HASH_DEL (windows ps) p) ps).
  destruct (unmap_win_fade_touches ps1 p true) as (_ & _ & Hr & _ & _).
  rewrite Hr. subst ps1. cbn [redirected set_windows]. rewrite Hred.
  cbn [negb]. intros [= <-].
  destruct (unmap_win_fade_node (set_windows (HASH_DEL (windows ps) p) ps) p true w Hw) as (w' & H1 & _ & H2 & _ & H3 & H4 & H5).
  exists w'. auto.
Qed.

(** While the screen is not redirected the fade is skipped: the opacity
    is set to the target and the node is freed at once. *)
Lemma unmap_win_destroy_skipped (ps ps' : session_t) (p : nat) (w : win) :
  NoDup (map ptr (window_stack ps)) ->
  get_win (window_stack ps) p = Some w ->
  state w <> WSTATE_DESTROYING ->
  redirected ps = false ->
  unmap_win ps (Some p) true = Ok ps' ->
  get_win (window_stack ps') p = None.
Proof.
  intros Hnodup Hw Hnd Hred. rewrite (unmap_win_unfold _ _ _ _ Hw).
  cbv beta iota zeta.
  apply winstate_eqb_neq in Hnd. rewrite Hnd.
  cbn [negb andb orb assert bind].
  set (ps1 := set_windows (HASH_DEL (windows ps) p) ps).
  assert (Hnd1 : NoDup (map ptr (window_stack ps1))) by exact Hnodup.
  destruct (_ || _).
  - apply finish_destroy_win_gone. exact Hnd1.
  - destruct (unmap_win_fade_touches ps1 p true) as (_ & _ & Hr & _ & _).
    rewrite Hr. subst ps1. cbn [redirected set_windows]. rewrite Hred. cbn [negb].
    set (ps1 := set_windows (HASH_DEL (windows ps) p) ps) in *.
    destruct (unmap_win_fade_node ps1 p true w Hw)
      as (w' & H1 & _ & _ & _ & _ & H3 & H4).
    assert (Hnd4 : NoDup (map ptr (window_stack (unmap_win_fade ps1 p true)))).
    { unfold Win.unmap_win_fade. simpl. rewrite !upd_win_ptr by reflexivity.
      rewrite (frame_map_ptr _ _ (proj1 (win_set_focused_frame ps1 p false))).
      exact Hnd1. }
    unfold win_skip_fading. rewrite H1, H3. cbn [not_fading winstate_eqb orb].
    unfold win_check_fade_finished.
    cbn [window_stack with_win set_window_stack].
    rewrite get_win_upd_same, H1 by reflexivity.
    cbn [option_map state set_opacity opacity opacity_tgt not_fading winstate_eqb orb].
    rewrite H4. change (PrimFloat.eqb 0 0) with true. rewrite H3.
    cbn [not_fading winstate_eqb orb]. cbv iota.
    apply finish_destroy_win_gone.
    cbn [window_stack with_win set_window_stack].
    rewrite upd_win_ptr by reflexivity. exact Hnd4.
Qed.

(** ** [map_win] *)

Lemma map_win_unfold (ps : session_t) (p : nat) (g : option (Z * Z)) (w : win) :
  get_win (window_stack ps) p = Some w ->
  map_win ps p g =
  if class_eqb (a_class w) XCB_WINDOW_CLASS_INPUT_ONLY then Ok ps
  else
    _ <- assert (negb (winstate_eqb (state w) WSTATE_DESTROYING)) ;;
    if negb (winstate_eqb (state w) WSTATE_UNMAPPED)
       && negb (winstate_eqb (state w) WSTATE_UNMAPPING)
    then Ok ps
    else
      ps1 <- (if winstate_eqb (state w) WSTATE_UNMAPPING
              then win_skip_fading ps p else Ok ps) ;;
      match g with
      | None => Ok ps1
      | Some (width, height) =>
          let ps4 := map_win_fade ps1 p width height in
          if negb (redirected ps4) then win_skip_fading ps4 p else Ok ps4
      end.
Proof.
  intros Hw. unfold Win.map_win. rewrite Hw.
  destruct (class_eqb _ _); [reflexivity |].
  destruct (assert _); [| reflexivity]. simpl.
  destruct (_ && _); [reflexivity |].
  destruct (if winstate_eqb (state w) WSTATE_UNMAPPING then _ else _); [| reflexivity].
  simpl. destruct g as [[width height] |]; reflexivity.
Qed.

Lemma map_win_fade_touches (ps1 : session_t) (p : nat) (width height : Z) :
  touches_only p ps1 (map_win_fade ps1 p width height).
Proof.
  unfold Win.map_win_fade.
  set (psa := with_win ps1 p _).
  set (psb := map_win_refresh psa p).
  set (psc := with_win psb p _).
  apply touches_only_trans with psa; [apply touches_only_with_win; core_tac |].
  apply touches_only_trans with psb; [apply touches_only_frame, map_win_refresh_frame |].
  apply touches_only_trans with psc; apply touches_only_with_win; core_tac.
Qed.

Lemma map_win_touches (ps ps' : session_t) (p : nat) (g : option (Z * Z)) :
  map_win ps p g = Ok ps' -> touches_only p ps ps'.
Proof.
  destruct (get_win (window_stack ps) p) as [w |] eqn:Hw;
    [| unfold Win.map_win; rewrite Hw; discriminate].
  rewrite (map_win_unfold _ _ _ _ Hw).
  destruct (class_eqb _ _); [intros [= <-]; apply touches_only_refl |].
  destruct (assert _); simpl; [| discriminate].
  destruct (_ && _); [intros [= <-]; apply touches_only_refl |].
  destruct (if winstate_eqb (state w) WSTATE_UNMAPPING then _ else _) as [ps1 |] eqn:H1;
    simpl; [| discriminate].
  assert (T1 : touches_only p ps ps1).
  { destruct (winstate_eqb (state w) WSTATE_UNMAPPING).
    - apply win_skip_fading_touches. assumption.
    - injection H1 as <-. apply touches_only_refl. }
  destruct g as [[width height] |]; [| intros [= <-]; assumption].
  pose proof (map_win_fade_touches ps1 p width height) as T4.
  destruct (negb (redirected _)).
  - intros H. apply win_skip_fading_touches in H.
    apply touches_only_trans with ps1; [exact T1 |].
    eapply touches_only_trans; [exact T4 | exact H].
  - intros [= <-]. eapply touches_only_trans; eassumption.
Qed.

Lemma map_win_inv (ps ps' : session_t) (p : nat) (g : option (Z * Z)) :
  inv_except None ps -> map_win ps p g = Ok ps' -> inv_except None ps'.
Proof.
  intros Hinv.
  destruct (get_win (window_stack ps) p) as [w |] eqn:Hw;
    [| unfold Win.map_win; rewrite Hw; discriminate].
  rewrite (map_win_unfold _ _ _ _ Hw).
  destruct (class_eqb _ _) eqn:Hc; [intros [= <-]; assumption |].
  assert (Hclass : a_class w <> XCB_WINDOW_CLASS_INPUT_ONLY).
  { intros E. apply class_eqb_eq in E. congruence. }
  destruct (assert _) eqn:Ha; simpl; [| discriminate].
  assert (Hnd : state w <> WSTATE_DESTROYING).
  { unfold assert in Ha.
    destruct (winstate_eqb (state w) WSTATE_DESTROYING) eqn:E; [discriminate |].
    apply winstate_eqb_neq. exact E. }
  destruct (_ && _); [intros [= <-]; assumption |].
  destruct (if winstate_eqb (state w) WSTATE_UNMAPPING then _ else _) as [ps1 |] eqn:H1;
    simpl; [| discriminate].
  assert (Hinv1 : inv_except None ps1 /\ touches_only p ps ps1).
  { destruct (winstate_eqb (state w) WSTATE_UNMAPPING).
    - split; [eapply win_skip_fading_inv | apply win_skip_fading_touches]; eassumption.
    - injection H1 as <-. split; [assumption | apply touches_only_refl]. }
  destruct Hinv1 as [Hinv1 T1].
  destruct g as [[width height] |]; [| intros [= <-]; assumption].
  assert (Hinv4 : inv_except None (map_win_fade ps1 p width height)).
  { unfold Win.map_win_fade.
    set (psa := with_win ps1 p _).
    set (psb := map_win_refresh psa p).
    assert (Ha' : inv_except None psa)
      by (apply inv_except_upd_same; [same_tac | assumption]).
    assert (Hb : inv_except None psb)
      by (eapply inv_except_frame; [apply map_win_refresh_frame | exact Ha']).
    apply inv_except_upd_same; [same_tac |].
    apply inv_except_upd; [assumption | core_tac |].
    intros v Hv. simpl.
    assert (Tb : touches_only p ps psb).
    { apply touches_only_trans with ps1; [exact T1 |].
      apply touches_only_trans with psa;
        [apply touches_only_with_win; core_tac
        | apply touches_only_frame, map_win_refresh_frame]. }
    destruct (touches_only_node p p ps psb w v (ie_nodup_ptr _ _ Hinv) Tb Hw Hv)
      as [Ei Ec].
    assert (Hidx : In (id w, p) (windows psb)).
    { destruct Tb as (-> & _). destruct (get_win_In _ _ _ Hw) as [Hwin <-].
      apply (ie_indexed _ _ Hinv); [assumption | discriminate | assumption]. }
    destruct (indexed_node _ _ _ _ _ Hb Hidx Hv) as [_ Hvs].
    split; [congruence |].
    right. split; [discriminate | contradiction]. }
  destruct (negb (redirected _)); [| intros [= <-]; assumption].
  apply win_skip_fading_inv. assumption.
Qed.

(** ** [find_win] and [add_win] *)

Lemma find_win_Some (ps : session_t) (wid : xcb_window_t) (p : nat) :
  find_win ps wid = Ok (Some p) ->
  In (wid, p) (windows ps) /\
  exists w, get_win (window_stack ps) p = Some w /\ state w <> WSTATE_DESTROYING.
Proof.
  unfold find_win. destruct (wid =? 0); [discriminate |].
  destruct (HASH_FIND_INT _ wid) as [q |] eqn:Hq; [| discriminate].
  destruct (get_win _ q) as [w |] eqn:Hw; [| discriminate].
  unfold assert. destruct (winstate_eqb _ _) eqn:Hs; simpl; [discriminate |].
  intros [= <-]. split; [apply HASH_FIND_INT_In; assumption |].
  exists w. split; [assumption | apply winstate_eqb_neq; assumption].
Qed.

Lemma find_win_None (ps : session_t) (wid : xcb_window_t) :
  wid <> 0 -> find_win ps wid = Ok None -> ~ In wid (map fst (windows ps)).
Proof.
  unfold find_win. intros Hz. apply Z.eqb_neq in Hz. rewrite Hz.
  destruct (HASH_FIND_INT _ wid) as [q |] eqn:Hq.
  - destruct (get_win _ q); [| discriminate].
    destruct (assert _); discriminate.
  - intros _. apply HASH_FIND_INT_None. assumption.
Qed.

(** In a session that satisfies the invariant [find_win] never fails:
    its assertion holds. *)
Lemma find_win_total (ps : session_t) (wid : xcb_window_t) :
  inv_except None ps -> exists r, find_win ps wid = Ok r.
Proof.
  intros Hinv. unfold find_win. destruct (wid =? 0); [eexists; reflexivity |].
  destruct (HASH_FIND_INT _ wid) as [q |] eqn:Hq; [| eexists; reflexivity].
  apply HASH_FIND_INT_In in Hq.
  destruct (ie_index _ _ Hinv _ _ Hq) as (w & Hw & Ep & _ & Es).
  rewrite <- Ep, (get_win_NoDup _ _ (ie_nodup_ptr _ _ Hinv) Hw).
  apply winstate_eqb_neq in Es. rewrite Es. eexists; reflexivity.
Qed.

Lemma In_insert_above (pw : nat) (new : win) (l : list win) (w : win) :
  In w (insert_above pw new l) <-> w = new \/ In w l.
Proof.
  induction l as [| v l IH]; simpl.
  - intuition.
  - destruct (Nat.eqb (ptr v) pw); simpl; [intuition |].
    rewrite IH. intuition.
Qed.

Lemma NoDup_insert_above (pw : nat) (new : win) (l : list win) :
  ~ In (ptr new) (map ptr l) -> NoDup (map ptr l) ->
  NoDup (map ptr (insert_above pw new l)).
Proof.
  induction l as [| v l IH]; simpl; intros Hnew Hnd.
  - constructor; [tauto | constructor].
  - inversion Hnd as [| ? ? Hnotin Hnd']; subst.
    destruct (Nat.eqb (ptr v) pw); simpl.
    + constructor; [exact Hnew | exact Hnd].
    + constructor; [| apply IH; tauto].
      intros Hin. apply in_map_iff in Hin. destruct Hin as (x & Ex & Hx).
      apply In_insert_above in Hx. destruct Hx as [-> | Hx].
      * apply Hnew. left. congruence.
      * apply Hnotin. rewrite <- Ex. apply in_map. assumption.
Qed.

Lemma add_win_cases (ps ps' : session_t) (wid : positive) (prev : xcb_window_t)
  (a : option window_attributes) (damage_error : bool) :
  inv_except None ps ->
  add_win ps (Z.pos wid) prev a damage_error = Ok ps' ->
  ps' = ps \/
  (find_win ps (Z.pos wid) = Ok None /\ exists a', a = Some a' /\ added ps ps' (Z.pos wid) a').
Proof.
  intros Hinv. unfold add_win.
  destruct (_ =? overlay ps); [intros [= <-]; auto |].
  destruct (find_win ps (Z.pos wid)) as [[d |] |] eqn:Hfind; simpl;
    [intros [= <-]; auto | | discriminate].
  destruct a as [a |]; [| intros [= <-]; auto].
  assert (Hfresh : ~ In (next_ptr ps) (map ptr (window_stack ps))).
  { intros Hin. apply in_map_iff in Hin. destruct Hin as (x & Ex & Hx).
    apply (ie_fresh _ _ Hinv) in Hx. lia. }
  cbv zeta.
  set (new := win_def (next_ptr ps) (Z.pos wid) a).
  set (stk := if prev =? 0 then _ else _).
  assert (Hstack : forall r, stk = Ok r ->
             NoDup (map ptr r) /\
             (forall w, In w r <-> w = new \/ In w (window_stack ps))).
  { intros r. subst stk. destruct (prev =? 0).
    - intros [= <-]. split.
      + simpl. constructor; [exact Hfresh | apply (ie_nodup_ptr _ _ Hinv)].
      + intros w. simpl. intuition.
    - destruct (HASH_FIND_INT _ prev) as [pw |]; [| discriminate].
      destruct (get_win _ pw) as [w0 |]; [| discriminate]. intros [= <-]. split.
      + apply NoDup_insert_above; [exact Hfresh | apply (ie_nodup_ptr _ _ Hinv)].
      + intros w. apply In_insert_above. }
  clearbody stk.
  assert (Hgoal : (stack <- stk ;;
                   Ok {| o := o ps; window_stack := stack;
                         windows := HASH_ADD_INT (windows ps) (Z.pos wid) (next_ptr ps);
                         redirected := redirected ps; active_win := active_win ps;
                         overlay := overlay ps; next_ptr := S (next_ptr ps) |}) = Ok ps' ->
                  ps' = ps \/
                  (Ok None = Ok (@None nat) /\
                   exists a', Some a = Some a' /\ added ps ps' (Z.pos wid) a')).
  { destruct stk as [r |]; simpl; [| discriminate].
    destruct (Hstack r eq_refl) as [Hnd Hin]. intros [= <-]. right.
    split; [reflexivity |]. exists a. split; [reflexivity |].
    repeat split; simpl; auto; apply Hin. }
  destruct (wa_map_state a); try (intros [= <-]; auto; fail);
    (destruct (_ && damage_error); [intros [= <-]; auto | exact Hgoal]).
Qed.

Lemma added_inv (ps ps' : session_t) (wid : xcb_window_t) (a : window_attributes) :
  inv_except None ps ->
  wid <> 0 ->
  ~ In wid (map fst (windows ps)) ->
  added ps ps' wid a -> inv_except None ps'.
Proof.
  intros Hinv Hz Hkey (Hw & Hn & _ & Hnd & Hin).
  constructor; rewrite ?Hw, ?Hn; unfold HASH_ADD_INT; try discriminate.
  - exact Hnd.
  - rewrite map_app. simpl. apply NoDup_app; repeat split.
    + apply (ie_nodup_key _ _ Hinv).
    + constructor; [simpl; tauto | constructor].
    + intros k Hk [<- | []]. contradiction.
  - intros k p Hkp. apply in_app_iff in Hkp. destruct Hkp as [Hkp | [[= <- <-] | []]].
    + apply (ie_key_nonzero _ _ Hinv k p). assumption.
    + assumption.
  - intros k p Hkp. apply in_app_iff in Hkp. destruct Hkp as [Hkp | [[= <- <-] | []]].
    + destruct (ie_index _ _ Hinv k p Hkp) as (w & Hwin & E).
      exists w. split; [apply Hin; right; assumption | exact E].
    + exists (win_def (next_ptr ps) wid a). split; [apply Hin; left; reflexivity |].
      simpl. repeat split. discriminate.
  - intros w Hwin _ Hst. apply Hin in Hwin. apply in_app_iff.
    destruct Hwin as [-> | Hwin].
    + right. left. reflexivity.
    + left. apply (ie_indexed _ _ Hinv); [assumption | discriminate | assumption].
  - intros w Hwin Hc. apply Hin in Hwin. destruct Hwin as [-> | Hwin]; [reflexivity |].
    apply (ie_input_only _ _ Hinv); assumption.
  - intros w Hwin. apply Hin in Hwin. destruct Hwin as [-> | Hwin]; simpl; [lia |].
    apply (ie_fresh _ _ Hinv) in Hwin. lia.
Qed.

Lemma add_win_inv (ps ps' : session_t) (wid : positive) (prev : xcb_window_t)
  (a : option window_attributes) (damage_error : bool) :
  inv_except None ps ->
  add_win ps (Z.pos wid) prev a damage_error = Ok ps' -> inv_except None ps'.
Proof.
  intros Hinv H. destruct (add_win_cases _ _ _ _ _ _ Hinv H) as [-> | (Hf & a' & _ & Ha)];
    [assumption |].
  apply (added_inv ps ps' (Z.pos wid) a'); try assumption; [lia |].
  apply find_win_None; [lia | assumption].
Qed.

Lemma added_get_win (ps ps' : session_t) (wid : xcb_window_t) (a : window_attributes)
  (q : nat) :
  NoDup (map ptr (window_stack ps)) ->
  added ps ps' wid a ->
  get_win (window_stack ps') q =
  if Nat.eqb q (next_ptr ps) then Some (win_def (next_ptr ps) wid a)
  else get_win (window_stack ps) q.
Proof.
  intros Hnd (_ & _ & _ & Hnd' & Hin).
  destruct (Nat.eqb_spec q (next_ptr ps)) as [-> | Hq].
  - apply (get_win_NoDup _ (win_def (next_ptr ps) wid a) Hnd').
    apply Hin. left. reflexivity.
  - destruct (get_win (window_stack ps) q) as [w |] eqn:Hw.
    + apply get_win_In in Hw. destruct Hw as [Hw <-].
      apply (get_win_NoDup _ w Hnd'). apply Hin. right. assumption.
    + apply get_win_None. intros H. apply in_map_iff in H. destruct H as (x & Ex & Hx).
      apply Hin in Hx. destruct Hx as [-> | Hx].
      * simpl in Ex. congruence.
      * apply get_win_None in Hw. apply Hw. rewrite <- Ex. apply in_map. assumption.
Qed.

(** ** Every event keeps the invariant *)

Lemma handle_inv (ps ps' : session_t) (ev : event) :
  inv_except None ps -> handle ps ev = Ok ps' -> inv_except None ps'.
Proof.
  intros Hinv. destruct ev as [wid prev a de | wid g | wid | wid | p v | p | p | b];
    unfold Win.handle.
  - apply add_win_inv. assumption.
  - destruct (find_win ps wid) as [[p |] |]; cbn [bind]; try discriminate.
    + apply map_win_inv. assumption.
    + intros [= <-]. assumption.
  - destruct (find_win ps wid) as [[p |] |]; cbn [bind]; try discriminate.
    + apply unmap_win_inv. assumption.
    + intros [= <-]. assumption.
  - destruct (find_win ps wid) as [[p |] |]; cbn [bind]; try discriminate.
    + apply unmap_win_inv. assumption.
    + intros [= <-]. assumption.
  - unfold on_node. destruct (get_win _ p) as [w |]; [| intros [= <-]; assumption].
    destruct (not_fading _); intros [= <-]; [assumption |].
    apply inv_except_upd_same; [same_tac | assumption].
  - unfold on_node. destruct (get_win _ p) as [w |]; [| intros [= <-]; assumption].
    apply win_check_fade_finished_inv. assumption.
  - unfold on_node. destruct (get_win _ p) as [w |]; [| intros [= <-]; assumption].
    apply win_skip_fading_inv. assumption.
  - intros [= <-]. eapply inv_except_ext; [| | | exact Hinv]; reflexivity.
Qed.

Lemma session_init_inv (opts : options_t) (redir : bool) (ov : xcb_window_t) :
  inv_except None (session_init opts redir ov).
Proof.
  constructor; simpl; try constructor; try contradiction; discriminate.
Qed.

Lemma run_inv (evs : list event) (ps ps' : session_t) :
  inv_except None ps -> run ps evs = Ok ps' -> inv_except None ps'.
Proof.
  revert ps. induction evs as [| ev evs IH]; simpl; intros ps Hinv.
  - intros [= <-]. assumption.
  - destruct (handle ps ev) as [ps1 |] eqn:H1; simpl; [| discriminate].
    apply IH. eapply handle_inv; eassumption.
Qed.

(** ** A node being destroyed leaves the stack only at the end of its fade *)

Lemma kept_not_gone (p : nat) (ps ps' : session_t) (w : win) :
  (forall r, r <> p -> In r (map ptr (window_stack ps)) ->
             In r (map ptr (window_stack ps'))) ->
  In w (window_stack ps) -> ptr w <> p ->
  get_win (window_stack ps') (ptr w) <> None.
Proof.
  intros Hk Hw Hp Hn. apply get_win_None in Hn. apply Hn.
  apply Hk; [assumption | apply in_map; assumption].
Qed.

Lemma handle_gone (ps ps' : session_t) (ev : event) (w : win) :
  inv_except None ps ->
  handle ps ev = Ok ps' ->
  In w (window_stack ps) ->
  state w = WSTATE_DESTROYING ->
  get_win (window_stack ps') (ptr w) = None ->
  (ev = FadeCheck (ptr w) /\ PrimFloat.eqb (opacity w) (opacity_tgt w) = true) \/
  ev = SkipFading (ptr w).
Proof.
  intros Hinv Hev Hw Hs Hgone.
  pose proof (get_win_NoDup _ _ (ie_nodup_ptr _ _ Hinv) Hw) as Hget.
  assert (Hsame : ps' = ps -> False) by (intros ->; congruence).
  assert (Hfound : forall wid p, find_win ps wid = Ok (Some p) -> ptr w <> p).
  { intros wid p Hf E. apply find_win_Some in Hf. destruct Hf as [_ (v & Hv & Hvs)].
    rewrite <- E, Hget in Hv. congruence. }
  destruct ev as [wid prev a de | wid g | wid | wid | p v | p | p | b];
    unfold Win.handle in Hev.
  - exfalso. destruct (add_win_cases _ _ _ _ _ _ Hinv Hev) as [E | (_ & a' & _ & Ha)];
      [auto |].
    destruct Ha as (_ & _ & _ & _ & Hin). apply get_win_None in Hgone. apply Hgone.
    apply in_map. apply Hin. right. assumption.
  - exfalso. destruct (find_win ps wid) as [[p |] |] eqn:Hf; cbn [bind] in Hev;
      try discriminate; [| injection Hev as E; auto].
    apply map_win_touches in Hev. destruct Hev as (_ & _ & _ & Hk & _).
    apply (kept_not_gone p ps ps' w Hk Hw); eauto.
  - exfalso. destruct (find_win ps wid) as [[p |] |] eqn:Hf; cbn [bind] in Hev;
      try discriminate; [| injection Hev as E; auto].
    apply unmap_win_keeps in Hev. destruct Hev as [_ Hk].
    apply (kept_not_gone p ps ps' w Hk Hw); eauto.
  - exfalso. destruct (find_win ps wid) as [[p |] |] eqn:Hf; cbn [bind] in Hev;
      try discriminate; [| injection Hev as E; auto].
    apply unmap_win_keeps in Hev. destruct Hev as [_ Hk].
    apply (kept_not_gone p ps ps' w Hk Hw); eauto.
  - exfalso. unfold on_node in Hev.
    destruct (get_win _ p) as [x |]; [| injection Hev as E; auto].
    destruct (not_fading _); injection Hev as E; [auto |].
    subst ps'. simpl in Hgone. apply get_win_None in Hgone.
    rewrite upd_win_ptr in Hgone by reflexivity.
    apply Hgone. apply in_map. assumption.
  - unfold on_node in Hev.
    destruct (get_win _ p) as [x |] eqn:Hx; [| exfalso; injection Hev as E; auto].
    destruct (Nat.eq_dec (ptr w) p) as [E | E].
    + subst p. rewrite Hget in Hx. injection Hx as <-.
      left. split; [reflexivity |].
      apply (win_check_fade_finished_gone _ _ _ _ Hget Hev Hgone).
    + exfalso. apply win_check_fade_finished_touches in Hev.
      destruct Hev as (_ & _ & _ & Hk & _).
      apply (kept_not_gone p ps ps' w Hk Hw); assumption.
  - unfold on_node in Hev.
    destruct (get_win _ p) as [x |] eqn:Hx; [| exfalso; injection Hev as E; auto].
    destruct (Nat.eq_dec (ptr w) p) as [E | E].
    + subst p. right. reflexivity.
    + exfalso. apply win_skip_fading_touches in Hev.
      destruct Hev as (_ & _ & _ & Hk & _).
      apply (kept_not_gone p ps ps' w Hk Hw); assumption.
  - exfalso. injection Hev as E. subst ps'. simpl in Hgone. congruence.
Qed.

(** ** The id index *)

Lemma NoDup_key_unique (h : list (xcb_window_t * nat)) (k : xcb_window_t) (p q : nat) :
  NoDup (map fst h) -> In (k, p) h -> In (k, q) h -> p = q.
Proof.
  intros Hnd Hp Hq. apply (HASH_FIND_INT_NoDup h k p Hnd) in Hp.
  apply (HASH_FIND_INT_NoDup h k q Hnd) in Hq. congruence.
Qed.

(** Every entry of the id index is found by [find_win], and its node is
    the one node of the stack with that id that is not being destroyed. *)
Lemma index_entry (ps : session_t) (wid : xcb_window_t) (p : nat) :
  inv_except None ps ->
  In (wid, p) (windows ps) ->
  find_win ps wid = Ok (Some p) /\
  exists w, In w (window_stack ps) /\ ptr w = p /\ id w = wid /\
            state w <> WSTATE_DESTROYING /\
            forall v, In v (window_stack ps) -> id v = wid ->
                      state v <> WSTATE_DESTROYING -> v = w.
Proof.
  intros Hinv Hin.
  destruct (ie_index _ _ Hinv _ _ Hin) as (w & Hw & Ep & Ei & Es).
  pose proof (get_win_NoDup _ _ (ie_nodup_ptr _ _ Hinv) Hw) as Hget.
  split.
  - unfold find_win.
    pose proof (ie_key_nonzero _ _ Hinv _ _ Hin) as Hz. apply Z.eqb_neq in Hz. rewrite Hz.
    rewrite (HASH_FIND_INT_NoDup _ _ _ (ie_nodup_key _ _ Hinv) Hin).
    rewrite <- Ep, Hget. apply winstate_eqb_neq in Es. rewrite Es. reflexivity.
  - exists w. repeat split; auto.
    intros v Hv Evi Evs.
    pose proof (ie_indexed _ _ Hinv v Hv ltac:(discriminate) Evs) as Hvin.
    rewrite Evi in Hvin.
    pose proof (NoDup_key_unique _ _ _ _ (ie_nodup_key _ _ Hinv) Hin Hvin) as E.
    apply (get_win_all _ _ _ (ie_nodup_ptr _ _ Hinv) Hget); [assumption | congruence].
Qed.

Lemma destroy_unindexes (ps ps' : session_t) (wid : xcb_window_t) (p : nat) :
  inv_except None ps ->
  find_win ps wid = Ok (Some p) ->
  handle ps (DestroyNotify wid) = Ok ps' ->
  windows ps' = HASH_DEL (windows ps) p /\ find_win ps' wid = Ok None.
Proof.
  intros Hinv Hf Hev. unfold Win.handle in Hev. rewrite Hf in Hev. cbn [bind] in Hev.
  destruct (find_win_Some _ _ _ Hf) as [Hin (w & Hw & Hs)].
  pose proof (unmap_win_destroy_windows _ _ _ _ Hw Hs Hev) as E.
  split; [exact E |].
  unfold find_win. destruct (wid =? 0); [reflexivity |].
  rewrite E.
  destruct (HASH_FIND_INT (HASH_DEL (windows ps) p) wid) as [q |] eqn:Hq; [| reflexivity].
  exfalso. apply HASH_FIND_INT_In in Hq. apply In_HASH_DEL in Hq. destruct Hq as [Hq Hne].
  apply Hne. apply (NoDup_key_unique _ _ _ _ (ie_nodup_key _ _ Hinv) Hq Hin).
Qed.

(** A window created with the id of a window that is being destroyed
    gets a node of its own, in the state [win_def] gives it; the node
    being destroyed is not touched. *)
Lemma create_after_destroy (ps ps' : session_t) (wid : positive) (prev : xcb_window_t)
  (a : window_attributes) :
  inv_except None ps ->
  find_win ps (Z.pos wid) = Ok None ->
  Z.pos wid <> overlay ps ->
  wa_map_state a <> XCB_MAP_STATE_UNVIEWABLE ->
  handle ps (CreateNotify wid prev (Some a) false) = Ok ps' ->
  find_win ps' (Z.pos wid) = Ok (Some (next_ptr ps)) /\
  get_win (window_stack ps') (next_ptr ps) = Some (win_def (next_ptr ps) (Z.pos wid) a) /\
  forall q w, get_win (window_stack ps) q = Some w ->
              q <> next_ptr ps /\ get_win (window_stack ps') q = Some w.
Proof.
  intros Hinv Hf Hov Hmap Hev.
  pose proof (add_win_inv _ _ _ _ _ _ Hinv Hev) as Hinv'.
  assert (Ha : added ps ps' (Z.pos wid) a).
  { unfold Win.handle in Hev.
    destruct (add_win_cases _ _ _ _ _ _ Hinv Hev) as [E | (_ & a' & [= <-] & Ha)];
      [| exact Ha].
    exfalso. subst ps'. unfold add_win in Hev.
    apply Z.eqb_neq in Hov. rewrite Hov, Hf in Hev. cbn [bind] in Hev.
    rewrite andb_false_r in Hev.
    destruct (wa_map_state a); try contradiction;
      (destruct (if prev =? 0 then _ else _); cbn [bind] in Hev; [| discriminate];
       injection Hev as E; apply (f_equal next_ptr) in E; simpl in E; lia). }
  pose proof (added_get_win _ _ _ _ (next_ptr ps) (ie_nodup_ptr _ _ Hinv) Ha) as Hnew.
  rewrite Nat.eqb_refl in Hnew.
  split; [| split; [exact Hnew |]].
  - apply (index_entry ps' (Z.pos wid) (next_ptr ps) Hinv').
    destruct Ha as (-> & _). apply in_app_iff. right. left. reflexivity.
  - intros q w Hw.
    assert (Hq : q <> next_ptr ps).
    { apply get_win_In in Hw. destruct Hw as [Hw <-].
      apply (ie_fresh _ _ Hinv) in Hw. lia. }
    split; [exact Hq |].
    rewrite (added_get_win _ _ _ _ q (ie_nodup_ptr _ _ Hinv) Ha).
    apply Nat.eqb_neq in Hq. rewrite Hq. exact Hw.
Qed.

(** C3.  In every session the events lead to: (1) every id of the id
    index is found by [find_win] and maps to exactly one stack node
    that is not in the state DESTROYING (the invariant [registry_inv]);
    (2) when a window that is not unmapped (in particular one in the
    middle of a fade) is destroyed, a lookup of its id returns null at
    once, while the screen is redirected its node stays in the stack in
    the state DESTROYING with the opacity it had and the target 0
    (when the screen is not redirected the fade is skipped and the node
    is freed at once), and a window created afterwards with the same id
    gets a new node in the initial state, the node being destroyed
    staying as it is; (3) a node in the state DESTROYING leaves the
    stack only when [win_check_fade_finished] finds its opacity equal to
    the target, or when [win_skip_fading] cuts the fade short. *)
Theorem destroyed_window_leaves_index_not_stack :
  forall (opts : options_t) (redir : bool) (ov : xcb_window_t) (evs : list event)
         (ps : session_t),
    run (session_init opts redir ov) evs = Ok ps ->
    registry_inv ps /\
    (forall wid p, In (wid, p) (windows ps) ->
       find_win ps wid = Ok (Some p) /\
       exists w, In w (window_stack ps) /\ ptr w = p /\ id w = wid /\
                 state w <> WSTATE_DESTROYING /\
                 forall v, In v (window_stack ps) -> id v = wid ->
                           state v <> WSTATE_DESTROYING -> v = w) /\
    (forall wid p w ps',
       find_win ps wid = Ok (Some p) ->
       get_win (window_stack ps) p = Some w ->
       state w <> WSTATE_UNMAPPED ->
       handle ps (DestroyNotify wid) = Ok ps' ->
       find_win ps' wid = Ok None /\
       (redirected ps = true ->
        exists w', get_win (window_stack ps') p = Some w' /\ id w' = wid /\
                   state w' = WSTATE_DESTROYING /\ opacity w' = opacity w /\
                   opacity_tgt w' = 0%float) /\
       (redirected ps = false -> get_win (window_stack ps') p = None) /\
       (forall wid' prev a ps'',
          Z.pos wid' = wid ->
          wid <> overlay ps' ->
          wa_map_state a <> XCB_MAP_STATE_UNVIEWABLE ->
          handle ps' (CreateNotify wid' prev (Some a) false) = Ok ps'' ->
          find_win ps'' wid = Ok (Some (next_ptr ps')) /\
          get_win (window_stack ps'') (next_ptr ps')
          = Some (win_def (next_ptr ps') wid a) /\
          next_ptr ps' <> p /\
          get_win (window_stack ps'') p = get_win (window_stack ps') p)) /\
    (forall ev ps' w,
       handle ps ev = Ok ps' ->
       In w (window_stack ps) ->
       state w = WSTATE_DESTROYING ->
       get_win (window_stack ps') (ptr w) = None ->
       (ev = FadeCheck (ptr w) /\ PrimFloat.eqb (opacity w) (opacity_tgt w) = true) \/
       ev = SkipFading (ptr w)).
Proof.
  intros opts redir ov evs ps Hrun.
  pose proof (run_inv _ _ _ (session_init_inv opts redir ov) Hrun) as Hinv.
  split; [apply registry_inv_iff; exact Hinv |].
  split; [intros wid p; apply index_entry; exact Hinv |].
  split; [| intros ev ps' w; apply handle_gone; exact Hinv].
  intros wid p w ps' Hf Hw Hnu Hev.
  destruct (destroy_unindexes _ _ _ _ Hinv Hf Hev) as [Hwin Hnone].
  pose proof (handle_inv _ _ _ Hinv Hev) as Hinv'.
  destruct (find_win_Some _ _ _ Hf) as [Hin (w0 & Hw0 & Hs)].
  rewrite Hw in Hw0. injection Hw0 as <-.
  destruct (indexed_node _ _ _ _ _ Hinv Hin Hw) as [Ei _].
  pose proof (get_win_In _ _ _ Hw) as [Hwin' Hp].
  assert (Hev' : unmap_win ps (Some p) true = Ok ps').
  { unfold Win.handle in Hev. rewrite Hf in Hev. exact Hev. }
  split; [exact Hnone |]. split.
  - intros Hred.
    assert (Hc : a_class w <> XCB_WINDOW_CLASS_INPUT_ONLY).
    { intros Hc. apply Hnu. apply (ie_input_only _ _ Hinv); assumption. }
    destruct (unmap_win_destroy_node _ _ _ _ Hw Hs Hnu Hc Hred Hev')
      as (w' & H1 & H2 & H3 & H4 & H5).
    exists w'. repeat split; auto. congruence.
  - split.
    { intros Hred.
      apply (unmap_win_destroy_skipped _ _ _ _ (ie_nodup_ptr _ _ Hinv) Hw Hs Hred Hev'). }
    intros wid' prev a ps'' Ewid Hov Hmap Hcreate.
    clear Ei. subst wid.
    destruct (create_after_destroy _ _ _ _ _ Hinv' Hnone Hov Hmap Hcreate)
      as (H1 & H2 & H3).
    split; [exact H1 |]. split; [exact H2 |].
    assert (Hfresh : next_ptr ps' <> p).
    { apply unmap_win_keeps in Hev'. destruct Hev' as [-> _].
      apply (ie_fresh _ _ Hinv) in Hwin'. lia. }
    split; [exact Hfresh |].
    destruct (get_win (window_stack ps') p) as [x |] eqn:Hx.
    + apply (H3 p x). exact Hx.
    + apply get_win_None. apply get_win_None in Hx. intros Hin''. apply Hx.
      apply in_map_iff in Hin''. destruct Hin'' as (y & Ey & Hy).
      destruct (add_win_cases _ _ _ _ _ _ Hinv' Hcreate) as [E | (_ & a' & _ & Ha)].
      * subst ps''. rewrite <- Ey. apply in_map. assumption.
      * destruct Ha as (_ & _ & _ & _ & Hiff). apply Hiff in Hy.
        destruct Hy as [-> | Hy]; [simpl in Ey; congruence |].
        rewrite <- Ey. apply in_map. assumption.
Qed.

(** ** Unmapping and mapping a window *)

Lemma win_skip_fading_step (ps : session_t) (p : nat) (w : win) :
  NoDup (map ptr (window_stack ps)) ->
  get_win (window_stack ps) p = Some w ->
  not_fading (state w) = false ->
  PrimFloat.eqb (opacity_tgt w) (opacity_tgt w) = true ->
  exists ps',
    win_skip_fading ps p = Ok ps' /\
    redirected ps' = redirected ps /\ windows ps' = windows ps /\
    match state w with
    | WSTATE_DESTROYING => get_win (window_stack ps') p = None
    | st =>
        exists w',
          get_win (window_stack ps') p = Some w' /\
          opacity w' = opacity_tgt w /\ opacity_tgt w' = opacity_tgt w /\
          state w' = match st with
                     | WSTATE_UNMAPPING => WSTATE_UNMAPPED
                     | _ => WSTATE_MAPPED
                     end
    end.
Proof.
  intros Hnd Hw Hfading Hnan. unfold win_skip_fading. rewrite Hw, Hfading.
  set (ps1 := with_win ps p (set_opacity (opacity_tgt w))).
  assert (Hw1 : get_win (window_stack ps1) p = Some (set_opacity (opacity_tgt w) w)).
  { subst ps1. cbn [window_stack with_win set_window_stack].
    rewrite get_win_upd_same by reflexivity. rewrite Hw. reflexivity. }
  assert (Hnd1 : NoDup (map ptr (window_stack ps1))).
  { subst ps1. cbn [window_stack with_win set_window_stack].
    rewrite upd_win_ptr by reflexivity. exact Hnd. }
  unfold win_check_fade_finished. rewrite Hw1.
  cbn [state opacity opacity_tgt set_opacity]. rewrite Hfading, Hnan.
  destruct (state w) eqn:Est; try discriminate Hfading.
  - (* MAPPING *)
    eexists. split; [reflexivity |]. split; [reflexivity |]. split; [reflexivity |].
    unfold finish_map_win. cbn [window_stack with_win set_window_stack].
    rewrite get_win_upd_same by reflexivity. rewrite Hw1. cbn.
    eexists. repeat split.
  - (* FADING *)
    eexists. split; [reflexivity |]. split; [reflexivity |]. split; [reflexivity |].
    cbn [window_stack with_win set_window_stack].
    rewrite get_win_upd_same by reflexivity. rewrite Hw1. cbn.
    eexists. repeat split.
  - (* UNMAPPING *)
    eexists. split; [reflexivity |]. split; [reflexivity |]. split; [reflexivity |].
    unfold finish_unmap_win. cbn [window_stack with_win set_window_stack].
    rewrite get_win_upd_same by reflexivity. rewrite Hw1. cbn.
    eexists. repeat split.
  - (* DESTROYING *)
    destruct (finish_destroy_win ps1 p) as [ps' |] eqn:Efd.
    + exists ps'. split; [reflexivity |].
      destruct (finish_destroy_win_touches p ps1 ps' Efd) as (Hwin & _ & Hred & _).
      split; [rewrite Hred; reflexivity |]. split; [rewrite Hwin; reflexivity |].
      apply (finish_destroy_win_gone p ps1 ps' Hnd1 Efd).
    + unfold finish_destroy_win in Efd. rewrite Hw1 in Efd. discriminate.
Qed.

Lemma unmap_win_fade_ptrs (ps1 : session_t) (p : nat) (destroy : bool) :
  map ptr (window_stack (unmap_win_fade ps1 p destroy)) = map ptr (window_stack ps1).
Proof.
  unfold Win.unmap_win_fade. cbn [window_stack with_win set_window_stack].
  rewrite !upd_win_ptr by reflexivity.
  apply frame_map_ptr. apply win_set_focused_frame.
Qed.

(** X18.  [unmap_win] of a window that is mapped, being mapped or
    fading, and not input-only: the id table is unchanged, the target
    of the window becomes 0 and, while the screen is redirected, the
    window is in the state UNMAPPING with the opacity it had; when the
    screen is not redirected the fade is skipped and the window is
    UNMAPPED at opacity 0.  Unmapping it once more changes nothing. *)
Theorem unmap_win_fades_out :
  forall (ps : session_t) (p : nat) (w : win),
    NoDup (map ptr (window_stack ps)) ->
    get_win (window_stack ps) p = Some w ->
    a_class w <> XCB_WINDOW_CLASS_INPUT_ONLY ->
    (state w = WSTATE_MAPPED \/ state w = WSTATE_MAPPING \/ state w = WSTATE_FADING) ->
    exists ps' w',
      unmap_win ps (Some p) false = Ok ps' /\
      windows ps' = windows ps /\
      get_win (window_stack ps') p = Some w' /\
      opacity_tgt w' = 0%float /\
      (redirected ps = true -> state w' = WSTATE_UNMAPPING /\ opacity w' = opacity w) /\
      (redirected ps = false -> state w' = WSTATE_UNMAPPED /\ opacity w' = 0%float) /\
      unmap_win ps' (Some p) false = Ok ps'.
Proof.
  intros ps p w Hnd Hw Hclass Hstate.
  rewrite (unmap_win_unfold ps p false w Hw). cbv zeta.
  assert (Hc : class_eqb (a_class w) XCB_WINDOW_CLASS_INPUT_ONLY = false).
  { destruct (class_eqb (a_class w) XCB_WINDOW_CLASS_INPUT_ONLY) eqn:E; [| reflexivity].
    apply class_eqb_eq in E. contradiction. }
  rewrite Hc. cbn [negb andb].
  assert (Hst : winstate_eqb (state w) WSTATE_DESTROYING = false
                /\ winstate_eqb (state w) WSTATE_UNMAPPING = false
                /\ winstate_eqb (state w) WSTATE_UNMAPPED = false).
  { destruct Hstate as [-> | [-> | ->]]; repeat split. }
  destruct Hst as (S1 & S2 & S3). rewrite S1, S2, S3. cbn [negb andb orb assert bind].
  destruct (unmap_win_fade_node ps p false w Hw) as (w4 & Hw4 & _ & _ & Hc4 & Ho4 & Hs4 & Ht4).
  destruct (unmap_win_fade_touches ps p false) as (Hwin4 & _ & Hred4 & _).
  rewrite Hred4. destruct (redirected ps) eqn:Er; cbn [negb].
  - exists (unmap_win_fade ps p false), w4.
    split; [reflexivity |]. split; [exact Hwin4 |]. split; [exact Hw4 |].
    split; [exact Ht4 |]. split; [intros _; split; assumption |].
    split; [discriminate |].
    rewrite (unmap_win_unfold _ p false w4 Hw4). cbv zeta.
    rewrite Hc4, Hc, Hs4. reflexivity.
  - destruct (win_skip_fading_step (unmap_win_fade ps p false) p w4)
      as (ps' & Hres & _ & Hwin' & Hnode).
    + rewrite unmap_win_fade_ptrs. exact Hnd.
    + exact Hw4.
    + rewrite Hs4. reflexivity.
    + rewrite Ht4. reflexivity.
    + rewrite Hs4 in Hnode. destruct Hnode as (w' & Hw' & Ho' & Ht' & Hs').
      exists ps', w'. split; [exact Hres |].
      split; [rewrite Hwin'; exact Hwin4 |]. split; [exact Hw' |].
      split; [rewrite Ht'; exact Ht4 |]. split; [discriminate |].
      split; [intros _; split; [exact Hs' | rewrite Ho'; exact Ht4] |].
      rewrite (unmap_win_unfold _ p false w' Hw'). cbv zeta.
      rewrite Hs'. cbn [negb andb winstate_eqb orb].
      destruct (class_eqb (a_class w') XCB_WINDOW_CLASS_INPUT_ONLY); reflexivity.
Qed.

Lemma map_win_fade_node (ps1 : session_t) (p : nat) (width height : Z) (w : win) :
  get_win (window_stack ps1) p = Some w ->
  state w <> WSTATE_MAPPED ->
  exists w',
    get_win (window_stack (map_win_fade ps1 p width height)) p = Some w' /\
    a_class w' = a_class w /\ opacity w' = opacity w /\
    state w' = WSTATE_MAPPING /\ ever_damaged w' = false.
Proof.
  intros Hw Hst. unfold Win.map_win_fade.
  set (psa := with_win ps1 p _).
  assert (Hwa : exists wa, get_win (window_stack psa) p = Some wa
                           /\ a_class wa = a_class w /\ opacity wa = opacity w).
  { subst psa. cbn [window_stack with_win set_window_stack].
    rewrite get_win_upd_same by reflexivity. rewrite Hw. eexists. repeat split. }
  destruct Hwa as (wa & Hwa & Hca & Hoa).
  pose proof (frame_get_win _ _ p (proj1 (map_win_refresh_frame psa p))) as Hf.
  rewrite Hwa in Hf.
  destruct (get_win (window_stack (map_win_refresh psa p)) p) as [v |] eqn:Hv;
    [| contradiction].
  destruct Hf as (_ & _ & Ec & Eo & _).
  cbn [window_stack with_win set_window_stack].
  rewrite !get_win_upd_same by reflexivity. rewrite Hv. cbn.
  eexists. split; [reflexivity |]. cbn. repeat split; congruence.
Qed.

(** X19.  [map_win], while the screen is redirected and the geometry
    request succeeds: a window that is UNMAPPED goes to MAPPING with
    the opacity it has and [ever_damaged] cleared; a window that is
    fading out (UNMAPPING) has its fade-out finished first, so it
    starts MAPPING from the target of the fade-out.  A window that is
    MAPPED, MAPPING or FADING is left as it is, and for a window being
    destroyed the assertion fails. *)
Theorem map_win_starts_fade_in :
  forall (ps : session_t) (p : nat) (w : win) (width height : Z),
    NoDup (map ptr (window_stack ps)) ->
    get_win (window_stack ps) p = Some w ->
    a_class w <> XCB_WINDOW_CLASS_INPUT_ONLY ->
    redirected ps = true ->
    (state w = WSTATE_UNMAPPED ->
     exists ps' w',
       map_win ps p (Some (width, height)) = Ok ps' /\
       get_win (window_stack ps') p = Some w' /\
       state w' = WSTATE_MAPPING /\ opacity w' = opacity w /\ ever_damaged w' = false) /\
    (state w = WSTATE_UNMAPPING ->
     PrimFloat.eqb (opacity_tgt w) (opacity_tgt w) = true ->
     exists ps' w',
       map_win ps p (Some (width, height)) = Ok ps' /\
       get_win (window_stack ps') p = Some w' /\
       state w' = WSTATE_MAPPING /\ opacity w' = opacity_tgt w /\
       ever_damaged w' = false) /\
    (state w = WSTATE_MAPPED \/ state w = WSTATE_MAPPING \/ state w = WSTATE_FADING ->
     map_win ps p (Some (width, height)) = Ok ps) /\
    (state w = WSTATE_DESTROYING -> map_win ps p (Some (width, height)) = Crash).
Proof.
  intros ps p w width height Hnd Hw Hclass Hred.
  rewrite (map_win_unfold ps p (Some (width, height)) w Hw).
  assert (Hc : class_eqb (a_class w) XCB_WINDOW_CLASS_INPUT_ONLY = false).
  { destruct (class_eqb (a_class w) XCB_WINDOW_CLASS_INPUT_ONLY) eqn:E; [| reflexivity].
    apply class_eqb_eq in E. contradiction. }
  rewrite Hc. split; [| split; [| split]].
  - intros Hst. rewrite Hst. cbn [winstate_eqb negb andb assert bind]. cbv zeta.
    destruct (map_win_fade_node ps p width height w Hw) as (w' & Hw' & _ & Ho & Hs & Hd).
    { rewrite Hst. discriminate. }
    destruct (map_win_fade_touches ps p width height) as (_ & _ & Hred' & _).
    rewrite Hred', Hred. cbn [negb].
    eexists. exists w'. split; [reflexivity |]. repeat split; assumption.
  - intros Hst Hnan. rewrite Hst. cbn [winstate_eqb negb andb assert bind].
    destruct (win_skip_fading_step ps p w Hnd Hw) as (ps1 & Hres & Hred1 & _ & Hnode).
    { rewrite Hst. reflexivity. }
    { exact Hnan. }
    rewrite Hst in Hnode. destruct Hnode as (w1 & Hw1 & Ho1 & _ & Hs1).
    rewrite Hres. cbn [bind]. cbv zeta.
    destruct (map_win_fade_node ps1 p width height w1 Hw1) as (w' & Hw' & _ & Ho & Hs & Hd).
    { rewrite Hs1. discriminate. }
    destruct (map_win_fade_touches ps1 p width height) as (_ & _ & Hred' & _).
    rewrite Hred', Hred1, Hred. cbn [negb].
    eexists. exists w'. split; [reflexivity |]. repeat split; try assumption.
    rewrite Ho. exact Ho1.
  - intros [-> | [-> | ->]]; reflexivity.
  - intros ->. reflexivity.
Qed.

End LifecycleProofs.

(** ** The theorems at concrete inputs *)

Lemma registry_frame_refl (ps : session_t) : registry_frame ps ps.
Proof.
  repeat split; auto.
  induction (window_stack ps) as [| w l IH]; constructor; [| exact IH].
  repeat split; auto.
Qed.

Lemma session_fading_in_run :
  run never_focused focus_unchanged refresh_unchanged
    (session_init example_options true 0) scenario_fading_in
  = Ok session_fading_in.
Proof. vm_compute. reflexivity. Qed.

(** Scenario S2, run on the model: after DestroyNotify the id index is
    empty and the node is still in the stack; the second CreateNotify
    gives the id a new node; the old node is freed by the
    [win_check_fade_finished] that finds its opacity at 0. *)
Example scenario_S2 :
  let step := run_example in
  let s1 := step session_fading_in [DestroyNotify 16] in
  let s2 := step s1 [CreateNotify 16 0 (Some example_attributes) false] in
  let s3 := step s2 [FadeStep 0 0.25%float; FadeCheck 0] in
  let s4 := step s3 [FadeStep 0 0%float; FadeCheck 0] in
  find_win session_fading_in 16 = Ok (Some 0%nat) /\
  find_win s1 16 = Ok None /\
  map (fun w => (ptr w, state w)) (window_stack s1) = [(0%nat, WSTATE_DESTROYING)] /\
  find_win s2 16 = Ok (Some 1%nat) /\
  map (fun w => (ptr w, state w)) (window_stack s2)
  = [(1%nat, WSTATE_UNMAPPED); (0%nat, WSTATE_DESTROYING)] /\
  map (fun w => (ptr w, state w)) (window_stack s3)
  = [(1%nat, WSTATE_UNMAPPED); (0%nat, WSTATE_DESTROYING)] /\
  map (fun w => (ptr w, state w)) (window_stack s4) = [(1%nat, WSTATE_UNMAPPED)].
Proof. vm_compute. repeat split. Qed.

Lemma destroyed_window_leaves_index_not_stack_witness :
  registry_inv session_fading_in /\
  find_win (run_example session_fading_in [DestroyNotify 16]) 16 = Ok None.
Proof.
  destruct (destroyed_window_leaves_index_not_stack
              never_focused focus_unchanged refresh_unchanged
              (fun ps p b => registry_frame_refl ps)
              (fun ps p => registry_frame_refl ps)
              example_options true 0 scenario_fading_in session_fading_in
              session_fading_in_run) as (Hinv & _ & Hdestroy & _).
  split; [exact Hinv |].
  refine (proj1 (Hdestroy 16 0%nat
                   (set_opacity 0.5%float
                      (set_opacity_tgt 0.75%float
                         (set_state WSTATE_MAPPING
                            (set_a_map_state XCB_MAP_STATE_VIEWABLE
                               (set_g_height 480
                                  (set_g_width 640 (win_def 0 16 example_attributes)))))))
                   (run_example session_fading_in [DestroyNotify 16]) _ _ _ _)).
  - vm_compute. reflexivity.
  - vm_compute. reflexivity.
  - discriminate.
  - vm_compute. reflexivity.
Defined.

Lemma frame_regions_inside_window_witness :
  win_get_region_noframe_local_by_val example_extents example_window = [] /\
  forall px py,
    in_region px py (win_get_region_frame_local_by_val example_extents example_window) ->
    0 <= px < 100 /\ 0 <= py < 50.
Proof.
  destruct (frame_regions_inside_window example_extents example_window)
    as (Hframe & _ & _ & Hempty & _).
  - vm_compute. split; [discriminate | reflexivity].
  - vm_compute. split; [discriminate | reflexivity].
  - split.
    + apply Hempty. vm_compute. left. discriminate.
    + exact Hframe.
Defined.

(** Two windows whose leaders form a cycle: the call returns, with the
    leader the cycle was entered by; past the bound it returns
    XCB_NONE. *)
Example leader_cycle_returns :
  option_map (fun r => match r with Ok (_, l) => Some l | Crash => None end)
    (win_get_leader_raw 20 (leader_fuel 20 0) example_cycle 0 0) = Some (Some 19) /\
  option_map (fun r => match r with Ok (_, l) => Some l | Crash => None end)
    (win_get_leader_raw 2 (leader_fuel 2 3) example_cycle 0 3) = Some (Some XCB_NONE).
Proof. vm_compute. split; reflexivity. Qed.

(** C9 as stated fails for a window whose client window was unmarked
    after its leader was resolved: the first call caches the client
    window 17 as the leader, [win_unmark_client] clears the client
    window and not the cache, and the window, which now has neither
    client window nor leader, still resolves to 17. *)
Lemma stale_leader_cache_returned :
  win_get_leader_raw 20 (leader_fuel 20 0) example_framed 0 0
  = Some (Ok (with_win example_framed 0 (set_cache_leader 17), 17)) /\
  option_map (fun w => (client_win w, leader w, cache_leader w))
    (get_win
       (window_stack (win_unmark_client (with_win example_framed 0 (set_cache_leader 17)) 0))
       0)
  = Some (XCB_NONE, XCB_NONE, 17) /\
  win_get_leader_raw 20 (leader_fuel 20 0)
    (win_unmark_client (with_win example_framed 0 (set_cache_leader 17)) 0) 0 0
  = Some (Ok (win_unmark_client (with_win example_framed 0 (set_cache_leader 17)) 0, 17)).
Proof. vm_compute. repeat split; reflexivity. Qed.

(** The window of the example after [win_unmark_client]: it resolves to
    what its cache holds, and to XCB_NONE once the caches are
    cleared. *)
Lemma win_get_leader_raw_bounded_witness :
  let ps := win_unmark_client (with_win example_framed 0 (set_cache_leader 17)) 0 in
  win_get_leader_raw 20 1 ps 0 0 = Some (Ok (ps, 17)) /\
  win_get_leader_raw 20 1 (clear_cache_win_leaders ps) 0 0
  = Some (Ok (clear_cache_win_leaders ps, XCB_NONE)).
Proof.
  intros ps. destruct (win_get_leader_raw_bounded 20) as (_ & _ & H).
  exact (H 0%nat ps 0%nat 0 _ eq_refl eq_refl eq_refl).
Defined.

(** ** Looking a client window up *)

Lemma find_toplevel_iter_spec (stack : list win) (h : list (xcb_window_t * nat))
  (id : xcb_window_t) :
  (forall k p, In (k, p) h ->
     exists w, get_win stack p = Some w /\ state w <> WSTATE_DESTROYING) ->
  exists r,
    find_toplevel_iter stack h id = Ok r /\
    (forall p, r = Some p ->
       exists w k h1 h2,
         h = h1 ++ (k, p) :: h2 /\ get_win stack p = Some w /\ client_win w = id /\
         forall k' p' w', In (k', p') h1 -> get_win stack p' = Some w' ->
                          client_win w' <> id) /\
    (r = None ->
     forall k p w, In (k, p) h -> get_win stack p = Some w -> client_win w <> id).
Proof.
  induction h as [| [k p] h IH]; intros Hh; cbn [find_toplevel_iter].
  - exists None. split; [reflexivity |]. split; [discriminate | intros _ k p w []].
  - destruct (Hh k p (or_introl eq_refl)) as (w & Hw & Hst). rewrite Hw.
    apply winstate_eqb_neq in Hst. rewrite Hst. cbn [negb assert bind].
    destruct (Z.eqb_spec (client_win w) id) as [E | E].
    + exists (Some p). split; [reflexivity |]. split; [| discriminate].
      intros p0 [= <-]. exists w, k, [], h. split; [reflexivity |].
      split; [exact Hw |]. split; [exact E | intros k' p' w' []].
    + destruct IH as (r & Hr & Hsome & Hnone).
      { intros k' p' Hin. apply (Hh k' p'). right. exact Hin. }
      exists r. split; [exact Hr |]. split.
      * intros p0 Ep. destruct (Hsome p0 Ep) as (w0 & k0 & h1 & h2 & Eh & Hw0 & Hc & Hbefore).
        exists w0, k0, ((k, p) :: h1), h2. split; [rewrite Eh; reflexivity |].
        split; [exact Hw0 |]. split; [exact Hc |].
        intros k' p' w' [[= <- <-] | Hin] Hw'.
        -- rewrite Hw in Hw'. injection Hw' as <-. exact E.
        -- eapply Hbefore; eassumption.
      * intros Er k' p' w' [[= <- <-] | Hin] Hw'.
        -- rewrite Hw in Hw'. injection Hw' as <-. exact E.
        -- eapply Hnone; eassumption.
Qed.

Lemma registry_inv_node (ps : session_t) (k : xcb_window_t) (p : nat) :
  registry_inv ps -> In (k, p) (windows ps) ->
  exists w, get_win (window_stack ps) p = Some w /\ state w <> WSTATE_DESTROYING
            /\ id w = k.
Proof.
  intros Hinv Hin. destruct (inv_index ps Hinv k p Hin) as (w & Hw & Hp & Hid & Hst).
  exists w. split; [| split; assumption].
  rewrite <- Hp. apply get_win_NoDup; [apply (inv_nodup_ptr ps Hinv) | exact Hw].
Qed.

(** X11.  In a registry that satisfies its invariant [find_toplevel]
    fails no assertion.  It returns null for the id 0; a window it
    returns is the first window of the table whose client window has
    the id; and when it returns null for another id, no window of the
    table has that client window. *)
Theorem find_toplevel_first_client :
  forall (ps : session_t) (id : xcb_window_t),
    registry_inv ps ->
    exists r,
      find_toplevel ps id = Ok r /\
      (id = 0 -> r = None) /\
      (forall p, r = Some p ->
         exists w k h1 h2,
           windows ps = h1 ++ (k, p) :: h2 /\
           get_win (window_stack ps) p = Some w /\ client_win w = id /\
           forall k' p' w', In (k', p') h1 -> get_win (window_stack ps) p' = Some w' ->
                            client_win w' <> id) /\
      (r = None -> id <> 0 ->
       forall k p w, In (k, p) (windows ps) -> get_win (window_stack ps) p = Some w ->
                     client_win w <> id).
Proof.
  intros ps id Hinv. unfold find_toplevel.
  destruct (Z.eqb_spec id 0) as [E | E].
  - exists None. split; [reflexivity |]. split; [reflexivity |].
    split; [discriminate | intros _ H; contradiction].
  - destruct (find_toplevel_iter_spec (window_stack ps) (windows ps) id)
      as (r & Hr & Hsome & Hnone).
    { intros k p Hin. destruct (registry_inv_node ps k p Hinv Hin) as (w & Hw & Hst & _).
      exists w. split; assumption. }
    exists r. split; [exact Hr |]. split; [intros H; contradiction |].
    split; [exact Hsome | intros Er _; apply Hnone; exact Er].
Qed.

(** ** Adding a window *)

Lemma HASH_FIND_INT_add_other (h : list (xcb_window_t * nat)) (wid k : xcb_window_t)
  (p : nat) :
  k <> wid -> HASH_FIND_INT (HASH_ADD_INT h wid p) k = HASH_FIND_INT h k.
Proof.
  intros Hne. unfold HASH_FIND_INT, HASH_ADD_INT.
  induction h as [| [k0 p0] h IH]; cbn.
  - destruct (Z.eqb_spec wid k); [congruence | reflexivity].
  - destruct (k0 =? k); [reflexivity | exact IH].
Qed.

Lemma HASH_FIND_INT_add_same (h : list (xcb_window_t * nat)) (wid : xcb_window_t) (p : nat) :
  ~ In wid (map fst h) -> HASH_FIND_INT (HASH_ADD_INT h wid p) wid = Some p.
Proof.
  intros Hnot. unfold HASH_FIND_INT, HASH_ADD_INT.
  induction h as [| [k0 p0] h IH]; cbn.
  - rewrite Z.eqb_refl. reflexivity.
  - destruct (Z.eqb_spec k0 wid) as [E | _].
    + exfalso. apply Hnot. left. exact E.
    + apply IH. intros Hin. apply Hnot. right. exact Hin.
Qed.

Lemma insert_above_at (pw : nat) (new v : win) (s1 s2 : list win) :
  ptr v = pw -> (forall n, In n s1 -> ptr n <> pw) ->
  insert_above pw new (s1 ++ v :: s2) = s1 ++ new :: v :: s2.
Proof.
  intros Hv Hs1. induction s1 as [| n s1 IH]; cbn.
  - rewrite Hv, Nat.eqb_refl. reflexivity.
  - destruct (Nat.eqb_spec (ptr n) pw) as [E | _].
    + exfalso. apply (Hs1 n); [left; reflexivity | exact E].
    + f_equal. apply IH. intros m Hm. apply Hs1. right. exact Hm.
Qed.

Lemma get_win_at (pw : nat) (v : win) (s1 s2 : list win) :
  ptr v = pw -> (forall n, In n s1 -> ptr n <> pw) ->
  get_win (s1 ++ v :: s2) pw = Some v.
Proof.
  intros Hv Hs1. unfold get_win. induction s1 as [| n s1 IH]; cbn.
  - rewrite Hv, Nat.eqb_refl. reflexivity.
  - destruct (Nat.eqb_spec (ptr n) pw) as [E | _].
    + exfalso. apply (Hs1 n); [left; reflexivity | exact E].
    + apply IH. intros m Hm. apply Hs1. right. exact Hm.
Qed.

(** What [add_win] does when it gets as far as linking the node. *)
Lemma add_win_links (ps : session_t) (wid prev : xcb_window_t) (a : window_attributes)
  (damage_error : bool) :
  wid <> overlay ps ->
  find_win ps wid = Ok None ->
  wa_map_state a <> XCB_MAP_STATE_UNVIEWABLE ->
  (wa_class a = XCB_WINDOW_CLASS_INPUT_ONLY \/ damage_error = false) ->
  add_win ps wid prev (Some a) damage_error
  = (stack <-
       (if prev =? 0 then Ok (win_def (next_ptr ps) wid a :: window_stack ps)
        else
          match HASH_FIND_INT (windows ps) prev with
          | None => Crash
          | Some pw =>
              match get_win (window_stack ps) pw with
              | None => Crash
              | Some _ =>
                  Ok (insert_above pw (win_def (next_ptr ps) wid a) (window_stack ps))
              end
          end) ;;
     Ok {| o := o ps;
           window_stack := stack;
           windows := HASH_ADD_INT (windows ps) wid (next_ptr ps);
           redirected := redirected ps;
           active_win := active_win ps;
           overlay := overlay ps;
           next_ptr := S (next_ptr ps) |}).
Proof.
  intros Hov Hfind Hview Hdamage. unfold add_win.
  apply Z.eqb_neq in Hov. rewrite Hov, Hfind. cbn [bind].
  destruct (wa_map_state a) eqn:Em; try contradiction;
    cbn [a_class win_def];
    (destruct Hdamage as [Hc | Hd];
     [rewrite Hc; reflexivity
     | rewrite Hd, andb_false_r; reflexivity]).
Qed.

(** X12.  A window that [add_win] adds is found afterwards: for an id
    that is not the overlay and not in the table, attributes of a
    window that is viewable or unmapped, a damage object that could be
    created and a [prev] that is 0 or in the table, [add_win] returns,
    [find_win] of the id gives the new node, which is [win_def] with
    the id and the attributes, and the lookup of every other id gives
    what it gave before. *)
Theorem add_win_then_find_win :
  forall (ps : session_t) (wid : positive) (prev : xcb_window_t) (a : window_attributes)
         (damage_error : bool),
    registry_inv ps ->
    Z.pos wid <> overlay ps ->
    find_win ps (Z.pos wid) = Ok None ->
    wa_map_state a <> XCB_MAP_STATE_UNVIEWABLE ->
    (wa_class a = XCB_WINDOW_CLASS_INPUT_ONLY \/ damage_error = false) ->
    (prev = 0 \/ In prev (map fst (windows ps))) ->
    exists ps',
      add_win ps (Z.pos wid) prev (Some a) damage_error = Ok ps' /\
      registry_inv ps' /\
      find_win ps' (Z.pos wid) = Ok (Some (next_ptr ps)) /\
      get_win (window_stack ps') (next_ptr ps)
      = Some (win_def (next_ptr ps) (Z.pos wid) a) /\
      (forall k, k <> Z.pos wid -> find_win ps' k = find_win ps k).
Proof.
  intros ps wid prev a de Hinv Hov Hfind Hview Hdamage Hprev.
  pose proof (proj1 (registry_inv_iff ps) Hinv) as Hie.
  assert (Hres : exists ps', add_win ps (Z.pos wid) prev (Some a) de = Ok ps'
                             /\ next_ptr ps' = S (next_ptr ps)).
  { rewrite (add_win_links ps (Z.pos wid) prev a de Hov Hfind Hview Hdamage).
    destruct Hprev as [-> | Hin].
    - cbn. eexists. split; reflexivity.
    - destruct (Z.eqb_spec prev 0); [cbn; eexists; split; reflexivity |].
      apply in_map_iff in Hin. destruct Hin as ([k pw] & Ek & Hin). cbn in Ek. subst k.
      rewrite (HASH_FIND_INT_NoDup _ _ _ (inv_nodup_key ps Hinv) Hin).
      destruct (registry_inv_node ps prev pw Hinv Hin) as (v & Hv & _).
      rewrite Hv. cbn. eexists. split; reflexivity. }
  destruct Hres as (ps' & Hadd & Hnext). exists ps'. split; [exact Hadd |].
  destruct (add_win_cases (fun _ _ => false) ps ps' wid prev (Some a) de Hie Hadd) as [E | (_ & a' & Ea & Hadded)].
  { exfalso. rewrite E in Hnext. lia. }
  injection Ea as Ea. subst a'.
  assert (Hnotin : ~ In (Z.pos wid) (map fst (windows ps))).
  { apply find_win_None; [discriminate | exact Hfind]. }
  assert (Hinv' : registry_inv ps').
  { apply registry_inv_iff.
    apply (added_inv (fun _ _ => false) ps ps' (Z.pos wid) a); try assumption.
    discriminate. }
  split; [exact Hinv' |].
  pose proof (added_get_win ps ps' (Z.pos wid) a) as Hget.
  assert (Hwin : windows ps' = HASH_ADD_INT (windows ps) (Z.pos wid) (next_ptr ps))
    by apply Hadded.
  specialize (fun q => Hget q (inv_nodup_ptr ps Hinv) Hadded).
  assert (Hnew : get_win (window_stack ps') (next_ptr ps)
                 = Some (win_def (next_ptr ps) (Z.pos wid) a)).
  { rewrite Hget, Nat.eqb_refl. reflexivity. }
  split; [| split; [exact Hnew |]].
  - unfold find_win. cbn [Z.eqb]. rewrite Hwin, (HASH_FIND_INT_add_same _ _ _ Hnotin), Hnew.
    reflexivity.
  - intros k Hk. unfold find_win. destruct (k =? 0); [reflexivity |].
    rewrite Hwin, (HASH_FIND_INT_add_other _ _ _ _ Hk).
    destruct (HASH_FIND_INT (windows ps) k) as [p |] eqn:Ef; [| reflexivity].
    apply HASH_FIND_INT_In in Ef.
    destruct (inv_index ps Hinv k p Ef) as (w & Hw & Hp & _).
    pose proof (inv_fresh ps Hinv w Hw) as Hfresh.
    rewrite Hget. destruct (Nat.eqb_spec p (next_ptr ps)); [lia | reflexivity].
Qed.

(** X13.  Where [add_win] puts the new node: on top of the stack when
    [prev] is 0, directly above the window [prev] otherwise, the other
    windows keeping their places; with a [prev] that is not in the
    table the assertion fails. *)
Theorem add_win_stack_position :
  forall (ps : session_t) (wid prev : xcb_window_t) (a : window_attributes)
         (damage_error : bool),
    wid <> overlay ps ->
    find_win ps wid = Ok None ->
    wa_map_state a <> XCB_MAP_STATE_UNVIEWABLE ->
    (wa_class a = XCB_WINDOW_CLASS_INPUT_ONLY \/ damage_error = false) ->
    let new := win_def (next_ptr ps) wid a in
    (prev = 0 ->
     exists ps', add_win ps wid prev (Some a) damage_error = Ok ps'
                 /\ window_stack ps' = new :: window_stack ps) /\
    (forall pv s1 v s2,
        prev <> 0 ->
        HASH_FIND_INT (windows ps) prev = Some pv ->
        window_stack ps = s1 ++ v :: s2 -> ptr v = pv ->
        (forall n, In n s1 -> ptr n <> pv) ->
        exists ps', add_win ps wid prev (Some a) damage_error = Ok ps'
                    /\ window_stack ps' = s1 ++ new :: v :: s2) /\
    (prev <> 0 -> HASH_FIND_INT (windows ps) prev = None ->
     add_win ps wid prev (Some a) damage_error = Crash).
Proof.
  intros ps wid prev a de Hov Hfind Hview Hdamage new.
  rewrite (add_win_links ps wid prev a de Hov Hfind Hview Hdamage). fold new.
  split; [| split].
  - intros ->. cbn. eexists. split; reflexivity.
  - intros pv s1 v s2 Hprev Hf Hs Hv Hs1. apply Z.eqb_neq in Hprev.
    rewrite Hprev, Hf, Hs, (get_win_at pv v s1 s2 Hv Hs1), (insert_above_at pv new v s1 s2 Hv Hs1).
    cbn. eexists. split; reflexivity.
  - intros Hprev Hf. apply Z.eqb_neq in Hprev. rewrite Hprev, Hf. reflexivity.
Qed.

(** The registry of the two windows of [example_cycle] satisfies the
    invariant. *)
Lemma example_cycle_inv : registry_inv example_cycle.
Proof.
  constructor; cbn.
  - repeat constructor; cbn; intuition discriminate.
  - repeat constructor; cbn; intuition discriminate.
  - intros k p [[= <- <-] | [[= <- <-] | []]]; discriminate.
  - intros k p [[= <- <-] | [[= <- <-] | []]].
    + eexists. split; [left; reflexivity |]. repeat split; discriminate.
    + eexists. split; [right; left; reflexivity |]. repeat split; discriminate.
  - intros w [<- | [<- | []]] _; cbn; auto.
  - intros w [<- | [<- | []]]; discriminate.
  - intros w [<- | [<- | []]]; cbn; lia.
Qed.

Lemma find_toplevel_first_client_witness :
  find_toplevel example_cycle 19 = Ok (Some 1%nat) /\
  find_toplevel example_cycle 20 = Ok None.
Proof.
  destruct (find_toplevel_first_client example_cycle 19 example_cycle_inv)
    as (r & Hr & _).
  split; [| reflexivity]. rewrite Hr. vm_compute in Hr. symmetry. exact Hr.
Defined.

Lemma add_win_then_find_win_witness :
  exists ps',
    add_win example_cycle 20 18 (Some example_attributes) false = Ok ps' /\
    find_win ps' 20 = Ok (Some 2%nat) /\
    find_win ps' 16 = Ok (Some 0%nat).
Proof.
  destruct (add_win_then_find_win example_cycle 20 18 example_attributes false)
    as (ps' & Hadd & _ & Hfind & _ & Hother).
  - exact example_cycle_inv.
  - discriminate.
  - reflexivity.
  - discriminate.
  - right. reflexivity.
  - right. right. left. reflexivity.
  - exists ps'. split; [exact Hadd |]. split; [exact Hfind |].
    rewrite Hother; [reflexivity | discriminate].
Defined.

Lemma add_win_stack_position_witness :
  exists ps',
    add_win example_cycle 20 18 (Some example_attributes) false = Ok ps' /\
    map id (window_stack ps') = [16; 20; 18].
Proof.
  destruct (add_win_stack_position example_cycle 20 18 example_attributes false)
    as (_ & Habove & _).
  - discriminate.
  - reflexivity.
  - discriminate.
  - right. reflexivity.
  - destruct (Habove 1%nat
                [Build_win 0 16 XCB_WINDOW_CLASS_INPUT_OUTPUT XCB_MAP_STATE_VIEWABLE 10 10
                   WSTATE_MAPPED false true true WINTYPE_NORMAL false 17 19 XCB_NONE
                   1%float 1%float false OPAQUE]
                (Build_win 1 18 XCB_WINDOW_CLASS_INPUT_OUTPUT XCB_MAP_STATE_VIEWABLE 10 10
                   WSTATE_MAPPED false true true WINTYPE_NORMAL false 19 17 XCB_NONE
                   1%float 1%float false OPAQUE)
                []) as (ps' & Hadd & Hstack).
    + discriminate.
    + reflexivity.
    + reflexivity.
    + reflexivity.
    + intros n [<- | []]. discriminate.
    + exists ps'. split; [exact Hadd | rewrite Hstack; reflexivity].
Defined.

(** ** Ignore regions *)

Lemma win_is_region_ignore_valid_iter_above (a b : list win) (w : win) (p : nat) :
  ptr w = p -> (forall n, In n a -> ptr n <> p) ->
  win_is_region_ignore_valid_iter (a ++ w :: b) p = forallb reg_ignore_valid a.
Proof.
  intros Hw Ha. induction a as [| n a IH]; cbn.
  - rewrite Hw, Nat.eqb_refl. reflexivity.
  - destruct (Nat.eqb_spec (ptr n) p) as [E | _].
    + exfalso. apply (Ha n); [left; reflexivity | exact E].
    + rewrite IH by (intros m Hm; apply Ha; right; exact Hm).
      destruct (reg_ignore_valid n); reflexivity.
Qed.

(** X14.  [win_is_region_ignore_valid] says whether the ignore regions
    of all the windows above the window in the stack are valid; the
    window itself and the windows below it do not count; for a window
    that is not in the stack it is about all the windows.  After
    [finish_unmap_win] of a window above, it is false. *)
Theorem win_is_region_ignore_valid_above :
  forall (ps : session_t) (p : nat) (w : win) (a b : list win),
    window_stack ps = a ++ w :: b ->
    ptr w = p ->
    (forall n, In n a -> ptr n <> p) ->
    win_is_region_ignore_valid ps p = forallb reg_ignore_valid a /\
    (forall q, In q (map ptr a) -> win_is_region_ignore_valid (finish_unmap_win ps q) p = false).
Proof.
  intros ps p w a b Hs Hw Ha. unfold win_is_region_ignore_valid. split.
  - rewrite Hs. apply win_is_region_ignore_valid_iter_above; assumption.
  - intros q Hq. unfold finish_unmap_win, with_win. cbn [window_stack set_window_stack].
    rewrite Hs. unfold upd_win. rewrite map_app. cbn [map].
    assert (Hqp : q <> p).
    { intros ->. apply in_map_iff in Hq. destruct Hq as (n & En & Hn).
      apply (Ha n Hn En). }
    destruct (Nat.eqb_spec (ptr w) q) as [E | _]; [congruence |].
    rewrite win_is_region_ignore_valid_iter_above.
    + apply in_map_iff in Hq. destruct Hq as (n & En & Hn).
      apply not_true_iff_false. intros Hall.
      rewrite forallb_forall in Hall.
      specialize (Hall (set_state WSTATE_UNMAPPED
                          (set_reg_ignore_valid false (set_ever_damaged false n)))).
      cbn in Hall. discriminate Hall.
      apply in_map_iff. exists n. split; [| exact Hn].
      rewrite En, Nat.eqb_refl. reflexivity.
    + exact Hw.
    + intros n Hn. apply in_map_iff in Hn. destruct Hn as (m & Em & Hm).
      subst n. destruct (Nat.eqb (ptr m) q); cbn; apply Ha; exact Hm.
Qed.

(** [example_cycle] has valid ignore regions; the window below is
    looked at after the window above has been unmapped. *)
Lemma win_is_region_ignore_valid_above_witness :
  win_is_region_ignore_valid example_cycle 1 = true /\
  win_is_region_ignore_valid (finish_unmap_win example_cycle 0) 1 = false.
Proof.
  destruct (win_is_region_ignore_valid_above example_cycle 1
              (Build_win 1 18 XCB_WINDOW_CLASS_INPUT_OUTPUT XCB_MAP_STATE_VIEWABLE 10 10
                 WSTATE_MAPPED false true true WINTYPE_NORMAL false 19 17 XCB_NONE
                 1%float 1%float false OPAQUE)
              [Build_win 0 16 XCB_WINDOW_CLASS_INPUT_OUTPUT XCB_MAP_STATE_VIEWABLE 10 10
                 WSTATE_MAPPED false true true WINTYPE_NORMAL false 17 19 XCB_NONE
                 1%float 1%float false OPAQUE]
              []) as [Hvalid Hunmap].
  - reflexivity.
  - reflexivity.
  - intros n [<- | []]. discriminate.
  - split; [rewrite Hvalid; reflexivity | apply Hunmap; left; reflexivity].
Defined.

(** ** The screen of a window *)

Lemma win_update_screen_loop_spec (scrs : list xcb_xinerama_screen_info_t)
  (i g_x g_y widthb heightb : Z) :
  let r := win_update_screen_loop scrs i g_x g_y widthb heightb in
  (r = -1 /\ forall s, In s scrs -> screen_holds s g_x g_y widthb heightb = false)
  \/ (exists before s after,
         scrs = before ++ s :: after /\ r = i + Z.of_nat (length before) /\
         screen_holds s g_x g_y widthb heightb = true /\
         forall s', In s' before -> screen_holds s' g_x g_y widthb heightb = false).
Proof.
  revert i. induction scrs as [| s scrs IH]; intros i; cbn [win_update_screen_loop].
  - left. split; [reflexivity | intros s []].
  - destruct (screen_holds s g_x g_y widthb heightb) eqn:Eh.
    + right. exists [], s, scrs. cbn. split; [reflexivity |]. split; [lia |].
      split; [exact Eh | intros s' []].
    + destruct (IH (i + 1)) as [[Er Hnone] | (before & s0 & after & Es & Er & Hs0 & Hb)].
      * left. split; [exact Er |]. intros s' [<- | Hin]; [exact Eh | apply Hnone; exact Hin].
      * right. exists (s :: before), s0, after. split; [rewrite Es; reflexivity |].
        split; [cbn [length]; lia |]. split; [exact Hs0 |].
        intros s' [<- | Hin]; [exact Eh | apply Hb; exact Hin].
Qed.

(** X15.  [win_update_screen] gives -1 without Xinerama and when no
    screen holds the whole window; otherwise it gives the index of the
    first screen that holds the window: the rectangle of the window
    lies inside that screen and inside none of the screens before
    it. *)
Theorem win_update_screen_first_screen :
  forall (xinerama_scrs : option (list xcb_xinerama_screen_info_t))
         (g_x g_y widthb heightb : Z),
    let r := win_update_screen xinerama_scrs g_x g_y widthb heightb in
    (xinerama_scrs = None -> r = -1) /\
    (forall scrs, xinerama_scrs = Some scrs ->
       (r = -1 /\
        forall s, In s scrs ->
          ~ (x_org s <= g_x /\ y_org s <= g_y /\
             g_x + widthb <= x_org s + scr_width s /\
             g_y + heightb <= y_org s + scr_height s))
       \/ (0 <= r < Z.of_nat (length scrs) /\
           exists s, nth_error scrs (Z.to_nat r) = Some s /\
             x_org s <= g_x /\ y_org s <= g_y /\
             g_x + widthb <= x_org s + scr_width s /\
             g_y + heightb <= y_org s + scr_height s /\
             forall j s', (j < Z.to_nat r)%nat -> nth_error scrs j = Some s' ->
                          screen_holds s' g_x g_y widthb heightb = false)).
Proof.
  intros xs g_x g_y widthb heightb r. subst r. split.
  - intros ->. reflexivity.
  - intros scrs ->. cbn [win_update_screen].
    assert (Hholds : forall s, screen_holds s g_x g_y widthb heightb = true <->
                               x_org s <= g_x /\ y_org s <= g_y /\
                               g_x + widthb <= x_org s + scr_width s /\
                               g_y + heightb <= y_org s + scr_height s).
    { intros s. unfold screen_holds. rewrite !andb_true_iff, !Z.leb_le. tauto. }
    destruct (win_update_screen_loop_spec scrs 0 g_x g_y widthb heightb)
      as [[Er Hnone] | (before & s & after & Es & Er & Hs & Hb)].
    + left. split; [exact Er |]. intros s Hin Hc. apply Hholds in Hc.
      rewrite (Hnone s Hin) in Hc. discriminate.
    + right. rewrite Er, Es. cbn [Z.add]. rewrite Nat2Z.id, length_app. cbn [length].
      split; [lia |]. exists s. split.
      * rewrite nth_error_app2 by lia. rewrite Nat.sub_diag. reflexivity.
      * apply Hholds in Hs. destruct Hs as (H1 & H2 & H3 & H4).
        repeat (split; [assumption |]).
        intros j s' Hj Hnth. apply Hb. rewrite nth_error_app1 in Hnth by exact Hj.
        eapply nth_error_In. exact Hnth.
Qed.

(** A window on the second of two screens, and one that straddles
    both. *)
Example win_update_screen_example :
  win_update_screen (Some example_screens) 2000 100 640 480 = 1 /\
  win_update_screen (Some example_screens) 1800 100 640 480 = -1 /\
  win_update_screen None 2000 100 640 480 = -1.
Proof. repeat split; reflexivity. Qed.

(** ** Cutting a fade short *)

(** X16.  [win_skip_fading] on a window whose fade is in progress ends
    the fade when the target is a number: the node of a window being
    destroyed leaves the stack; any other window is at its target, in
    the state UNMAPPED when it was being unmapped and MAPPED otherwise.
    When the target is NaN the comparison of the opacity with the
    target fails, and the window stays in its state with the opacity
    NaN. *)
Theorem win_skip_fading_ends_fade :
  forall (ps : session_t) (p : nat) (w : win),
    NoDup (map ptr (window_stack ps)) ->
    get_win (window_stack ps) p = Some w ->
    not_fading (state w) = false ->
    (PrimFloat.eqb (opacity_tgt w) (opacity_tgt w) = true ->
     exists ps',
       win_skip_fading ps p = Ok ps' /\
       match state w with
       | WSTATE_DESTROYING => get_win (window_stack ps') p = None
       | st =>
           exists w',
             get_win (window_stack ps') p = Some w' /\
             opacity w' = opacity_tgt w /\ opacity_tgt w' = opacity_tgt w /\
             state w' = match st with
                        | WSTATE_UNMAPPING => WSTATE_UNMAPPED
                        | _ => WSTATE_MAPPED
                        end
       end) /\
    (PrimFloat.eqb (opacity_tgt w) (opacity_tgt w) = false ->
     win_skip_fading ps p = Ok (with_win ps p (set_opacity (opacity_tgt w)))).
Proof.
  intros ps p w Hnd Hw Hfading. split.
  - intros Hnan.
    destruct (win_skip_fading_step ps p w Hnd Hw Hfading Hnan) as (ps' & Hres & _ & _ & H).
    exists ps'. split; assumption.
  - intros Hnan. unfold win_skip_fading. rewrite Hw, Hfading.
    unfold win_check_fade_finished. cbn [window_stack with_win set_window_stack].
    rewrite get_win_upd_same by reflexivity. rewrite Hw.
    cbn [option_map state opacity opacity_tgt set_opacity]. rewrite Hfading, Hnan.
    reflexivity.
Qed.

(** The window of [session_fading_in] is half way to its target 0.75;
    skipping the fade maps it at 0.75. *)
Lemma win_skip_fading_ends_fade_witness :
  exists ps' w',
    win_skip_fading session_fading_in 0 = Ok ps' /\
    get_win (window_stack ps') 0 = Some w' /\
    opacity w' = 0.75%float /\ state w' = WSTATE_MAPPED.
Proof.
  destruct (win_skip_fading_ends_fade session_fading_in 0
              (set_opacity 0.5%float
                 (set_opacity_tgt 0.75%float
                    (set_state WSTATE_MAPPING
                       (set_a_map_state XCB_MAP_STATE_VIEWABLE
                          (set_g_height 480
                             (set_g_width 640 (win_def 0 16 example_attributes))))))))
    as [Hends _].
  - vm_compute. repeat constructor. intros [].
  - vm_compute. reflexivity.
  - reflexivity.
  - destruct Hends as (ps' & Hres & w' & Hw' & Hop & _ & Hst); [reflexivity |].
    exists ps', w'. repeat split; assumption.
Defined.

(** ** The leader cache *)

Section LeaderCacheProofs.

Variable MAX : Z.

Lemma win_get_leader_raw_ptrs (fuel : nat) :
  forall (ps : session_t) (p : nat) (recursions : Z) (ps' : session_t) (l : xcb_window_t),
    win_get_leader_raw MAX fuel ps p recursions = Some (Ok (ps', l)) ->
    map ptr (window_stack ps') = map ptr (window_stack ps).
Proof.
  induction fuel as [| fuel IH]; intros ps p r ps' l; cbn [win_get_leader_raw];
    [discriminate |].
  destruct (get_win (window_stack ps) p) as [w |]; [| discriminate].
  destruct ((cache_leader w =? 0) && (negb (client_win w =? 0) || negb (leader w =? 0)));
    [| intros [= <- _]; reflexivity].
  cbv zeta.
  set (cl := if leader w =? 0 then client_win w else leader w).
  set (ps1 := with_win ps p (set_cache_leader cl)).
  assert (H1 : map ptr (window_stack ps1) = map ptr (window_stack ps)).
  { subst ps1. cbn [window_stack with_win set_window_stack].
    apply upd_win_ptr. reflexivity. }
  destruct (negb (cl =? 0) && negb (cl =? client_win w)); [| intros [= <- _]; exact H1].
  destruct (find_toplevel ps1 cl) as [[wp |] |]; [| intros [= <- _]; exact H1 | discriminate].
  destruct (MAX <? r); [intros [= <- _]; exact H1 |].
  destruct (win_get_leader_raw MAX fuel ps1 wp (r + 1)) as [[[ps2 l2] |] |] eqn:Erec;
    [| discriminate | discriminate].
  intros [= <- _]. cbn [window_stack with_win set_window_stack].
  rewrite upd_win_ptr by reflexivity. rewrite (IH _ _ _ _ _ Erec). exact H1.
Qed.

Lemma get_win_same_ptrs (l l' : list win) (p : nat) (w : win) :
  map ptr l' = map ptr l -> get_win l p = Some w -> exists w', get_win l' p = Some w'.
Proof.
  intros Hptr Hw. destruct (get_win l' p) as [w' |] eqn:E; [exists w'; reflexivity |].
  apply get_win_None in E. rewrite Hptr in E. exfalso. apply E.
  apply get_win_In in Hw. destruct Hw as [Hin <-]. apply in_map. exact Hin.
Qed.

(** X17.  [win_get_leader_raw] caches what it finds: after a call that
    returned a leader other than [XCB_NONE], the window's
    [cache_leader] is that leader, and a further call returns it at
    once, at any depth, and leaves the session as it is. *)
Theorem win_get_leader_raw_cached :
  forall (fuel : nat) (ps : session_t) (p : nat) (recursions : Z) (ps' : session_t)
         (l : xcb_window_t),
    win_get_leader_raw MAX fuel ps p recursions = Some (Ok (ps', l)) ->
    l <> XCB_NONE ->
    (exists w', get_win (window_stack ps') p = Some w' /\ cache_leader w' = l) /\
    forall fuel' recursions',
      win_get_leader_raw MAX (S fuel') ps' p recursions' = Some (Ok (ps', l)).
Proof.
  intros fuel ps p r ps' l Hres Hl.
  assert (Hcache : exists w', get_win (window_stack ps') p = Some w' /\ cache_leader w' = l).
  { destruct fuel as [| fuel]; [discriminate |]. cbn [win_get_leader_raw] in Hres.
    destruct (get_win (window_stack ps) p) as [w |] eqn:Hw; [| discriminate].
    destruct ((cache_leader w =? 0) && (negb (client_win w =? 0) || negb (leader w =? 0))).
    2: { injection Hres as <- <-. exists w. split; [exact Hw | reflexivity]. }
    cbv zeta in Hres.
    set (cl := if leader w =? 0 then client_win w else leader w) in *.
    set (ps1 := with_win ps p (set_cache_leader cl)) in *.
    assert (Hw1 : get_win (window_stack ps1) p = Some (set_cache_leader cl w)).
    { subst ps1. cbn [window_stack with_win set_window_stack].
      rewrite get_win_upd_same by reflexivity. rewrite Hw. reflexivity. }
    destruct (negb (cl =? 0) && negb (cl =? client_win w)).
    2: { injection Hres as <- <-. eexists. split; [exact Hw1 | reflexivity]. }
    destruct (find_toplevel ps1 cl) as [[wp |] |]; [| | discriminate].
    2: { injection Hres as <- <-. eexists. split; [exact Hw1 | reflexivity]. }
    destruct (MAX <? r).
    { injection Hres as _ <-. exfalso. apply Hl. reflexivity. }
    destruct (win_get_leader_raw MAX fuel ps1 wp (r + 1)) as [[[ps2 l2] |] |] eqn:Erec;
      [| discriminate | discriminate].
    injection Hres as <- <-.
    destruct (get_win_same_ptrs (window_stack ps1) (window_stack ps2) p _
                (win_get_leader_raw_ptrs _ _ _ _ _ _ Erec) Hw1) as (w2 & Hw2).
    cbn [window_stack with_win set_window_stack].
    rewrite get_win_upd_same by reflexivity. rewrite Hw2.
    eexists. split; reflexivity. }
  split; [exact Hcache |].
  intros fuel' r'. destruct Hcache as (w' & Hw' & Hc).
  cbn [win_get_leader_raw]. rewrite Hw', Hc.
  apply Z.eqb_neq in Hl. unfold XCB_NONE in Hl. rewrite Hl. reflexivity.
Qed.

End LeaderCacheProofs.

(** In [example_cycle] the leader of the first window resolves to 19;
    the second lookup gives 19 again without a step. *)
Lemma win_get_leader_raw_cached_witness :
  exists ps',
    win_get_leader_raw 20 (leader_fuel 20 0) example_cycle 0 0 = Some (Ok (ps', 19)) /\
    win_get_leader_raw 20 1 ps' 0 0 = Some (Ok (ps', 19)).
Proof.
  destruct (win_get_leader_raw 20 (leader_fuel 20 0) example_cycle 0 0)
    as [[[ps' l] |] |] eqn:Eres; try (vm_compute in Eres; discriminate).
  assert (El : l = 19) by (vm_compute in Eres; congruence).
  subst l. exists ps'. split; [reflexivity |].
  apply (win_get_leader_raw_cached 20 (leader_fuel 20 0) example_cycle 0 0 ps' 19 Eres).
  discriminate.
Defined.

(** The window of [session_fading_in] is unmapped half way through its
    fade-in: it fades out from 0.5. *)
Lemma unmap_win_fades_out_witness :
  exists ps' w',
    unmap_win never_focused focus_unchanged session_fading_in (Some 0%nat) false = Ok ps' /\
    get_win (window_stack ps') 0 = Some w' /\
    state w' = WSTATE_UNMAPPING /\ opacity w' = 0.5%float /\ opacity_tgt w' = 0%float.
Proof.
  destruct (unmap_win_fades_out never_focused focus_unchanged
              (fun ps p b => registry_frame_refl ps) session_fading_in 0
              (set_opacity 0.5%float
                 (set_opacity_tgt 0.75%float
                    (set_state WSTATE_MAPPING
                       (set_a_map_state XCB_MAP_STATE_VIEWABLE
                          (set_g_height 480
                             (set_g_width 640 (win_def 0 16 example_attributes))))))))
    as (ps' & w' & Hres & _ & Hw' & Htgt & Hred & _).
  - vm_compute. repeat constructor. intros [].
  - vm_compute. reflexivity.
  - discriminate.
  - right. left. reflexivity.
  - destruct Hred as [Hst Hop]; [reflexivity |].
    exists ps', w'. repeat split; assumption.
Defined.

(** The window of [session_created] is mapped: it starts to fade in
    from opacity 0. *)
Lemma map_win_starts_fade_in_witness :
  exists ps' w',
    map_win never_focused refresh_unchanged session_created 0 (Some (640, 480)) = Ok ps' /\
    get_win (window_stack ps') 0 = Some w' /\
    state w' = WSTATE_MAPPING /\ opacity w' = 0%float.
Proof.
  destruct (map_win_starts_fade_in never_focused refresh_unchanged
              (fun ps p => registry_frame_refl ps) session_created 0
              (win_def 0 16 example_attributes) 640 480) as (Hunmapped & _).
  - vm_compute. repeat constructor. intros [].
  - vm_compute. reflexivity.
  - discriminate.
  - reflexivity.
  - destruct Hunmapped as (ps' & w' & Hres & Hw' & Hst & Hop & _); [reflexivity |].
    exists ps', w'. repeat split; assumption.
Defined.

(** ** Freeing a node *)

Lemma upd_win_at_node (p : nat) (f : win -> win) (a b : list win) (w : win) :
  ptr w = p -> (forall n, In n a -> ptr n <> p) -> (forall n, In n b -> ptr n <> p) ->
  upd_win p f (a ++ w :: b) = a ++ f w :: b.
Proof.
  intros Hw Ha Hb. unfold upd_win. rewrite map_app. cbn [map].
  rewrite Hw, Nat.eqb_refl. f_equal; [| f_equal].
  - rewrite <- (map_id a) at 2. apply map_ext_in. intros n Hn.
    destruct (Nat.eqb_spec (ptr n) p) as [E | _]; [| reflexivity].
    exfalso. apply (Ha n Hn E).
  - rewrite <- (map_id b) at 2. apply map_ext_in. intros n Hn.
    destruct (Nat.eqb_spec (ptr n) p) as [E | _]; [| reflexivity].
    exfalso. apply (Hb n Hn E).
Qed.

Lemma unlink_at (p : nat) (a b : list win) (w : win) :
  ptr w = p -> (forall n, In n a -> ptr n <> p) ->
  unlink p (a ++ w :: b)
  = a ++ match b with
         | [] => []
         | n :: b' => set_reg_ignore_valid false n :: b'
         end.
Proof.
  intros Hw Ha. induction a as [| n a IH]; cbn.
  - rewrite Hw, Nat.eqb_refl. reflexivity.
  - destruct (Nat.eqb_spec (ptr n) p) as [E | _].
    + exfalso. apply (Ha n); [left; reflexivity | exact E].
    + f_equal. apply IH. intros m Hm. apply Ha. right. exact Hm.
Qed.

(** X20.  [finish_destroy_win] takes the node out of the stack and
    leaves no pointer to it: the windows above and below keep their
    order, the ignore region of the window just below is invalidated,
    the id table is untouched, and [active_win] is cleared when it
    pointed to the node. *)
Theorem finish_destroy_win_unlinks :
  forall (ps : session_t) (p : nat) (w : win) (a b : list win),
    window_stack ps = a ++ w :: b ->
    ptr w = p ->
    (forall n, In n a -> ptr n <> p) ->
    (forall n, In n b -> ptr n <> p) ->
    exists ps',
      finish_destroy_win ps p = Ok ps' /\
      window_stack ps'
      = a ++ match b with
             | [] => []
             | n :: b' => set_reg_ignore_valid false n :: b'
             end /\
      get_win (window_stack ps') p = None /\
      active_win ps' <> Some p /\
      (active_win ps <> Some p -> active_win ps' = active_win ps) /\
      windows ps' = windows ps.
Proof.
  intros ps p w a b Hs Hw Ha Hb. unfold finish_destroy_win.
  rewrite Hs, (get_win_at p w a b Hw Ha).
  set (ps1 := if negb (winstate_eqb (state w) WSTATE_UNMAPPED)
              then finish_unmap_win ps p else ps).
  assert (H1 : exists w1, window_stack ps1 = a ++ w1 :: b /\ ptr w1 = p
                          /\ active_win ps1 = active_win ps
                          /\ windows ps1 = windows ps).
  { subst ps1. destruct (negb (winstate_eqb (state w) WSTATE_UNMAPPED)).
    - unfold finish_unmap_win, with_win. cbn [window_stack set_window_stack].
      rewrite Hs, (upd_win_at_node p _ a b w Hw Ha Hb).
      eexists. split; [reflexivity |]. split; [exact Hw | split; reflexivity].
    - exists w. split; [exact Hs |]. split; [exact Hw | split; reflexivity]. }
  destruct H1 as (w1 & Hs1 & Hw1 & Hact1 & Hwin1).
  set (ps2 := set_window_stack (unlink p (window_stack ps1)) ps1).
  assert (Hs2 : window_stack ps2
                = a ++ match b with
                       | [] => []
                       | n :: b' => set_reg_ignore_valid false n :: b'
                       end).
  { subst ps2. cbn [window_stack set_window_stack]. rewrite Hs1.
    apply unlink_at; assumption. }
  assert (Hgone : get_win (a ++ match b with
                                | [] => []
                                | n :: b' => set_reg_ignore_valid false n :: b'
                                end) p = None).
  { apply get_win_None. rewrite map_app. intros Hin. apply in_app_or in Hin.
    destruct Hin as [Hin | Hin]; apply in_map_iff in Hin;
      destruct Hin as (n & En & Hn).
    - apply (Ha n Hn En).
    - destruct b as [| n0 b']; [destruct Hn |].
      destruct Hn as [<- | Hn].
      + apply (Hb n0); [left; reflexivity | exact En].
      + apply (Hb n); [right; exact Hn | exact En]. }
  eexists. split; [reflexivity |].
  assert (Hact2 : active_win ps2 = active_win ps) by (subst ps2; exact Hact1).
  assert (Hwin2 : windows ps2 = windows ps) by (subst ps2; exact Hwin1).
  fold ps1. fold ps2.
  assert (Hres : forall res,
             res = match active_win ps2 with
                   | Some q => if Nat.eqb q p then set_active_win None ps2 else ps2
                   | None => ps2
                   end ->
             window_stack res = window_stack ps2 /\ windows res = windows ps2 /\
             active_win res <> Some p /\
             (active_win ps2 <> Some p -> active_win res = active_win ps2)).
  { intros res ->. destruct (active_win ps2) as [q |] eqn:Eq.
    - destruct (Nat.eqb_spec q p) as [-> | Hne].
      + split; [reflexivity |]. split; [reflexivity |]. split; [discriminate |].
        intros Hnot. exfalso. apply Hnot. reflexivity.
      + rewrite Eq. split; [reflexivity |]. split; [reflexivity |].
        split; [intros [= E]; contradiction | reflexivity].
    - rewrite Eq. split; [reflexivity |]. split; [reflexivity |].
      split; [discriminate | reflexivity]. }
  destruct (Hres _ eq_refl) as (Rs & Rw & Ra & Rk).
  rewrite Rs, Rw, Hs2, Hwin2. split; [reflexivity |]. split; [exact Hgone |].
  split; [exact Ra |]. split; [| reflexivity].
  intros Hnot. rewrite <- Hact2. apply Rk. rewrite Hact2. exact Hnot.
Qed.

(** The node on top of [example_cycle] is freed: the window below stays
    and its ignore region is invalidated. *)
Lemma finish_destroy_win_unlinks_witness :
  exists ps',
    finish_destroy_win example_cycle 0 = Ok ps' /\
    map id (window_stack ps') = [18] /\
    map reg_ignore_valid (window_stack ps') = [false] /\
    get_win (window_stack ps') 0 = None.
Proof.
  destruct (finish_destroy_win_unlinks example_cycle 0
              (Build_win 0 16 XCB_WINDOW_CLASS_INPUT_OUTPUT XCB_MAP_STATE_VIEWABLE 10 10
                 WSTATE_MAPPED false true true WINTYPE_NORMAL false 17 19 XCB_NONE
                 1%float 1%float false OPAQUE)
              []
              [Build_win 1 18 XCB_WINDOW_CLASS_INPUT_OUTPUT XCB_MAP_STATE_VIEWABLE 10 10
                 WSTATE_MAPPED false true true WINTYPE_NORMAL false 19 17 XCB_NONE
                 1%float 1%float false OPAQUE])
    as (ps' & Hres & Hstack & Hgone & _).
  - reflexivity.
  - reflexivity.
  - intros n [].
  - intros n [<- | []]. discriminate.
  - exists ps'. split; [exact Hres |]. rewrite Hstack.
    split; [reflexivity |]. split; [reflexivity |]. rewrite <- Hstack. exact Hgone.
Defined.

End WinProofs.

(** * Proofs about the arithmetic of doubles *)

Module FloatProofs.

(** ** Powers of two *)

Lemma bpow_pos e : (0 < bpow e)%R.
Proof. unfold bpow. apply powerRZ_lt. lra. Qed.

Lemma bpow_add a b : bpow (a + b) = (bpow a * bpow b)%R.
Proof. unfold bpow. apply powerRZ_add. lra. Qed.

Lemma bpow_nonneg_IZR n : 0 <= n -> bpow n = IZR (2 ^ n).
Proof.
  intros Hn. unfold bpow. destruct n as [| p | p]; [reflexivity | | lia].
  change (2 ^ Z.pos p) with (Z.pow_pos 2 p). rewrite Zpower_pos_powerRZ. reflexivity.
Qed.

Lemma bpow_ge_1 n : 0 <= n -> (1 <= bpow n)%R.
Proof.
  intros Hn. rewrite bpow_nonneg_IZR by exact Hn. apply IZR_le.
  pose proof (Z.pow_pos_nonneg 2 n). lia.
Qed.

Lemma bpow_le a b : a <= b -> (bpow a <= bpow b)%R.
Proof.
  intros H. replace b with (a + (b - a)) by lia. rewrite bpow_add.
  pose proof (bpow_pos a). pose proof (bpow_ge_1 (b - a) ltac:(lia)). nra.
Qed.

Lemma bpow_lt a b : a < b -> (bpow a < bpow b)%R.
Proof.
  intros H. replace b with (a + 1 + (b - a - 1)) by lia. rewrite !bpow_add.
  pose proof (bpow_pos a). pose proof (bpow_ge_1 (b - a - 1) ltac:(lia)).
  replace (bpow 1) with 2%R in * by (unfold bpow; simpl; lra). nra.
Qed.

Lemma bpow_lt_inv a b : (bpow a < bpow b)%R -> a < b.
Proof.
  intros H. destruct (Z_lt_ge_dec a b) as [L | G]; [exact L |].
  pose proof (bpow_le b a ltac:(lia)). lra.
Qed.

Lemma bpow_le_inv a b : (bpow a <= bpow b)%R -> a <= b.
Proof.
  intros H. destruct (Z_le_gt_dec a b) as [L | G]; [exact L |].
  pose proof (bpow_lt b a ltac:(lia)). lra.
Qed.

Lemma F2R_shift m e n : 0 <= n -> F2R (m * 2 ^ n) e = F2R m (e + n).
Proof.
  intros Hn. unfold F2R. rewrite mult_IZR, bpow_add, (bpow_nonneg_IZR n Hn). ring.
Qed.

Lemma F2R_le m m' e : m <= m' -> (F2R m e <= F2R m' e)%R.
Proof.
  intros H. unfold F2R. pose proof (bpow_pos e). apply IZR_le in H. nra.
Qed.

Lemma F2R_lt_inv m m' e : (F2R m e < F2R m' e)%R -> m < m'.
Proof.
  unfold F2R. intros H. pose proof (bpow_pos e). apply lt_IZR. nra.
Qed.

Lemma F2R_le_inv m m' e : (F2R m e <= F2R m' e)%R -> m <= m'.
Proof.
  unfold F2R. intros H. pose proof (bpow_pos e). apply le_IZR. nra.
Qed.

Lemma F2R_succ m e : F2R (m + 1) e = (F2R m e + bpow e)%R.
Proof. unfold F2R. rewrite plus_IZR. ring. Qed.

(** ** The number of bits of a mantissa *)
Lemma digits2_pos_size p : digits2_pos p = Pos.size p.
Proof. induction p; simpl; congruence. Qed.

Lemma Zdigits2_bounds m : 0 < m -> 2 ^ (Zdigits2 m - 1) <= m < 2 ^ Zdigits2 m.
Proof.
  intros Hm. destruct m as [| p | p]; try lia. cbn [Zdigits2].
  rewrite digits2_pos_size. split.
  - pose proof (Pos.size_le p) as H.
    assert (H2 : (2 ^ Z.pos (Pos.size p) <= 2 * Z.pos p)).
    { change (2 * Z.pos p) with (Z.pos p~0).
      change 2 with (Z.pos 2). rewrite <- Pos2Z.inj_pow. apply Pos2Z.pos_le_pos. exact H. }
    replace (Z.pos (Pos.size p)) with (Z.pos (Pos.size p) - 1 + 1) in H2 at 1 by lia.
    rewrite Z.pow_add_r in H2 by lia. lia.
  - pose proof (Pos.size_gt p) as H.
    change 2 with (Z.pos 2). rewrite <- Pos2Z.inj_pow. apply Pos2Z.pos_lt_pos. exact H.
Qed.

Lemma Zdigits2_nonneg m : 0 <= Zdigits2 m.
Proof. destruct m; cbn; lia. Qed.

Lemma Zdigits2_F2R m e : 0 < m -> (bpow (Zdigits2 m - 1 + e) <= F2R m e < bpow (Zdigits2 m + e))%R.
Proof.
  intros Hm. destruct (Zdigits2_bounds m Hm) as [L U].
  assert (Hd : 0 < Zdigits2 m) by (destruct m; cbn; lia).
  rewrite !bpow_add. unfold F2R.
  rewrite (bpow_nonneg_IZR (Zdigits2 m - 1)) by lia. rewrite (bpow_nonneg_IZR (Zdigits2 m)) by lia.
  pose proof (bpow_pos e). apply IZR_le in L. apply IZR_lt in U. split; nra.
Qed.

(** The number of bits from the bounds of the value. *)
Lemma Zdigits2_le_of_lt m e d : 0 < m -> (F2R m e < bpow (d + e))%R -> Zdigits2 m <= d.
Proof.
  intros Hm H. destruct (Zdigits2_F2R m e Hm) as [L _].
  assert (bpow (Zdigits2 m - 1 + e) < bpow (d + e))%R by lra.
  apply bpow_lt_inv in H0. lia.
Qed.

Lemma Zdigits2_ge_of_le m e d : 0 < m -> (bpow (d - 1 + e) <= F2R m e)%R -> d <= Zdigits2 m.
Proof.
  intros Hm H. destruct (Zdigits2_F2R m e Hm) as [_ U].
  assert (bpow (d - 1 + e) < bpow (Zdigits2 m + e))%R by lra.
  apply bpow_lt_inv in H0. lia.
Qed.

(** ** Rounding to nearest in [binary_round_aux] *)
Local Abbreviation fexp := (SpecFloat.fexp prec emax).

Lemma fexp_eq e : fexp e = Z.max (e - 53) (-1074).
Proof. reflexivity. Qed.

Lemma shr_1_inb x r e : inb x r e -> inb x (shr_1 r) (e + 1).
Proof.
  destruct r as [m rb sb]. unfold inb. cbn [shr_m shr_r shr_s]. intros (Hm & [L U] & Hex).
  pose proof (bpow_pos e) as He.
  assert (Hb : bpow (e + 1) = (2 * bpow e)%R).
  { rewrite bpow_add. replace (bpow 1) with 2%R by (unfold bpow; simpl; lra). ring. }
  unfold F2R in *. rewrite plus_IZR in U.
  destruct m as [| p | p]; [| | lia].
  - cbn [shr_1 shr_m shr_r shr_s]. rewrite Hb. split; [lia |]. split.
    + cbn. split; lra.
    + intros Hx. destruct Hex as [-> ->]; [cbn in *; lra | split; reflexivity].
  - destruct p as [p | p |]; cbn [shr_1 shr_m shr_r shr_s]; rewrite Hb, ?plus_IZR.
    + change (Z.pos p~1) with (2 * Z.pos p + 1) in *. rewrite plus_IZR, mult_IZR in L, U.
      split; [lia |]. split; [split; nra |]. intros Hx. exfalso. nra.
    + change (Z.pos p~0) with (2 * Z.pos p) in *. rewrite mult_IZR in L, U, Hex.
      split; [lia |]. split; [split; nra |]. intros Hx.
      destruct Hex as [-> ->]; [nra | split; reflexivity].
    + split; [lia |]. split; [cbn in *; split; nra |]. intros Hx. exfalso. cbn in *. nra.
Qed.

Lemma iter_shr_inb p : forall x r e, inb x r e -> inb x (SpecFloat.iter_pos shr_1 p r) (e + Z.pos p).
Proof.
  induction p as [p IH | p IH |]; intros x r e H; cbn [SpecFloat.iter_pos].
  - replace (e + Z.pos p~1) with (e + 1 + Z.pos p + Z.pos p) by lia.
    apply IH, IH, shr_1_inb, H.
  - replace (e + Z.pos p~0) with (e + Z.pos p + Z.pos p) by lia.
    apply IH, IH, H.
  - apply shr_1_inb, H.
Qed.

Lemma record_of_loc_inb x m e l :
  0 <= m -> (F2R m e <= x < F2R (m + 1) e)%R -> (x = F2R m e -> l = loc_Exact) ->
  inb x (shr_record_of_loc m l) e.
Proof.
  intros Hm Hx Hex. unfold inb.
  assert (Hmm : shr_m (shr_record_of_loc m l) = m) by (destruct l as [| []]; reflexivity).
  rewrite Hmm. split; [exact Hm |]. split; [exact Hx |].
  intros E. rewrite (Hex E). split; reflexivity.
Qed.

Lemma shr_fexp_inb x m e l :
  0 <= m -> e <= fexp (Zdigits2 m + e) ->
  (F2R m e <= x < F2R (m + 1) e)%R -> (x = F2R m e -> l = loc_Exact) ->
  snd (shr_fexp prec emax m e l) = fexp (Zdigits2 m + e) /\
  inb x (fst (shr_fexp prec emax m e l)) (fexp (Zdigits2 m + e)).
Proof.
  intros Hm He Hx Hex. unfold shr_fexp, shr.
  pose proof (record_of_loc_inb x m e l Hm Hx Hex) as H0.
  destruct (fexp (Zdigits2 m + e) - e) as [| n | n] eqn:En; [| | lia]; cbn [fst snd].
  - replace (fexp (Zdigits2 m + e)) with e by lia. split; [reflexivity | exact H0].
  - split; [lia |]. replace (fexp (Zdigits2 m + e)) with (e + Z.pos n) by lia.
    apply iter_shr_inb, H0.
Qed.

Lemma round_nearest_even_inb x r e :
  inb x r e ->
  let m2 := round_nearest_even (shr_m r) (loc_of_shr_record r) in
  shr_m r <= m2 <= shr_m r + 1 /\ (x = F2R (shr_m r) e -> m2 = shr_m r).
Proof.
  intros (Hm & Hx & Hex). cbv zeta. split.
  - destruct r as [m [] []]; cbn; try lia. destruct (Z.even m); lia.
  - intros E. destruct (Hex E) as [Hr Hs]. destruct r as [m rb sb]. cbn in *. subst. reflexivity.
Qed.

Lemma in_format_grid K k e1 :
  0 < K -> e1 <= k -> F2R K k = F2R (K * 2 ^ (k - e1)) e1.
Proof. intros HK H. rewrite F2R_shift by lia. f_equal. lia. Qed.

(** [binary_round_aux] on the truncation [m * 2^e] of a real [x >= 0]
    with its location [l]: the result is [mk_float] of a mantissa and
    an exponent in canonical form, and every number of the format that
    bounds [x] from above or from below bounds the result the same way:
    the rounding is monotone and leaves the numbers of the format
    where they are. *)
Theorem round_aux_spec (s : bool) (m e : Z) (l : location) (x : R) :
  0 <= m -> e <= fexp (Zdigits2 m + e) ->
  (F2R m e <= x < F2R (m + 1) e)%R -> (x = F2R m e -> l = loc_Exact) ->
  exists m' e',
    0 <= m' /\
    binary_round_aux prec emax s m e l = mk_float s m' e' /\
    (0 < m' -> fexp (Zdigits2 m' + e') = e') /\
    (x = 0%R -> m' = 0) /\
    forall K k, in_format K k ->
      ((x <= F2R K k)%R -> (F2R m' e' <= F2R K k)%R) /\
      ((F2R K k <= x)%R -> (F2R K k <= F2R m' e')%R).
Proof.
  intros Hm He Hx Hex.
  destruct (shr_fexp_inb x m e l Hm He Hx Hex) as [He1 Hinb].
  unfold binary_round_aux.
  destruct (shr_fexp prec emax m e l) as [r1 e1]. cbn [fst snd] in *. subst e1.
  set (e1 := fexp (Zdigits2 m + e)) in *.
  pose proof (round_nearest_even_inb x r1 e1 Hinb) as Hrn. cbv zeta in Hrn.
  set (m2 := round_nearest_even (shr_m r1) (loc_of_shr_record r1)) in *.
  destruct Hinb as (Hm1 & Hx1 & _). destruct Hrn as [Hm2 Hm2ex].
  set (m1 := shr_m r1) in *.
  assert (He1min : -1074 <= e1) by (subst e1; rewrite fexp_eq; lia).
  (* the mantissa fits *)
  assert (Hm1lt : m1 < 2 ^ 53).
  { destruct (Z.eq_dec m 0) as [-> | Hm0].
    - (* x < bpow e <= bpow e1 *)
      assert (Hxe : (x < bpow e1)%R).
      { destruct Hx as [_ U]. unfold F2R in U. cbn in U. pose proof (bpow_le e e1 He). lra. }
      assert (F2R m1 e1 < F2R 1 e1)%R by (unfold F2R at 2; lra).
      apply F2R_lt_inv in H. pose proof (Z.pow_pos_nonneg 2 53). lia.
    - assert (Hm' : 0 < m) by lia.
      destruct (Zdigits2_F2R m e Hm') as [_ U].
      assert (Hxu : (x < bpow (Zdigits2 m + e))%R).
      { destruct Hx as [_ U']. destruct (Zdigits2_bounds m Hm') as [_ Ud].
        assert (m + 1 <= 2 ^ Zdigits2 m) by lia.
        pose proof (F2R_le (m + 1) (2 ^ Zdigits2 m) e H).
        unfold F2R at 2 in H0. rewrite <- bpow_nonneg_IZR in H0 by apply Zdigits2_nonneg.
        rewrite <- bpow_add in H0. lra. }
      assert (Hle : Zdigits2 m + e <= 53 + e1) by (subst e1; rewrite fexp_eq; lia).
      pose proof (bpow_le _ _ Hle) as Hb.
      assert (F2R m1 e1 < F2R (2 ^ 53) e1)%R.
      { unfold F2R at 2. rewrite <- bpow_nonneg_IZR by lia. rewrite <- bpow_add. lra. }
      apply F2R_lt_inv in H. exact H. }
  (* normalized when above the smallest exponent *)
  assert (Hnorm : -1074 < e1 -> 2 ^ 52 <= m1).
  { intros Hgt.
    assert (Hm' : 0 < m).
    { destruct (Z.eq_dec m 0) as [-> | ]; [| lia]. subst e1. cbn [Zdigits2] in *.
      rewrite fexp_eq in *. lia. }
    assert (He1eq : e1 = Zdigits2 m + e - 53) by (subst e1; rewrite fexp_eq in *; lia).
    destruct (Zdigits2_F2R m e Hm') as [L _].
    assert (bpow (52 + e1) <= x)%R.
    { replace (52 + e1) with (Zdigits2 m - 1 + e) by lia. lra. }
    assert (F2R (2 ^ 52) e1 < F2R (m1 + 1) e1)%R.
    { unfold F2R at 1. rewrite <- bpow_nonneg_IZR by lia. rewrite <- bpow_add. lra. }
    apply F2R_lt_inv in H0. lia. }
  (* the second shift *)
  assert (Hsecond : exists m3 e3,
             0 <= m3 /\
             shr_fexp prec emax m2 e1 loc_Exact
             = ({| shr_m := m3; shr_r := false; shr_s := false |}, e3) /\
             F2R m3 e3 = F2R m2 e1 /\
             (0 < m3 -> fexp (Zdigits2 m3 + e3) = e3)).
  { destruct (Z.eq_dec m2 (2 ^ 53)) as [E | NE].
    - exists (2 ^ 52), (e1 + 1). rewrite E. split; [lia |]. split.
      + unfold shr_fexp. change (Zdigits2 (2 ^ 53)) with 54. rewrite fexp_eq.
        replace (Z.max (54 + e1 - 53) (-1074) - e1) with 1 by lia. reflexivity.
      + split.
        * rewrite <- F2R_shift by lia. reflexivity.
        * intros _. change (Zdigits2 (2 ^ 52)) with 53. rewrite fexp_eq. lia.
    - assert (Hm2lt : m2 < 2 ^ 53) by lia.
      exists m2, e1. split; [lia |].
      assert (Hd2 : 0 < m2 -> Zdigits2 m2 <= 53).
      { intros H. destruct (Zdigits2_bounds m2 H) as [L _].
        destruct (Z_le_gt_dec (Zdigits2 m2) 53); [assumption |].
        assert (2 ^ 53 <= 2 ^ (Zdigits2 m2 - 1)) by (apply Z.pow_le_mono_r; lia). lia. }
      assert (Hcanon : 0 < m2 -> fexp (Zdigits2 m2 + e1) = e1).
      { intros H. specialize (Hd2 H). rewrite fexp_eq.
        destruct (Z.eq_dec e1 (-1074)) as [-> | Hne]; [lia |].
        assert (2 ^ 52 <= m2) by (specialize (Hnorm ltac:(lia)); lia).
        assert (53 <= Zdigits2 m2).
        { destruct (Zdigits2_bounds m2 H) as [_ U].
          destruct (Z_le_gt_dec 53 (Zdigits2 m2)); [assumption |].
          assert (2 ^ Zdigits2 m2 <= 2 ^ 52) by (apply Z.pow_le_mono_r; lia). lia. }
        lia. }
      split; [| split; [reflexivity | exact Hcanon]].
      unfold shr_fexp, shr. destruct (Z.eq_dec m2 0) as [-> | Hne].
      * cbn [Zdigits2]. rewrite fexp_eq.
        destruct (Z.max (0 + e1 - 53) (-1074) - e1) eqn:En; [reflexivity | lia | reflexivity].
      * rewrite Hcanon by lia. rewrite Z.sub_diag. reflexivity. }
  destruct Hsecond as (m3 & e3 & Hm3 & Eshr & Eval & Hcanon).
  rewrite Eshr. cbn [shr_m].
  exists m3, e3. split; [exact Hm3 |]. split.
  { unfold mk_float. destruct m3; reflexivity. }
  split; [exact Hcanon |].
  split.
  { intros Hx0. destruct Hx1 as [Hlow _].
    assert (Hm10 : m1 = 0).
    { assert (F2R m1 e1 <= F2R 0 e1)%R by (unfold F2R at 2; rewrite Rmult_0_l; lra).
      apply F2R_le_inv in H. lia. }
    assert (Hm20 : m2 = 0).
    { rewrite <- Hm10. apply Hm2ex. rewrite Hm10, Hx0. unfold F2R. ring. }
    rewrite Hm20 in Eval. unfold F2R in Eval. rewrite Rmult_0_l in Eval.
    pose proof (bpow_pos e3). apply eq_IZR. nra. }
  intros K k [HK Hfmt]. rewrite Eval.
  assert (HdK : Zdigits2 K <= 53) by (rewrite fexp_eq in Hfmt; lia).
  assert (Hkmin : -1074 <= k) by (rewrite fexp_eq in Hfmt; lia).
  assert (HBlt : (F2R K k < bpow (53 + k))%R).
  { destruct (Zdigits2_F2R K k HK) as [_ U].
    pose proof (bpow_le (Zdigits2 K + k) (53 + k) ltac:(lia)). lra. }
  destruct (Z_le_gt_dec e1 k) as [Hgrid | Hcoarse].
  - rewrite (in_format_grid K k e1 HK Hgrid) in *.
    set (K' := K * 2 ^ (k - e1)) in *.
    split; intros HB.
    + assert (Hle : m1 <= K').
      { apply F2R_le_inv with (e := e1). lra. }
      destruct (Z.eq_dec m1 K') as [E | NE].
      * assert (Hxe : x = F2R m1 e1) by (rewrite E in *; lra).
        rewrite (Hm2ex Hxe), E. lra.
      * apply F2R_le. lia.
    + assert (Hlt : K' < m1 + 1).
      { apply F2R_lt_inv with (e := e1). lra. }
      apply F2R_le. lia.
  - assert (He1gt : -1074 < e1) by lia.
    specialize (Hnorm He1gt).
    assert (Hbig : (bpow (52 + e1) <= F2R m1 e1)%R).
    { pose proof (F2R_le (2 ^ 52) m1 e1 Hnorm) as H.
      unfold F2R at 1 in H. rewrite <- bpow_nonneg_IZR in H by lia.
      rewrite <- bpow_add in H. exact H. }
    pose proof (bpow_le (53 + k) (52 + e1) ltac:(lia)) as Hkb.
    pose proof (F2R_le m1 m2 e1 ltac:(lia)) as H12.
    split; intros HB; lra.
Qed.

Lemma pos_nonneg z : pos_finite z -> nonneg_finite z.
Proof. intros [V H]. split; [exact V | right; exact H]. Qed.

Lemma valid_in_format s m e :
  valid_binary (S754_finite s m e) = true -> in_format (Z.pos m) e /\ e <= 971.
Proof.
  unfold SpecFloat.valid_binary, bounded, canonical_mantissa.
  intros H. apply andb_true_iff in H. destruct H as [Hc He].
  apply Z.eqb_eq in Hc. apply Z.leb_le in He.
  split; [| exact He]. split; [lia |]. cbn [Zdigits2]. lia.
Qed.

Lemma SF2R_nonneg z : nonneg_finite z -> (0 <= SF2R z)%R.
Proof.
  intros [_ [[s ->] | (m & e & ->)]]; cbn; [lra |].
  unfold F2R. pose proof (bpow_pos e). pose proof (IZR_lt 0 (Z.pos m) ltac:(lia)). nra.
Qed.

Lemma SF2R_pos z : pos_finite z -> (0 < SF2R z)%R.
Proof.
  intros [_ (m & e & ->)]. cbn.
  unfold F2R. pose proof (bpow_pos e). pose proof (IZR_lt 0 (Z.pos m) ltac:(lia)). nra.
Qed.

(** With a number of the format below 2^1024 above [x], the result is
    finite: it is a rounding of [x]. *)
Lemma mk_float_rounds (x : R) (m' e' : Z) (Kmax kmax : Z) :
  0 <= m' ->
  (0 < m' -> fexp (Zdigits2 m' + e') = e') ->
  (x = 0%R -> m' = 0) ->
  (forall K k, in_format K k ->
      ((x <= F2R K k)%R -> (F2R m' e' <= F2R K k)%R) /\
      ((F2R K k <= x)%R -> (F2R K k <= F2R m' e')%R)) ->
  in_format Kmax kmax -> (F2R Kmax kmax < bpow 1024)%R -> (x <= F2R Kmax kmax)%R ->
  rounds_to x (mk_float false m' e').
Proof.
  intros Hm Hcanon Hzero Hb Hfmt Hmax Hx.
  destruct m' as [| p | p]; [| | lia].
  - split; [| split].
    + split; [reflexivity | left; exists false; reflexivity].
    + intros _. reflexivity.
    + intros K k HK. destruct (Hb K k HK) as [U L]. cbn [mk_float SF2R].
      unfold F2R in U, L. rewrite Rmult_0_l in U, L. split; assumption.
  - specialize (Hcanon ltac:(lia)).
    assert (He : e' <= 971).
    { destruct (Hb Kmax kmax Hfmt) as [U _]. specialize (U Hx).
      destruct (Z.eq_dec e' (-1074)) as [-> | Hne]; [lia |].
      rewrite fexp_eq in Hcanon.
      assert (Hd : Zdigits2 (Z.pos p) = 53) by lia.
      destruct (Zdigits2_F2R (Z.pos p) e' ltac:(lia)) as [L _]. rewrite Hd in L.
      assert (bpow (53 - 1 + e') < bpow 1024)%R by lra.
      apply bpow_lt_inv in H. lia. }
    cbn [mk_float]. change (emax - prec) with 971.
    destruct (Z.leb_spec e' 971) as [_ | H]; [| lia].
    split; [| split].
    + split.
      * unfold SpecFloat.valid_binary, bounded, canonical_mantissa.
        apply andb_true_iff. cbn [Zdigits2] in Hcanon.
        split; [apply Z.eqb_eq; exact Hcanon | apply Z.leb_le; exact He].
      * right. exists p, e'. reflexivity.
    + intros Hx0. specialize (Hzero Hx0). discriminate.
    + intros K k HK. cbn [SF2R]. apply Hb, HK.
Qed.

Lemma rounds_to_exact x z K k :
  rounds_to x z -> in_format K k -> x = F2R K k -> SF2R z = x.
Proof.
  intros (_ & _ & H) HK E. destruct (H K k HK) as [U L]. subst x.
  specialize (U ltac:(lra)). specialize (L ltac:(lra)). lra.
Qed.

(** ** Division *)
Lemma new_location_zero n : new_location n 0 = loc_Exact.
Proof. unfold new_location, new_location_even, new_location_odd. destruct (Z.even n); reflexivity. Qed.

Lemma fexp_mono a b : a <= b -> fexp a <= fexp b.
Proof. rewrite !fexp_eq. lia. Qed.

Lemma fexp_ge e : -1074 <= fexp e.
Proof. rewrite fexp_eq. lia. Qed.

(** [SFdiv_core_binary] gives the truncation of the quotient, at an
    exponent that leaves the bits the rounding needs. *)
Lemma SFdiv_core_spec (mx my : positive) (ex ey : Z) :
  let '(q, e', l) := SFdiv_core_binary prec emax (Z.pos mx) ex (Z.pos my) ey in
  let Q := (F2R (Z.pos mx) ex / F2R (Z.pos my) ey)%R in
  0 <= q /\ e' <= fexp (Zdigits2 q + e') /\
  (F2R q e' <= Q < F2R (q + 1) e')%R /\ (Q = F2R q e' -> l = loc_Exact).
Proof.
  unfold SFdiv_core_binary.
  set (d1 := Zdigits2 (Z.pos mx)). set (d2 := Zdigits2 (Z.pos my)).
  set (D := d1 + ex - (d2 + ey)).
  set (e' := Z.min (fexp D) (ex - ey)).
  set (s := ex - ey - e').
  assert (Hs : 0 <= s) by (subst s e'; lia).
  set (m' := match s with Z.pos _ => Z.shiftl (Z.pos mx) s | 0 => Z.pos mx | Z.neg _ => 0 end).
  assert (Hm' : m' = Z.pos mx * 2 ^ s).
  { subst m'. destruct s as [| p | p]; [cbn; lia | | lia]. rewrite Z.shiftl_mul_pow2 by lia. reflexivity. }
  pose proof (Z_div_mod m' (Z.pos my) ltac:(lia)) as Hdm.
  destruct (Z.div_eucl m' (Z.pos my)) as [q r]. destruct Hdm as [Eq Hr].
  cbv zeta.
  assert (Hq : 0 <= q) by nia.
  (* the real quotient *)
  assert (HQ : (F2R (Z.pos mx) ex / F2R (Z.pos my) ey
               = (IZR q + IZR r / IZR (Z.pos my)) * bpow e')%R).
  { unfold F2R. replace ex with (ey + e' + s) by (subst s; lia).
    rewrite !bpow_add, (bpow_nonneg_IZR s Hs).
    assert (IZR (Z.pos mx) * IZR (2 ^ s) = IZR (Z.pos my) * IZR q + IZR r)%R.
    { rewrite <- !mult_IZR, <- plus_IZR. f_equal. lia. }
    pose proof (bpow_pos ey). pose proof (bpow_pos e').
    assert (0 < IZR (Z.pos my))%R by (apply IZR_lt; lia).
    field_simplify_eq; [| split; lra]. nra. }
  assert (Hrr : (0 <= IZR r / IZR (Z.pos my) < 1)%R).
  { assert (0 < IZR (Z.pos my))%R by (apply IZR_lt; lia).
    assert (0 <= IZR r)%R by (apply IZR_le; lia).
    assert (IZR r < IZR (Z.pos my))%R by (apply IZR_lt; lia).
    split.
    - apply Rmult_le_pos; [assumption | left; apply Rinv_0_lt_compat; assumption].
    - apply Rmult_lt_reg_r with (IZR (Z.pos my)); [assumption |].
      unfold Rdiv. rewrite Rmult_assoc, Rinv_l by lra. lra. }
  split; [exact Hq |]. split; [| split].
  - destruct (Z_le_gt_dec e' (-1074)) as [Hle | Hgt].
    + pose proof (fexp_ge (Zdigits2 q + e')). lia.
    + assert (He' : e' <= D - 53) by (subst e'; rewrite fexp_eq in *; lia).
      (* q has at least 53 digits *)
      destruct (Zdigits2_bounds (Z.pos mx) ltac:(lia)) as [L1 _].
      destruct (Zdigits2_bounds (Z.pos my) ltac:(lia)) as [_ U2].
      fold d1 in L1. fold d2 in U2.
      assert (Hd1 : 0 < d1) by (subst d1; cbn; lia).
      assert (Hd2 : 0 < d2) by (subst d2; cbn; lia).
      set (n := d1 - 1 + s - d2).
      assert (Hn : 52 <= n) by (subst n s D; lia).
      assert (Hpow : 2 ^ n * 2 ^ d2 = 2 ^ (d1 - 1) * 2 ^ s).
      { rewrite <- !Z.pow_add_r by lia. f_equal. subst n. lia. }
      assert (Hqn : 2 ^ n <= q).
      { assert (0 < 2 ^ n) by (apply Z.pow_pos_nonneg; lia).
        assert (0 < 2 ^ s) by (apply Z.pow_pos_nonneg; lia).
        assert (Z.pos my * 2 ^ n <= m') by nia.
        destruct (Z_le_gt_dec (2 ^ n) q); [assumption |]. nia. }
      assert (Hdq : n + 1 <= Zdigits2 q).
      { assert (0 < q) by (pose proof (Z.pow_pos_nonneg 2 n); lia).
        destruct (Zdigits2_bounds q H) as [_ U].
        destruct (Z_le_gt_dec (n + 1) (Zdigits2 q)); [assumption |].
        assert (2 ^ Zdigits2 q <= 2 ^ n) by (apply Z.pow_le_mono_r; lia). lia. }
      rewrite fexp_eq. subst n s D. lia.
  - rewrite HQ, F2R_succ. unfold F2R. pose proof (bpow_pos e'). split; nra.
  - rewrite HQ. unfold F2R. intros E.
    assert (Hr0 : r = 0).
    { pose proof (bpow_pos e').
      assert (IZR r / IZR (Z.pos my) = 0)%R by nra.
      assert (0 < IZR (Z.pos my))%R by (apply IZR_lt; lia).
      assert (IZR r = 0)%R.
      { unfold Rdiv in H0. apply Rmult_integral in H0. destruct H0; [assumption |].
        pose proof (Rinv_0_lt_compat _ H1). lra. }
      apply eq_IZR. exact H2. }
    rewrite Hr0. apply new_location_zero.
Qed.

(** The quotient of two positive doubles is a rounding of the real
    quotient. *)
Theorem SFdiv_rounds (x y : spec_float) (Kmax kmax : Z) :
  pos_finite x -> pos_finite y ->
  in_format Kmax kmax -> (F2R Kmax kmax < bpow 1024)%R ->
  (SF2R x / SF2R y <= F2R Kmax kmax)%R ->
  rounds_to (SF2R x / SF2R y) (SFdiv prec emax x y).
Proof.
  intros [Vx (mx & ex & ->)] [Vy (my & ey & ->)] Hfmt Hmax Hq.
  cbn [SFdiv SF2R xorb] in *.
  pose proof (SFdiv_core_spec mx my ex ey) as H.
  destruct (SFdiv_core_binary prec emax (Z.pos mx) ex (Z.pos my) ey) as [[q e'] l].
  cbv zeta in H. destruct H as (Hq0 & Hpre & Hin & Hex).
  destruct (round_aux_spec false q e' l _ Hq0 Hpre Hin Hex) as (m' & e'' & Hm' & -> & Hcanon & Hzero & Hb).
  exact (mk_float_rounds _ m' e'' Kmax kmax Hm' Hcanon Hzero Hb Hfmt Hmax Hq).
Qed.

Lemma pos_iter_xO d : forall m, Z.pos (Pos.iter xO m d) = Z.pos m * 2 ^ Z.pos d.
Proof.
  induction d using Pos.peano_ind; intros m.
  - cbn. lia.
  - rewrite Pos.iter_succ, Pos2Z.inj_xO, IHd, Pos2Z.inj_succ, Z.pow_succ_r by lia. lia.
Qed.

Lemma shl_align_spec mx ex ex' :
  snd (shl_align mx ex ex') = Z.min ex ex' /\
  Z.pos (fst (shl_align mx ex ex')) = Z.pos mx * 2 ^ (ex - Z.min ex ex').
Proof.
  unfold shl_align. destruct (ex' - ex) as [| d | d] eqn:E; cbn [fst snd].
  - replace (Z.min ex ex') with ex by lia. rewrite Z.sub_diag. cbn. lia.
  - replace (Z.min ex ex') with ex by lia. rewrite Z.sub_diag. cbn. lia.
  - replace (Z.min ex ex') with ex' by lia. split; [reflexivity |].
    rewrite pos_iter_xO. f_equal. f_equal. lia.
Qed.

Lemma Zdigits2_shift m n : 0 < m -> 0 <= n -> Zdigits2 (m * 2 ^ n) = Zdigits2 m + n.
Proof.
  intros Hm Hn.
  assert (Hp : 0 < m * 2 ^ n) by (pose proof (Z.pow_pos_nonneg 2 n); nia).
  destruct (Zdigits2_F2R m n Hm) as [L U].
  assert (E : F2R (m * 2 ^ n) 0 = F2R m n) by (rewrite F2R_shift by lia; reflexivity).
  apply Z.le_antisymm.
  - apply (Zdigits2_le_of_lt _ 0 _ Hp). rewrite E, Z.add_0_r. exact U.
  - apply (Zdigits2_ge_of_le _ 0 _ Hp). rewrite E, Z.add_0_r.
    replace (Zdigits2 m + n - 1) with (Zdigits2 m - 1 + n) by lia. exact L.
Qed.

(** [binary_round], which [SFadd] and the conversion of an integer
    use, gives a rounding of [m * 2^e]. *)
Lemma binary_round_rounds m e Kmax kmax :
  in_format Kmax kmax -> (F2R Kmax kmax < bpow 1024)%R ->
  (F2R (Z.pos m) e <= F2R Kmax kmax)%R ->
  rounds_to (F2R (Z.pos m) e) (binary_round prec emax false m e).
Proof.
  intros Hfmt Hmax Hx. unfold binary_round.
  pose proof (shl_align_spec m e (fexp (Z.pos (digits2_pos m) + e))) as H.
  destruct (shl_align m e (fexp (Z.pos (digits2_pos m) + e))) as [mz ez].
  cbn [fst snd] in H. destruct H as [Hez Hmz].
  change (Z.pos (digits2_pos m)) with (Zdigits2 (Z.pos m)) in *.
  rewrite <- Hez in Hmz.
  assert (Hs : 0 <= e - ez) by lia.
  assert (Hval : F2R (Z.pos mz) ez = F2R (Z.pos m) e).
  { rewrite Hmz, F2R_shift by lia. f_equal. lia. }
  assert (Hpre : ez <= fexp (Zdigits2 (Z.pos mz) + ez)).
  { rewrite Hmz, Zdigits2_shift by lia.
    replace (Zdigits2 (Z.pos m) + (e - ez) + ez) with (Zdigits2 (Z.pos m) + e) by lia. lia. }
  destruct (round_aux_spec false (Z.pos mz) ez loc_Exact (F2R (Z.pos m) e))
    as (m' & e' & Hm' & -> & Hcanon & Hzero & Hb).
  - lia.
  - exact Hpre.
  - rewrite <- Hval, F2R_succ. pose proof (bpow_pos ez). lra.
  - reflexivity.
  - exact (mk_float_rounds _ m' e' Kmax kmax Hm' Hcanon Hzero Hb Hfmt Hmax Hx).
Qed.

Lemma rounds_to_zero s : rounds_to 0 (S754_zero s).
Proof.
  split; [| split].
  - split; [reflexivity | left; exists s; reflexivity].
  - intros _. reflexivity.
  - intros K k HK. cbn [SF2R]. split; intros H; exact H.
Qed.

Lemma rounds_to_self z : nonneg_finite z -> rounds_to (SF2R z) z.
Proof.
  intros H. split; [exact H |]. split; [intros E; exact E |].
  intros K k HK. split; intros H'; exact H'.
Qed.

Lemma rounds_to_nonneg_finite x z : rounds_to x z -> nonneg_finite z.
Proof. intros [H _]. exact H. Qed.

Lemma nonneg_pos z : nonneg_finite z -> (0 < SF2R z)%R -> pos_finite z.
Proof.
  intros [V [[s ->] | (m & e & ->)]] H.
  - cbn in H. lra.
  - split; [exact V | exists m, e; reflexivity].
Qed.

Lemma in_format_small K k : 0 < K -> K < 2 ^ 53 -> -1074 <= k -> in_format K k.
Proof.
  intros HK Hlt Hk. split; [exact HK |]. rewrite fexp_eq.
  assert (Zdigits2 K <= 53).
  { apply (Zdigits2_le_of_lt K 0 53 HK). unfold F2R. rewrite Z.add_0_r.
    rewrite (bpow_nonneg_IZR 53) by lia. unfold bpow. cbn [powerRZ]. apply IZR_lt in Hlt. lra. }
  lia.
Qed.

Lemma bpow_0 : bpow 0 = 1%R.
Proof. reflexivity. Qed.

Lemma F2R_0 K : F2R K 0 = IZR K.
Proof. unfold F2R. rewrite bpow_0. ring. Qed.

Lemma IZR_lt_bpow K n : 0 <= n -> K < 2 ^ n -> (IZR K < bpow n)%R.
Proof. intros Hn H. rewrite (bpow_nonneg_IZR n Hn). apply IZR_lt. exact H. Qed.

(** ** Integers below 2^53 convert exactly *)
Lemma double_of_uint_exact z :
  0 <= z < 2 ^ 53 ->
  nonneg_finite (Prim2SF (double_of_uint z)) /\ B2R (double_of_uint z) = IZR z.
Proof.
  intros Hz. unfold B2R, double_of_uint. rewrite FloatAxioms.of_uint63_spec.
  rewrite Uint63.of_Z_spec. rewrite Z.mod_small
    by (change wB with (2 ^ 63); pose proof (Z.pow_lt_mono_r 2 53 63); lia).
  destruct z as [| p | p]; [| | lia].
  - cbn. split; [| reflexivity]. split; [reflexivity | left; exists false; reflexivity].
  - cbn [binary_normalize].
    assert (Hf : in_format (Z.pos p) 0) by (apply in_format_small; lia).
    assert (Hr : rounds_to (F2R (Z.pos p) 0) (binary_round prec emax false p 0)).
    { apply (binary_round_rounds p 0 (Z.pos p) 0 Hf); [| lra].
      rewrite F2R_0. apply Rlt_trans with (bpow 53).
      - apply IZR_lt_bpow; lia.
      - apply bpow_lt. lia. }
    split; [exact (rounds_to_nonneg_finite _ _ Hr) |].
    rewrite (rounds_to_exact _ _ _ _ Hr Hf eq_refl). apply F2R_0.
Qed.

Lemma double_of_uint_pos z :
  0 < z < 2 ^ 53 -> pos_finite (Prim2SF (double_of_uint z)).
Proof.
  intros Hz. destruct (double_of_uint_exact z ltac:(lia)) as [Hn Hv].
  apply nonneg_pos; [exact Hn |]. unfold B2R in Hv. rewrite Hv. apply IZR_lt. lia.
Qed.

(** ** Comparisons *)
Lemma canonical_exp_lt m1 e1 m2 e2 :
  valid_binary (S754_finite false m1 e1) = true ->
  valid_binary (S754_finite false m2 e2) = true ->
  e1 < e2 -> (F2R (Z.pos m1) e1 < F2R (Z.pos m2) e2)%R.
Proof.
  intros V1 V2 Hlt.
  destruct (valid_in_format _ _ _ V1) as [[_ F1] _].
  apply andb_true_iff in V2. destruct V2 as [C2 _].
  unfold canonical_mantissa in C2. apply Z.eqb_eq in C2.
  change (Z.pos (digits2_pos m2)) with (Zdigits2 (Z.pos m2)) in C2.
  rewrite fexp_eq in F1, C2.
  destruct (Zdigits2_F2R (Z.pos m1) e1 ltac:(lia)) as [_ U1].
  destruct (Zdigits2_F2R (Z.pos m2) e2 ltac:(lia)) as [L2 _].
  assert (Hle : Zdigits2 (Z.pos m1) + e1 <= Zdigits2 (Z.pos m2) - 1 + e2) by lia.
  pose proof (bpow_le _ _ Hle). lra.
Qed.

Lemma SFcompare_pos m1 e1 m2 e2 :
  valid_binary (S754_finite false m1 e1) = true ->
  valid_binary (S754_finite false m2 e2) = true ->
  exists c, SFcompare (S754_finite false m1 e1) (S754_finite false m2 e2) = Some c /\
    match c with
    | Lt => (F2R (Z.pos m1) e1 < F2R (Z.pos m2) e2)%R
    | Eq => F2R (Z.pos m1) e1 = F2R (Z.pos m2) e2
    | Gt => (F2R (Z.pos m2) e2 < F2R (Z.pos m1) e1)%R
    end.
Proof.
  intros V1 V2. cbn [SFcompare].
  destruct (Z.compare_spec e1 e2) as [E | L | G].
  - subst e2. exists (Pos.compare m1 m2). split; [reflexivity |].
    pose proof (bpow_pos e1). unfold F2R.
    destruct (Pos.compare_spec m1 m2) as [E | L | G].
    + subst. reflexivity.
    + assert (IZR (Z.pos m1) < IZR (Z.pos m2))%R by (apply IZR_lt; lia). nra.
    + assert (IZR (Z.pos m2) < IZR (Z.pos m1))%R by (apply IZR_lt; lia). nra.
  - exists Lt. split; [reflexivity |]. apply canonical_exp_lt; assumption.
  - exists Gt. split; [reflexivity |]. apply canonical_exp_lt; [assumption | assumption | lia].
Qed.

Lemma SFcompare_nonneg x y :
  nonneg_finite x -> nonneg_finite y ->
  exists c, SFcompare x y = Some c /\
    match c with
    | Lt => (SF2R x < SF2R y)%R
    | Eq => SF2R x = SF2R y
    | Gt => (SF2R y < SF2R x)%R
    end.
Proof.
  intros Hx Hy.
  destruct Hx as [Vx [[sx ->] | (mx & ex & ->)]], Hy as [Vy [[sy ->] | (my & ey & ->)]].
  - exists Eq. split; reflexivity.
  - exists Lt. split; [reflexivity |]. apply SF2R_pos. split; [exact Vy | eauto].
  - exists Gt. split; [reflexivity |]. apply SF2R_pos. split; [exact Vx | eauto].
  - apply SFcompare_pos; assumption.
Qed.

Lemma SFltb_nonneg x y :
  nonneg_finite x -> nonneg_finite y -> (SFltb x y = true <-> (SF2R x < SF2R y)%R).
Proof.
  intros Hx Hy. destruct (SFcompare_nonneg x y Hx Hy) as (c & E & H).
  unfold SFltb. rewrite E. destruct c; split; intros H'; try reflexivity; try discriminate; lra.
Qed.

Lemma SFleb_nonneg x y :
  nonneg_finite x -> nonneg_finite y -> (SFleb x y = true <-> (SF2R x <= SF2R y)%R).
Proof.
  intros Hx Hy. destruct (SFcompare_nonneg x y Hx Hy) as (c & E & H).
  unfold SFleb. rewrite E. destruct c; split; intros H'; try reflexivity; try discriminate; lra.
Qed.

(** A double between two finite doubles that are not negative is one. *)
Lemma SFleb_between c a d :
  valid_binary a = true -> nonneg_finite c -> nonneg_finite d ->
  SFleb c a = true -> SFleb a d = true ->
  nonneg_finite a /\ (SF2R c <= SF2R a <= SF2R d)%R.
Proof.
  intros Va Hc Hd Hca Had.
  assert (Ha : nonneg_finite a).
  { split; [exact Va |].
    destruct a as [s | s | | s m e].
    - left. exists s. reflexivity.
    - exfalso. destruct Hc as [_ [[sc ->] | (mc & ec & ->)]], Hd as [_ [[sd ->] | (md & ed & ->)]];
        destruct s; cbn in Hca, Had; discriminate.
    - exfalso. destruct Hc as [_ [[sc ->] | (mc & ec & ->)]]; cbn in Hca; discriminate.
    - destruct s; [| right; exists m, e; reflexivity].
      exfalso. destruct Hc as [_ [[sc ->] | (mc & ec & ->)]]; cbn in Hca; discriminate. }
  split; [exact Ha |]. split; apply SFleb_nonneg; assumption.
Qed.

Lemma leb_between (c a d : float) :
  nonneg_finite (Prim2SF c) -> nonneg_finite (Prim2SF d) ->
  PrimFloat.leb c a = true -> PrimFloat.leb a d = true ->
  nonneg_finite (Prim2SF a) /\ (B2R c <= B2R a <= B2R d)%R.
Proof.
  intros Hc Hd. rewrite !FloatAxioms.leb_spec.
  apply SFleb_between; [apply FloatAxioms.Prim2SF_valid | exact Hc | exact Hd].
Qed.

Lemma ltb_nonneg (x y : float) :
  nonneg_finite (Prim2SF x) -> nonneg_finite (Prim2SF y) ->
  (PrimFloat.ltb x y = true <-> (B2R x < B2R y)%R).
Proof. intros Hx Hy. rewrite FloatAxioms.ltb_spec. apply SFltb_nonneg; assumption. Qed.

Lemma leb_nonneg (x y : float) :
  nonneg_finite (Prim2SF x) -> nonneg_finite (Prim2SF y) ->
  (PrimFloat.leb x y = true <-> (B2R x <= B2R y)%R).
Proof. intros Hx Hy. rewrite FloatAxioms.leb_spec. apply SFleb_nonneg; assumption. Qed.

(** ** Multiplication and addition *)
Lemma SFdiv_rounds_nonneg (x y : spec_float) (Kmax kmax : Z) :
  nonneg_finite x -> pos_finite y ->
  in_format Kmax kmax -> (F2R Kmax kmax < bpow 1024)%R ->
  (SF2R x / SF2R y <= F2R Kmax kmax)%R ->
  rounds_to (SF2R x / SF2R y) (SFdiv prec emax x y).
Proof.
  intros [Vx [[sx ->] | Hx]] Hy Hfmt Hmax Hq.
  - destruct Hy as [_ (my & ey & ->)]. cbn [SFdiv SF2R].
    unfold Rdiv. rewrite Rmult_0_l. apply rounds_to_zero.
  - apply SFdiv_rounds with (Kmax := Kmax) (kmax := kmax); try assumption. split; assumption.
Qed.

Lemma Zdigits2_mul_ge a b :
  0 < a -> 0 < b -> Zdigits2 a + Zdigits2 b - 1 <= Zdigits2 (a * b).
Proof.
  intros Ha Hb.
  destruct (Zdigits2_bounds a Ha) as [La _]. destruct (Zdigits2_bounds b Hb) as [Lb _].
  assert (Hda : 0 < Zdigits2 a) by (destruct a; cbn; lia).
  assert (Hdb : 0 < Zdigits2 b) by (destruct b; cbn; lia).
  assert (Hp : 0 < a * b) by nia.
  apply (Zdigits2_ge_of_le (a * b) 0 _ Hp). rewrite F2R_0, Z.add_0_r.
  rewrite bpow_nonneg_IZR by lia. apply IZR_le.
  replace (Zdigits2 a + Zdigits2 b - 1 - 1) with ((Zdigits2 a - 1) + (Zdigits2 b - 1)) by lia.
  rewrite Z.pow_add_r by lia.
  assert (0 < 2 ^ (Zdigits2 a - 1)) by (apply Z.pow_pos_nonneg; lia).
  assert (0 < 2 ^ (Zdigits2 b - 1)) by (apply Z.pow_pos_nonneg; lia).
  nia.
Qed.

Lemma SFmul_rounds (x y : spec_float) (Kmax kmax : Z) :
  nonneg_finite x -> nonneg_finite y ->
  in_format Kmax kmax -> (F2R Kmax kmax < bpow 1024)%R ->
  (SF2R x * SF2R y <= F2R Kmax kmax)%R ->
  rounds_to (SF2R x * SF2R y) (SFmul prec emax x y).
Proof.
  intros [Vx [[sx ->] | (mx & ex & ->)]] [Vy [[sy ->] | (my & ey & ->)]] Hfmt Hmax Hq;
    cbn [SFmul SF2R xorb] in *;
    rewrite ?Rmult_0_l, ?Rmult_0_r; try apply rounds_to_zero.
  destruct (valid_in_format _ _ _ Vx) as [_ Ex].
  apply andb_true_iff in Vx, Vy. destruct Vx as [Cx _], Vy as [Cy _].
  unfold canonical_mantissa in Cx, Cy. apply Z.eqb_eq in Cx, Cy.
  change (Z.pos (digits2_pos mx)) with (Zdigits2 (Z.pos mx)) in Cx.
  change (Z.pos (digits2_pos my)) with (Zdigits2 (Z.pos my)) in Cy.
  assert (Hval : F2R (Z.pos (mx * my)) (ex + ey) = (F2R (Z.pos mx) ex * F2R (Z.pos my) ey)%R).
  { unfold F2R. rewrite Pos2Z.inj_mul, mult_IZR, bpow_add. ring. }
  rewrite <- Hval in *.
  destruct (round_aux_spec false (Z.pos (mx * my)) (ex + ey) loc_Exact
              (F2R (Z.pos (mx * my)) (ex + ey)))
    as (m' & e' & Hm' & -> & Hcanon & Hzero & Hb).
  - lia.
  - pose proof (Zdigits2_mul_ge (Z.pos mx) (Z.pos my) ltac:(lia) ltac:(lia)) as Hd.
    rewrite <- Pos2Z.inj_mul in Hd.
    assert (0 < Zdigits2 (Z.pos mx)) by (cbn; lia).
    assert (0 < Zdigits2 (Z.pos my)) by (cbn; lia).
    rewrite fexp_eq in *. lia.
  - rewrite F2R_succ. pose proof (bpow_pos (ex + ey)). lra.
  - reflexivity.
  - exact (mk_float_rounds _ m' e' Kmax kmax Hm' Hcanon Hzero Hb Hfmt Hmax Hq).
Qed.

Lemma SFadd_rounds (x y : spec_float) (Kmax kmax : Z) :
  nonneg_finite x -> nonneg_finite y ->
  in_format Kmax kmax -> (F2R Kmax kmax < bpow 1024)%R ->
  (SF2R x + SF2R y <= F2R Kmax kmax)%R ->
  rounds_to (SF2R x + SF2R y) (SFadd prec emax x y).
Proof.
  intros Hx Hy Hfmt Hmax Hq.
  destruct Hx as [Vx [[sx ->] | (mx & ex & ->)]], Hy as [Vy [[sy ->] | (my & ey & ->)]].
  - cbn [SFadd SF2R]. rewrite Rplus_0_l. destruct sx, sy; apply rounds_to_zero.
  - cbn [SFadd]. replace (SF2R (S754_zero sx) + _)%R with (SF2R (S754_finite false my ey))
      by (cbn; lra).
    apply rounds_to_self. split; [exact Vy | right; eauto].
  - cbn [SFadd]. replace (_ + SF2R (S754_zero sy))%R with (SF2R (S754_finite false mx ex))
      by (cbn; lra).
    apply rounds_to_self. split; [exact Vx | right; eauto].
  - cbn [SFadd SF2R cond_Zopp] in *.
    destruct (shl_align_spec mx ex (Z.min ex ey)) as [_ Hmx].
    destruct (shl_align_spec my ey (Z.min ex ey)) as [_ Hmy].
    replace (Z.min ex (Z.min ex ey)) with (Z.min ex ey) in Hmx by lia.
    replace (Z.min ey (Z.min ex ey)) with (Z.min ex ey) in Hmy by lia.
    set (mx' := fst (shl_align mx ex (Z.min ex ey))) in *.
    set (my' := fst (shl_align my ey (Z.min ex ey))) in *.
    set (ez := Z.min ex ey) in *.
    change (Z.pos mx' + Z.pos my') with (Z.pos (mx' + my')).
    cbn [binary_normalize].
    assert (Hval : F2R (Z.pos (mx' + my')) ez = (F2R (Z.pos mx) ex + F2R (Z.pos my) ey)%R).
    { rewrite Pos2Z.inj_add. unfold F2R at 1. rewrite plus_IZR, Rmult_plus_distr_r.
      fold (F2R (Z.pos mx') ez). fold (F2R (Z.pos my') ez).
      rewrite Hmx, Hmy, !F2R_shift by lia. f_equal; f_equal; lia. }
    rewrite <- Hval in *.
    apply (binary_round_rounds _ _ Kmax kmax Hfmt Hmax Hq).
Qed.

(** ** The operations on doubles *)
Lemma div_rounds (x y : float) (Kmax kmax : Z) :
  nonneg_finite (Prim2SF x) -> pos_finite (Prim2SF y) ->
  in_format Kmax kmax -> (F2R Kmax kmax < bpow 1024)%R ->
  (B2R x / B2R y <= F2R Kmax kmax)%R ->
  rounds_to (B2R x / B2R y) (Prim2SF (PrimFloat.div x y)).
Proof. intros. rewrite FloatAxioms.div_spec. apply SFdiv_rounds_nonneg with Kmax kmax; assumption. Qed.

Lemma mul_rounds (x y : float) (Kmax kmax : Z) :
  nonneg_finite (Prim2SF x) -> nonneg_finite (Prim2SF y) ->
  in_format Kmax kmax -> (F2R Kmax kmax < bpow 1024)%R ->
  (B2R x * B2R y <= F2R Kmax kmax)%R ->
  rounds_to (B2R x * B2R y) (Prim2SF (PrimFloat.mul x y)).
Proof. intros. rewrite FloatAxioms.mul_spec. apply SFmul_rounds with Kmax kmax; assumption. Qed.

Lemma add_rounds (x y : float) (Kmax kmax : Z) :
  nonneg_finite (Prim2SF x) -> nonneg_finite (Prim2SF y) ->
  in_format Kmax kmax -> (F2R Kmax kmax < bpow 1024)%R ->
  (B2R x + B2R y <= F2R Kmax kmax)%R ->
  rounds_to (B2R x + B2R y) (Prim2SF (PrimFloat.add x y)).
Proof. intros. rewrite FloatAxioms.add_spec. apply SFadd_rounds with Kmax kmax; assumption. Qed.

(** ** Bounds of a rounding *)
Lemma rounds_to_le x z K k :
  rounds_to x z -> in_format K k -> (x <= F2R K k)%R -> (SF2R z <= F2R K k)%R.
Proof. intros (_ & _ & H) HK. apply (H K k HK). Qed.

Lemma rounds_to_ge x z K k :
  rounds_to x z -> in_format K k -> (F2R K k <= x)%R -> (F2R K k <= SF2R z)%R.
Proof. intros (_ & _ & H) HK. apply (H K k HK). Qed.

(** ** Conversions to integers *)
Lemma F2R_neg_exp m n : 0 <= n -> (F2R m (- n) * IZR (2 ^ n) = IZR m)%R.
Proof.
  intros Hn. unfold F2R. rewrite <- (bpow_nonneg_IZR n Hn), Rmult_assoc, <- bpow_add.
  replace (- n + n) with 0 by lia. rewrite bpow_0. ring.
Qed.

Lemma int_of_round_zero_iff q :
  nonneg_finite (Prim2SF q) -> (int_of_round q = 0 <-> (B2R q < 1 / 2)%R).
Proof.
  unfold int_of_round, B2R. intros [_ [[s E] | (m & e & E)]]; rewrite E; cbn [SF2R].
  - split; [intros _; lra | reflexivity].
  - destruct (Z.leb_spec 0 e) as [He | He].
    + assert (1 <= Z.pos m * 2 ^ e) by (pose proof (Z.pow_pos_nonneg 2 e); nia).
      assert (1 <= F2R (Z.pos m) e)%R.
      { unfold F2R. pose proof (bpow_ge_1 e He).
        assert (1 <= IZR (Z.pos m))%R by (apply IZR_le; lia). nra. }
      split; [lia | lra].
    + set (P := 2 ^ (- e)).
      assert (HP : 0 < P) by (apply Z.pow_pos_nonneg; lia).
      pose proof (F2R_neg_exp (Z.pos m) (- e) ltac:(lia)) as Hv.
      rewrite Z.opp_involutive in Hv. fold P in Hv.
      assert (HPr : (0 < IZR P)%R) by (apply IZR_lt; exact HP).
      rewrite Z.div_small_iff by lia. split.
      * intros [H | H]; [| lia].
        assert (2 * Z.pos m < P) by lia. apply IZR_lt in H0. rewrite mult_IZR in H0. nra.
      * intros H. left. split; [lia |].
        assert (2 * Z.pos m < P); [| lia].
        apply lt_IZR. rewrite mult_IZR. nra.
Qed.

Lemma int_of_round_nonneg q : nonneg_finite (Prim2SF q) -> 0 <= int_of_round q.
Proof.
  unfold int_of_round. intros [_ [[s E] | (m & e & E)]]; rewrite E; [lia |].
  destruct (Z.leb_spec 0 e) as [He | He].
  - pose proof (Z.pow_pos_nonneg 2 e). nia.
  - assert (0 < 2 ^ (- e)) by (apply Z.pow_pos_nonneg; lia).
    apply Z.div_pos; lia.
Qed.

Lemma long_of_double_floor q :
  nonneg_finite (Prim2SF q) ->
  (IZR (long_of_double q) <= B2R q < IZR (long_of_double q) + 1)%R.
Proof.
  unfold long_of_double, B2R. intros [_ [[s E] | (m & e & E)]]; rewrite E; cbn [SF2R].
  - lra.
  - destruct (Z.leb_spec 0 e) as [He | He].
    + unfold F2R. rewrite (bpow_nonneg_IZR e He), <- mult_IZR. lra.
    + set (P := 2 ^ (- e)).
      assert (HP : 0 < P) by (apply Z.pow_pos_nonneg; lia).
      pose proof (F2R_neg_exp (Z.pos m) (- e) ltac:(lia)) as Hv.
      rewrite Z.opp_involutive in Hv. fold P in Hv.
      assert (HPr : (0 < IZR P)%R) by (apply IZR_lt; exact HP).
      pose proof (Z_div_mod_eq_full (Z.pos m) P) as Hdm.
      pose proof (Z.mod_pos_bound (Z.pos m) P HP) as Hr.
      assert (Hlo : P * (Z.pos m / P) <= Z.pos m) by lia.
      assert (Hhi : Z.pos m < P * (Z.pos m / P + 1)) by lia.
      apply IZR_le in Hlo. apply IZR_lt in Hhi.
      rewrite mult_IZR in Hlo, Hhi. rewrite plus_IZR in Hhi. split; nra.
Qed.

Lemma long_of_double_ge q n :
  nonneg_finite (Prim2SF q) -> (IZR n <= B2R q)%R -> n <= long_of_double q.
Proof.
  intros Hq H. destruct (long_of_double_floor q Hq) as [_ U].
  assert (IZR n < IZR (long_of_double q + 1))%R by (rewrite plus_IZR; lra).
  apply lt_IZR in H0. lia.
Qed.

Lemma long_of_double_lt q n :
  nonneg_finite (Prim2SF q) -> (B2R q < IZR n)%R -> long_of_double q < n.
Proof.
  intros Hq H. destruct (long_of_double_floor q Hq) as [L _].
  apply lt_IZR. lra.
Qed.

(** ** Constants *)
Lemma nonneg_finite_zero : nonneg_finite (Prim2SF 0).
Proof. split; [reflexivity | left; exists false; reflexivity]. Qed.

Lemma B2R_zero : B2R 0 = 0%R.
Proof. reflexivity. Qed.

Lemma nonneg_finite_one : nonneg_finite (Prim2SF 1).
Proof. split; [reflexivity | right; eexists _, _; reflexivity]. Qed.

Lemma B2R_one : B2R 1 = 1%R.
Proof.
  unfold B2R. change (Prim2SF 1) with (S754_finite false (2 ^ 52) (-52)). cbn [SF2R].
  change (F2R (Z.pos (2 ^ 52)) (-52)) with (F2R (1 * 2 ^ 52) (-52)).
  rewrite (F2R_shift 1 (-52) 52) by lia.
  change (-52 + 52) with 0. rewrite F2R_0. reflexivity.
Qed.

Lemma nonneg_finite_half : nonneg_finite (Prim2SF 0.5).
Proof. split; [reflexivity | right; eexists _, _; reflexivity]. Qed.

Lemma bpow_m1 : bpow (-1) = (1 / 2)%R.
Proof. unfold bpow, powerRZ. simpl. lra. Qed.

Lemma B2R_half : B2R 0.5 = (1 / 2)%R.
Proof.
  unfold B2R. change (Prim2SF 0.5) with (S754_finite false (2 ^ 52) (-53)). cbn [SF2R].
  change (F2R (Z.pos (2 ^ 52)) (-53)) with (F2R (1 * 2 ^ 52) (-53)).
  rewrite (F2R_shift 1 (-53) 52) by lia.
  change (-53 + 52) with (-1). unfold F2R. rewrite bpow_m1. lra.
Qed.

Lemma nonneg_finite_hundredth : nonneg_finite (Prim2SF 0x1.47ae147ae147bp-7).
Proof. split; [reflexivity | right; eexists _, _; reflexivity]. Qed.

Lemma B2R_hundredth : (F2R 5 (-9) <= B2R 0x1.47ae147ae147bp-7)%R.
Proof.
  unfold B2R. change (Prim2SF 0x1.47ae147ae147bp-7) with (S754_finite false 5764607523034235 (-59)).
  cbn [SF2R]. replace (F2R 5 (-9)) with (F2R (5 * 2 ^ 50) (-59)).
  - apply F2R_le. vm_compute. discriminate.
  - rewrite (F2R_shift 5 (-59) 50) by lia. reflexivity.
Qed.

Lemma F2R_5_m9 : F2R 5 (-9) = (5 / 512)%R.
Proof. unfold F2R, bpow, powerRZ. simpl. lra. Qed.

(** ** The quotient of the fading steps *)
Lemma log2_up_bounds d : 1 <= d -> d <= 2 ^ Z.log2_up d < 2 * d.
Proof.
  intros Hd. destruct (Z.eq_dec d 1) as [-> | Hne]; [cbn; lia |].
  destruct (Z.log2_up_spec d ltac:(lia)) as [L U].
  split; [exact U |].
  assert (0 < Z.log2_up d) by (apply Z.log2_up_pos; lia).
  replace (Z.log2_up d) with (Z.succ (Z.pred (Z.log2_up d))) at 1 by lia.
  rewrite Z.pow_succ_r by lia. lia.
Qed.

Lemma in_format_below (N d : Z) :
  1 <= d < 2 ^ 31 -> 1 <= N -> N * d < 2 ^ 50 ->
  exists K k, in_format K k /\ (IZR N - / IZR d <= F2R K k < IZR N)%R.
Proof.
  intros Hd HN Hsmall.
  destruct (log2_up_bounds d ltac:(lia)) as [L U].
  pose proof (Z.log2_up_nonneg d) as Hj0.
  set (j := Z.log2_up d + 1).
  assert (Hj : 2 ^ j = 2 * 2 ^ Z.log2_up d) by (unfold j; rewrite Z.pow_add_r by lia; lia).
  assert (Hjle : j <= 32).
  { destruct (Z_le_gt_dec j 32); [assumption |].
    assert (2 ^ 33 <= 2 ^ j) by (apply Z.pow_le_mono_r; lia). lia. }
  exists (N * 2 ^ j - 1), (- j). split.
  - apply in_format_small; [nia | | lia].
    assert (N * 2 ^ j < 4 * (N * d)) by nia.
    assert (4 * 2 ^ 50 <= 2 ^ 53) by (change (2 ^ 53) with (8 * 2 ^ 50); lia). lia.
  - assert (Hv : F2R (N * 2 ^ j - 1) (- j) = (IZR N - bpow (- j))%R).
    { unfold F2R. rewrite minus_IZR, mult_IZR, <- (bpow_nonneg_IZR j) by lia.
      rewrite Rmult_minus_distr_r, Rmult_assoc, <- bpow_add.
      replace (j + - j) with 0 by lia. rewrite bpow_0. ring. }
    rewrite Hv. pose proof (bpow_pos (- j)) as Hp.
    split; [| lra].
    assert (Hdr : (0 < IZR d)%R) by (apply IZR_lt; lia).
    assert (bpow (- j) <= / IZR d)%R; [| lra].
    apply Rmult_le_reg_r with (IZR d); [exact Hdr |]. rewrite Rinv_l by lra.
    apply Rmult_le_reg_l with (bpow j); [apply bpow_pos |].
    rewrite <- Rmult_assoc, <- bpow_add. replace (j + - j) with 0 by lia.
    rewrite bpow_0, (bpow_nonneg_IZR j) by lia.
    assert (H : d <= 2 ^ j) by lia. apply IZR_le in H. lra.
Qed.

Lemma IZR_div_bounds n d :
  0 < d -> (IZR (n / d) <= IZR n / IZR d <= IZR (n / d + 1) - / IZR d)%R.
Proof.
  intros Hd.
  assert (Hdr : (0 < IZR d)%R) by (apply IZR_lt; lia).
  pose proof (Z_div_mod_eq_full n d) as E. pose proof (Z.mod_pos_bound n d Hd) as Hr.
  assert (H1 : d * (n / d) <= n) by lia.
  assert (H2 : n + 1 <= d * (n / d + 1)) by lia.
  apply IZR_le in H1, H2. rewrite ?mult_IZR, ?plus_IZR in *. split.
  - apply Rmult_le_reg_r with (IZR d); [exact Hdr |].
    unfold Rdiv. rewrite Rmult_assoc, Rinv_l by lra. lra.
  - apply Rmult_le_reg_r with (IZR d); [exact Hdr |].
    unfold Rdiv. rewrite Rmult_assoc, Rmult_minus_distr_r, Rinv_l by lra. lra.
Qed.

(** The truncated quotient in double of a double [s] by the integer
    [d], from integer bounds of [s]: no rounding takes the quotient
    across an integer, as a number of the format lies between the
    largest real quotient below an integer and that integer. *)
Lemma quotient_upper (s : float) (n d : Z) :
  1 <= d < 2 ^ 31 -> 0 <= n < 2 ^ 33 ->
  nonneg_finite (Prim2SF s) -> (B2R s <= IZR n)%R ->
  nonneg_finite (Prim2SF (PrimFloat.div s (double_of_uint d))) /\
  long_of_double (PrimFloat.div s (double_of_uint d)) <= n / d.
Proof.
  intros Hd Hn Hs Hle.
  destruct (double_of_uint_exact d) as [_ Hdv];
    [pose proof (Z.pow_lt_mono_r 2 31 53); lia |].
  assert (Hdp : pos_finite (Prim2SF (double_of_uint d)))
    by (apply double_of_uint_pos; pose proof (Z.pow_lt_mono_r 2 31 53); lia).
  assert (Hdr : (0 < IZR d)%R) by (apply IZR_lt; lia).
  assert (Hq0 : 0 <= n / d) by (apply Z.div_pos; lia).
  assert (Hnd : (n / d + 1) * d < 2 ^ 50).
  { pose proof (Z.mul_div_le n d ltac:(lia)).
    assert (2 ^ 33 + 2 ^ 31 < 2 ^ 50) by (vm_compute; reflexivity). lia. }
  destruct (in_format_below (n / d + 1) d Hd ltac:(lia) Hnd) as (K & k & HK & HKl & HKu).
  destruct (IZR_div_bounds n d ltac:(lia)) as [_ Hub].
  assert (Hsq : (B2R s / B2R (double_of_uint d) <= F2R K k)%R).
  { rewrite Hdv. apply Rle_trans with (IZR n / IZR d)%R; [| lra].
    unfold Rdiv. apply Rmult_le_compat_r; [left; apply Rinv_0_lt_compat; exact Hdr | exact Hle]. }
  assert (Hr : rounds_to (B2R s / B2R (double_of_uint d))
                 (Prim2SF (PrimFloat.div s (double_of_uint d)))).
  { apply div_rounds with K k; try assumption.
    apply Rlt_trans with (IZR (n / d + 1)); [exact HKu |].
    apply IZR_lt_bpow; [lia |].
    apply Z.lt_le_trans with (2 ^ 50); [nia | apply Z.pow_le_mono_r; lia]. }
  split; [exact (rounds_to_nonneg_finite _ _ Hr) |].
  assert (long_of_double (PrimFloat.div s (double_of_uint d)) < n / d + 1); [| lia].
  apply long_of_double_lt; [exact (rounds_to_nonneg_finite _ _ Hr) |].
  pose proof (rounds_to_le _ _ K k Hr HK Hsq) as H. fold (B2R (PrimFloat.div s (double_of_uint d))) in H.
  lra.
Qed.

Lemma quotient_lower (s : float) (n d M : Z) :
  1 <= d < 2 ^ 31 -> 0 <= n -> 0 < M < 2 ^ 53 ->
  nonneg_finite (Prim2SF s) -> (IZR n <= B2R s <= IZR M)%R ->
  n / d <= long_of_double (PrimFloat.div s (double_of_uint d)).
Proof.
  intros Hd Hn HM Hs [Hlo Hhi].
  destruct (double_of_uint_exact d) as [_ Hdv];
    [pose proof (Z.pow_lt_mono_r 2 31 53); lia |].
  assert (Hdp : pos_finite (Prim2SF (double_of_uint d)))
    by (apply double_of_uint_pos; pose proof (Z.pow_lt_mono_r 2 31 53); lia).
  assert (Hdr : (1 <= IZR d)%R) by (apply IZR_le; lia).
  assert (Hinv : (0 < / IZR d <= 1)%R).
  { split; [apply Rinv_0_lt_compat; lra |].
    rewrite <- Rinv_1. apply Rinv_le_contravar; lra. }
  assert (Hs0 : (0 <= B2R s)%R) by (apply SF2R_nonneg; exact Hs).
  assert (HMf : in_format M 0) by (apply in_format_small; lia).
  assert (Hr : rounds_to (B2R s / B2R (double_of_uint d))
                 (Prim2SF (PrimFloat.div s (double_of_uint d)))).
  { apply div_rounds with M 0; try assumption.
    - rewrite F2R_0. apply Rlt_trans with (bpow 53); [apply IZR_lt_bpow; lia | apply bpow_lt; lia].
    - rewrite Hdv, F2R_0. unfold Rdiv. nra. }
  assert (Hqn := rounds_to_nonneg_finite _ _ Hr).
  apply long_of_double_ge; [exact Hqn |].
  destruct (IZR_div_bounds n d ltac:(lia)) as [Hlb _].
  assert (Hreal : (IZR (n / d) <= B2R s / B2R (double_of_uint d))%R).
  { rewrite Hdv. apply Rle_trans with (IZR n / IZR d)%R; [exact Hlb |].
    unfold Rdiv. apply Rmult_le_compat_r; lra. }
  destruct (Z.eq_dec (n / d) 0) as [E | NE].
  - rewrite E. apply SF2R_nonneg. exact Hqn.
  - assert (Hq0 : 0 <= n / d) by (apply Z.div_pos; lia).
    assert (HKf : in_format (n / d) 0).
    { apply in_format_small; [lia | | lia].
      assert (n <= M) by (apply le_IZR; lra).
      pose proof (Z.div_le_upper_bound n d n ltac:(lia) ltac:(nia)). lia. }
    pose proof (rounds_to_ge _ _ (n / d) 0 Hr HKf) as H. rewrite F2R_0 in H.
    apply H. exact Hreal.
Qed.

Lemma double_of_int_nonneg z : 0 <= z -> double_of_int z = double_of_uint z.
Proof. intros H. unfold double_of_int. destruct (Z.ltb_spec z 0); [lia | reflexivity]. Qed.

(** The quotient [(e + tol * d) / d] in double, truncated, for an
    elapsed time [e] that is not negative. *)
Lemma fade_quotient (tol : float) (e d : Z) :
  PrimFloat.leb 0 tol = true -> PrimFloat.leb tol 1 = true ->
  1 <= d < 2 ^ 31 -> 0 <= e < 2 ^ 31 ->
  let p := PrimFloat.mul tol (double_of_int d) in
  let raw := long_of_double
               (PrimFloat.div (PrimFloat.add (double_of_int e) p) (double_of_int d)) in
  e / d <= raw <= e / d + 1 /\
  (forall P, 0 <= P < 2 ^ 31 -> p = double_of_int P -> raw = (e + P) / d).
Proof.
  intros Hlo Hhi Hd He. cbv zeta.
  rewrite !(double_of_int_nonneg d), (double_of_int_nonneg e) by lia.
  assert (H53 : 2 ^ 31 + 2 ^ 31 < 2 ^ 53) by (vm_compute; reflexivity).
  destruct (leb_between _ tol _ nonneg_finite_zero nonneg_finite_one Hlo Hhi)
    as [Ht [Ht0 Ht1]].
  rewrite B2R_zero in Ht0. rewrite B2R_one in Ht1.
  destruct (double_of_uint_exact d) as [Hdn Hdv]; [lia |].
  destruct (double_of_uint_exact e) as [Hen Hev]; [lia |].
  assert (Hdr : (1 <= IZR d)%R) by (apply IZR_le; lia).
  assert (Her : (0 <= IZR e)%R) by (apply IZR_le; lia).
  assert (Hdf : in_format d 0) by (apply in_format_small; lia).
  assert (Hbig : forall K, K < 2 ^ 53 -> (F2R K 0 < bpow 1024)%R).
  { intros K HK. rewrite F2R_0. apply Rlt_trans with (bpow 53);
      [apply IZR_lt_bpow; lia | apply bpow_lt; lia]. }
  set (p := PrimFloat.mul tol (double_of_uint d)).
  assert (Hp : rounds_to (B2R tol * B2R (double_of_uint d)) (Prim2SF p)).
  { apply mul_rounds with d 0; try assumption.
    - apply Hbig. lia.
    - rewrite Hdv, F2R_0. nra. }
  assert (Hpn := rounds_to_nonneg_finite _ _ Hp).
  assert (Hp0 : (0 <= B2R p)%R) by (apply SF2R_nonneg; exact Hpn).
  assert (Hpd : (B2R p <= IZR d)%R).
  { pose proof (rounds_to_le _ _ d 0 Hp Hdf) as H. rewrite F2R_0 in H. apply H.
    rewrite Hdv. nra. }
  set (s := PrimFloat.add (double_of_uint e) p).
  assert (Hedf : in_format (e + d) 0) by (apply in_format_small; lia).
  assert (Hs : rounds_to (B2R (double_of_uint e) + B2R p) (Prim2SF s)).
  { apply add_rounds with (e + d) 0; try assumption.
    - apply Hbig. lia.
    - rewrite Hev, F2R_0, plus_IZR. lra. }
  assert (Hsn := rounds_to_nonneg_finite _ _ Hs).
  assert (Hsu : (B2R s <= IZR (e + d))%R).
  { pose proof (rounds_to_le _ _ (e + d) 0 Hs Hedf) as H. rewrite F2R_0 in H. apply H.
    rewrite Hev, plus_IZR. lra. }
  assert (Hsl : (IZR e <= B2R s)%R).
  { destruct (Z.eq_dec e 0) as [-> | NE]; [apply SF2R_nonneg; exact Hsn |].
    assert (Hef : in_format e 0) by (apply in_format_small; lia).
    pose proof (rounds_to_ge _ _ e 0 Hs Hef) as H. rewrite F2R_0 in H. apply H.
    rewrite Hev. lra. }
  split.
  - split.
    + apply (quotient_lower s e d (e + d)); try assumption; try lia. split; assumption.
    + replace (e / d + 1) with ((e + d) / d)
        by (replace (e + d) with (e + 1 * d) by lia; rewrite Z.div_add by lia; reflexivity).
      apply (quotient_upper s (e + d) d); try assumption.
      assert (2 ^ 31 + 2 ^ 31 < 2 ^ 33) by (vm_compute; reflexivity). lia.
  - intros P HP EP.
    assert (HPv : B2R p = IZR P).
    { rewrite EP, (double_of_int_nonneg P) by lia.
      apply double_of_uint_exact. lia. }
    assert (Hsv : B2R s = IZR (e + P)).
    { destruct (Z.eq_dec (e + P) 0) as [E0 | NE].
      - assert (e = 0 /\ P = 0) as [-> ->] by lia.
        subst s. rewrite EP. reflexivity.
      - assert (Hf : in_format (e + P) 0) by (apply in_format_small; lia).
        pose proof (rounds_to_exact _ _ (e + P) 0 Hs Hf) as H.
        rewrite F2R_0, Hev, HPv, plus_IZR in H. unfold B2R. rewrite (H eq_refl), plus_IZR. reflexivity. }
    apply Z.le_antisymm.
    + apply (quotient_upper s (e + P) d); try assumption.
      * assert (2 ^ 31 + 2 ^ 31 < 2 ^ 33) by (vm_compute; reflexivity). lia.
      * rewrite Hsv. lra.
    + apply (quotient_lower s (e + P) d (e + d)); try assumption; try lia.
      split; [rewrite Hsv; lra | exact Hsu].
Qed.

(** ** Negative operands *)
Lemma binary_round_aux_opp m e l :
  binary_round_aux prec emax true m e l = SFopp (binary_round_aux prec emax false m e l).
Proof.
  unfold binary_round_aux. destruct (shr_fexp prec emax m e l) as [r1 e1].
  destruct (shr_fexp prec emax _ e1 loc_Exact) as [r2 e2].
  destruct (shr_m r2); [reflexivity | | reflexivity].
  destruct (e2 <=? emax - prec); reflexivity.
Qed.

Lemma binary_round_opp m e :
  binary_round prec emax true m e = SFopp (binary_round prec emax false m e).
Proof.
  unfold binary_round. destruct (shl_align m e _) as [mz ez]. apply binary_round_aux_opp.
Qed.

Lemma SFdiv_opp z y :
  nonneg_finite z -> pos_finite y ->
  SFdiv prec emax (SFopp z) y = SFopp (SFdiv prec emax z y).
Proof.
  intros [_ [[s ->] | (m & e & ->)]] [_ (my & ey & ->)]; cbn [SFdiv SFopp xorb negb].
  - destruct s; reflexivity.
  - destruct (SFdiv_core_binary prec emax (Z.pos m) e (Z.pos my) ey) as [[mz ez] lz].
    apply binary_round_aux_opp.
Qed.

Lemma SFopp_involutive z : SFopp (SFopp z) = z.
Proof. destruct z as [[] | [] | | [] m e]; reflexivity. Qed.

Lemma F2R_eq_0 m e : F2R m e = 0%R -> m = 0.
Proof.
  unfold F2R. intros H. pose proof (bpow_pos e). apply eq_IZR. nra.
Qed.

(** The sum of a negative and of a double that is not negative, by
    the sign of the real sum. *)
Lemma SFadd_opp_l (x y : spec_float) (Kmax kmax : Z) :
  pos_finite x -> nonneg_finite y ->
  in_format Kmax kmax -> (F2R Kmax kmax < bpow 1024)%R ->
  (SF2R x <= F2R Kmax kmax)%R -> (SF2R y <= F2R Kmax kmax)%R ->
  (SF2R x = SF2R y -> SFadd prec emax (SFopp x) y = S754_zero false) /\
  ((SF2R x < SF2R y)%R -> rounds_to (SF2R y - SF2R x) (SFadd prec emax (SFopp x) y)) /\
  ((SF2R y < SF2R x)%R ->
   exists z, SFadd prec emax (SFopp x) y = SFopp z /\ rounds_to (SF2R x - SF2R y) z).
Proof.
  intros Hx Hy Hfmt Hmax HxK HyK.
  pose proof (SF2R_pos x Hx) as Hxp.
  destruct Hx as [Vx (mx & ex & ->)]. destruct Hy as [Vy [[sy ->] | (my & ey & ->)]].
  - cbn [SFadd SFopp SF2R negb] in *. split; [intros H; lra |]. split; [intros H; lra |].
    intros _. exists (S754_finite false mx ex). split; [reflexivity |].
    rewrite Rminus_0_r. apply (rounds_to_self (S754_finite false mx ex)).
    split; [exact Vx | right; eauto].
  - cbn [SFadd SFopp SF2R negb cond_Zopp] in *.
    destruct (shl_align_spec mx ex (Z.min ex ey)) as [_ Hmx].
    destruct (shl_align_spec my ey (Z.min ex ey)) as [_ Hmy].
    replace (Z.min ex (Z.min ex ey)) with (Z.min ex ey) in Hmx by lia.
    replace (Z.min ey (Z.min ex ey)) with (Z.min ex ey) in Hmy by lia.
    set (mx' := fst (shl_align mx ex (Z.min ex ey))) in *.
    set (my' := fst (shl_align my ey (Z.min ex ey))) in *.
    set (ez := Z.min ex ey) in *.
    assert (Hval : F2R (- Z.pos mx' + Z.pos my') ez
                   = (F2R (Z.pos my) ey - F2R (Z.pos mx) ex)%R).
    { unfold F2R at 1. rewrite plus_IZR, opp_IZR.
      replace ((- IZR (Z.pos mx') + IZR (Z.pos my')) * bpow ez)%R
        with (F2R (Z.pos my') ez - F2R (Z.pos mx') ez)%R by (unfold F2R; ring).
      rewrite Hmx, Hmy, !F2R_shift by lia. f_equal; [| f_equal]; f_equal; lia. }
    destruct (- Z.pos mx' + Z.pos my') as [| p | p] eqn:Em; cbn [binary_normalize].
    + unfold F2R at 1 in Hval. rewrite Rmult_0_l in Hval.
      split; [reflexivity |]. split; intros H; lra.
    + assert (Hp : (0 < F2R (Z.pos p) ez)%R).
      { unfold F2R. pose proof (bpow_pos ez).
        assert (0 < IZR (Z.pos p))%R by (apply IZR_lt; lia). nra. }
      split; [intros H; lra |]. split; [| intros H; lra].
      intros _. rewrite <- Hval. apply (binary_round_rounds _ _ Kmax kmax Hfmt Hmax). lra.
    + assert (Hval' : F2R (Z.pos p) ez = (F2R (Z.pos mx) ex - F2R (Z.pos my) ey)%R).
      { rewrite <- Pos2Z.opp_neg. unfold F2R at 1. rewrite opp_IZR.
        unfold F2R at 1 in Hval. lra. }
      assert (Hp : (0 < F2R (Z.pos p) ez)%R).
      { unfold F2R. pose proof (bpow_pos ez).
        assert (0 < IZR (Z.pos p))%R by (apply IZR_lt; lia). nra. }
      split; [intros H; lra |]. split; [intros H; lra |].
      intros _. exists (binary_round prec emax false p ez).
      split; [apply binary_round_opp |].
      rewrite <- Hval'. apply (binary_round_rounds _ _ Kmax kmax Hfmt Hmax).
      assert (0 < F2R (Z.pos my) ey)%R.
      { unfold F2R. pose proof (bpow_pos ey).
        assert (0 < IZR (Z.pos my))%R by (apply IZR_lt; lia). nra. }
      lra.
Qed.

Lemma long_of_double_opp (x y : float) :
  Prim2SF x = SFopp (Prim2SF y) -> long_of_double x = - long_of_double y.
Proof.
  unfold long_of_double. intros ->.
  destruct (Prim2SF y) as [[] | [] | | [] m e]; cbn [SFopp negb]; lia.
Qed.

Lemma long_of_double_zero (x : float) s : Prim2SF x = S754_zero s -> long_of_double x = 0.
Proof. unfold long_of_double. intros ->. reflexivity. Qed.

Lemma quot_neg a d : 0 <= a -> 0 < d -> Z.quot (- a) d = - (a / d).
Proof. intros Ha Hd. rewrite Z.quot_opp_l by lia. rewrite Z.quot_div_nonneg by lia. reflexivity. Qed.

(** The quotient when the clock went back. *)
Lemma fade_quotient_neg (tol : float) (e d : Z) :
  PrimFloat.leb 0 tol = true -> PrimFloat.leb tol 1 = true ->
  1 <= d < 2 ^ 31 -> - 2 ^ 31 < e < 0 ->
  let p := PrimFloat.mul tol (double_of_int d) in
  let raw := long_of_double
               (PrimFloat.div (PrimFloat.add (double_of_int e) p) (double_of_int d)) in
  Z.quot e d <= raw <= Z.quot (e + d) d /\
  (forall P, 0 <= P < 2 ^ 31 -> p = double_of_int P -> raw = Z.quot (e + P) d).
Proof.
  intros Hlo Hhi Hd He. cbv zeta.
  rewrite !(double_of_int_nonneg d) by lia.
  assert (Ee : double_of_int e = PrimFloat.opp (double_of_uint (- e))).
  { unfold double_of_int. destruct (Z.ltb_spec e 0); [reflexivity | lia]. }
  rewrite Ee. set (a := - e) in *.
  assert (Ha : 0 < a < 2 ^ 31) by (unfold a; lia).
  replace e with (- a) by (unfold a; lia). clear Ee.
  assert (H53 : 2 ^ 31 + 2 ^ 31 < 2 ^ 53) by (vm_compute; reflexivity).
  assert (H33 : 2 ^ 31 + 2 ^ 31 < 2 ^ 33) by (vm_compute; reflexivity).
  destruct (leb_between _ tol _ nonneg_finite_zero nonneg_finite_one Hlo Hhi)
    as [Ht [Ht0 Ht1]].
  rewrite B2R_zero in Ht0. rewrite B2R_one in Ht1.
  destruct (double_of_uint_exact d) as [Hdn Hdv]; [lia |].
  destruct (double_of_uint_exact a) as [Han Hav]; [lia |].
  assert (Hap : pos_finite (Prim2SF (double_of_uint a))) by (apply double_of_uint_pos; lia).
  assert (Hdp : pos_finite (Prim2SF (double_of_uint d))) by (apply double_of_uint_pos; lia).
  assert (Hdr : (1 <= IZR d)%R) by (apply IZR_le; lia).
  assert (Har : (1 <= IZR a)%R) by (apply IZR_le; lia).
  assert (Hdf : in_format d 0) by (apply in_format_small; lia).
  assert (Haf : in_format a 0) by (apply in_format_small; lia).
  assert (Hbig : forall K, K < 2 ^ 53 -> (F2R K 0 < bpow 1024)%R).
  { intros K HK. rewrite F2R_0. apply Rlt_trans with (bpow 53);
      [apply IZR_lt_bpow; lia | apply bpow_lt; lia]. }
  set (p := PrimFloat.mul tol (double_of_uint d)).
  assert (Hp : rounds_to (B2R tol * B2R (double_of_uint d)) (Prim2SF p)).
  { apply mul_rounds with d 0; try assumption.
    - apply Hbig. lia.
    - rewrite Hdv, F2R_0. nra. }
  assert (Hpn := rounds_to_nonneg_finite _ _ Hp).
  assert (Hp0 : (0 <= B2R p)%R) by (apply SF2R_nonneg; exact Hpn).
  assert (Hpd : (B2R p <= IZR d)%R).
  { pose proof (rounds_to_le _ _ d 0 Hp Hdf) as H. rewrite F2R_0 in H. apply H.
    rewrite Hdv. nra. }
  set (s := PrimFloat.add (PrimFloat.opp (double_of_uint a)) p).
  set (q := PrimFloat.div s (double_of_uint d)).
  assert (Es : Prim2SF s = SFadd prec emax (SFopp (Prim2SF (double_of_uint a))) (Prim2SF p)).
  { unfold s. rewrite FloatAxioms.add_spec, FloatAxioms.opp_spec. reflexivity. }
  assert (Hadf : in_format (a + d) 0) by (apply in_format_small; lia).
  destruct (SFadd_opp_l (Prim2SF (double_of_uint a)) (Prim2SF p) (a + d) 0 Hap Hpn Hadf)
    as (Heq & Hgt & Hlt).
  { apply Hbig. lia. }
  { fold (B2R (double_of_uint a)). rewrite Hav, F2R_0, plus_IZR. lra. }
  { fold (B2R p). rewrite F2R_0, plus_IZR. lra. }
  fold (B2R (double_of_uint a)) (B2R p) in Heq, Hgt, Hlt. rewrite Hav in Heq, Hgt, Hlt.
  rewrite <- Es in Heq, Hgt, Hlt.
  (* the three cases, by the sign of the sum *)
  assert (Hcases :
    forall lo hi : Z,
      - 2 ^ 32 < lo -> hi < 2 ^ 32 ->
      (IZR lo <= B2R p - IZR a <= IZR hi)%R ->
      Z.quot lo d <= long_of_double q <= Z.quot hi d).
  { intros lo hi Hlo' Hhi' [Hl Hh].
    assert (Hlh : lo <= hi) by (apply le_IZR; lra).
    assert (Hq0 : Z.quot 0 d = 0) by (apply Z.quot_0_l; lia).
    destruct (Rtotal_order (IZR a) (B2R p)) as [Hc | [Hc | Hc]].
    - (* the sum is positive *)
      specialize (Hgt Hc). assert (Hsn := rounds_to_nonneg_finite _ _ Hgt).
      assert (Hhi1 : 1 <= hi).
      { assert (0 < hi); [| lia]. apply lt_IZR. lra. }
      assert (Hhf : in_format hi 0) by (apply in_format_small; lia).
      assert (Hsu : (B2R s <= IZR hi)%R).
      { pose proof (rounds_to_le _ _ hi 0 Hgt Hhf) as H. rewrite F2R_0 in H. apply H. lra. }
      destruct (quotient_upper s hi d Hd ltac:(lia) Hsn Hsu) as [Hqn Hup].
      fold q in Hqn, Hup. rewrite (Z.quot_div_nonneg hi d) by lia. split; [| exact Hup].
      destruct (Z_le_gt_dec lo 0) as [Hneg | Hpos].
      + apply Z.le_trans with 0.
        * apply Z.le_trans with (Z.quot 0 d); [| rewrite Hq0; lia].
          apply Z.quot_le_mono; lia.
        * apply long_of_double_ge; [exact Hqn | apply SF2R_nonneg; exact Hqn].
      + rewrite (Z.quot_div_nonneg lo d) by lia.
        assert (Hlf : in_format lo 0) by (apply in_format_small; lia).
        apply (quotient_lower s lo d hi); try assumption; try lia.
        split; [| exact Hsu].
        pose proof (rounds_to_ge _ _ lo 0 Hgt Hlf) as H. rewrite F2R_0 in H. apply H. lra.
    - (* the sum is zero *)
      specialize (Heq Hc).
      assert (Eq0 : long_of_double q = 0).
      { apply (long_of_double_zero q false). unfold q.
        rewrite FloatAxioms.div_spec, Heq.
        destruct Hdp as [_ (md & ed & ->)]. reflexivity. }
      rewrite Eq0. split.
      + apply Z.le_trans with (Z.quot 0 d); [| rewrite Hq0; lia].
        apply Z.quot_le_mono; [lia |]. apply le_IZR. lra.
      + apply Z.le_trans with (Z.quot 0 d); [rewrite Hq0; lia |].
        apply Z.quot_le_mono; [lia |]. apply le_IZR. lra.
    - (* the sum is negative *)
      destruct (Hlt Hc) as (z & Ez & Hz). assert (Hzn := rounds_to_nonneg_finite _ _ Hz).
      set (s' := PrimFloat.opp s).
      assert (Es' : Prim2SF s' = z).
      { unfold s'. rewrite FloatAxioms.opp_spec, Ez. apply SFopp_involutive. }
      assert (Eq' : Prim2SF q = SFopp (Prim2SF (PrimFloat.div s' (double_of_uint d)))).
      { unfold q. rewrite !FloatAxioms.div_spec, Ez, Es'. apply SFdiv_opp; assumption. }
      rewrite (long_of_double_opp _ _ Eq').
      rewrite <- Es' in Hz, Hzn.
      assert (Hlo1 : 1 <= - lo).
      { assert (0 < - lo); [| lia]. apply lt_IZR. rewrite opp_IZR. lra. }
      assert (Hlf : in_format (- lo) 0) by (apply in_format_small; lia).
      assert (Hsu : (B2R s' <= IZR (- lo))%R).
      { pose proof (rounds_to_le _ _ (- lo) 0 Hz Hlf) as H. rewrite F2R_0 in H. apply H.
        rewrite opp_IZR. lra. }
      destruct (quotient_upper s' (- lo) d Hd ltac:(lia) Hzn Hsu) as [Hqn Hup].
      replace lo with (- - lo) at 1 by lia. rewrite (quot_neg (- lo) d) by lia.
      split; [lia |].
      destruct (Z_le_gt_dec 0 hi) as [Hpos | Hneg].
      + apply Z.le_trans with 0.
        * assert (0 <= long_of_double (PrimFloat.div s' (double_of_uint d))); [| lia].
          apply long_of_double_ge; [exact Hqn | apply SF2R_nonneg; exact Hqn].
        * apply Z.le_trans with (Z.quot 0 d); [rewrite Hq0; lia |].
          apply Z.quot_le_mono; lia.
      + replace hi with (- - hi) by lia. rewrite (quot_neg (- hi) d) by lia.
        assert (Hhf : in_format (- hi) 0) by (apply in_format_small; lia).
        assert (- hi / d <= long_of_double (PrimFloat.div s' (double_of_uint d))); [| lia].
        apply (quotient_lower s' (- hi) d (- lo)); try assumption; try lia.
        split; [| exact Hsu].
        pose proof (rounds_to_ge _ _ (- hi) 0 Hz Hhf) as H. rewrite F2R_0 in H. apply H.
        rewrite opp_IZR. lra. }
  assert (H32 : 2 ^ 31 + 2 ^ 31 <= 2 ^ 32) by (vm_compute; discriminate).
  split.
  - apply Hcases; try lia. rewrite plus_IZR, opp_IZR. split; lra.
  - intros P HP EP.
    assert (HPv : B2R p = IZR P).
    { rewrite EP, (double_of_int_nonneg P) by lia. apply double_of_uint_exact. lia. }
    apply Z.le_antisymm; apply (Hcases (- a + P) (- a + P)); try lia;
      rewrite plus_IZR, opp_IZR, HPv; split; lra.
Qed.

(** The quotient at every elapsed time. *)
Lemma fade_quotient_spec (tol : float) (e d : Z) :
  PrimFloat.leb 0 tol = true -> PrimFloat.leb tol 1 = true ->
  1 <= d < 2 ^ 31 -> - 2 ^ 31 < e < 2 ^ 31 ->
  let p := PrimFloat.mul tol (double_of_int d) in
  let raw := long_of_double
               (PrimFloat.div (PrimFloat.add (double_of_int e) p) (double_of_int d)) in
  Z.quot e d <= raw <= Z.quot (e + d) d /\
  (forall P, 0 <= P < 2 ^ 31 -> p = double_of_int P -> raw = Z.quot (e + P) d).
Proof.
  intros Hlo Hhi Hd He. destruct (Z_lt_ge_dec e 0) as [Hneg | Hpos].
  - apply fade_quotient_neg; try assumption. lia.
  - destruct (fade_quotient tol e d Hlo Hhi Hd ltac:(lia)) as [Hb Hex]. cbv zeta in *.
    rewrite (Z.quot_div_nonneg e d), (Z.quot_div_nonneg (e + d) d) by lia.
    replace ((e + d) / d) with (e / d + 1)
      by (replace (e + d) with (e + 1 * d) by lia; rewrite Z.div_add by lia; reflexivity).
    split; [exact Hb |].
    intros P HP EP. rewrite (Z.quot_div_nonneg (e + P) d) by lia. apply Hex; assumption.
Qed.

(** ** Subtraction *)

(** An integer below 2^53 that is rounded stays what it is. *)
Lemma rounds_to_int x z k :
  rounds_to x z -> 0 <= k < 2 ^ 53 -> x = IZR k -> SF2R z = IZR k.
Proof.
  intros Hr Hk E. destruct (Z.eq_dec k 0) as [-> | NE].
  - destruct Hr as (_ & Hz & _). apply Hz. exact E.
  - assert (Hf : in_format k 0) by (apply in_format_small; lia).
    rewrite <- E. apply (rounds_to_exact x z k 0 Hr Hf). rewrite F2R_0. exact E.
Qed.

Lemma long_of_double_int q k :
  nonneg_finite (Prim2SF q) -> B2R q = IZR k -> long_of_double q = k.
Proof.
  intros Hq E. destruct (long_of_double_floor q Hq) as [L U]. rewrite E in L, U.
  apply le_IZR in L.
  assert (k < long_of_double q + 1) by (apply lt_IZR; rewrite plus_IZR; exact U).
  lia.
Qed.

(** The difference of two doubles that are not negative, by the sign
    of the real difference. *)
Lemma SFsub_nonneg (x y : spec_float) (Kmax kmax : Z) :
  nonneg_finite x -> nonneg_finite y ->
  in_format Kmax kmax -> (F2R Kmax kmax < bpow 1024)%R ->
  (SF2R x <= F2R Kmax kmax)%R -> (SF2R y <= F2R Kmax kmax)%R ->
  ((SF2R y <= SF2R x)%R -> rounds_to (SF2R x - SF2R y) (SFsub prec emax x y)) /\
  ((SF2R x < SF2R y)%R ->
   exists z, SFsub prec emax x y = SFopp z /\ pos_finite z /\
             rounds_to (SF2R y - SF2R x) z).
Proof.
  intros Hx Hy Hfmt Hmax HxK HyK.
  destruct Hx as [Vx [[sx ->] | (mx & ex & ->)]], Hy as [Vy [[sy ->] | (my & ey & ->)]].
  - cbn [SFsub SF2R]. split; [| intros H; lra].
    intros _. rewrite Rminus_0_r. destruct sx, sy; apply rounds_to_zero.
  - cbn [SFsub SF2R negb] in *.
    assert (Hyp : pos_finite (S754_finite false my ey)) by (split; [exact Vy | eauto]).
    pose proof (SF2R_pos _ Hyp) as Hpos. cbn [SF2R] in Hpos.
    split; [intros H; lra |].
    intros _. exists (S754_finite false my ey). split; [reflexivity |].
    split; [exact Hyp |]. rewrite Rminus_0_r.
    apply (rounds_to_self (S754_finite false my ey)). apply pos_nonneg. exact Hyp.
  - cbn [SFsub SF2R] in *.
    assert (Hxp : pos_finite (S754_finite false mx ex)) by (split; [exact Vx | eauto]).
    pose proof (SF2R_pos _ Hxp) as Hpos. cbn [SF2R] in Hpos.
    split; [| intros H; lra].
    intros _. rewrite Rminus_0_r.
    apply (rounds_to_self (S754_finite false mx ex)). apply pos_nonneg. exact Hxp.
  - cbn [SFsub SF2R cond_Zopp] in *.
    destruct (valid_in_format _ _ _ Vx) as [[_ Fx] _].
    destruct (valid_in_format _ _ _ Vy) as [[_ Fy] _].
    pose proof (fexp_ge (Zdigits2 (Z.pos mx) + ex)) as Hex.
    pose proof (fexp_ge (Zdigits2 (Z.pos my) + ey)) as Hey.
    destruct (shl_align_spec mx ex (Z.min ex ey)) as [_ Hmx].
    destruct (shl_align_spec my ey (Z.min ex ey)) as [_ Hmy].
    replace (Z.min ex (Z.min ex ey)) with (Z.min ex ey) in Hmx by lia.
    replace (Z.min ey (Z.min ex ey)) with (Z.min ex ey) in Hmy by lia.
    set (mx' := fst (shl_align mx ex (Z.min ex ey))) in *.
    set (my' := fst (shl_align my ey (Z.min ex ey))) in *.
    set (ez := Z.min ex ey) in *.
    assert (Hez : -1074 <= ez) by (unfold ez; lia).
    assert (Hval : F2R (Z.pos mx' - Z.pos my') ez
                   = (F2R (Z.pos mx) ex - F2R (Z.pos my) ey)%R).
    { unfold F2R at 1. rewrite minus_IZR.
      replace ((IZR (Z.pos mx') - IZR (Z.pos my')) * bpow ez)%R
        with (F2R (Z.pos mx') ez - F2R (Z.pos my') ez)%R by (unfold F2R; ring).
      rewrite Hmx, Hmy, !F2R_shift by lia. f_equal; f_equal; lia. }
    assert (Hy0 : (0 < F2R (Z.pos my) ey)%R).
    { unfold F2R. pose proof (bpow_pos ey).
      assert (0 < IZR (Z.pos my))%R by (apply IZR_lt; lia). nra. }
    assert (Hx0 : (0 < F2R (Z.pos mx) ex)%R).
    { unfold F2R. pose proof (bpow_pos ex).
      assert (0 < IZR (Z.pos mx))%R by (apply IZR_lt; lia). nra. }
    destruct (Z.pos mx' - Z.pos my') as [| p | p] eqn:Em; cbn [binary_normalize].
    + unfold F2R at 1 in Hval. rewrite Rmult_0_l in Hval.
      split; [| intros H; lra].
      intros _. rewrite <- Hval. apply rounds_to_zero.
    + assert (Hp : (0 < F2R (Z.pos p) ez)%R).
      { unfold F2R. pose proof (bpow_pos ez).
        assert (0 < IZR (Z.pos p))%R by (apply IZR_lt; lia). nra. }
      split; [| intros H; lra].
      intros _. rewrite <- Hval. apply (binary_round_rounds _ _ Kmax kmax Hfmt Hmax). lra.
    + assert (Hval' : F2R (Z.pos p) ez = (F2R (Z.pos my) ey - F2R (Z.pos mx) ex)%R).
      { rewrite <- Pos2Z.opp_neg. unfold F2R at 1. rewrite opp_IZR.
        unfold F2R at 1 in Hval. lra. }
      assert (Hp : (F2R 1 (-1074) <= F2R (Z.pos p) ez)%R).
      { apply Rle_trans with (F2R 1 ez).
        - unfold F2R. rewrite !Rmult_1_l. apply bpow_le. exact Hez.
        - apply F2R_le. lia. }
      assert (Hmin : (0 < F2R 1 (-1074))%R)
        by (unfold F2R; rewrite Rmult_1_l; apply bpow_pos).
      split; [intros H; lra |].
      intros _. exists (binary_round prec emax false p ez).
      assert (Hr : rounds_to (F2R (Z.pos p) ez) (binary_round prec emax false p ez))
        by (apply (binary_round_rounds _ _ Kmax kmax Hfmt Hmax); lra).
      split; [apply binary_round_opp |]. split; [| rewrite <- Hval'; exact Hr].
      apply nonneg_pos; [exact (rounds_to_nonneg_finite _ _ Hr) |].
      assert (Hf : in_format 1 (-1074)) by (apply in_format_small; lia).
      pose proof (rounds_to_ge _ _ 1 (-1074) Hr Hf Hp). lra.
Qed.

(** A negative double is below every double that is not negative. *)
Lemma ltb_opp_nonneg (d t : float) (z : spec_float) :
  Prim2SF d = SFopp z -> pos_finite z -> nonneg_finite (Prim2SF t) ->
  PrimFloat.ltb d t = true.
Proof.
  intros Ed [_ (m & e & ->)] [_ [[s Et] | (mt & et & Et)]];
    rewrite FloatAxioms.ltb_spec, Ed, Et; reflexivity.
Qed.

End FloatProofs.

(** * Proofs about [compton.c] *)

Module ComptonProofs.

Import Compton.
Import FloatProofs.

(** ** Fading *)

Lemma normalize_range_min (d hi : Z) :
  0 <= d -> 0 <= hi -> normalize_range d 0 hi = Z.min d hi.
Proof.
  intros Hd Hhi. unfold normalize_range.
  destruct (Z.ltb_spec d 0); [lia |]. destruct (Z.ltb_spec hi d); lia.
Qed.

Lemma normalize_range_max (d lo hi : Z) :
  d <= hi -> lo <= hi -> normalize_range d lo hi = Z.max d lo.
Proof.
  intros Hd Hlo. unfold normalize_range.
  destruct (Z.ltb_spec d lo); [lia |]. destruct (Z.ltb_spec hi d); lia.
Qed.

Lemma fade_steps_nonneg (tol : float) (ps : session_t) (now : Z) :
  0 <= fst (fade_steps tol ps now).
Proof.
  unfold fade_steps. destruct (fade_time ps =? 0); simpl; [lia |].
  destruct (Z.ltb_spec (fade_steps_raw tol ps now) 0); simpl; lia.
Qed.

(** The integer clamp of the model is the clamp in double of the code:
    [fade_in_double] and [fade_out_double] are the two assignments of
    [run_fade] as the code computes them, for opacities, steps and a
    step count of 32 bits. *)
Lemma ltb_false_of_le (x y : float) :
  nonneg_finite (Prim2SF x) -> nonneg_finite (Prim2SF y) ->
  (B2R y <= B2R x)%R -> PrimFloat.ltb x y = false.
Proof.
  intros Hx Hy H. destruct (PrimFloat.ltb x y) eqn:E; [| reflexivity].
  apply (ltb_nonneg x y Hx Hy) in E. lra.
Qed.

Lemma ltb_true_of_lt (x y : float) :
  nonneg_finite (Prim2SF x) -> nonneg_finite (Prim2SF y) ->
  (B2R x < B2R y)%R -> PrimFloat.ltb x y = true.
Proof. intros Hx Hy H. apply (ltb_nonneg x y Hx Hy). exact H. Qed.

Lemma uint32_double (z : Z) :
  0 <= z < 2 ^ 32 ->
  nonneg_finite (Prim2SF (double_of_uint z)) /\ B2R (double_of_uint z) = IZR z.
Proof.
  intros Hz. apply double_of_uint_exact.
  assert (2 ^ 32 < 2 ^ 53) by (apply Z.pow_lt_mono_r; lia). lia.
Qed.

Lemma bpow_IZR_lt (K n : Z) : 0 <= n -> n < 1024 -> K <= 2 ^ n -> (F2R 1 n < bpow 1024)%R /\ (IZR K <= F2R 1 n)%R.
Proof.
  intros Hn Hlt HK. unfold F2R. rewrite Rmult_1_l. split.
  - apply bpow_lt. exact Hlt.
  - rewrite (bpow_nonneg_IZR n Hn). apply IZR_le. exact HK.
Qed.

Lemma fade_in_double_spec (o_ s n t_ : Z) :
  0 <= o_ <= OPAQUE -> 0 <= s <= OPAQUE -> 0 <= n < 2 ^ 32 -> 0 <= t_ <= OPAQUE ->
  fade_in_double o_ s n t_ = normalize_range (o_ + s * n) 0 t_.
Proof.
  unfold OPAQUE. intros Ho Hs Hn Ht.
  assert (H32 : 2 ^ 32 = 4294967296) by reflexivity.
  assert (H53 : 2 ^ 53 = 9007199254740992) by reflexivity.
  assert (H64 : 2 ^ 64 = 4294967296 * 4294967296) by reflexivity.
  assert (H65 : 2 ^ 65 = 2 * (4294967296 * 4294967296)) by reflexivity.
  destruct (uint32_double o_ ltac:(lia)) as [Hon Hov].
  destruct (uint32_double s ltac:(lia)) as [Hsn Hsv].
  destruct (uint32_double n ltac:(lia)) as [Hnn Hnv].
  destruct (uint32_double t_ ltac:(lia)) as [Htn Htv].
  assert (Hsn0 : 0 <= s * n) by nia.
  assert (Hf64 : in_format 1 64) by (apply in_format_small; lia).
  assert (Hf65 : in_format 1 65) by (apply in_format_small; lia).
  destruct (bpow_IZR_lt (s * n) 64 ltac:(lia) ltac:(lia) ltac:(nia)) as [Hb64 Hle64].
  destruct (bpow_IZR_lt (o_ + s * n) 65 ltac:(lia) ltac:(lia) ltac:(nia)) as [Hb65 Hle65].
  unfold fade_in_double.
  set (p := PrimFloat.mul (double_of_uint s) (double_of_uint n)).
  assert (Hp : rounds_to (IZR (s * n)) (Prim2SF p)).
  { rewrite mult_IZR, <- Hsv, <- Hnv. apply mul_rounds with 1 64; try assumption.
    rewrite Hsv, Hnv, <- mult_IZR. exact Hle64. }
  assert (Hpn := rounds_to_nonneg_finite _ _ Hp).
  assert (Hpu : (B2R p <= F2R 1 64)%R) by (apply (rounds_to_le _ _ 1 64 Hp Hf64); exact Hle64).
  set (d := PrimFloat.add (double_of_uint o_) p).
  assert (Hd : rounds_to (IZR o_ + B2R p) (Prim2SF d)).
  { rewrite <- Hov. apply add_rounds with 1 65; try assumption.
    rewrite Hov. assert (IZR o_ <= F2R 1 64)%R.
    { unfold F2R. rewrite Rmult_1_l, (bpow_nonneg_IZR 64) by lia. apply IZR_le. lia. }
    unfold F2R in *. rewrite Rmult_1_l in *. replace 65 with (64 + 1) by lia.
    rewrite bpow_add. replace (bpow 1) with 2%R by (unfold bpow; simpl; lra). lra. }
  assert (Hdn := rounds_to_nonneg_finite _ _ Hd).
  assert (Hd0 : PrimFloat.ltb d 0 = false).
  { apply ltb_false_of_le; [exact Hdn | exact nonneg_finite_zero |].
    rewrite B2R_zero. apply SF2R_nonneg. exact Hdn. }
  unfold normalize_d_range. rewrite Hd0.
  destruct (Z_le_gt_dec (o_ + s * n) t_) as [Hin | Hover].
  - (* the sum stays below the target: it is exact *)
    assert (Hpv : B2R p = IZR (s * n)) by (apply (rounds_to_int _ _ _ Hp); [lia | reflexivity]).
    assert (Hdv : B2R d = IZR (o_ + s * n)).
    { apply (rounds_to_int _ _ _ Hd); [lia |]. rewrite Hpv, plus_IZR. reflexivity. }
    rewrite (ltb_false_of_le _ _ Htn Hdn)
      by (rewrite Hdv, Htv; apply IZR_le; exact Hin).
    rewrite (long_of_double_int d _ Hdn Hdv).
    unfold normalize_range. destruct (Z.ltb_spec (o_ + s * n) 0); [lia |].
    destruct (Z.ltb_spec t_ (o_ + s * n)); [lia | reflexivity].
  - (* the sum is beyond the target: so is its rounding *)
    assert (Hbig : (IZR (t_ + 1) <= B2R d)%R).
    { assert (Hft : in_format (t_ + 1) 0) by (apply in_format_small; lia).
      pose proof (rounds_to_ge _ _ (t_ + 1) 0 Hd Hft) as H. rewrite F2R_0 in H. apply H.
      destruct (Z_le_gt_dec (t_ - o_ + 1) 0) as [Hle | Hgt].
      - pose proof (SF2R_nonneg _ Hpn) as Hp0. fold (B2R p) in Hp0.
        assert (IZR (t_ + 1) <= IZR o_)%R by (apply IZR_le; lia). lra.
      - assert (Hfk : in_format (t_ - o_ + 1) 0) by (apply in_format_small; lia).
        pose proof (rounds_to_ge _ _ (t_ - o_ + 1) 0 Hp Hfk) as Hk. rewrite F2R_0 in Hk.
        assert (IZR (t_ - o_ + 1) <= IZR (s * n))%R by (apply IZR_le; lia).
        specialize (Hk H0). fold (B2R p) in Hk.
        rewrite plus_IZR, minus_IZR in Hk. rewrite plus_IZR. lra. }
    rewrite (ltb_true_of_lt _ _ Htn Hdn) by (rewrite Htv; rewrite plus_IZR in Hbig; lra).
    rewrite (long_of_double_int _ _ Htn Htv).
    unfold normalize_range. destruct (Z.ltb_spec (o_ + s * n) 0); [lia |].
    destruct (Z.ltb_spec t_ (o_ + s * n)); [reflexivity | lia].
Qed.

Lemma fade_out_double_spec (o_ s n t_ : Z) :
  0 <= o_ <= OPAQUE -> 0 <= s <= OPAQUE -> 0 <= n < 2 ^ 32 -> 0 <= t_ <= OPAQUE ->
  fade_out_double o_ s n t_ = normalize_range (o_ - s * n) t_ OPAQUE.
Proof.
  unfold OPAQUE. intros Ho Hs Hn Ht.
  assert (H32 : 2 ^ 32 = 4294967296) by reflexivity.
  assert (H53 : 2 ^ 53 = 9007199254740992) by reflexivity.
  assert (H64 : 2 ^ 64 = 4294967296 * 4294967296) by reflexivity.
  destruct (uint32_double o_ ltac:(lia)) as [Hon Hov].
  destruct (uint32_double s ltac:(lia)) as [Hsn Hsv].
  destruct (uint32_double n ltac:(lia)) as [Hnn Hnv].
  destruct (uint32_double t_ ltac:(lia)) as [Htn Htv].
  destruct (uint32_double 0xffffffff ltac:(lia)) as [HOn HOv].
  assert (Hsn0 : 0 <= s * n) by nia.
  assert (Hf64 : in_format 1 64) by (apply in_format_small; lia).
  destruct (bpow_IZR_lt (s * n) 64 ltac:(lia) ltac:(lia) ltac:(nia)) as [Hb64 Hle64].
  unfold fade_out_double, OPAQUE.
  set (p := PrimFloat.mul (double_of_uint s) (double_of_uint n)).
  assert (Hp : rounds_to (IZR (s * n)) (Prim2SF p)).
  { rewrite mult_IZR, <- Hsv, <- Hnv. apply mul_rounds with 1 64; try assumption.
    rewrite Hsv, Hnv, <- mult_IZR. exact Hle64. }
  assert (Hpn := rounds_to_nonneg_finite _ _ Hp).
  assert (Hpu : (B2R p <= F2R 1 64)%R) by (apply (rounds_to_le _ _ 1 64 Hp Hf64); exact Hle64).
  assert (Hou : (B2R (double_of_uint o_) <= F2R 1 64)%R).
  { rewrite Hov. unfold F2R. rewrite Rmult_1_l, (bpow_nonneg_IZR 64) by lia.
    apply IZR_le. lia. }
  set (d := PrimFloat.sub (double_of_uint o_) p).
  assert (Ed : Prim2SF d = SFsub prec emax (Prim2SF (double_of_uint o_)) (Prim2SF p))
    by (unfold d; apply FloatAxioms.sub_spec).
  destruct (SFsub_nonneg _ _ 1 64 Hon Hpn Hf64 Hb64 Hou Hpu) as [Hpos Hneg].
  fold (B2R (double_of_uint o_)) (B2R p) in Hpos, Hneg. rewrite Hov, <- Ed in Hpos, Hneg.
  unfold normalize_d_range.
  destruct (Z_le_gt_dec t_ (o_ - s * n)) as [Hin | Hover].
  - (* the difference stays above the target: it is exact *)
    assert (Hpv : B2R p = IZR (s * n)) by (apply (rounds_to_int _ _ _ Hp); [lia | reflexivity]).
    assert (Hr : rounds_to (IZR o_ - B2R p) (Prim2SF d)).
    { apply Hpos. rewrite Hpv. apply IZR_le. lia. }
    assert (Hdn := rounds_to_nonneg_finite _ _ Hr).
    assert (Hdv : B2R d = IZR (o_ - s * n)).
    { apply (rounds_to_int _ _ _ Hr); [lia |]. rewrite Hpv, minus_IZR. reflexivity. }
    rewrite (ltb_false_of_le _ _ Hdn Htn) by (rewrite Hdv, Htv; apply IZR_le; exact Hin).
    rewrite (ltb_false_of_le _ _ HOn Hdn) by (rewrite Hdv, HOv; apply IZR_le; lia).
    rewrite (long_of_double_int d _ Hdn Hdv).
    unfold normalize_range. destruct (Z.ltb_spec (o_ - s * n) t_); [lia |].
    destruct (Z.ltb_spec 4294967295 (o_ - s * n)); [lia | reflexivity].
  - (* the difference is beyond the target: so is its rounding *)
    assert (Hlt : PrimFloat.ltb d (double_of_uint t_) = true).
    { destruct (Rle_or_lt (B2R p) (IZR o_)) as [Hle | Hgt].
      - specialize (Hpos Hle). assert (Hdn := rounds_to_nonneg_finite _ _ Hpos).
        apply (ltb_true_of_lt _ _ Hdn Htn). rewrite Htv.
        pose proof (SF2R_nonneg _ Hpn) as Hp0. fold (B2R p) in Hp0.
        (* an integer bound of the difference that is below the target *)
        assert (Hbound : exists b, 0 <= b < t_ /\ (IZR o_ - B2R p <= IZR b)%R).
        { destruct (Z_le_gt_dec (o_ - t_ + 1) 0) as [Hsmall | Hlarge].
          - exists o_. split; [lia | lra].
          - exists (t_ - 1).
            assert (Hfk : in_format (o_ - t_ + 1) 0) by (apply in_format_small; lia).
            pose proof (rounds_to_ge _ _ (o_ - t_ + 1) 0 Hp Hfk) as Hk. rewrite F2R_0 in Hk.
            assert (IZR (o_ - t_ + 1) <= IZR (s * n))%R by (apply IZR_le; lia).
            specialize (Hk H). fold (B2R p) in Hk.
            rewrite plus_IZR, minus_IZR in Hk.
            assert (0 <= IZR o_ - B2R p)%R by lra.
            assert (Ht1 : 0 <= t_ - 1).
            { assert (0 < t_); [| lia]. apply lt_IZR. lra. }
            split; [lia |]. rewrite minus_IZR. lra. }
        destruct Hbound as (b & Hb & Hdb).
        assert (B2R d <= IZR b)%R; [| assert (IZR b < IZR t_)%R by (apply IZR_lt; lia); lra].
        destruct (Z.eq_dec b 0) as [-> | NE].
        + destruct Hpos as (_ & Hz & _). unfold B2R. rewrite Hz; lra.
        + assert (Hfb : in_format b 0) by (apply in_format_small; lia).
          pose proof (rounds_to_le _ _ b 0 Hpos Hfb) as H. rewrite F2R_0 in H. apply H.
          exact Hdb.
      - destruct (Hneg Hgt) as (z & Ez & Hz & _).
        apply (ltb_opp_nonneg d _ z Ez Hz Htn). }
    rewrite Hlt. rewrite (long_of_double_int _ _ Htn Htv).
    unfold normalize_range. destruct (Z.ltb_spec (o_ - s * n) t_); [reflexivity | lia].
Qed.

(** [run_fade] is the function of the code: with the assignments in
    double it gives the same session and window, for opacities, steps
    and a step count of 32 bits. *)
Lemma run_fade_in_double (ps : session_t) (w : win) (steps : Z) :
  0 <= fade_in_step (o ps) <= OPAQUE ->
  0 <= fade_out_step (o ps) <= OPAQUE ->
  0 <= opacity w <= OPAQUE ->
  0 <= opacity_tgt w <= OPAQUE ->
  0 <= steps < 2 ^ 32 ->
  run_fade_double ps w steps = run_fade ps w steps.
Proof.
  intros Hin Hout Ho Ht Hs. unfold run_fade_double, run_fade.
  rewrite (fade_in_double_spec _ _ _ _ Ho Hin Hs Ht).
  rewrite (fade_out_double_spec _ _ _ _ Ho Hout Hs Ht).
  reflexivity.
Qed.

(** The two assignments of [run_fade] on values as large as the types
    allow, and inside the bounds. *)
Example normalize_range_as_in_double :
  fade_in_double 1000000000 120259084 5 OPAQUE
  = normalize_range (1000000000 + 120259084 * 5) 0 OPAQUE /\
  fade_in_double 4000000000 120259084 5 OPAQUE
  = normalize_range (4000000000 + 120259084 * 5) 0 OPAQUE /\
  fade_in_double 1 OPAQUE OPAQUE (OPAQUE - 1)
  = normalize_range (1 + OPAQUE * OPAQUE) 0 (OPAQUE - 1) /\
  fade_out_double 1000000000 128849018 5 7
  = normalize_range (1000000000 - 128849018 * 5) 7 OPAQUE /\
  fade_out_double 1000000000 128849018 50 7
  = normalize_range (1000000000 - 128849018 * 50) 7 OPAQUE /\
  fade_out_double OPAQUE OPAQUE OPAQUE 0
  = normalize_range (OPAQUE - OPAQUE * OPAQUE) 0 OPAQUE.
Proof. vm_compute. repeat split; reflexivity. Qed.

(** The opacity [run_fade] leaves. *)
Lemma run_fade_opacity (ps : session_t) (w : win) (steps : Z) :
  0 <= steps ->
  0 <= fade_in_step (o ps) ->
  0 <= fade_out_step (o ps) ->
  0 <= opacity w <= OPAQUE ->
  0 <= opacity_tgt w <= OPAQUE ->
  opacity (snd (run_fade ps w steps))
  = if negb (fade w) then opacity_tgt w
    else if opacity w <? opacity_tgt w
         then Z.min (opacity w + fade_in_step (o ps) * steps) (opacity_tgt w)
         else Z.max (opacity w - fade_out_step (o ps) * steps) (opacity_tgt w).
Proof.
  intros Hs Hin Hout Ho Ht. unfold run_fade.
  destruct (Z.eqb_spec (opacity w) (opacity_tgt w)) as [E | E]; cbn [snd].
  - destruct (fade w); cbn [negb]; [| exact E].
    destruct (Z.ltb_spec (opacity w) (opacity_tgt w)); [lia | nia].
  - destruct (fade w); cbn [negb]; [| reflexivity].
    destruct (Z.eqb_spec steps 0) as [-> | E0]; cbn [negb].
    + destruct (Z.ltb_spec (opacity w) (opacity_tgt w)); lia.
    + destruct (Z.ltb_spec (opacity w) (opacity_tgt w)); cbn [opacity set_opacity].
      * apply normalize_range_min; nia.
      * apply normalize_range_max; nia.
Qed.

(** C2 (amended).  On a fade tick at the time [now] with the time of
    the last step set, the quotient
    [(now - fade_time + FADE_DELTA_TOLERANCE * fade_delta) / fade_delta]
    is computed in double and truncated toward zero to the integer
    [raw].  With a tolerance in [[0, 1]], a [fade_delta] of at least
    1 ms and less than 2^31 ms between [fade_time] and [now], [raw]
    lies between the truncated quotients of [now - fade_time] and of
    [now - fade_time + fade_delta] by [fade_delta]; when the product
    [FADE_DELTA_TOLERANCE * fade_delta] is the integer [P] in double,
    [raw] is the truncated quotient of [now - fade_time + P] by
    [fade_delta]: with no tolerance it is the one of
    [now - fade_time].  When [raw] is not negative, [raw] steps are
    taken and [fade_time] advances by [raw * fade_delta]; when it is
    negative, no step is taken and [fade_time] becomes [now]: it is
    negative when the clock went back by twice [fade_delta] or more,
    and it is not when the clock went back by less than [fade_delta].
    [run_fade] receives the
    steps as an [unsigned], that is modulo 2^32, which changes nothing
    for the times above.  A window that fades moves, for these steps,
    to [opacity + fade_in_step * steps] capped at the target when it
    is below the target and to [opacity - fade_out_step * steps]
    floored at the target when it is above; a window that does not
    fade gets the target at once; the new opacity is never beyond the
    target.  These are the values the code computes in double
    ([run_fade_double]). *)
Theorem fade_tick_moves_opacity_toward_target :
  forall (FADE_DELTA_TOLERANCE : float) (ps : session_t) (now : Z) (w : win),
    fade_time ps <> 0 ->
    0 <= fade_in_step (o ps) ->
    0 <= fade_out_step (o ps) ->
    0 <= opacity w <= OPAQUE ->
    0 <= opacity_tgt w <= OPAQUE ->
    let elapsed := now - fade_time ps in
    let delta := fade_delta (o ps) in
    let tolerance := PrimFloat.mul FADE_DELTA_TOLERANCE (double_of_int delta) in
    let raw :=
      long_of_double
        (PrimFloat.div (PrimFloat.add (double_of_int elapsed) tolerance)
           (double_of_int delta)) in
    let steps := fst (fade_steps FADE_DELTA_TOLERANCE ps now) in
    let usteps := steps mod 2 ^ 32 in
    let w' := snd (run_fade ps w usteps) in
    raw = fade_steps_raw FADE_DELTA_TOLERANCE ps now /\
    (PrimFloat.leb 0 FADE_DELTA_TOLERANCE = true ->
     PrimFloat.leb FADE_DELTA_TOLERANCE 1 = true ->
     1 <= delta < 2 ^ 31 ->
     - 2 ^ 31 < elapsed < 2 ^ 31 ->
     Z.quot elapsed delta <= raw <= Z.quot (elapsed + delta) delta /\
     (forall P, 0 <= P < 2 ^ 31 -> tolerance = double_of_int P ->
                raw = Z.quot (elapsed + P) delta) /\
     (0 <= elapsed -> elapsed / delta <= steps <= elapsed / delta + 1) /\
     (elapsed <= - 2 * delta -> raw < 0) /\
     (- delta < elapsed -> 0 <= raw) /\
     usteps = steps) /\
    (0 <= raw ->
     fade_steps FADE_DELTA_TOLERANCE ps now = (raw, fade_time ps + raw * delta)) /\
    (raw < 0 -> fade_steps FADE_DELTA_TOLERANCE ps now = (0, now)) /\
    0 <= steps /\
    (steps < 2 ^ 32 -> usteps = steps) /\
    (fade w = false -> opacity w' = opacity_tgt w) /\
    (fade w = true ->
     (opacity w < opacity_tgt w ->
      opacity w' = Z.min (opacity w + fade_in_step (o ps) * usteps) (opacity_tgt w)) /\
     (opacity_tgt w < opacity w ->
      opacity w' = Z.max (opacity w - fade_out_step (o ps) * usteps) (opacity_tgt w))) /\
    Z.min (opacity w) (opacity_tgt w) <= opacity w'
    <= Z.max (opacity w) (opacity_tgt w) /\
    (fade_in_step (o ps) <= OPAQUE -> fade_out_step (o ps) <= OPAQUE ->
     run_fade_double ps w usteps = run_fade ps w usteps).
Proof.
  intros tol ps now w Hft Hin Hout Ho Ht elapsed delta tolerance raw steps usteps w'.
  assert (Hsteps : 0 <= steps) by apply fade_steps_nonneg.
  assert (Hmod : 0 <= usteps) by (apply Z.mod_pos_bound; lia).
  assert (Hraw : raw = fade_steps_raw tol ps now) by reflexivity.
  assert (Hval : steps = if raw <? 0 then 0 else raw).
  { subst steps. unfold fade_steps. rewrite <- Hraw.
    apply Z.eqb_neq in Hft. rewrite Hft. simpl.
    destruct (raw <? 0); reflexivity. }
  apply Z.eqb_neq in Hft.
  pose proof (run_fade_opacity ps w usteps Hmod Hin Hout Ho Ht) as Hop. fold w' in Hop.
  split; [exact Hraw |]. split; [| split; [| split; [| split; [exact Hsteps |]]]].
  - intros Hlo Hhi Hd He.
    destruct (FloatProofs.fade_quotient_spec tol elapsed delta Hlo Hhi Hd He) as [Hb Hex].
    cbv zeta in Hb, Hex. fold tolerance in Hb, Hex. fold raw in Hb, Hex.
    assert (Hup : Z.quot (elapsed + delta) delta < 2 ^ 32).
    { assert (H32 : 2 ^ 31 + 2 ^ 31 <= 2 ^ 32) by (vm_compute; discriminate).
      destruct (Z_lt_ge_dec (elapsed + delta) 0) as [Hn | Hp].
      - assert (Z.quot (elapsed + delta) delta <= Z.quot 0 delta)
          by (apply Z.quot_le_mono; lia).
        rewrite Z.quot_0_l in H by lia. lia.
      - rewrite Z.quot_div_nonneg by lia.
        assert ((elapsed + delta) / delta <= elapsed + delta)
          by (apply Z.div_le_upper_bound; nia).
        lia. }
    split; [exact Hb |]. split; [exact Hex |]. split; [| split; [| split]].
    + intros He0. rewrite (Z.quot_div_nonneg elapsed delta) in Hb by lia.
      rewrite (Z.quot_div_nonneg (elapsed + delta) delta) in Hb by lia.
      replace ((elapsed + delta) / delta) with (elapsed / delta + 1) in Hb
        by (replace (elapsed + delta) with (elapsed + 1 * delta) by lia;
            rewrite Z.div_add by lia; reflexivity).
      assert (0 <= elapsed / delta) by (apply Z.div_pos; lia).
      rewrite Hval. destruct (Z.ltb_spec raw 0); lia.
    + intros Hback.
      assert (Z.quot (elapsed + delta) delta <= Z.quot (- delta) delta)
        by (apply Z.quot_le_mono; lia).
      rewrite Z.quot_opp_l, Z.quot_same in H by lia. lia.
    + intros Hsmall. destruct (Z_lt_ge_dec elapsed 0) as [Hn | Hp].
      * assert (Hq : Z.quot elapsed delta = 0).
        { replace elapsed with (- - elapsed) by lia.
          rewrite Z.quot_opp_l by lia. rewrite Z.quot_small by lia. reflexivity. }
        lia.
      * assert (0 <= Z.quot elapsed delta) by (apply Z.quot_pos; lia). lia.
    + subst usteps. apply Z.mod_small. rewrite Hval.
      destruct (Z.ltb_spec raw 0); lia.
  - intros Hr. unfold fade_steps. rewrite <- Hraw. rewrite Hft. simpl.
    destruct (Z.ltb_spec raw 0); [lia | reflexivity].
  - intros Hr. unfold fade_steps. rewrite <- Hraw. rewrite Hft. simpl.
    destruct (Z.ltb_spec raw 0); [f_equal; lia | lia].
  - split; [intros Hlt; subst usteps; apply Z.mod_small; lia |].
    split; [| split].
    + intros Hf. rewrite Hop, Hf. reflexivity.
    + intros Hf. rewrite Hop, Hf. cbn [negb]. split; intros Hcmp.
      * destruct (Z.ltb_spec (opacity w) (opacity_tgt w)); [reflexivity | lia].
      * destruct (Z.ltb_spec (opacity w) (opacity_tgt w)); [lia | reflexivity].
    + split.
      * rewrite Hop. destruct (fade w); cbn [negb]; [| lia].
        destruct (Z.ltb_spec (opacity w) (opacity_tgt w)); nia.
      * intros Hin' Hout'. apply run_fade_in_double; try lia.
        subst usteps. apply Z.mod_pos_bound. lia.
Qed.

(** C2 as stated fails when the clock went back: 45 ms before the last
    step the specification counts [floor(-45 / 10) = -5] steps and moves
    the time of the last step back by 50 ms; [paint_preprocess] takes
    no step and sets the time to [now], whatever the tolerance. *)
Lemma fade_steps_time_disorder :
  fade_time example_session = 100 /\
  fade_steps 0 example_session 55 = (0, 55) /\
  fade_steps 0x1.999999999999ap-3 example_session 55 = (0, 55) /\
  fade_steps_by_spec example_session 55 = (-5, 50).
Proof. vm_compute. repeat split; reflexivity. Qed.

(** With the tolerance 0.2, 8 ms after the last step one step is taken
    already, where the floor of 8 / 10 is 0. *)
Example fade_steps_tolerance :
  fade_steps 0x1.999999999999ap-3 example_session 108 = (1, 110) /\
  fade_steps_by_spec example_session 108 = (0, 100).
Proof. vm_compute. split; reflexivity. Qed.

(** The step count is narrowed to [unsigned]: 2^32 steps after
    42949672960 ms are no step for [run_fade], and the window keeps its
    opacity although the time of the last step has advanced. *)
Example fade_steps_wrap :
  fade_steps 0x1.999999999999ap-3 example_session 42949673060
  = (4294967296, 42949673060) /\
  opacity (snd (run_fade example_session example_fading_win (4294967296 mod 2 ^ 32)))
  = opacity example_fading_win.
Proof. vm_compute. split; reflexivity. Qed.

Lemma fade_tick_moves_opacity_toward_target_witness :
  fade_steps 0x1.999999999999ap-3 example_session 155 = (5, 150) /\
  fade_steps_raw 0x1.999999999999ap-3 example_session 155 = Z.quot (55 + 2) 10 /\
  opacity (snd (run_fade example_session example_fading_win 5)) = 1601295420.
Proof.
  destruct (fade_tick_moves_opacity_toward_target 0x1.999999999999ap-3 example_session 155
              example_fading_win) as (Hraw & Hquot & Hsteps & _ & _ & _ & _ & Hfade & _).
  - vm_compute. discriminate.
  - vm_compute. discriminate.
  - vm_compute. discriminate.
  - vm_compute. split; discriminate.
  - vm_compute. split; discriminate.
  - split; [| split].
    + rewrite Hsteps; [vm_compute; reflexivity | vm_compute; discriminate].
    + rewrite <- Hraw.
      destruct Hquot as (_ & Hex & _).
      * reflexivity.
      * reflexivity.
      * vm_compute. split; [discriminate | reflexivity].
      * vm_compute. split; reflexivity.
      * apply (Hex 2); [lia | reflexivity].
    + destruct Hfade as [Hin _]; [reflexivity |].
      vm_compute in Hin. vm_compute. apply Hin. reflexivity.
Defined.

(** ** The paint decision *)

Lemma map_state_eqb_eq (a b : map_state_t) : map_state_eqb a b = true <-> a = b.
Proof. destruct a, b; simpl; split; intro H; try reflexivity; discriminate. Qed.

Lemma off_screen_test (ps : session_t) (w : win) :
  off_screen ps w
  = (g_x w + g_width w <? 1) || (g_y w + g_height w <? 1)
    || (root_width ps <=? g_x w) || (root_height ps <=? g_y w).
Proof.
  unfold off_screen.
  replace (g_x w + g_width w <=? 0) with (g_x w + g_width w <? 1)
    by (destruct (Z.ltb_spec (g_x w + g_width w) 1), (Z.leb_spec (g_x w + g_width w) 0);
        reflexivity || lia).
  replace (g_y w + g_height w <=? 0) with (g_y w + g_height w <? 1)
    by (destruct (Z.ltb_spec (g_y w + g_height w) 1), (Z.leb_spec (g_y w + g_height w) 0);
        reflexivity || lia).
  reflexivity.
Qed.

Lemma to_paint_decision_unfold (ps : session_t) (w : win) :
  to_paint_decision ps w
  = negb (negb (ever_damaged w)
          || off_screen ps w
          || ((map_state_eqb (a_map_state w) IsUnmapped || destroyed w)
              && (paint_pixmap w =? XNone))
          || (get_alpha_pict_o ps (opacity w) =? nth 0 (alpha_picts ps) XNone)
          || paint_excluded w).
Proof.
  unfold to_paint_decision. rewrite off_screen_test.
  rewrite !orb_assoc.
  destruct (_ || paint_excluded w); reflexivity.
Qed.

Lemma int_of_round_zero_quotient (a : float) :
  PrimFloat.ltb 0 a = true -> int_of_round (PrimFloat.div 0 a) = 0.
Proof.
  intros Ha. unfold int_of_round.
  rewrite FloatAxioms.ltb_spec in Ha. rewrite FloatAxioms.div_spec.
  change (Prim2SF 0) with (S754_zero false) in *.
  destruct (Prim2SF a) as [s | s | | s m e]; try reflexivity.
Qed.

Lemma get_alpha_pict_o_zero (ps : session_t) :
  PrimFloat.ltb 0 (alpha_step (o ps)) = true ->
  get_alpha_pict_o ps 0 = nth 0 (alpha_picts ps) XNone.
Proof.
  intros Ha. unfold get_alpha_pict_o, get_alpha_pict_d.
  change (normalize_d (PrimFloat.div (double_of_uint 0) (double_of_uint OPAQUE)))
    with 0%float.
  rewrite (int_of_round_zero_quotient _ Ha). reflexivity.
Qed.

(** ** The index of the alpha picture *)
Lemma normalize_d_id x :
  nonneg_finite (Prim2SF x) -> (B2R x <= 1)%R -> normalize_d x = x.
Proof.
  intros Hx H1. unfold normalize_d, normalize_d_range.
  destruct (PrimFloat.ltb x 0) eqn:E0.
  - apply (ltb_nonneg x 0 Hx nonneg_finite_zero) in E0. rewrite B2R_zero in E0.
    pose proof (SF2R_nonneg _ Hx). unfold B2R in E0. lra.
  - destruct (PrimFloat.ltb 1 x) eqn:E1; [| reflexivity].
    apply (ltb_nonneg 1 x nonneg_finite_one Hx) in E1. rewrite B2R_one in E1. lra.
Qed.

Lemma in_format_half a :
  pos_finite a -> (F2R 5 (-9) <= SF2R a)%R ->
  exists K k, in_format K k /\ F2R K k = (SF2R a / 2)%R.
Proof.
  intros [V (m & e & ->)] Hlo. cbn [SF2R] in *.
  destruct (valid_in_format _ _ _ V) as [[Hm Hf] _].
  exists (Z.pos m), (e - 1). split.
  - split; [lia |]. rewrite fexp_eq in *.
    destruct (Zdigits2_F2R (Z.pos m) e ltac:(lia)) as [_ U].
    assert (Hb : (bpow (-7) < bpow (Zdigits2 (Z.pos m) + e))%R).
    { assert (bpow (-7) <= F2R 5 (-9))%R; [| lra].
      unfold F2R. replace (-7) with (2 + -9) by lia. rewrite bpow_add.
      pose proof (bpow_pos (-9)). replace (bpow 2) with 4%R by (unfold bpow; simpl; lra). lra. }
    apply bpow_lt_inv in Hb. lia.
  - unfold F2R. replace (e - 1) with (e + -1) by lia. rewrite bpow_add, bpow_m1. lra.
Qed.

(** The index [round(normalize_d(opa / OPAQUE) / a)] of
    [get_alpha_pict_o] for a step [a] in [[0.01, 1]]: it is 0 exactly
    when the quotient in double is below one half, it is 0 when
    [opa * 255 < OPAQUE], and it is not when [opa / OPAQUE] is at least
    half of [a]. *)
Lemma alpha_index_spec (a : float) (opa : Z) :
  PrimFloat.leb 0x1.47ae147ae147bp-7 a = true -> PrimFloat.leb a 1 = true ->
  0 <= opa <= OPAQUE ->
  let q := PrimFloat.div
             (normalize_d (PrimFloat.div (double_of_uint opa) (double_of_uint OPAQUE))) a in
  (int_of_round q = 0 <-> PrimFloat.ltb q 0.5 = true) /\
  0 <= int_of_round q /\
  (opa * 255 < OPAQUE -> int_of_round q = 0) /\
  ((B2R a * IZR OPAQUE <= 2 * IZR opa)%R -> 1 <= int_of_round q).
Proof.
  intros Hlo Hhi Ho.
  destruct (leb_between _ a _ nonneg_finite_hundredth nonneg_finite_one Hlo Hhi)
    as [Ha [Ha1 Ha2]].
  rewrite B2R_one in Ha2. pose proof B2R_hundredth as Hc. rewrite F2R_5_m9 in Hc.
  assert (Hap : pos_finite (Prim2SF a)) by (apply nonneg_pos; [exact Ha | fold (B2R a); lra]).
  unfold OPAQUE in *.
  destruct (double_of_uint_exact opa) as [Hon Hov]; [lia |].
  destruct (double_of_uint_exact 0xffffffff) as [HOn HOv]; [lia |].
  assert (HOp : pos_finite (Prim2SF (double_of_uint 0xffffffff)))
    by (apply double_of_uint_pos; lia).
  assert (Hopa : (0 <= IZR opa <= IZR 0xffffffff)%R) by (split; apply IZR_le; lia).
  assert (HO : (0 < IZR 0xffffffff)%R) by (apply IZR_lt; lia).
  set (x := PrimFloat.div (double_of_uint opa) (double_of_uint 0xffffffff)).
  assert (Hfrac : (0 <= IZR opa / IZR 0xffffffff <= 1)%R).
  { split.
    - apply Rmult_le_pos; [lra | left; apply Rinv_0_lt_compat; exact HO].
    - apply Rmult_le_reg_r with (IZR 0xffffffff); [exact HO |].
      unfold Rdiv. rewrite Rmult_assoc, Rinv_l by lra. lra. }
  assert (H1 : in_format 1 0) by (apply in_format_small; lia).
  assert (Hx : rounds_to (IZR opa / IZR 0xffffffff) (Prim2SF x)).
  { subst x. rewrite <- Hov, <- HOv.
    apply div_rounds with 1 0; try assumption.
    - rewrite F2R_0. apply (IZR_lt_bpow 1 1024); lia.
    - rewrite Hov, HOv, F2R_0. lra. }
  assert (Hxn : nonneg_finite (Prim2SF x)) by exact (rounds_to_nonneg_finite _ _ Hx).
  assert (Hx1 : (B2R x <= 1)%R).
  { pose proof (rounds_to_le _ _ 1 0 Hx H1) as H. rewrite F2R_0 in H. apply H. lra. }
  assert (Hx0 : (0 <= B2R x)%R) by (apply SF2R_nonneg; exact Hxn).
  rewrite (normalize_d_id x Hxn Hx1). cbv zeta.
  set (q := PrimFloat.div x a).
  assert (Hinv : (0 < / B2R a)%R) by (apply Rinv_0_lt_compat; lra).
  assert (Hxa : (0 <= B2R x / B2R a <= 128)%R).
  { split.
    - apply Rmult_le_pos; lra.
    - apply Rmult_le_reg_r with (B2R a); [lra |].
      unfold Rdiv. rewrite Rmult_assoc, Rinv_l by lra. nra. }
  assert (H128 : in_format 128 0) by (apply in_format_small; lia).
  assert (Hq : rounds_to (B2R x / B2R a) (Prim2SF q)).
  { subst q. apply div_rounds with 128 0; try assumption.
    - rewrite F2R_0. apply (IZR_lt_bpow 128 1024); [lia |].
      apply Z.lt_trans with (2 ^ 8); [lia | apply Z.pow_lt_mono_r; lia].
    - rewrite F2R_0. lra. }
  assert (Hqn : nonneg_finite (Prim2SF q)) by exact (rounds_to_nonneg_finite _ _ Hq).
  split; [| split; [| split]].
  - rewrite (int_of_round_zero_iff q Hqn), (ltb_nonneg q _ Hqn nonneg_finite_half), B2R_half.
    reflexivity.
  - apply int_of_round_nonneg, Hqn.
  - intros Hfaint. apply (int_of_round_zero_iff q Hqn).
    assert (H33 : in_format 33 (-13)) by (apply in_format_small; lia).
    assert (E33 : F2R 33 (-13) = (33 / 8192)%R) by (unfold F2R, bpow, powerRZ; simpl; lra).
    assert (Hxs : (B2R x <= 33 / 8192)%R).
    { rewrite <- E33. apply (rounds_to_le _ _ 33 (-13) Hx H33). rewrite E33.
      apply Rmult_le_reg_r with (IZR 0xffffffff); [exact HO |].
      unfold Rdiv at 1. rewrite Rmult_assoc, Rinv_l by lra.
      assert (opa <= 16843008) by lia. apply IZR_le in H. lra. }
    assert (H7 : in_format 7 (-4)) by (apply in_format_small; lia).
    assert (E7 : F2R 7 (-4) = (7 / 16)%R) by (unfold F2R, bpow, powerRZ; simpl; lra).
    assert (Hqs : (B2R q <= 7 / 16)%R).
    { rewrite <- E7. apply (rounds_to_le _ _ 7 (-4) Hq H7). rewrite E7.
      apply Rmult_le_reg_r with (B2R a); [lra |].
      unfold Rdiv at 1. rewrite Rmult_assoc, Rinv_l by lra. lra. }
    lra.
  - intros Hbig.
    assert (int_of_round q <> 0); [| pose proof (int_of_round_nonneg q Hqn); lia].
    rewrite (int_of_round_zero_iff q Hqn).
    destruct (in_format_half (Prim2SF a) Hap) as (K & k & HK & EK);
      [rewrite F2R_5_m9; fold (B2R a); lra |].
    fold (B2R a) in EK.
    assert (Hxh : (B2R a / 2 <= B2R x)%R).
    { rewrite <- EK. apply (rounds_to_ge _ _ K k Hx HK). rewrite EK.
      apply Rmult_le_reg_r with (IZR 0xffffffff); [exact HO |].
      unfold Rdiv at 2. rewrite Rmult_assoc, Rinv_l by lra. lra. }
    assert (Hh : in_format 1 (-1)) by (apply in_format_small; lia).
    assert (Eh : F2R 1 (-1) = (1 / 2)%R) by (unfold F2R; rewrite bpow_m1; lra).
    assert (Hqh : (1 / 2 <= B2R q)%R).
    { rewrite <- Eh. apply (rounds_to_ge _ _ 1 (-1) Hq Hh). rewrite Eh.
      apply Rmult_le_reg_r with (B2R a); [lra |].
      unfold Rdiv at 2. rewrite Rmult_assoc, Rinv_l by lra. lra. }
    lra.
Qed.

(** Whether the alpha picture chosen is [alpha_picts[0]], from the
    index, when no other picture of the array is that picture. *)
Lemma alpha_pict_first (ps : session_t) (idx : Z) :
  0 <= idx ->
  (forall i, (0 < i)%nat -> nth i (alpha_picts ps) XNone <> nth 0 (alpha_picts ps) XNone) ->
  (nth (Z.to_nat idx) (alpha_picts ps) XNone = nth 0 (alpha_picts ps) XNone <-> idx = 0).
Proof.
  intros Hidx Hdiff. split.
  - intros E. destruct (Z.eq_dec idx 0) as [E0 | NE]; [exact E0 |].
    exfalso. apply (Hdiff (Z.to_nat idx)); [lia | exact E].
  - intros ->. reflexivity.
Qed.

(** C5 (amended).  On every preprocess pass [to_paint] is decided false
    exactly when one of these holds: the window was never damaged, its
    geometry is entirely off-screen, it is unmapped or destroyed
    without a pixmap, the alpha picture chosen for its opacity is
    [alpha_picts[0]], or it is excluded by a paint rule.  The alpha
    picture chosen is the one at the index [round(q)], [q] being the
    quotient in double of the opacity fraction [opacity / OPAQUE] by
    [alpha_step].  With [alpha_step] in [[0.01, 1]], where the option
    parser clamps it, the index is 0 exactly when [q] is below one
    half; it is 0 for every window with [opacity * 255 < OPAQUE] (the
    fraction times 255 is below 1), which is therefore not painted,
    and it is at least 1 when the fraction is at least half of
    [alpha_step]; when no other picture of the array is
    [alpha_picts[0]], index 0 is the only one that stops the painting.
    In particular a window that is off-screen is not painted whatever
    its opacity, and one with opacity 0 is not painted.  [off_screen]
    says what it should: for a window and a screen that are not empty,
    no point of the window is on the screen. *)
Theorem to_paint_decided :
  forall (ps : session_t) (w : win),
    let a := alpha_step (o ps) in
    let q := PrimFloat.div
               (normalize_d
                  (PrimFloat.div (double_of_uint (opacity w)) (double_of_uint OPAQUE)))
               a in
    (to_paint_decision ps w = false <->
     ever_damaged w = false
     \/ off_screen ps w = true
     \/ ((a_map_state w = IsUnmapped \/ destroyed w = true) /\ paint_pixmap w = XNone)
     \/ get_alpha_pict_o ps (opacity w) = nth 0 (alpha_picts ps) XNone
     \/ paint_excluded w = true) /\
    (off_screen ps w = true -> to_paint_decision ps w = false) /\
    (PrimFloat.ltb 0 a = true -> opacity w = 0 ->
     to_paint_decision ps w = false) /\
    (0 < g_width w -> 0 < g_height w -> 0 < root_width ps -> 0 < root_height ps ->
     (off_screen ps w = true <->
      forall px py,
        g_x w <= px < g_x w + g_width w ->
        g_y w <= py < g_y w + g_height w ->
        ~ (0 <= px < root_width ps /\ 0 <= py < root_height ps))) /\
    get_alpha_pict_o ps (opacity w)
    = nth (Z.to_nat (int_of_round q)) (alpha_picts ps) XNone /\
    (PrimFloat.leb 0x1.47ae147ae147bp-7 a = true -> PrimFloat.leb a 1 = true ->
     0 <= opacity w <= OPAQUE ->
     0 <= int_of_round q /\
     (int_of_round q = 0 <-> PrimFloat.ltb q 0x1p-1 = true) /\
     (opacity w * 255 < OPAQUE ->
      int_of_round q = 0 /\ to_paint_decision ps w = false) /\
     ((B2R a * IZR OPAQUE <= 2 * IZR (opacity w))%R -> 1 <= int_of_round q) /\
     ((forall i, (0 < i)%nat ->
                 nth i (alpha_picts ps) XNone <> nth 0 (alpha_picts ps) XNone) ->
      (get_alpha_pict_o ps (opacity w) = nth 0 (alpha_picts ps) XNone
       <-> int_of_round q = 0) /\
      (to_paint_decision ps w = false <->
       ever_damaged w = false
       \/ off_screen ps w = true
       \/ ((a_map_state w = IsUnmapped \/ destroyed w = true) /\ paint_pixmap w = XNone)
       \/ int_of_round q = 0
       \/ paint_excluded w = true))).
Proof.
  intros ps w a q.
  assert (Hiff : to_paint_decision ps w = false <->
                 ever_damaged w = false
                 \/ off_screen ps w = true
                 \/ ((a_map_state w = IsUnmapped \/ destroyed w = true)
                     /\ paint_pixmap w = XNone)
                 \/ get_alpha_pict_o ps (opacity w) = nth 0 (alpha_picts ps) XNone
                 \/ paint_excluded w = true).
  { rewrite to_paint_decision_unfold, negb_false_iff, !orb_true_iff, andb_true_iff,
      orb_true_iff, negb_true_iff, map_state_eqb_eq, !Z.eqb_eq.
    tauto. }
  assert (Hidx : get_alpha_pict_o ps (opacity w)
                 = nth (Z.to_nat (int_of_round q)) (alpha_picts ps) XNone) by reflexivity.
  split; [exact Hiff |]. split; [| split; [| split; [| split; [exact Hidx |]]]].
  - intros Hoff. rewrite to_paint_decision_unfold, Hoff, orb_true_r. reflexivity.
  - intros Ha Hz. rewrite to_paint_decision_unfold, Hz, (get_alpha_pict_o_zero ps Ha).
    rewrite Z.eqb_refl, orb_true_r. reflexivity.
  - intros Hw Hh HW HH. unfold off_screen.
    rewrite !orb_true_iff, !Z.leb_le. split.
    + intros Hoff px py Hx Hy [Hpx Hpy]. lia.
    + intros Hno.
      destruct (Z_le_gt_dec (g_x w + g_width w) 0) as [H1 | H1]; [tauto |].
      destruct (Z_le_gt_dec (g_y w + g_height w) 0) as [H2 | H2]; [tauto |].
      destruct (Z_le_gt_dec (root_width ps) (g_x w)) as [H3 | H3]; [tauto |].
      destruct (Z_le_gt_dec (root_height ps) (g_y w)) as [H4 | H4]; [tauto |].
      exfalso. apply (Hno (Z.max (g_x w) 0) (Z.max (g_y w) 0)); lia.
  - intros Hlo Hhi Ho.
    destruct (alpha_index_spec a (opacity w) Hlo Hhi Ho) as (Hhalf & Hnn & Hfaint & Hbig).
    fold q in Hhalf, Hnn, Hfaint, Hbig.
    split; [exact Hnn |]. split; [exact Hhalf |]. split; [| split; [exact Hbig |]].
    + intros Hf. specialize (Hfaint Hf). split; [exact Hfaint |].
      apply Hiff. right. right. right. left. rewrite Hidx, Hfaint. reflexivity.
    + intros Hdiff.
      pose proof (alpha_pict_first ps (int_of_round q) Hnn Hdiff) as Hfirst.
      rewrite <- Hidx in Hfirst. split; [exact Hfirst |].
      rewrite Hiff, Hfirst. reflexivity.
Qed.

(** The pictures of the example session differ from the first one. *)
Lemma example_alpha_picts_differ :
  forall i, (0 < i)%nat ->
            nth i (alpha_picts example_session) XNone
            <> nth 0 (alpha_picts example_session) XNone.
Proof.
  intros i Hi. destruct i as [| i]; [lia |].
  do 40 (destruct i as [| i]; [vm_compute; discriminate |]).
  vm_compute. destruct i; discriminate.
Qed.

(** With the default [alpha_step] of 0.03, a window at the opacity
    16843008, the largest with [opacity * 255 < OPAQUE], is not
    painted, and one at 3% is: its index is 1. *)
Lemma to_paint_decided_witness :
  to_paint_decision example_session
    (example_win 0 16 10 10 100 100 false 16843008 16843008) = false /\
  to_paint_decision example_session
    (example_win 0 16 10 10 100 100 false 128849018 128849018) = true.
Proof.
  split.
  - destruct (to_paint_decided example_session
                (example_win 0 16 10 10 100 100 false 16843008 16843008))
      as (_ & _ & _ & _ & _ & H).
    destruct H as (_ & _ & Hfaint & _).
    + reflexivity.
    + reflexivity.
    + vm_compute. split; discriminate.
    + apply Hfaint. reflexivity.
  - destruct (to_paint_decided example_session
                (example_win 0 16 10 10 100 100 false 128849018 128849018))
      as (_ & _ & _ & _ & _ & H).
    destruct H as (_ & _ & _ & _ & Hexact).
    + reflexivity.
    + reflexivity.
    + vm_compute. split; discriminate.
    + destruct (Hexact example_alpha_picts_differ) as [_ Hpaint].
      apply not_false_is_true. intros E. apply Hpaint in E. vm_compute in E.
      destruct E as [E | [E | [[_ E] | [E | E]]]]; discriminate.
Defined.

(** C5 as stated fails for a window at 1% opacity: 0.01 * 255 is not
    below 1 and none of the other conditions holds, but with the
    default [alpha_step] of 0.03 the opacity rounds to step 0 and the
    window is not painted. *)
Lemma faint_window_not_painted :
  to_paint_decision example_session example_faint_win = false /\
  not_painted_by_spec example_session example_faint_win = false /\
  (opacity example_faint_win * 255 <? OPAQUE) = false /\
  get_alpha_pict_o example_session (opacity example_faint_win)
  = nth 0 (alpha_picts example_session) XNone.
Proof. vm_compute. repeat split; reflexivity. Qed.

(** ** Restacking *)

Lemma find_above_missing (new_above : Window) (l : list win) :
  forallb (fun n => negb (id n =? new_above) || destroyed n) l = true ->
  snd (find_above new_above l) = false.
Proof.
  induction l as [| n l IH]; simpl; [reflexivity |].
  rewrite andb_true_iff. intros [Hn Hl].
  destruct (id n =? new_above); simpl in *.
  - rewrite Hn. simpl. destruct (find_above new_above l). simpl in *. auto.
  - destruct (find_above new_above l). simpl in *. auto.
Qed.

Section RestackProofs.

Variable update_reg_ignore_expire : session_t -> win -> bool.

Local Abbreviation restack_win := (Compton.restack_win update_reg_ignore_expire).

(** C7 (amended).  For a window [w] of the stack and a nonzero
    [new_above] that no window of the stack that is not destroyed has
    as its id, [restack_win] leaves the stack as it is, and it reports
    the failure unless the window just below [w] has that id (a
    destroyed one, then): in that case it returns without a report.
    When [new_above] is the id of the window just below [w] ([None] at
    the bottom), the call changes nothing in the stack and reports
    nothing. *)
Theorem restack_win_missing_above :
  forall (ps : session_t) (p : nat) (w : win) (new_above : Window),
    nth_error (ps_list ps) (index_of p (ps_list ps)) = Some w ->
    (new_above <> 0 ->
     forallb (fun n => negb (id n =? new_above) || destroyed n) (ps_list ps) = true ->
     ps_list (fst (restack_win ps p new_above)) = ps_list ps /\
     snd (restack_win ps p new_above) = negb (old_above ps p =? new_above)) /\
    (old_above ps p = new_above ->
     ps_list (fst (restack_win ps p new_above)) = ps_list ps /\
     snd (restack_win ps p new_above) = false).
Proof.
  intros ps p w new_above Hw. unfold Compton.restack_win. rewrite Hw.
  change (old_above (set_reg_ignore_expire (update_reg_ignore_expire ps w) ps) p) with (old_above ps p). cbn [ps_list set_reg_ignore_expire]. split.
  - intros Hnz Hmiss. apply find_above_missing in Hmiss.
    destruct (old_above ps p =? new_above); cbn [negb]; [split; reflexivity |].
    destruct (find_above new_above (ps_list ps)) as [prev found]. simpl in Hmiss.
    subst found. apply Z.eqb_neq in Hnz. rewrite Hnz. cbn. split; reflexivity.
  - intros Heq. apply Z.eqb_eq in Heq. rewrite Heq. cbn. split; reflexivity.
Qed.

End RestackProofs.

(** C7 as stated fails when the destroyed window is the one just below
    [w]: the window 5 is destroyed and no other window has the id 5,
    and restacking the window 1 above 5 reports nothing. *)
Lemma restack_win_destroyed_neighbour_unreported :
  forallb (fun n => negb (id n =? 5) || destroyed n) (ps_list example_stack) = true /\
  old_above example_stack 0 = 5 /\
  restack_win example_update_reg_ignore_expire example_stack 0 5
  = (set_reg_ignore_expire true example_stack, false).
Proof. vm_compute. repeat split; reflexivity. Qed.

Lemma restack_win_missing_above_witness :
  ps_list (fst (restack_win example_update_reg_ignore_expire example_stack 2 5))
  = ps_list example_stack /\
  snd (restack_win example_update_reg_ignore_expire example_stack 2 5) = true.
Proof.
  destruct (restack_win_missing_above example_update_reg_ignore_expire example_stack 2
              (example_win 2 7 10 10 100 100 false OPAQUE OPAQUE) 5) as [Hmiss _].
  - reflexivity.
  - destruct Hmiss as [Hstack Hreport].
    + discriminate.
    + reflexivity.
    + split; [exact Hstack | rewrite Hreport; reflexivity].
Defined.

(** Restacking moves the node otherwise: above a window found, or to
    the bottom for [None]. *)
Example restack_win_moves :
  map id (ps_list (fst (restack_win example_update_reg_ignore_expire example_stack 0 9)))
  = [5; 7; 1; 9] /\
  map id (ps_list (fst (restack_win example_update_reg_ignore_expire example_stack 0 0)))
  = [5; 7; 9; 1].
Proof. vm_compute. split; reflexivity. Qed.

(** ** Background blur *)

Lemma SFmul_comm prec emax x y :
  SpecFloat.SFmul prec emax x y = SpecFloat.SFmul prec emax y x.
Proof.
  destruct x as [sx | sx | | sx mx ex], y as [sy | sy | | sy my ey]; simpl;
    rewrite ?(xorb_comm sx sy); try reflexivity.
  rewrite (Pos.mul_comm mx my), (Z.add_comm ex ey). reflexivity.
Qed.

Lemma float_mul_comm (x y : float) : PrimFloat.mul x y = PrimFloat.mul y x.
Proof. apply FloatAxioms.Prim2SF_inj. rewrite !FloatAxioms.mul_spec. apply SFmul_comm. Qed.

Section BlurProofs.

Variable get_opacity_percent : win -> float.
Variable DOUBLE_TO_XFIXED : float -> Z.
Variable XFIXED_TO_DOUBLE : Z -> float.
Variable normalize_conv_kern : Z -> Z -> list Z -> list Z.

Local Abbreviation factor_center := (Compton.factor_center get_opacity_percent).
Local Abbreviation factor_center_by_spec := (Compton.factor_center_by_spec get_opacity_percent).
Local Abbreviation blur_kern_prepare :=
  (Compton.blur_kern_prepare get_opacity_percent DOUBLE_TO_XFIXED XFIXED_TO_DOUBLE
     normalize_conv_kern).

(** C8.  With [blur_background_fixed] unset the factor of the center is
    [8 * p / (1.1 - p)] for [p = 1 - opacity * (1 - 1/9)], in double
    arithmetic, and with it set the factor is 1; the factor is written
    to the center of the kernel, at [2 + (khei / 2) * kwid + kwid / 2],
    and the copy that is normalized is taken from the kernel with the
    center already set. *)
Theorem blur_center_weight :
  forall (ps : session_t) (w : win) (kern_src : list Z) (kern_dst : option (list Z)),
    let kwid := long_of_double (XFIXED_TO_DOUBLE (nth 0 kern_src 0)) in
    let khei := long_of_double (XFIXED_TO_DOUBLE (nth 1 kern_src 0)) in
    let center := Z.to_nat (2 + Z.quot khei 2 * kwid + Z.quot kwid 2) in
    let kern_src' := fst (blur_kern_prepare ps w kern_src kern_dst) in
    let copied := firstn (Z.to_nat (kwid * khei + 2)) kern_src' in
    factor_center ps w = factor_center_by_spec ps w /\
    (blur_background_fixed (o ps) = true -> factor_center ps w = 1%float) /\
    (blur_background_fixed (o ps) = false \/ kern_dst = None ->
     (center < length kern_src)%nat ->
     nth_error kern_src' center = Some (DOUBLE_TO_XFIXED (factor_center ps w)) /\
     snd (blur_kern_prepare ps w kern_src kern_dst)
     = Some (firstn 2 copied ++ normalize_conv_kern kwid khei (skipn 2 copied))).
Proof.
  intros ps w kern_src kern_dst kwid khei center kern_src' copied.
  split; [| split].
  - unfold Compton.factor_center, Compton.factor_center_by_spec.
    destruct (blur_background_fixed (o ps)); cbn [negb]; [reflexivity |].
    rewrite (float_mul_comm 8). reflexivity.
  - intros Hfixed. unfold Compton.factor_center. rewrite Hfixed. reflexivity.
  - intros Hrun Hcenter.
    assert (Hprep :
      blur_kern_prepare ps w kern_src kern_dst
      = (firstn center kern_src
           ++ DOUBLE_TO_XFIXED (factor_center ps w) :: skipn (S center) kern_src,
         Some (firstn 2 (firstn (Z.to_nat (kwid * khei + 2))
                 (firstn center kern_src
                  ++ DOUBLE_TO_XFIXED (factor_center ps w) :: skipn (S center) kern_src))
               ++ normalize_conv_kern kwid khei
                    (skipn 2 (firstn (Z.to_nat (kwid * khei + 2))
                       (firstn center kern_src
                        ++ DOUBLE_TO_XFIXED (factor_center ps w)
                           :: skipn (S center) kern_src)))))).
    { unfold Compton.blur_kern_prepare.
      destruct Hrun as [Hf | Hn]; [rewrite Hf | rewrite Hn];
        destruct (blur_background_fixed (o ps)); try destruct kern_dst; reflexivity. }
    subst copied kern_src'. rewrite Hprep. cbn [fst snd]. split; [| reflexivity].
    rewrite nth_error_app2 by (rewrite length_firstn; lia).
    rewrite length_firstn, Nat.min_l by lia. rewrite Nat.sub_diag. reflexivity.
Qed.

End BlurProofs.

(** A 3x3 kernel for a window at 100%: the center gets 0.8988... in
    fixed point, in the kernel and in the copy. *)
Example blur_kern_prepare_example :
  blur_kern_prepare example_percent example_to_xfixed example_to_double example_normalize
    example_session example_faint_win example_kernel None
  = ([196608; 196608; 65536; 65536; 65536; 65536; 58908; 65536; 65536; 65536; 65536],
     Some [196608; 196608; 65536; 65536; 65536; 65536; 58908; 65536; 65536; 65536; 65536]).
Proof. vm_compute. reflexivity. Qed.

(** ** Redirection, the unredirect timeout and painting *)

Lemma same_ctl_refl (ps : session_t) : same_ctl ps ps.
Proof. repeat split. Qed.

Lemma same_ctl_trans (a b c : session_t) : same_ctl a b -> same_ctl b c -> same_ctl a c.
Proof.
  unfold same_ctl. intros (H1 & H2 & H3 & H4 & H5 & H6 & H7) (K1 & K2 & K3 & K4 & K5 & K6 & K7).
  repeat split; congruence.
Qed.

Lemma add_damage_ctl (ps : session_t) (d : option region) : same_ctl ps (add_damage ps d).
Proof.
  unfold add_damage.
  destruct (negb (redirected ps)), d, (all_damage ps); repeat split.
Qed.

Lemma add_damage_unredirected (ps : session_t) (d : option region) :
  redirected ps = false -> add_damage ps d = ps.
Proof. intros H. unfold add_damage. rewrite H. reflexivity. Qed.

Lemma run_fade_ctl (ps : session_t) (w : win) (steps : Z) :
  same_ctl ps (fst (run_fade ps w steps)).
Proof.
  unfold run_fade. destruct (opacity w =? opacity_tgt w); [apply same_ctl_refl |].
  cbv zeta. cbn [fst]. destruct (negb (_ =? _)); repeat split.
Qed.

Section RedirectProofs.

Variable FADE_DELTA_TOLERANCE : float.
Variable win_calc_opacity : session_t -> win -> win.
Variable win_determine_mode : session_t -> win -> win.
Variable win_has_frame : win -> bool.
Variable win_is_solid : session_t -> win -> bool.
Variable win_is_fullscreen : session_t -> win -> bool.
Variable get_opacity_percent : win -> float.
Variable WFLAG_OPCT_CHANGE : Z.
Variable win_extents : win -> option region.
Variable update_reg_ignore_expire : session_t -> win -> bool.
Variable free_wpaint : session_t -> win -> win.
Variable win_determine_fade : session_t -> win -> win.
Variable resize_region : region -> Z -> region.
Variable win_paint_win : session_t -> win -> win.
Variable timeout_get_newrun : Z -> Z -> Z -> Z.
Variable TIMEOUT_RUN_TOLERANCE : float.

Local Abbreviation finish_unmap_win := (Compton.finish_unmap_win update_reg_ignore_expire free_wpaint).
Local Abbreviation run_fade_callback :=
  (Compton.run_fade_callback update_reg_ignore_expire free_wpaint win_determine_fade).
Local Abbreviation set_fade_callback :=
  (Compton.set_fade_callback update_reg_ignore_expire free_wpaint win_determine_fade).
Local Abbreviation check_fade_fin :=
  (Compton.check_fade_fin update_reg_ignore_expire free_wpaint win_determine_fade).
Local Abbreviation preprocess_decide :=
  (Compton.preprocess_decide win_calc_opacity win_determine_mode win_has_frame
     get_opacity_percent WFLAG_OPCT_CHANGE win_extents).
Local Abbreviation unredir_condition :=
  (Compton.unredir_condition win_has_frame win_is_solid win_is_fullscreen).
Local Abbreviation preprocess_win :=
  (Compton.preprocess_win win_calc_opacity win_determine_mode win_has_frame win_is_solid
     win_is_fullscreen get_opacity_percent WFLAG_OPCT_CHANGE win_extents
     update_reg_ignore_expire free_wpaint win_determine_fade).
Local Abbreviation preprocess_loop :=
  (Compton.preprocess_loop win_calc_opacity win_determine_mode win_has_frame win_is_solid
     win_is_fullscreen get_opacity_percent WFLAG_OPCT_CHANGE win_extents
     update_reg_ignore_expire free_wpaint win_determine_fade).
Local Abbreviation paint_preprocess :=
  (Compton.paint_preprocess FADE_DELTA_TOLERANCE win_calc_opacity win_determine_mode
     win_has_frame win_is_solid win_is_fullscreen get_opacity_percent WFLAG_OPCT_CHANGE
     win_extents update_reg_ignore_expire free_wpaint win_determine_fade).
Local Abbreviation topmost_painted :=
  (Compton.topmost_painted win_calc_opacity win_determine_mode win_has_frame
     get_opacity_percent WFLAG_OPCT_CHANGE win_extents
     update_reg_ignore_expire free_wpaint win_determine_fade).
Local Abbreviation unredir_condition_found :=
  (Compton.unredir_condition_found FADE_DELTA_TOLERANCE win_calc_opacity win_determine_mode
     win_has_frame win_is_solid win_is_fullscreen get_opacity_percent WFLAG_OPCT_CHANGE
     win_extents update_reg_ignore_expire free_wpaint win_determine_fade).
Local Abbreviation nothing_to_paint :=
  (Compton.nothing_to_paint FADE_DELTA_TOLERANCE win_calc_opacity win_determine_mode
     win_has_frame get_opacity_percent WFLAG_OPCT_CHANGE
     win_extents update_reg_ignore_expire free_wpaint win_determine_fade).
Local Abbreviation paint_all :=
  (Compton.paint_all update_reg_ignore_expire free_wpaint win_determine_fade win_paint_win).
Local Abbreviation mainloop := (Compton.mainloop timeout_get_newrun TIMEOUT_RUN_TOLERANCE).
Local Abbreviation session_run_first :=
  (Compton.session_run_first FADE_DELTA_TOLERANCE win_calc_opacity win_determine_mode
     win_has_frame win_is_solid win_is_fullscreen get_opacity_percent WFLAG_OPCT_CHANGE
     win_extents update_reg_ignore_expire free_wpaint win_determine_fade win_paint_win).
Local Abbreviation session_run_paint :=
  (Compton.session_run_paint FADE_DELTA_TOLERANCE win_calc_opacity win_determine_mode
     win_has_frame win_is_solid win_is_fullscreen get_opacity_percent WFLAG_OPCT_CHANGE
     win_extents update_reg_ignore_expire free_wpaint win_determine_fade resize_region
     win_paint_win).
Local Abbreviation session_run_iter :=
  (Compton.session_run_iter FADE_DELTA_TOLERANCE win_calc_opacity win_determine_mode
     win_has_frame win_is_solid win_is_fullscreen get_opacity_percent WFLAG_OPCT_CHANGE
     win_extents update_reg_ignore_expire free_wpaint win_determine_fade resize_region
     win_paint_win timeout_get_newrun TIMEOUT_RUN_TOLERANCE).
Local Abbreviation session_run :=
  (Compton.session_run FADE_DELTA_TOLERANCE win_calc_opacity win_determine_mode
     win_has_frame win_is_solid win_is_fullscreen get_opacity_percent WFLAG_OPCT_CHANGE
     win_extents update_reg_ignore_expire free_wpaint win_determine_fade resize_region
     win_paint_win timeout_get_newrun TIMEOUT_RUN_TOLERANCE).
Local Abbreviation session_run_events :=
  (Compton.session_run_events timeout_get_newrun TIMEOUT_RUN_TOLERANCE).
Local Abbreviation session_run_pass :=
  (Compton.session_run_pass FADE_DELTA_TOLERANCE win_calc_opacity win_determine_mode
     win_has_frame win_is_solid win_is_fullscreen get_opacity_percent WFLAG_OPCT_CHANGE
     win_extents update_reg_ignore_expire free_wpaint win_determine_fade
     timeout_get_newrun TIMEOUT_RUN_TOLERANCE).
Local Abbreviation timeout_run := (Compton.timeout_run timeout_get_newrun TIMEOUT_RUN_TOLERANCE).
Local Abbreviation tmout_unredir_due :=
  (Compton.tmout_unredir_due timeout_get_newrun TIMEOUT_RUN_TOLERANCE).

Lemma touched_trans (a b c : session_t) : touched a b -> touched b c -> touched a c.
Proof.
  intros Hab Hbc. induction Hbc; [exact Hab | | | |]; constructor; assumption.
Qed.

Lemma touched_ite (a x y : session_t) (c : bool) :
  touched a x -> touched a y -> touched a (if c then x else y).
Proof. destruct c; auto. Qed.

Lemma touched_ctl (ps ps' : session_t) : touched ps ps' -> same_ctl ps ps'.
Proof.
  induction 1 as [| ps' v _ IH | ps' v _ IH | ps' d _ IH | ps' l _ IH];
    [apply same_ctl_refl | | | |];
    (eapply same_ctl_trans; [exact IH |]); [| | apply add_damage_ctl |]; repeat split.
Qed.

Ltac touch :=
  repeat first
    [ assumption
    | apply touched_refl
    | apply touched_ite
    | apply touched_idling
    | apply touched_expire
    | apply touched_damage
    | apply touched_list ].

Lemma run_fade_touched (ps : session_t) (w : win) (steps : Z) :
  touched ps (fst (run_fade ps w steps)).
Proof.
  unfold run_fade. destruct (opacity w =? opacity_tgt w); cbv zeta; cbn [fst]; touch.
Qed.

Lemma finish_unmap_win_touched (ps : session_t) (w : win) :
  touched ps (fst (finish_unmap_win ps w)).
Proof.
  unfold Compton.finish_unmap_win. cbv zeta.
  destruct (extents _); cbn [fst]; touch.
Qed.

Lemma run_fade_callback_touched (cb : fade_callback_t) (ps : session_t) (w : win) :
  touched ps (fst (run_fade_callback cb ps w)).
Proof.
  pose proof (finish_unmap_win_touched ps w) as Hu.
  destruct cb; cbn [Compton.run_fade_callback].
  - unfold Compton.finish_map_win. cbv zeta. cbn [fst]. touch.
  - unfold Compton.unmap_callback. destruct (finish_unmap_win ps w). exact Hu.
  - unfold Compton.destroy_callback, Compton.finish_destroy_win.
    destruct (finish_unmap_win ps w). exact Hu.
Qed.

Lemma set_fade_callback_touched (ps : session_t) (w : win) (cb : option fade_callback_t)
  (exec : bool) :
  touched ps (fst (set_fade_callback ps w cb exec)).
Proof.
  unfold Compton.set_fade_callback. cbv zeta.
  destruct (fade_callback w) as [old |]; [| cbn [fst]; touch].
  destruct exec; [| cbn [fst]; touch].
  pose proof (run_fade_callback_touched old ps (with_fade_callback cb w)) as H.
  destruct (run_fade_callback old ps (with_fade_callback cb w)). cbn [fst] in *. touch.
Qed.

Lemma check_fade_fin_touched (ps : session_t) (w : win) :
  touched ps (fst (check_fade_fin ps w)).
Proof.
  unfold Compton.check_fade_fin.
  destruct (fade_callback w); [| cbn [fst]; touch].
  destruct (opacity w =? opacity_tgt w); [| cbn [fst]; touch].
  apply set_fade_callback_touched.
Qed.

Lemma preprocess_frame_touched (ps : session_t) (m : winmode_t) (w : win) :
  touched ps (fst (Compton.preprocess_frame win_has_frame get_opacity_percent win_extents ps m w)).
Proof. unfold Compton.preprocess_frame. cbv zeta. cbn [fst]. touch. Qed.

Lemma preprocess_damage_touched (ps : session_t) (b : bool) (op : Z) (m : winmode_t) (w : win) :
  touched ps (Compton.preprocess_damage win_extents ps b op m w).
Proof. unfold Compton.preprocess_damage, Compton.add_damage_from_win. cbv zeta. touch. Qed.

Lemma preprocess_decide_touched (ps : session_t) (steps : Z) (w : win) :
  touched ps (fst (fst (preprocess_decide ps steps w))).
Proof.
  unfold Compton.preprocess_decide. cbv zeta.
  match goal with
  | |- context [run_fade ps ?x ?y] =>
      pose proof (run_fade_touched ps x y) as Hrf; destruct (run_fade ps x y) as [ps1 w1]
  end.
  cbn [fst] in Hrf.
  destruct (to_paint_decision ps1 w1).
  - match goal with
    | |- context [Compton.preprocess_frame _ _ _ ps1 ?m ?x] =>
        pose proof (preprocess_frame_touched ps1 m x) as Hfr;
          destruct (Compton.preprocess_frame win_has_frame get_opacity_percent win_extents
                      ps1 m x) as [ps2 w2]
    end.
    cbn [fst] in *.
    eapply touched_trans; [exact Hrf |].
    eapply touched_trans; [exact Hfr |]. apply preprocess_damage_touched.
  - cbn [fst]. eapply touched_trans; [exact Hrf |]. apply preprocess_damage_touched.
Qed.

Lemma preprocess_win_touched (ps : session_t) (steps : Z) (w : win) (st : loop_t) :
  touched ps (fst (fst (fst (preprocess_win ps steps w st)))).
Proof.
  unfold Compton.preprocess_win.
  pose proof (preprocess_decide_touched ps steps w) as Hd.
  destruct (preprocess_decide ps steps w) as [[ps1 w1] b]. cbn [fst] in Hd.
  destruct b; cbv zeta; cbn [fst]; [exact Hd |].
  pose proof (check_fade_fin_touched ps1 w1) as Hcf.
  destruct (check_fade_fin ps1 w1) as [ps3 ow]. cbn [fst] in *.
  eapply touched_trans; eassumption.
Qed.

Lemma preprocess_loop_touched (l : list win) (ps : session_t) (steps : Z) (st : loop_t) :
  touched ps (fst (fst (preprocess_loop ps steps l st))).
Proof.
  revert ps st. induction l as [| w l IH]; intros ps st; cbn [Compton.preprocess_loop].
  - apply touched_refl.
  - pose proof (preprocess_win_touched ps steps w st) as Hw.
    destruct (preprocess_win ps steps w st) as [[[ps1 ow] st1] b]. cbn [fst] in Hw.
    pose proof (IH ps1 st1) as Hl.
    destruct (preprocess_loop ps1 steps l st1) as [[ps2 l2] st2]. cbn [fst] in *.
    eapply touched_trans; eassumption.
Qed.

Lemma preprocess_loop_ctl (l : list win) (ps : session_t) (steps : Z) (st : loop_t) :
  same_ctl ps (fst (fst (preprocess_loop ps steps l st))).
Proof. apply touched_ctl, preprocess_loop_touched. Qed.

Lemma at_win_touched (f : session_t -> win -> session_t * option win) :
  (forall ps w, touched ps (fst (f ps w))) ->
  forall ps p, touched ps (Compton.at_win f ps p).
Proof.
  intros Hf ps p. unfold Compton.at_win.
  destruct (get_win (ps_list ps) p) as [w |]; [| apply touched_refl].
  specialize (Hf ps w). destruct (f ps w) as [ps1 ow]. cbn [fst] in Hf. touch.
Qed.

Lemma fold_at_win_touched (f : session_t -> win -> session_t * option win) :
  (forall ps w, touched ps (fst (f ps w))) ->
  forall l ps, touched ps (fold_left (Compton.at_win f) l ps).
Proof.
  intros Hf l. induction l as [| p l IH]; intros ps; cbn [fold_left]; [apply touched_refl |].
  eapply touched_trans; [apply at_win_touched; exact Hf | apply IH].
Qed.

(** [paint_all] records the call and leaves the rest to the painting
    loop and the callbacks. *)
Lemma paint_all_touched (ps : session_t) (t_ : list win) :
  touched (set_painted (redirected ps :: painted ps) ps) (paint_all ps t_).
Proof.
  unfold Compton.paint_all. cbv zeta.
  eapply touched_trans; apply fold_at_win_touched.
  - intros q w. cbn [fst]. apply touched_refl.
  - apply check_fade_fin_touched.
Qed.

Lemma paint_all_cases (ps : session_t) (t_ : list win) :
  o (paint_all ps t_) = o ps /\
  redirected (paint_all ps t_) = redirected ps /\
  tmout_unredir_enabled (paint_all ps t_) = tmout_unredir_enabled ps /\
  tmout_unredir_firstrun (paint_all ps t_) = tmout_unredir_firstrun ps /\
  tmout_unredir_lastrun (paint_all ps t_) = tmout_unredir_lastrun ps /\
  tmout_unredir_hit (paint_all ps t_) = tmout_unredir_hit ps /\
  painted (paint_all ps t_) = redirected ps :: painted ps.
Proof.
  destruct (touched_ctl _ _ (paint_all_touched ps t_)) as (H1 & H2 & H3 & H4 & H5 & H6 & H7).
  cbn in H1, H2, H3, H4, H5, H6, H7. repeat split; assumption.
Qed.

(** The session the redirect decision of a pass starts from, and the
    [unredir_possible] and [is_highest] the loop hands to it. *)
Lemma paint_preprocess_unfold (ps : session_t) (now : Z) :
  exists ps1 possible highest,
    same_ctl ps ps1 /\
    paint_preprocess ps now
    = (fst (preprocess_redirect ps1 possible highest now),
       t (snd (preprocess_loop
                 (set_fade_time (snd (fade_steps FADE_DELTA_TOLERANCE ps now)) ps)
                 (fst (fade_steps FADE_DELTA_TOLERANCE ps now))
                 (ps_list ps)
                 {| t := []; unredir_possible := false; is_highest := true |})),
       snd (preprocess_redirect ps1 possible highest now)).
Proof.
  unfold Compton.paint_preprocess.
  destruct (fade_steps FADE_DELTA_TOLERANCE ps now) as [steps ft]. cbn [fst snd].
  pose proof (preprocess_loop_ctl (ps_list ps) (set_fade_time ft ps) steps
                {| t := []; unredir_possible := false; is_highest := true |}) as Hl.
  cbn [ps_list set_fade_time] in *.
  destruct (preprocess_loop _ _ _ _) as [[ps1 l1] st1]. cbn [fst snd] in *.
  exists (set_ps_list l1 ps1), (unredir_possible st1), (is_highest st1).
  split.
  - destruct Hl as (H1 & H2 & H3 & H4 & H5 & H6 & H7). repeat split; assumption.
  - destruct (preprocess_redirect _ _ _ _). reflexivity.
Qed.

Lemma force_repaint_ctl (ps : session_t) : same_ctl ps (force_repaint ps).
Proof.
  unfold force_repaint. destruct (copy_region (screen_reg ps)); [| apply same_ctl_refl].
  eapply same_ctl_trans; [| apply add_damage_ctl]. repeat split.
Qed.

Lemma same_ctl_timer (ps ps' : session_t) : same_ctl ps ps' -> same_timer ps ps'.
Proof. intros (H1 & H2 & H3 & H4 & H5 & H6 & H7). repeat split; assumption. Qed.

Lemma same_timer_trans (a b c : session_t) :
  same_timer a b -> same_timer b c -> same_timer a c.
Proof.
  intros (H1 & H3 & H4 & H5 & H6 & H7) (K1 & K3 & K4 & K5 & K6 & K7).
  repeat split; congruence.
Qed.

Lemma redir_start_spec (ps : session_t) :
  same_timer ps (redir_start ps) /\ redirected (redir_start ps) = true.
Proof.
  unfold redir_start. destruct (redirected ps) eqn:E; cbn [negb].
  - split; [repeat split | exact E].
  - pose proof (force_repaint_ctl (set_redirected true ps)) as H. split.
    + eapply same_timer_trans; [| apply same_ctl_timer; exact H]. repeat split.
    + destruct H as (_ & H & _). rewrite H. reflexivity.
Qed.

Lemma redir_stop_spec (ps : session_t) :
  same_timer ps (redir_stop ps) /\ redirected (redir_stop ps) = false.
Proof.
  unfold redir_stop. destruct (redirected ps) eqn:E.
  - split; [repeat split | reflexivity].
  - split; [repeat split | exact E].
Qed.

Lemma preprocess_redirect_snd (ps : session_t) (possible highest : bool) (now : Z) :
  snd (preprocess_redirect ps possible highest now) = possible_final ps possible highest.
Proof. reflexivity. Qed.

(** The four cases of the redirect decision. *)
Lemma preprocess_redirect_cases (ps : session_t) (possible highest : bool) (now : Z) :
  let ps' := fst (preprocess_redirect ps possible highest now) in
  o ps' = o ps /\ tmout_unredir_hit ps' = tmout_unredir_hit ps /\ painted ps' = painted ps /\
  (possible_final ps possible highest = false ->
   tmout_unredir_enabled ps' = false /\ redirected ps' = true) /\
  (possible_final ps possible highest = true -> redirected ps = false -> ps' = ps) /\
  (possible_final ps possible highest = true -> redirected ps = true ->
   (unredir_if_possible_delay (o ps) =? 0) || tmout_unredir_hit ps = true ->
   redirected ps' = false /\ tmout_unredir_enabled ps' = tmout_unredir_enabled ps) /\
  (possible_final ps possible highest = true -> redirected ps = true ->
   (unredir_if_possible_delay (o ps) =? 0) || tmout_unredir_hit ps = false ->
   redirected ps' = true /\ tmout_unredir_enabled ps' = true /\
   (tmout_unredir_enabled ps = true -> ps' = ps) /\
   (tmout_unredir_enabled ps = false ->
    tmout_unredir_firstrun ps' = now /\ tmout_unredir_lastrun ps' = now)).
Proof.
  unfold possible_final, preprocess_redirect. cbv zeta. cbn [fst snd].
  set (pf := if unredir_if_possible (o ps) && highest && negb (redirected ps)
             then true
             else match redirected_force (o ps) with
                  | UNSET => possible | OFF => true | ON => false
                  end).
  destruct pf.
  - destruct (redirected ps) eqn:Er.
    + destruct ((unredir_if_possible_delay (o ps) =? 0) || tmout_unredir_hit ps) eqn:Eh.
      * pose proof (redir_stop_spec ps) as ((H1 & H2 & H3 & H4 & H5 & H6) & H7).
        repeat split; try assumption; try discriminate.
      * destruct (tmout_unredir_enabled ps) eqn:Ee; cbn [negb];
          repeat split; try assumption; try discriminate; try reflexivity.
    + repeat split; try assumption; try discriminate.
  - pose proof (redir_start_spec
      (set_tmout_unredir false (tmout_unredir_firstrun ps) (tmout_unredir_lastrun ps) ps))
      as ((H1 & H2 & H3 & H4 & H5 & H6) & H7).
    repeat split; try assumption; try discriminate.
Qed.

(** A preprocess pass as a whole. *)
Lemma paint_preprocess_cases (ps : session_t) (now : Z) :
  let ps' := fst (fst (paint_preprocess ps now)) in
  let possible := snd (paint_preprocess ps now) in
  o ps' = o ps /\ tmout_unredir_hit ps' = tmout_unredir_hit ps /\ painted ps' = painted ps /\
  (possible = false -> tmout_unredir_enabled ps' = false /\ redirected ps' = true) /\
  (possible = true -> redirected ps = false ->
   redirected ps' = false /\ tmout_unredir_enabled ps' = tmout_unredir_enabled ps) /\
  (possible = true -> redirected ps = true ->
   (unredir_if_possible_delay (o ps) =? 0) || tmout_unredir_hit ps = true ->
   redirected ps' = false /\ tmout_unredir_enabled ps' = tmout_unredir_enabled ps) /\
  (possible = true -> redirected ps = true ->
   (unredir_if_possible_delay (o ps) =? 0) || tmout_unredir_hit ps = false ->
   redirected ps' = true /\ tmout_unredir_enabled ps' = true /\
   (tmout_unredir_enabled ps = true ->
    tmout_unredir_firstrun ps' = tmout_unredir_firstrun ps /\
    tmout_unredir_lastrun ps' = tmout_unredir_lastrun ps) /\
   (tmout_unredir_enabled ps = false ->
    tmout_unredir_firstrun ps' = now /\ tmout_unredir_lastrun ps' = now)).
Proof.
  destruct (paint_preprocess_unfold ps now)
    as (ps1 & possible & highest & (C1 & C2 & C3 & C4 & C5 & C6 & C7) & E).
  rewrite E. cbn [fst snd]. rewrite preprocess_redirect_snd.
  pose proof (preprocess_redirect_cases ps1 possible highest now) as H.
  cbv zeta in H. rewrite C1, C2, C3, C6, C7 in H.
  destruct H as (H1 & H2 & H3 & Hfalse & Hoff & Hstop & Harm).
  split; [assumption |]. split; [assumption |]. split; [assumption |].
  split; [exact Hfalse |]. split; [| split].
  - intros Hp Hr. rewrite (Hoff Hp Hr). split; congruence.
  - exact Hstop.
  - intros Hp Hr Hh. destruct (Harm Hp Hr Hh) as (A1 & A2 & Hsame & Hreset).
    split; [assumption |]. split; [assumption |]. split; [| exact Hreset].
    intros He. rewrite (Hsame He). split; congruence.
Qed.

(** What [mainloop] does to the timer. *)
Lemma mainloop_cases (ps : session_t) (a : action) :
  o (mainloop ps a) = o ps /\
  redirected (mainloop ps a) = redirected ps /\
  painted (mainloop ps a) = painted ps /\
  (tmout_unredir_enabled (mainloop ps a) = true -> tmout_unredir_enabled ps = true) /\
  (tmout_unredir_hit (mainloop ps a) = true ->
   tmout_unredir_hit ps = true
   \/ exists now, a = TimeoutRun now /\ tmout_unredir_enabled ps = true
                  /\ tmout_unredir_due ps now = true).
Proof.
  destruct a as [r | l | width height reg | now]; cbn [Compton.mainloop].
  - destruct (add_damage_ctl ps r) as (H1 & H2 & H3 & H4 & H5 & H6 & H7).
    rewrite H1, H2, H3, H6, H7. repeat split; auto.
  - cbn. repeat split; auto.
  - unfold configure_root. cbv zeta.
    match goal with
    | |- context [force_repaint ?q] =>
        destruct (force_repaint_ctl q) as (F1 & F2 & F3 & F4 & F5 & F6 & F7);
          rewrite F1, F2, F3, F6, F7
    end.
    cbn [o redirected set_root].
    destruct (reredir_on_root_change (o ps) && redirected ps) eqn:E; [| cbn; repeat split; auto; congruence].
    apply andb_true_iff in E. destruct E as [_ Er].
    destruct (redir_stop_spec (set_root width height reg ps)) as ((S1 & S2 & S3 & S4 & S5 & S6) & S7).
    destruct (redir_start_spec (redir_stop (set_root width height reg ps)))
      as ((T1 & T2 & T3 & T4 & T5 & T6) & T7).
    rewrite T1, S1, T7, T2, S2, T5, S5, T6, S6, Er. cbn. repeat split; auto.
  - unfold timeout_run. destruct (tmout_unredir_enabled ps) eqn:Ee; [| repeat split; auto; congruence].
    fold (tmout_unredir_due ps now).
    destruct (tmout_unredir_due ps now) eqn:Ed; [| rewrite Ee; repeat split; auto; congruence].
    cbn. repeat split; try discriminate. intros _. right. exists now. auto.
Qed.

Lemma events_cases (acts : list action) (ps : session_t) :
  let ps' := fold_left mainloop acts ps in
  o ps' = o ps /\
  redirected ps' = redirected ps /\
  painted ps' = painted ps /\
  (tmout_unredir_enabled ps' = true -> tmout_unredir_enabled ps = true) /\
  (tmout_unredir_hit ps' = true ->
   tmout_unredir_hit ps = true
   \/ exists pre now post,
        acts = pre ++ TimeoutRun now :: post
        /\ tmout_unredir_enabled (fold_left mainloop pre ps) = true
        /\ tmout_unredir_due (fold_left mainloop pre ps) now = true).
Proof.
  revert ps. induction acts as [| a acts IH]; intros ps; cbn [fold_left].
  - repeat split; auto.
  - destruct (IH (mainloop ps a)) as (I1 & I2 & I3 & I4 & I5).
    destruct (mainloop_cases ps a) as (M1 & M2 & M3 & M4 & M5).
    cbv zeta. rewrite I1, I2, I3, M1, M2, M3. repeat split; auto.
    intros Hhit. destruct (I5 Hhit) as [Hh | (pre & now & post & Ea & He & Hd)].
    + destruct (M5 Hh) as [Hh0 | (now & -> & He & Hd)]; [left; exact Hh0 |].
      right. exists [], now, acts. auto.
    + right. exists (a :: pre), now, post. rewrite Ea. auto.
Qed.

(** The rest of an iteration, after the preprocess pass. *)
Lemma session_run_paint_cases (ps : session_t) (now : Z) :
  let ps2 := fst (fst (paint_preprocess (set_idling true ps) now)) in
  let ps' := session_run_paint ps now in
  o ps' = o ps /\
  redirected ps' = redirected ps2 /\
  tmout_unredir_enabled ps' = tmout_unredir_enabled ps2 /\
  tmout_unredir_hit ps' = false /\
  (painted ps' = painted ps \/ (painted ps' = true :: painted ps /\ redirected ps2 = true)) /\
  (redirected ps2 = false -> painted ps' = painted ps /\ all_damage ps' = None).
Proof.
  pose proof (paint_preprocess_cases (set_idling true ps) now) as (P1 & _ & P3 & _).
  cbn [o painted set_idling] in P1, P3.
  unfold Compton.session_run_paint. cbv zeta.
  destruct (paint_preprocess (set_idling true ps) now) as [[ps2 t_] possible].
  cbn [fst snd] in *. cbv beta iota.
  set (ps3 := set_tmout_unredir_hit false ps2).
  set (stop := negb (redirected ps3)
               || match stoppaint_force (o ps3) with ON => true | _ => false end).
  set (ps4 := if stop then set_all_damage (free_region (all_damage ps3)) ps3 else ps3).
  assert (H4 : o ps4 = o ps /\ redirected ps4 = redirected ps2
               /\ tmout_unredir_enabled ps4 = tmout_unredir_enabled ps2
               /\ tmout_unredir_hit ps4 = false /\ painted ps4 = painted ps
               /\ (redirected ps2 = false -> all_damage ps4 = None)).
  { subst ps4 stop ps3. cbn [redirected o set_tmout_unredir_hit].
    destruct (redirected ps2) eqn:Er; cbn [negb orb].
    - destruct (stoppaint_force (o ps2)); cbn; repeat split; auto; discriminate.
    - cbn. repeat split; auto. }
  clearbody ps4. clear stop ps3.
  destruct H4 as (A1 & A2 & A3 & A4 & A5 & A6).
  set (ps5 := set_all_damage
                (option_map (fun r => resize_region r (resize_damage (o ps4)))
                   (all_damage ps4)) ps4).
  assert (H5 : o ps5 = o ps /\ redirected ps5 = redirected ps2
               /\ tmout_unredir_enabled ps5 = tmout_unredir_enabled ps2
               /\ tmout_unredir_hit ps5 = false /\ painted ps5 = painted ps
               /\ (redirected ps2 = false -> all_damage ps5 = None)).
  { subst ps5. cbn. repeat split; auto. intros Hr. rewrite (A6 Hr). reflexivity. }
  clearbody ps5. clear A1 A2 A3 A4 A5 A6.
  destruct H5 as (A1 & A2 & A3 & A4 & A5 & A6).
  set (ps6 := match all_damage ps5 with
              | Some r =>
                  if negb (is_region_empty r)
                  then set_all_damage None (set_reg_ignore_expire false (paint_all ps5 t_))
                  else ps5
              | None => ps5
              end).
  assert (H6 : o ps6 = o ps /\ redirected ps6 = redirected ps2
               /\ tmout_unredir_enabled ps6 = tmout_unredir_enabled ps2
               /\ tmout_unredir_hit ps6 = false
               /\ (painted ps6 = painted ps
                   \/ (painted ps6 = true :: painted ps /\ redirected ps2 = true))
               /\ (redirected ps2 = false -> painted ps6 = painted ps /\ all_damage ps6 = None)).
  { subst ps6. destruct (all_damage ps5) as [r |] eqn:Ed.
    - destruct (negb (is_region_empty r)).
      + destruct (paint_all_cases ps5 t_) as (Q1 & Q2 & Q3 & _ & _ & Q6 & Q7).
        cbn [o redirected tmout_unredir_enabled tmout_unredir_hit painted all_damage
               set_all_damage set_reg_ignore_expire].
        rewrite Q1, Q2, Q3, Q6, Q7, A2, A5.
        split; [assumption |]. split; [reflexivity |]. split; [assumption |].
        split; [assumption |]. split.
        * destruct (redirected ps2) eqn:Er.
          -- right. auto.
          -- specialize (A6 eq_refl). discriminate.
        * intros H. specialize (A6 H). discriminate.
      + repeat split; auto. specialize (A6 H). discriminate.
    - repeat split; auto. }
  clearbody ps6.
  destruct H6 as (B1 & B2 & B3 & B4 & B5 & B6).
  destruct (idling ps6); cbn; repeat split; auto; apply B6; assumption.
Qed.

Lemma session_run_events_cases (acts : list action) (ps : session_t) :
  let ps' := session_run_events ps acts in
  o ps' = o ps /\
  redirected ps' = redirected ps /\
  painted ps' = painted ps /\
  (tmout_unredir_enabled ps' = true -> tmout_unredir_enabled ps = true) /\
  (tmout_unredir_hit ps' = true ->
   tmout_unredir_hit ps = true
   \/ exists pre now post,
        acts = pre ++ TimeoutRun now :: post
        /\ tmout_unredir_enabled (session_run_events ps pre) = true
        /\ tmout_unredir_due (session_run_events ps pre) now = true).
Proof. exact (events_cases acts (set_ev_received false ps)). Qed.

Lemma session_run_first_cases (ps : session_t) (now : Z) :
  let r := paint_preprocess (set_reg_ignore_expire true ps) now in
  let ps' := session_run_first ps now in
  o ps' = o ps /\
  redirected ps' = redirected (fst (fst r)) /\
  tmout_unredir_enabled ps' = tmout_unredir_enabled (fst (fst r)) /\
  tmout_unredir_hit ps' = tmout_unredir_hit ps /\
  (painted ps' = painted ps \/ (painted ps' = true :: painted ps /\ redirected ps' = true)).
Proof.
  pose proof (paint_preprocess_cases (set_reg_ignore_expire true ps) now) as (P1 & P2 & P3 & _).
  cbn [o painted tmout_unredir_hit set_reg_ignore_expire] in P1, P2, P3.
  unfold Compton.session_run_first. cbv zeta.
  destruct (paint_preprocess (set_reg_ignore_expire true ps) now) as [[ps2 t_] possible].
  cbn [fst snd] in *. cbv beta iota.
  destruct (redirected ps2) eqn:Er.
  - destruct (paint_all_cases ps2 t_) as (Q1 & Q2 & Q3 & _ & _ & Q6 & Q7).
    cbn [o redirected tmout_unredir_enabled tmout_unredir_hit painted set_idling].
    rewrite Q1, Q2, Q3, Q6, Q7, Er, P3. repeat split; auto.
  - cbn. repeat split; auto.
Qed.

Lemma session_run_iter_cases (ps : session_t) (it : list action * Z) :
  let r := session_run_pass ps it in
  let ps' := session_run_iter ps it in
  o ps' = o ps /\
  redirected ps' = redirected (fst (fst r)) /\
  tmout_unredir_enabled ps' = tmout_unredir_enabled (fst (fst r)) /\
  tmout_unredir_hit ps' = false /\
  (painted ps' = painted ps \/ (painted ps' = true :: painted ps /\ redirected ps' = true)) /\
  (redirected ps' = false -> painted ps' = painted ps /\ all_damage ps' = None).
Proof.
  unfold Compton.session_run_iter, Compton.session_run_pass.
  destruct (session_run_events_cases (fst it) ps) as (E1 & E2 & E3 & _).
  destruct (session_run_paint_cases (session_run_events ps (fst it)) (snd it))
    as (S1 & S2 & S3 & S4 & S5 & S6).
  cbv zeta. rewrite S1, S2, S3, S4, E1. rewrite E3 in S5, S6.
  repeat split; auto.
  - apply S6. assumption.
  - apply S6. assumption.
Qed.

Lemma session_run_snoc (ps0 : session_t) (now0 : Z) (its : list (list action * Z))
  (it : list action * Z) :
  session_run ps0 now0 (its ++ [it]) = session_run_iter (session_run ps0 now0 its) it.
Proof. unfold Compton.session_run. rewrite fold_left_app. reflexivity. Qed.

(** At the start of every iteration the options are those the session
    started with and [tmout_unredir_hit] is clear. *)
Lemma session_run_inv (its : list (list action * Z)) (ps0 : session_t) (now0 : Z) :
  tmout_unredir_hit ps0 = false ->
  o (session_run ps0 now0 its) = o ps0 /\
  tmout_unredir_hit (session_run ps0 now0 its) = false.
Proof.
  intros Hhit. induction its as [| it its IH] using rev_ind.
  - destruct (session_run_first_cases ps0 now0) as (F1 & _ & _ & F4 & _).
    unfold Compton.session_run. cbn [fold_left]. split; congruence.
  - rewrite session_run_snoc.
    destruct (session_run_iter_cases (session_run ps0 now0 its) it) as (I1 & _ & _ & I4 & _).
    destruct IH as [IH1 IH2]. split; congruence.
Qed.

(** Every [paint_all] of a run was invoked with the screen
    redirected. *)
Lemma session_run_painted (its : list (list action * Z)) (ps0 : session_t) (now0 : Z) :
  exists l,
    painted (session_run ps0 now0 its) = l ++ painted ps0 /\ Forall (fun b => b = true) l.
Proof.
  induction its as [| it its IH] using rev_ind.
  - destruct (session_run_first_cases ps0 now0) as (_ & _ & _ & _ & [F | [F _]]).
    + exists []. split; [exact F | constructor].
    + exists [true]. split; [exact F | repeat constructor].
  - rewrite session_run_snoc. destruct IH as (l & El & Hl).
    destruct (session_run_iter_cases (session_run ps0 now0 its) it)
      as (_ & _ & _ & _ & [I | [I _]] & _).
    + exists l. split; [congruence | exact Hl].
    + exists (true :: l). split; [rewrite I, El; reflexivity | constructor; auto].
Qed.

(** C6.  Damage added while the screen is not redirected is dropped:
    [add_damage] leaves the session as it is.  An iteration of the main
    loop that ends with the screen not redirected has painted nothing
    and has discarded the accumulated damage.  And every [paint_all] of
    a run, in the first pass and in the iterations, was invoked with
    the screen redirected. *)
Theorem unredirected_screen_is_not_painted :
  forall (ps0 : session_t) (now0 : Z) (its : list (list action * Z))
         (it : list action * Z) (d : option region),
    let ps := session_run ps0 now0 its in
    (redirected ps = false -> add_damage ps d = ps) /\
    (redirected (session_run_iter ps it) = false ->
     painted (session_run_iter ps it) = painted ps /\
     all_damage (session_run_iter ps it) = None) /\
    (exists l,
       painted (session_run ps0 now0 (its ++ [it])) = l ++ painted ps0
       /\ Forall (fun b => b = true) l).
Proof.
  intros ps0 now0 its it d ps. split; [| split].
  - apply add_damage_unredirected.
  - apply session_run_iter_cases.
  - apply session_run_painted.
Qed.

(** ** The unredirect condition *)

Lemma preprocess_decide_o (ps : session_t) (steps : Z) (w : win) :
  o (fst (fst (preprocess_decide ps steps w))) = o ps.
Proof. apply (touched_ctl _ _ (preprocess_decide_touched ps steps w)). Qed.

Lemma check_fade_fin_o (ps : session_t) (w : win) : o (fst (check_fade_fin ps w)) = o ps.
Proof. apply (touched_ctl _ _ (check_fade_fin_touched ps w)). Qed.

(** What the loop hands to the redirect decision, by the highest window
    that is painted. *)
Lemma preprocess_loop_found (l : list win) (ps : session_t) (steps : Z) (st : loop_t) :
  let st' := snd (preprocess_loop ps steps l st) in
  unredir_possible st'
  = (if unredir_if_possible (o ps) && is_highest st
     then match topmost_painted ps steps l with
          | Some (q, w) => unredir_condition q w || unredir_possible st
          | None => unredir_possible st
          end
     else unredir_possible st) /\
  is_highest st'
  = (if unredir_if_possible (o ps) && is_highest st
     then match topmost_painted ps steps l with
          | Some _ => false
          | None => true
          end
     else is_highest st).
Proof.
  revert ps st. induction l as [| w l IH]; intros ps st;
    cbn [Compton.preprocess_loop Compton.topmost_painted].
  - cbn [snd]. destruct (unredir_if_possible (o ps)), (is_highest st); split; reflexivity.
  - unfold Compton.preprocess_win.
    pose proof (preprocess_decide_o ps steps w) as Ho.
    destruct (preprocess_decide ps steps w) as [[ps1 w1] b]. cbn [fst] in Ho.
    destruct b; cbv zeta.
    + unfold Compton.preprocess_unredir. rewrite Ho, andb_true_r.
      match goal with
      | |- context [preprocess_loop ps1 steps l ?s] =>
          specialize (IH ps1 s); destruct (preprocess_loop ps1 steps l s) as [[ps2 l2] st2]
      end.
      cbn [snd] in *. rewrite Ho in IH.
      destruct (unredir_if_possible (o ps) && is_highest st) eqn:E.
      * cbn [is_highest unredir_possible] in IH. rewrite andb_false_r in IH.
        destruct IH as [IH1 IH2]. rewrite IH1, IH2.
        destruct (unredir_condition ps1 w1); split; reflexivity.
      * cbn [is_highest unredir_possible] in IH. rewrite E in IH. exact IH.
    + pose proof (check_fade_fin_o ps1 w1) as Hc.
      destruct (check_fade_fin ps1 w1) as [ps3 ow]. cbn [fst] in *.
      specialize (IH ps3 st).
      destruct (preprocess_loop ps3 steps l st) as [[ps2 l2] st2].
      cbn [snd] in *. rewrite Hc, Ho in IH. exact IH.
Qed.

(** The final [unredir_possible] of a pass, by the condition the pass
    finds: [redirected_force] replaces it, and a screen that is not
    redirected and has nothing to paint counts as possible. *)
Lemma paint_preprocess_possible (ps : session_t) (now : Z) :
  snd (paint_preprocess ps now)
  = if unredir_if_possible (o ps) && nothing_to_paint ps now && negb (redirected ps)
    then true
    else match redirected_force (o ps) with
         | UNSET => unredir_condition_found ps now
         | OFF => true
         | ON => false
         end.
Proof.
  unfold Compton.paint_preprocess, Compton.unredir_condition_found,
    Compton.nothing_to_paint.
  destruct (fade_steps FADE_DELTA_TOLERANCE ps now) as [steps ft]. cbn [fst snd].
  pose proof (preprocess_loop_ctl (ps_list ps) (set_fade_time ft ps) steps
                {| t := []; unredir_possible := false; is_highest := true |}) as Hl.
  pose proof (preprocess_loop_found (ps_list ps) (set_fade_time ft ps) steps
                {| t := []; unredir_possible := false; is_highest := true |}) as Hf.
  cbv zeta in Hf. cbn [is_highest unredir_possible] in Hf.
  change (o (set_fade_time ft ps)) with (o ps) in *.
  change (redirected (set_fade_time ft ps)) with (redirected ps) in *.
  change (ps_list (set_fade_time ft ps)) with (ps_list ps).
  destruct (preprocess_loop _ _ _ _) as [[ps1 l1] st1]. cbn [fst snd] in *.
  destruct Hl as (H1 & H2 & _). destruct Hf as [Hp Hh].
  cbn [o redirected set_fade_time] in H1, H2.
  unfold preprocess_redirect. cbv zeta. cbn [snd o redirected set_ps_list].
  rewrite H1, H2, Hp, Hh, andb_true_r.
  destruct (unredir_if_possible (o ps)); cbn [andb].
  - destruct (topmost_painted (set_fade_time ft ps) steps (ps_list ps)) as [[q w] |];
      cbn [andb]; [rewrite orb_false_r |];
      destruct (redirected ps), (redirected_force (o ps)); reflexivity.
  - destruct (topmost_painted (set_fade_time ft ps) steps (ps_list ps)) as [[q w] |];
      destruct (redirected_force (o ps)); reflexivity.
Qed.

(** A timeout that has fired is disabled until a pass enables it. *)
Lemma events_hit_disabled (acts : list action) (ps : session_t) :
  (tmout_unredir_hit ps = true -> tmout_unredir_enabled ps = false) ->
  tmout_unredir_hit (fold_left mainloop acts ps) = true ->
  tmout_unredir_enabled (fold_left mainloop acts ps) = false.
Proof.
  revert ps. induction acts as [| a acts IH]; intros ps Hps; cbn [fold_left]; [exact Hps |].
  apply IH.
  destruct a as [r | l | width height reg | now]; cbn [Compton.mainloop].
  - destruct (add_damage_ctl ps r) as (_ & _ & H3 & _ & _ & H6 & _). rewrite H3, H6. exact Hps.
  - exact Hps.
  - destruct (mainloop_cases ps (ConfigureRoot width height reg)) as (_ & _ & _ & M4 & M5).
    cbn [Compton.mainloop] in M4, M5. intros Hh.
    destruct (M5 Hh) as [Hh0 | (now & Ea & _)]; [| discriminate].
    destruct (tmout_unredir_enabled (configure_root ps width height reg)) eqn:E;
      [| reflexivity].
    rewrite (M4 eq_refl) in Hps. exact (Hps Hh0).
  - unfold Compton.timeout_run. destruct (tmout_unredir_enabled ps) eqn:Ee.
    + destruct (Compton.tmout_unredir_due _ _ _ _); [reflexivity |].
      rewrite Ee. exact Hps.
    + intros _. exact Ee.
Qed.

(** Over a run that starts with the timeout disabled and not hit and
    with a delay configured, the timeout is disabled whenever the
    screen is not redirected. *)
Lemma session_run_unredirected (its : list (list action * Z)) (ps0 : session_t) (now0 : Z) :
  unredir_if_possible_delay (o ps0) <> 0 ->
  tmout_unredir_hit ps0 = false ->
  tmout_unredir_enabled ps0 = false ->
  redirected (session_run ps0 now0 its) = false ->
  tmout_unredir_enabled (session_run ps0 now0 its) = false.
Proof.
  intros Hdelay Hhit0 Hen0. induction its as [| it its IH] using rev_ind.
  - unfold Compton.session_run. cbn [fold_left].
    destruct (session_run_first_cases ps0 now0) as (_ & F2 & F3 & _).
    rewrite F2, F3.
    pose proof (paint_preprocess_cases (set_reg_ignore_expire true ps0) now0)
      as (_ & _ & _ & Qfalse & Qoff & _ & Qarm).
    cbn [o redirected tmout_unredir_hit tmout_unredir_enabled set_reg_ignore_expire]
      in Qoff, Qarm.
    apply Z.eqb_neq in Hdelay. rewrite Hdelay, Hhit0 in Qarm. cbn [orb] in Qarm.
    intros Hr.
    destruct (snd (paint_preprocess (set_reg_ignore_expire true ps0) now0)).
    + destruct (redirected ps0) eqn:Er0.
      * destruct (Qarm eq_refl eq_refl eq_refl) as (Hr' & _). congruence.
      * destruct (Qoff eq_refl eq_refl) as (_ & He). congruence.
    + destruct (Qfalse eq_refl) as (He & _). exact He.
  - rewrite session_run_snoc.
    set (ps := session_run ps0 now0 its) in *.
    destruct (session_run_inv its ps0 now0 Hhit0) as [Ho Hhit]. fold ps in Ho, Hhit.
    destruct (session_run_iter_cases ps it) as (_ & I2 & I3 & _).
    rewrite I2, I3. unfold Compton.session_run_pass.
    destruct (session_run_events_cases (fst it) ps) as (E1 & E2 & _ & E4 & _).
    set (ps1 := set_idling true (session_run_events ps (fst it))).
    pose proof (paint_preprocess_cases ps1 (snd it))
      as (_ & _ & _ & Qfalse & Qoff & Qstop & Qarm).
    assert (Hd : (unredir_if_possible_delay (o ps1) =? 0) = false).
    { subst ps1. cbn [o set_idling]. rewrite E1, Ho. apply Z.eqb_neq. exact Hdelay. }
    rewrite Hd in Qstop, Qarm. cbn [orb] in Qstop, Qarm.
    assert (Hr1 : redirected ps1 = redirected ps) by exact E2.
    assert (Hhd : tmout_unredir_hit ps1 = true -> tmout_unredir_enabled ps1 = false).
    { subst ps1. cbn [tmout_unredir_hit tmout_unredir_enabled set_idling].
      unfold Compton.session_run_events. apply events_hit_disabled.
      cbn [tmout_unredir_hit set_ev_received]. congruence. }
    intros Hr.
    destruct (snd (paint_preprocess ps1 (snd it))).
    + destruct (redirected ps1) eqn:Er1.
      * destruct (tmout_unredir_hit ps1) eqn:Eh.
        -- destruct (Qstop eq_refl eq_refl eq_refl) as (_ & He). rewrite He. auto.
        -- destruct (Qarm eq_refl eq_refl eq_refl) as (Hr' & _). congruence.
      * destruct (Qoff eq_refl eq_refl) as (_ & He). rewrite He.
        destruct (tmout_unredir_enabled ps1) eqn:Ee; [| reflexivity].
        subst ps1. cbn [tmout_unredir_enabled set_idling] in Ee.
        specialize (E4 Ee). rewrite IH in E4; [discriminate | congruence].
    + destruct (Qfalse eq_refl) as (He & _). exact He.
Qed.

(** C4 (amended).  In a run of [session_run] that starts with the
    timeout disabled and not hit and with a delay configured, for the
    preprocess pass of every iteration, [found] being whether the pass
    finds the topmost painted window solid, fullscreen and not
    excluded, and [nothing] whether the screen is not redirected and
    the pass has no window to paint (with [unredir_if_possible] set):
    (0) the pass decides to unredirect when [nothing] holds, and
    otherwise when [found] holds, or as [redirected_force] says when it
    is set; (1) when [found] holds while the screen is redirected,
    [redirected_force] is not ON and the timeout has not fired, the
    screen stays redirected and the timeout is enabled after the pass,
    started at the time of the pass when it was not enabled and left as
    it was when it was; (2) when the pass stops redirection, [found]
    holds or [redirected_force] is OFF, the timeout was enabled when
    the iteration began and it fired in a [timeout_run] of this
    iteration; (3) a timeout that is enabled when an iteration begins
    was left so by the pass before, in which [found] held or
    [redirected_force] was OFF, so the pass that stops redirection is a
    later one; (4) when [found] does not hold, [redirected_force] is
    not set and [nothing] does not hold, the timeout is disabled after
    the pass and the screen is redirected, and the same with
    [redirected_force] ON; (5) when [nothing] holds, the screen stays
    unredirected and the timeout stays disabled; (6) the first pass
    never stops redirection; (7) the timeout is one-shot: firing
    disables it. *)
Theorem unredirect_waits_for_timer :
  forall (ps0 : session_t) (now0 : Z) (its : list (list action * Z))
         (it : list action * Z),
    unredir_if_possible_delay (o ps0) <> 0 ->
    tmout_unredir_hit ps0 = false ->
    tmout_unredir_enabled ps0 = false ->
    let ps := session_run ps0 now0 its in
    let ps1 := set_idling true (session_run_events ps (fst it)) in
    let ps2 := fst (fst (session_run_pass ps it)) in
    let found := unredir_condition_found ps1 (snd it) in
    let nothing :=
      unredir_if_possible (o ps0) && nothing_to_paint ps1 (snd it) && negb (redirected ps1) in
    snd (session_run_pass ps it)
    = (if nothing then true
       else match redirected_force (o ps0) with
            | UNSET => found
            | OFF => true
            | ON => false
            end) /\
    (found = true -> redirected_force (o ps0) <> ON ->
     redirected ps1 = true -> tmout_unredir_hit ps1 = false ->
     redirected ps2 = true /\ tmout_unredir_enabled ps2 = true /\
     (tmout_unredir_enabled ps1 = true ->
      tmout_unredir_firstrun ps2 = tmout_unredir_firstrun ps1 /\
      tmout_unredir_lastrun ps2 = tmout_unredir_lastrun ps1) /\
     (tmout_unredir_enabled ps1 = false ->
      tmout_unredir_firstrun ps2 = snd it /\ tmout_unredir_lastrun ps2 = snd it)) /\
    (redirected ps1 = true -> redirected ps2 = false ->
     (found = true \/ redirected_force (o ps0) = OFF) /\
     tmout_unredir_enabled ps = true /\
     exists pre now post,
       fst it = pre ++ TimeoutRun now :: post
       /\ tmout_unredir_enabled (session_run_events ps pre) = true
       /\ tmout_unredir_due (session_run_events ps pre) now = true) /\
    (tmout_unredir_enabled ps = true ->
     (its = [] ->
      unredir_condition_found (set_reg_ignore_expire true ps0) now0 = true
      \/ redirected_force (o ps0) = OFF) /\
     (forall its' it', its = its' ++ [it'] ->
        unredir_condition_found
          (set_idling true (session_run_events (session_run ps0 now0 its') (fst it')))
          (snd it') = true
        \/ redirected_force (o ps0) = OFF)) /\
    (nothing = false ->
     (found = false /\ redirected_force (o ps0) = UNSET) \/ redirected_force (o ps0) = ON ->
     tmout_unredir_enabled ps2 = false /\ redirected ps2 = true) /\
    (nothing = true -> redirected ps2 = false /\ tmout_unredir_enabled ps2 = false) /\
    (redirected ps0 = true -> redirected (session_run ps0 now0 []) = true) /\
    (forall q now,
       tmout_unredir_enabled q = true -> tmout_unredir_due q now = true ->
       tmout_unredir_hit (timeout_run q now) = true /\
       tmout_unredir_enabled (timeout_run q now) = false).
Proof.
  intros ps0 now0 its it Hdelay Hhit0 Hen0 ps ps1 ps2 found nothing.
  destruct (session_run_inv its ps0 now0 Hhit0) as [Ho Hhit]. fold ps in Ho, Hhit.
  destruct (session_run_events_cases (fst it) ps) as (E1 & E2 & E3 & E4 & E5).
  assert (Ho1 : o ps1 = o ps0) by (subst ps1; cbn [o set_idling]; congruence).
  pose proof (paint_preprocess_cases ps1 (snd it))
    as (P1 & P2 & P3 & Pfalse & Poff & Pstop & Parm).
  pose proof (paint_preprocess_possible ps1 (snd it)) as Hlink.
  rewrite Ho1 in Hlink. fold found nothing in Hlink.
  subst ps2. unfold Compton.session_run_pass. fold ps1.
  assert (Hd : (unredir_if_possible_delay (o ps1) =? 0) = false).
  { rewrite Ho1. apply Z.eqb_neq. exact Hdelay. }
  rewrite Hd in Pstop, Parm. cbn [orb] in Pstop, Parm.
  assert (Hnr : nothing = true -> redirected ps1 = false).
  { subst nothing. intros H. apply andb_true_iff in H. destruct H as [_ H].
    apply negb_true_iff in H. exact H. }
  (* the decision of an earlier pass, by what it found *)
  assert (Hprev : forall q now,
             o q = o ps0 ->
             (redirected q = false -> tmout_unredir_enabled q = false) ->
             tmout_unredir_enabled (fst (fst (paint_preprocess q now))) = true ->
             unredir_condition_found q now = true \/ redirected_force (o ps0) = OFF).
  { intros q now Hoq Hq Hen.
    pose proof (paint_preprocess_cases q now) as (_ & _ & _ & Qfalse & Qoff & _).
    pose proof (paint_preprocess_possible q now) as Ql. rewrite Hoq in Ql.
    destruct (snd (paint_preprocess q now)) eqn:Ep;
      [| destruct (Qfalse eq_refl) as (Q & _); congruence].
    destruct (unredir_if_possible (o ps0) && nothing_to_paint q now && negb (redirected q))
      eqn:En.
    - apply andb_true_iff in En. destruct En as [_ En]. apply negb_true_iff in En.
      destruct (Qoff eq_refl En) as (_ & He). rewrite He, (Hq En) in Hen. discriminate.
    - destruct (redirected_force (o ps0)); [left; auto | right; reflexivity | discriminate]. }
  split; [exact Hlink |].
  split; [| split; [| split; [| split; [| split; [| split]]]]].
  - intros Hf Hon Hr Hh. apply Parm; [| exact Hr | exact Hh].
    rewrite Hlink. destruct nothing; [reflexivity |].
    destruct (redirected_force (o ps0)); [exact Hf | reflexivity | congruence].
  - intros Hr Hr2.
    destruct (snd (paint_preprocess ps1 (snd it))) eqn:Ep.
    + destruct (tmout_unredir_hit ps1) eqn:Eh.
      * subst ps1. cbn [tmout_unredir_hit set_idling] in Eh.
        destruct (E5 Eh) as [Hh | (pre & now & post & Ea & He & Hdue)]; [congruence |].
        split.
        -- destruct nothing eqn:En; [specialize (Hnr eq_refl); congruence |].
           destruct (redirected_force (o ps0)); [left; auto | right; reflexivity | discriminate].
        -- split.
           ++ destruct (session_run_events_cases pre ps) as (_ & _ & _ & K4 & _). auto.
           ++ exists pre, now, post. auto.
      * destruct (Parm eq_refl Hr eq_refl) as (Hr2' & _). congruence.
    + destruct (Pfalse eq_refl) as (_ & Hr2'). congruence.
  - intros Hen. split.
    + intros ->. subst ps. unfold Compton.session_run in Hen. cbn [fold_left] in Hen.
      destruct (session_run_first_cases ps0 now0) as (_ & _ & F3 & _).
      rewrite F3 in Hen.
      apply (Hprev (set_reg_ignore_expire true ps0) now0); [reflexivity | | exact Hen].
      intros _. exact Hen0.
    + intros its' it' ->. subst ps. rewrite session_run_snoc in Hen.
      destruct (session_run_iter_cases (session_run ps0 now0 its') it') as (_ & _ & I3 & _).
      rewrite I3 in Hen. unfold Compton.session_run_pass in Hen.
      destruct (session_run_inv its' ps0 now0 Hhit0) as [Ho' _].
      destruct (session_run_events_cases (fst it') (session_run ps0 now0 its'))
        as (K1 & K2 & _ & K4 & _).
      apply (Hprev _ (snd it')); [cbn [o set_idling]; congruence | | exact Hen].
      cbn [redirected tmout_unredir_enabled set_idling]. intros Hr.
      destruct (tmout_unredir_enabled
                  (session_run_events (session_run ps0 now0 its') (fst it'))) eqn:Ee;
        [| reflexivity].
      specialize (K4 eq_refl).
      rewrite (session_run_unredirected its' ps0 now0 Hdelay Hhit0 Hen0) in K4;
        [discriminate | congruence].
  - intros Hn Hcase. apply Pfalse. rewrite Hlink, Hn.
    destruct Hcase as [[Hf ->] | ->]; [exact Hf | reflexivity].
  - intros Hn. destruct (Poff ltac:(rewrite Hlink, Hn; reflexivity) (Hnr Hn)) as (Hr & He).
    split; [exact Hr |]. rewrite He.
    destruct (tmout_unredir_enabled ps1) eqn:Ee; [| reflexivity].
    subst ps1. cbn [tmout_unredir_enabled redirected set_idling] in Ee, Hnr.
    specialize (E4 Ee). specialize (Hnr Hn).
    pose proof (session_run_unredirected its ps0 now0 Hdelay Hhit0 Hen0) as Hu.
    fold ps in Hu. rewrite Hu in E4; [discriminate | congruence].
  - intros Hr0. unfold Compton.session_run. cbn [fold_left].
    destruct (session_run_first_cases ps0 now0) as (_ & F2 & _).
    rewrite F2.
    pose proof (paint_preprocess_cases (set_reg_ignore_expire true ps0) now0)
      as (_ & _ & _ & Qfalse & _ & Qstop & Qarm).
    cbn [o redirected tmout_unredir_hit set_reg_ignore_expire] in Qstop, Qarm.
    apply Z.eqb_neq in Hdelay. rewrite Hdelay, Hhit0 in Qarm. cbn [orb] in Qarm.
    destruct (snd (paint_preprocess (set_reg_ignore_expire true ps0) now0)).
    + apply Qarm; auto.
    + apply Qfalse; auto.
  - intros q now He Hdue. unfold Compton.timeout_run. rewrite He, Hdue.
    split; reflexivity.
Qed.

(** ** The damage of an iteration *)

Lemma session_run_paint_damage (ps : session_t) (now : Z) :
  let ps' := session_run_paint ps now in
  (all_damage ps' = None
   \/ exists r, all_damage ps' = Some r /\ is_region_empty r = true) /\
  (painted ps' = painted ps
   \/ (painted ps' = true :: painted ps /\ all_damage ps' = None
       /\ reg_ignore_expire ps' = false)).
Proof.
  pose proof (paint_preprocess_cases (set_idling true ps) now) as (_ & _ & P3 & _).
  cbn [painted set_idling] in P3.
  unfold Compton.session_run_paint. cbv zeta.
  destruct (paint_preprocess (set_idling true ps) now) as [[ps2 t_] possible].
  cbn [fst snd] in *. cbv beta iota.
  set (ps3 := set_tmout_unredir_hit false ps2).
  set (stop := negb (redirected ps3)
               || match stoppaint_force (o ps3) with ON => true | _ => false end).
  set (ps4 := if stop then set_all_damage (free_region (all_damage ps3)) ps3 else ps3).
  assert (H4 : painted ps4 = painted ps
               /\ (redirected ps4 = false -> all_damage ps4 = None)).
  { subst ps4 stop ps3. cbn [redirected o set_tmout_unredir_hit].
    destruct (redirected ps2) eqn:Er; cbn [negb orb].
    - destruct (stoppaint_force (o ps2)); cbn; split; auto; intros; congruence.
    - cbn. split; auto. }
  clearbody ps4. clear stop ps3. destruct H4 as (A5 & A6).
  set (ps5 := set_all_damage
                (option_map (fun r => resize_region r (resize_damage (o ps4)))
                   (all_damage ps4)) ps4).
  assert (H5 : painted ps5 = painted ps
               /\ (redirected ps5 = false -> all_damage ps5 = None)).
  { subst ps5. cbn. split; auto. intros Hr. rewrite (A6 Hr). reflexivity. }
  clearbody ps5. clear A5 A6. destruct H5 as (A5 & A6).
  set (ps6 := match all_damage ps5 with
              | Some r =>
                  if negb (is_region_empty r)
                  then set_all_damage None (set_reg_ignore_expire false (paint_all ps5 t_))
                  else ps5
              | None => ps5
              end).
  assert (H6 : (all_damage ps6 = None
                \/ exists r, all_damage ps6 = Some r /\ is_region_empty r = true)
               /\ (painted ps6 = painted ps
                   \/ (painted ps6 = true :: painted ps /\ all_damage ps6 = None
                       /\ reg_ignore_expire ps6 = false))).
  { subst ps6. destruct (all_damage ps5) as [r |] eqn:Ed.
    - destruct (is_region_empty r) eqn:Ee; cbn [negb].
      + split; [right; exists r; auto | left; exact A5].
      + destruct (paint_all_cases ps5 t_) as (_ & _ & _ & _ & _ & _ & Q7).
        cbn [painted all_damage reg_ignore_expire set_all_damage set_reg_ignore_expire].
        rewrite Q7. split; [left; reflexivity |]. right.
        destruct (redirected ps5) eqn:Er.
        * rewrite A5. auto.
        * specialize (A6 eq_refl). discriminate.
    - split; [left; exact Ed | left; exact A5]. }
  clearbody ps6. destruct H6 as (B1 & B2).
  destruct (idling ps6); cbn; split; assumption.
Qed.

(** X4.  An iteration of the main loop paints at most once, and no
    damage is pending when it ends: [all_damage] is null or an empty
    region; when the iteration has painted, [all_damage] is null and
    [reg_ignore_expire] is cleared. *)
Theorem session_run_iter_consumes_damage :
  forall (ps : session_t) (it : list action * Z),
    let ps' := session_run_iter ps it in
    (all_damage ps' = None
     \/ exists r, all_damage ps' = Some r /\ is_region_empty r = true) /\
    (painted ps' = painted ps
     \/ (painted ps' = true :: painted ps /\ all_damage ps' = None
         /\ reg_ignore_expire ps' = false)).
Proof.
  intros ps it. unfold Compton.session_run_iter.
  destruct (session_run_events_cases (fst it) ps) as (_ & _ & E3 & _).
  pose proof (session_run_paint_damage (session_run_events ps (fst it)) (snd it)) as H.
  cbv zeta in H. rewrite E3 in H. exact H.
Qed.

(** ** Forced redirection *)

(** X5.  The switch [redirected_force] in the redirect decision of a
    preprocess pass.  ON keeps or makes the screen redirected and
    disables the timeout, except that a screen that is not redirected
    stays so when [unredir_if_possible] is set and the pass painted no
    window ([is_highest]).  OFF stops redirection at once when no delay
    is configured; with a delay it waits for the timeout like an
    unredirection found possible. *)
Theorem redirected_force_overrides :
  forall (ps : session_t) (possible highest : bool) (now : Z),
    let ps' := fst (preprocess_redirect ps possible highest now) in
    let nothing_painted :=
      unredir_if_possible (o ps) && highest && negb (redirected ps) in
    (redirected_force (o ps) = ON -> nothing_painted = false ->
     redirected ps' = true /\ tmout_unredir_enabled ps' = false) /\
    (redirected_force (o ps) = ON -> nothing_painted = true -> ps' = ps) /\
    (redirected_force (o ps) = OFF -> unredir_if_possible_delay (o ps) = 0 ->
     redirected ps' = false) /\
    (redirected_force (o ps) = OFF -> unredir_if_possible_delay (o ps) <> 0 ->
     tmout_unredir_hit ps = false -> redirected ps = true ->
     redirected ps' = true /\ tmout_unredir_enabled ps' = true).
Proof.
  intros ps possible highest now ps' nothing_painted. subst ps'.
  pose proof (preprocess_redirect_cases ps possible highest now)
    as (_ & _ & _ & Hfalse & Hoff & Hstop & Harm).
  assert (Hpf : possible_final ps possible highest
                = if nothing_painted then true
                  else match redirected_force (o ps) with
                       | UNSET => possible | OFF => true | ON => false
                       end) by reflexivity.
  split; [| split; [| split]].
  - intros Hon Hnp. destruct Hfalse as [He Hr]; [rewrite Hpf, Hnp, Hon; reflexivity |].
    split; assumption.
  - intros Hon Hnp. apply Hoff; [rewrite Hpf, Hnp; reflexivity |].
    subst nothing_painted. apply andb_true_iff in Hnp. destruct Hnp as [_ Hr].
    apply negb_true_iff in Hr. exact Hr.
  - intros Hoff' Hdelay.
    assert (Hp : possible_final ps possible highest = true).
    { rewrite Hpf, Hoff'. destruct nothing_painted; reflexivity. }
    destruct (redirected ps) eqn:Er.
    + apply Hstop; [exact Hp | reflexivity |]. rewrite Hdelay. reflexivity.
    + rewrite (Hoff Hp eq_refl). exact Er.
  - intros Hoff' Hdelay Hhit Hr.
    assert (Hp : possible_final ps possible highest = true).
    { rewrite Hpf, Hoff'. destruct nothing_painted; reflexivity. }
    apply Z.eqb_neq in Hdelay.
    destruct (Harm Hp Hr) as (H1 & H2 & _); [rewrite Hdelay, Hhit; reflexivity |].
    split; assumption.
Qed.

(** ** The fade clock after an idle iteration *)

Lemma add_damage_fade_time (ps : session_t) (d : option region) :
  fade_time (add_damage ps d) = fade_time ps.
Proof.
  unfold add_damage. destruct (negb (redirected ps)), d, (all_damage ps); reflexivity.
Qed.

Lemma force_repaint_fade_time (ps : session_t) :
  fade_time (force_repaint ps) = fade_time ps.
Proof.
  unfold force_repaint. destruct (copy_region (screen_reg ps)); [| reflexivity].
  rewrite add_damage_fade_time. reflexivity.
Qed.

Lemma redir_start_fade_time (ps : session_t) :
  fade_time (redir_start ps) = fade_time ps.
Proof.
  unfold redir_start. destruct (negb (redirected ps)); [| reflexivity].
  rewrite force_repaint_fade_time. reflexivity.
Qed.

Lemma redir_stop_fade_time (ps : session_t) :
  fade_time (redir_stop ps) = fade_time ps.
Proof. unfold redir_stop. destruct (redirected ps); reflexivity. Qed.

Lemma mainloop_fade_time (ps : session_t) (a : action) :
  fade_time (mainloop ps a) = fade_time ps.
Proof.
  destruct a as [r | l | width height reg | now]; cbn [Compton.mainloop].
  - apply add_damage_fade_time.
  - reflexivity.
  - unfold configure_root. cbv zeta. rewrite force_repaint_fade_time.
    destruct (reredir_on_root_change (o (set_root width height reg ps))
              && redirected (set_root width height reg ps)); [| reflexivity].
    rewrite redir_start_fade_time, redir_stop_fade_time. reflexivity.
  - unfold timeout_run. destruct (tmout_unredir_enabled ps); [| reflexivity].
    destruct (Compton.tmout_unredir_due _ _ _ _); reflexivity.
Qed.

Lemma session_run_events_fade_time (acts : list action) (ps : session_t) :
  fade_time (session_run_events ps acts) = fade_time ps.
Proof.
  unfold Compton.session_run_events.
  change (fade_time ps) with (fade_time (set_ev_received false ps)).
  generalize (set_ev_received false ps). clear ps.
  induction acts as [| a acts IH]; intros ps; cbn [fold_left]; [reflexivity |].
  rewrite IH. apply mainloop_fade_time.
Qed.

Lemma session_run_paint_idle (ps : session_t) (now : Z) :
  idling (session_run_paint ps now) = true -> fade_time (session_run_paint ps now) = 0.
Proof.
  unfold Compton.session_run_paint. cbv zeta.
  destruct (paint_preprocess (set_idling true ps) now) as [[ps2 t_] possible].
  match goal with
  | |- idling (if idling ?x then _ else _) = true -> _ =>
      destruct (idling x) eqn:Ei; [reflexivity | intros H; congruence]
  end.
Qed.

(** X21.  An iteration of the main loop that ends idle clears the fade
    clock, so the next preprocess pass, whatever [mainloop] did in
    between and however late it comes, takes no fade step and starts
    the clock at its own time; a window that fades is then left at the
    opacity it has. *)
Theorem idle_iteration_restarts_fade_clock :
  forall (ps : session_t) (it : list action * Z),
    idling (session_run_iter ps it) = true ->
    fade_time (session_run_iter ps it) = 0 /\
    forall (acts : list action) (now : Z) (w : win),
      let ps1 := set_idling true (session_run_events (session_run_iter ps it) acts) in
      fade_steps FADE_DELTA_TOLERANCE ps1 now = (0, now) /\
      (fade w = true ->
       opacity (snd (run_fade ps1 w (fst (fade_steps FADE_DELTA_TOLERANCE ps1 now)))) = opacity w).
Proof.
  intros ps it Hidle.
  assert (H0 : fade_time (session_run_iter ps it) = 0).
  { unfold Compton.session_run_iter in *. apply session_run_paint_idle. exact Hidle. }
  split; [exact H0 |]. intros acts now w ps1.
  assert (Hsteps : fade_steps FADE_DELTA_TOLERANCE ps1 now = (0, now)).
  { unfold fade_steps. subst ps1. cbn [fade_time set_idling].
    rewrite session_run_events_fade_time, H0. cbn. f_equal. lia. }
  split; [exact Hsteps |]. intros Hf. rewrite Hsteps. cbn [fst].
  unfold run_fade. destruct (opacity w =? opacity_tgt w); [reflexivity |].
  rewrite Hf. reflexivity.
Qed.

(** ** Damage between two passes *)

Lemma add_damage_keeps (ps : session_t) (d : option region) (rect : Z * Z * Z * Z) :
  (exists a, all_damage ps = Some a /\ In rect a) ->
  exists a, all_damage (add_damage ps d) = Some a /\ In rect a.
Proof.
  intros (a & Ea & Hin). unfold add_damage.
  destruct (if negb (redirected ps) then free_region d else d) as [d' |].
  - rewrite Ea. exists (a ++ d'). split; [reflexivity | apply in_or_app; left; exact Hin].
  - exists a. split; assumption.
Qed.

Lemma force_repaint_keeps (ps : session_t) (rect : Z * Z * Z * Z) :
  (exists a, all_damage ps = Some a /\ In rect a) ->
  exists a, all_damage (force_repaint ps) = Some a /\ In rect a.
Proof.
  intros H. unfold force_repaint. destruct (copy_region (screen_reg ps)); [| exact H].
  apply add_damage_keeps. exact H.
Qed.

Lemma redir_start_keeps (ps : session_t) (rect : Z * Z * Z * Z) :
  (exists a, all_damage ps = Some a /\ In rect a) ->
  exists a, all_damage (redir_start ps) = Some a /\ In rect a.
Proof.
  intros H. unfold redir_start. destruct (negb (redirected ps)); [| exact H].
  apply force_repaint_keeps. exact H.
Qed.

Lemma redir_stop_keeps (ps : session_t) (rect : Z * Z * Z * Z) :
  (exists a, all_damage ps = Some a /\ In rect a) ->
  exists a, all_damage (redir_stop ps) = Some a /\ In rect a.
Proof. intros H. unfold redir_stop. destruct (redirected ps); exact H. Qed.

Lemma mainloop_keeps_damage (ps : session_t) (act : action) (rect : Z * Z * Z * Z) :
  (exists a, all_damage ps = Some a /\ In rect a) ->
  exists a, all_damage (mainloop ps act) = Some a /\ In rect a.
Proof.
  intros H. destruct act as [r | l | width height reg | now]; cbn [Compton.mainloop].
  - apply add_damage_keeps. exact H.
  - exact H.
  - unfold configure_root. cbv zeta. apply force_repaint_keeps.
    destruct (reredir_on_root_change (o (set_root width height reg ps))
              && redirected (set_root width height reg ps)); [| exact H].
    apply redir_start_keeps, redir_stop_keeps. exact H.
  - unfold timeout_run. destruct (tmout_unredir_enabled ps); [| exact H].
    destruct (Compton.tmout_unredir_due _ _ _ _); exact H.
Qed.

Lemma events_keep_damage (acts : list action) (ps : session_t) (rect : Z * Z * Z * Z) :
  (exists a, all_damage ps = Some a /\ In rect a) ->
  exists a, all_damage (fold_left mainloop acts ps) = Some a /\ In rect a.
Proof.
  revert ps. induction acts as [| act acts IH]; intros ps H; cbn [fold_left]; [exact H |].
  apply IH. apply mainloop_keeps_damage. exact H.
Qed.

(** X22.  While the screen is redirected no damage is lost between two
    passes: every rectangle of a region that an event handler hands to
    [add_damage] is in [all_damage] when [mainloop] has returned,
    whatever else it handled before and after. *)
Theorem damage_kept_until_pass :
  forall (ps : session_t) (before after : list action) (d : region)
         (rect : Z * Z * Z * Z),
    redirected ps = true ->
    In rect d ->
    exists a,
      all_damage (session_run_events ps (before ++ Damage (Some d) :: after)) = Some a /\
      In rect a.
Proof.
  intros ps before after d rect Hred Hin. unfold Compton.session_run_events.
  rewrite fold_left_app. cbn [fold_left]. apply events_keep_damage.
  set (ps1 := fold_left mainloop before (set_ev_received false ps)).
  assert (Hred1 : redirected ps1 = true).
  { subst ps1. destruct (events_cases before (set_ev_received false ps)) as (_ & Hr & _).
    rewrite Hr. exact Hred. }
  cbn [Compton.mainloop]. unfold add_damage. rewrite Hred1. cbn [negb].
  destruct (all_damage ps1) as [a |].
  - exists (a ++ d). split; [reflexivity | apply in_or_app; right; exact Hin].
  - exists d. split; [reflexivity | exact Hin].
Qed.

End RedirectProofs.

Lemma unredirect_waits_for_timer_witness :
  (unredir_condition_found 0x1.999999999999ap-3 example_keep example_keep example_no_frame
     example_always example_always example_percent 4 example_extents
     example_update_reg_ignore_expire example_free_wpaint example_keep
     (set_idling true
        (session_run_events example_get_newrun 0 (example_run example_iterations)
           (fst example_iteration)))
     (snd example_iteration) = true
   \/ redirected_force (o example_fullscreen) = OFF) /\
  tmout_unredir_enabled (example_run example_iterations) = true.
Proof.
  destruct (unredirect_waits_for_timer 0x1.999999999999ap-3 example_keep example_keep
              example_no_frame example_always example_always example_percent 4
              example_extents example_update_reg_ignore_expire example_free_wpaint
              example_keep example_resize_region example_keep example_get_newrun 0
              example_fullscreen 1000 example_iterations example_iteration)
    as (_ & _ & Hstop & _).
  - vm_compute. discriminate.
  - reflexivity.
  - reflexivity.
  - destruct Hstop as (Hfound & Henabled & _).
    + vm_compute. reflexivity.
    + vm_compute. reflexivity.
    + split; assumption.
Defined.

(** C4 as stated fails for a screen that is not redirected and has no
    window to paint: the pass finds the condition false, as no window
    is painted, and leaves the screen as it is, where the claim has it
    become redirected; so it stays over the iterations of a run. *)
Lemma unredirect_condition_false_stays_unredirected :
  redirected example_unredirected = false /\
  unredir_condition_found 0x1.999999999999ap-3 example_keep example_keep example_no_frame
    example_always example_always example_percent 4 example_extents
    example_update_reg_ignore_expire example_free_wpaint example_keep
    example_unredirected 1000 = false /\
  redirected
    (fst (fst (paint_preprocess 0x1.999999999999ap-3 example_keep example_keep
                 example_no_frame example_always example_always example_percent 4
                 example_extents example_update_reg_ignore_expire example_free_wpaint
                 example_keep example_unredirected 1000))) = false /\
  redirected
    (session_run 0x1.999999999999ap-3 example_keep example_keep example_no_frame
       example_always example_always example_percent 4 example_extents
       example_update_reg_ignore_expire example_free_wpaint example_keep
       example_resize_region example_keep example_get_newrun 0
       example_unredirected 1000 [([TimeoutRun 1100], 1100); ([TimeoutRun 1210], 1210)])
  = false.
Proof. vm_compute. repeat split; reflexivity. Qed.

(** The example run: the first pass and the iteration at 1100 ms paint,
    and the timeout is started at 1000 ms; it fires in the iteration at
    1210 ms, whose pass stops redirection and paints nothing. *)
Example example_run_unredirects :
  redirected (example_run example_iterations) = true /\
  tmout_unredir_firstrun (example_run example_iterations) = 1000 /\
  painted (example_run example_iterations) = [true; true] /\
  redirected (example_run (example_iterations ++ [example_iteration])) = false /\
  painted (example_run (example_iterations ++ [example_iteration])) = [true; true] /\
  all_damage (example_run (example_iterations ++ [example_iteration])) = None.
Proof. vm_compute. repeat split; reflexivity. Qed.

(** ** Restacking: where the node goes *)

Lemma index_of_app (p : nat) (a b : list win) (w : win) :
  ptr w = p -> (forall n, In n a -> ptr n <> p) ->
  index_of p (a ++ w :: b) = length a.
Proof.
  intros Hw Ha. induction a as [| n a IH]; simpl.
  - rewrite Hw, Nat.eqb_refl. reflexivity.
  - destruct (Nat.eqb_spec (ptr n) p) as [E | _].
    + exfalso. apply (Ha n); [left; reflexivity | exact E].
    + f_equal. apply IH. intros m Hm. apply Ha. right. exact Hm.
Qed.

Lemma find_above_first (new_above : Window) (l1 l2 : list win) (t : win) :
  is_above new_above t = true ->
  (forall n, In n l1 -> is_above new_above n = false) ->
  find_above new_above (l1 ++ t :: l2) = (length l1, true).
Proof.
  unfold is_above. intros Ht Hl1. induction l1 as [| n l1 IH]; simpl.
  - rewrite Ht. reflexivity.
  - rewrite (Hl1 n) by (left; reflexivity).
    rewrite IH by (intros m Hm; apply Hl1; right; exact Hm). reflexivity.
Qed.

Lemma find_above_none (new_above : Window) (l : list win) :
  (forall n, In n l -> is_above new_above n = false) ->
  find_above new_above l = (length l, false).
Proof.
  unfold is_above. intros Hl. induction l as [| n l IH]; simpl; [reflexivity |].
  rewrite (Hl n) by (left; reflexivity).
  rewrite IH by (intros m Hm; apply Hl; right; exact Hm). reflexivity.
Qed.

(** The rehook loop on the stack with [w] in it and on the stack
    without: a node that the loop passes shifts what follows by one. *)
Lemma find_above_skip (new_above : Window) (a b : list win) (w : win) :
  is_above new_above w = false ->
  find_above new_above (a ++ w :: b)
  = (let j := fst (find_above new_above (a ++ b)) in
     if (j <? length a)%nat then j else S j,
     snd (find_above new_above (a ++ b))).
Proof.
  unfold is_above. intros Hw. induction a as [| n a IH]; simpl.
  - rewrite Hw. destruct (find_above new_above b). reflexivity.
  - destruct ((id n =? new_above) && negb (destroyed n)); [reflexivity |].
    rewrite IH. destruct (find_above new_above (a ++ b)) as [j f]. simpl.
    change (S j <? S (length a))%nat with (j <? length a)%nat.
    destruct (j <? length a)%nat; reflexivity.
Qed.

Lemma relink_spec (a b : list win) (w : win) (j : nat) :
  (j <= length (a ++ b))%nat ->
  relink (length a) (if (j <? length a)%nat then j else S j) (a ++ w :: b)
  = firstn j (a ++ b) ++ w :: skipn j (a ++ b).
Proof.
  intros Hj. unfold relink.
  rewrite nth_error_app2 by lia. rewrite Nat.sub_diag. cbn [nth_error].
  rewrite (firstn_app (length a) a (w :: b)), Nat.sub_diag, firstn_all.
  cbn [firstn]. rewrite app_nil_r.
  replace (skipn (S (length a)) (a ++ w :: b)) with b.
  2: { clear. induction a as [| n a IH]; [reflexivity | exact IH]. }
  destruct (Nat.ltb_spec j (length a)).
  - destruct (Nat.leb_spec j (length a)); [reflexivity | lia].
  - destruct (Nat.leb_spec (S j) (length a)); [lia | reflexivity].
Qed.

Section RestackMoreProofs.

Variable update_reg_ignore_expire : session_t -> win -> bool.

Local Abbreviation restack_win := (Compton.restack_win update_reg_ignore_expire).

(** [restack_win] on a window that is not the one asked for: the node
    goes to where the rehook loop stops on the rest of the stack. *)
Lemma restack_win_relinks (ps : session_t) (p : nat) (w : win) (a b : list win)
  (new_above : Window) :
  ps_list ps = a ++ w :: b -> ptr w = p -> (forall n, In n a -> ptr n <> p) ->
  is_above new_above w = false ->
  old_above ps p <> new_above ->
  let j := fst (find_above new_above (a ++ b)) in
  let found := snd (find_above new_above (a ++ b)) in
  restack_win ps p new_above
  = if negb (new_above =? 0) && negb found
    then (set_reg_ignore_expire (update_reg_ignore_expire ps w) ps, true)
    else (set_ps_list (firstn j (a ++ b) ++ w :: skipn j (a ++ b))
            (set_reg_ignore_expire (update_reg_ignore_expire ps w) ps), false).
Proof.
  intros Hl Hw Ha Hnw Hold j found. unfold Compton.restack_win.
  rewrite Hl, (index_of_app p a b w Hw Ha).
  rewrite nth_error_app2 by lia. rewrite Nat.sub_diag. cbn [nth_error].
  cbv zeta.
  change (old_above (set_reg_ignore_expire (update_reg_ignore_expire ps w) ps) p)
    with (old_above ps p).
  apply Z.eqb_neq in Hold. rewrite Hold. cbn [negb].
  cbn [ps_list set_reg_ignore_expire]. rewrite Hl.
  rewrite (index_of_app p a b w Hw Ha), (find_above_skip new_above a b w Hnw).
  fold j found.
  destruct (negb (new_above =? 0) && negb found); [reflexivity |].
  rewrite relink_spec; [reflexivity |].
  subst j. clear. generalize (a ++ b). intros l.
  induction l as [| n l IH]; simpl; [lia |].
  destruct ((id n =? new_above) && negb (destroyed n)); simpl; [lia |].
  destruct (find_above new_above l). simpl in *. lia.
Qed.

Lemma firstn_skipn_middle (l1 l2 : list win) (w t : win) :
  firstn (length l1) (l1 ++ t :: l2) ++ w :: skipn (length l1) (l1 ++ t :: l2)
  = l1 ++ w :: t :: l2.
Proof. induction l1 as [| n l1 IH]; simpl; [reflexivity | rewrite IH; reflexivity]. Qed.

Lemma old_above_app (ps : session_t) (p : nat) (w : win) (a b : list win) :
  ps_list ps = a ++ w :: b -> ptr w = p -> (forall n, In n a -> ptr n <> p) ->
  old_above ps p = match b with n :: _ => id n | [] => XNone end.
Proof.
  intros Hl Hw Ha. unfold old_above. rewrite Hl, (index_of_app p a b w Hw Ha).
  replace (nth_error (a ++ w :: b) (S (length a))) with (nth_error b 0).
  - destruct b; reflexivity.
  - clear. induction a as [| n a IH]; [reflexivity | exact IH].
Qed.

(** X1.  When [restack_win] finds the window to go above, it moves the
    node and nothing else: for a window [w] of the stack, a [new_above]
    that is not the id of the window just below [w], and [t] the first
    window of the rest of the stack that has the id [new_above] and is
    not destroyed, the new stack is the rest of the stack with [w]
    directly above [t].  With [new_above = None] and no live window of
    id 0, [w] goes to the bottom.  No failure is reported. *)
Theorem restack_win_places_above :
  forall (ps : session_t) (p : nat) (w : win) (a b : list win) (new_above : Window),
    ps_list ps = a ++ w :: b ->
    ptr w = p ->
    (forall n, In n a -> ptr n <> p) ->
    is_above new_above w = false ->
    old_above ps p <> new_above ->
    (forall l1 t l2,
        a ++ b = l1 ++ t :: l2 ->
        is_above new_above t = true ->
        (forall n, In n l1 -> is_above new_above n = false) ->
        ps_list (fst (restack_win ps p new_above)) = l1 ++ w :: t :: l2 /\
        snd (restack_win ps p new_above) = false) /\
    (new_above = 0 ->
     (forall n, In n (a ++ b) -> is_above 0 n = false) ->
     ps_list (fst (restack_win ps p new_above)) = a ++ b ++ [w] /\
     snd (restack_win ps p new_above) = false).
Proof.
  intros ps p w a b new_above Hl Hw Ha Hnw Hold.
  pose proof (restack_win_relinks ps p w a b new_above Hl Hw Ha Hnw Hold) as Hre.
  cbv zeta in Hre. split.
  - intros l1 t l2 Hrest Ht Hl1. rewrite Hre, Hrest.
    rewrite (find_above_first new_above l1 l2 t Ht Hl1). cbn [fst snd negb].
    rewrite andb_false_r. cbn [fst snd ps_list set_ps_list].
    split; [apply firstn_skipn_middle | reflexivity].
  - intros -> Hnone. rewrite Hre, (find_above_none 0 (a ++ b) Hnone).
    cbn [fst snd negb andb Z.eqb ps_list set_ps_list].
    rewrite firstn_all, skipn_all, <- app_assoc. split; reflexivity.
Qed.

End RestackMoreProofs.

Lemma restack_win_places_above_witness :
  map id (ps_list (fst (restack_win example_update_reg_ignore_expire example_stack 3 1)))
  = [9; 1; 5; 7] /\
  map id (ps_list (fst (restack_win example_update_reg_ignore_expire example_stack 0 0)))
  = [5; 7; 9; 1].
Proof.
  split.
  - destruct (restack_win_places_above example_update_reg_ignore_expire example_stack 3
                (example_win 3 9 10 10 100 100 false OPAQUE OPAQUE)
                [example_win 0 1 10 10 100 100 false OPAQUE OPAQUE;
                 example_win 1 5 10 10 100 100 true OPAQUE 0;
                 example_win 2 7 10 10 100 100 false OPAQUE OPAQUE]
                [] 1) as [Hfound _].
    + reflexivity.
    + reflexivity.
    + intros n [<- | [<- | [<- | []]]]; discriminate.
    + reflexivity.
    + discriminate.
    + destruct (Hfound []
                  (example_win 0 1 10 10 100 100 false OPAQUE OPAQUE)
                  [example_win 1 5 10 10 100 100 true OPAQUE 0;
                   example_win 2 7 10 10 100 100 false OPAQUE OPAQUE]) as [Hstack _].
      * reflexivity.
      * reflexivity.
      * intros n [].
      * rewrite Hstack. reflexivity.
  - destruct (restack_win_places_above example_update_reg_ignore_expire example_stack 0
                (example_win 0 1 10 10 100 100 false OPAQUE OPAQUE)
                []
                [example_win 1 5 10 10 100 100 true OPAQUE 0;
                 example_win 2 7 10 10 100 100 false OPAQUE OPAQUE;
                 example_win 3 9 10 10 100 100 false OPAQUE OPAQUE] 0) as [_ Hbottom].
    + reflexivity.
    + reflexivity.
    + intros n [].
    + reflexivity.
    + discriminate.
    + destruct Hbottom as [Hstack _].
      * reflexivity.
      * intros n [<- | [<- | [<- | []]]]; reflexivity.
      * rewrite Hstack. reflexivity.
Defined.

Section CirculateProofs.

Variable update_reg_ignore_expire : session_t -> win -> bool.
Variable find_win : session_t -> Window -> option nat.

Local Abbreviation restack_win := (Compton.restack_win update_reg_ignore_expire).
Local Abbreviation circulate_win := (Compton.circulate_win update_reg_ignore_expire find_win).

(** X2.  In a stack in which no id occurs twice and no id is 0,
    [circulate_win] for a window that [find_win] finds: with
    [PlaceOnTop] and a top window that is not destroyed, the window
    becomes the top of the stack; with another place it becomes the
    bottom; the other windows keep their order and no failure is
    reported. *)
Theorem circulate_win_top_or_bottom :
  forall (ps : session_t) (window place : Z) (p : nat) (w : win) (a b : list win),
    find_win ps window = Some p ->
    ps_list ps = a ++ w :: b ->
    ptr w = p ->
    (forall n, In n a -> ptr n <> p) ->
    NoDup (map id (ps_list ps)) ->
    (forall n, In n (ps_list ps) -> id n <> 0) ->
    (place = PlaceOnTop ->
     (forall top rest, ps_list ps = top :: rest -> destroyed top = false) ->
     exists ps', circulate_win ps window place = Some (ps', false)
                 /\ ps_list ps' = w :: a ++ b) /\
    (place <> PlaceOnTop ->
     exists ps', circulate_win ps window place = Some (ps', false)
                 /\ ps_list ps' = a ++ b ++ [w]).
Proof.
  intros ps window place p w a b Hfind Hl Hw Ha Hnodup Hnz.
  pose proof (old_above_app ps p w a b Hl Hw Ha) as Hold.
  assert (Hidw : id w <> 0) by (apply Hnz; rewrite Hl; apply in_elt).
  rewrite Hl, map_app in Hnodup. cbn [map] in Hnodup.
  assert (Hwa : forall n, In n a -> id n <> id w).
  { intros n Hn E. apply NoDup_remove_2 in Hnodup. apply Hnodup.
    apply in_or_app. left. rewrite <- E. apply in_map. exact Hn. }
  assert (Hwb : forall n, In n b -> id n <> id w).
  { intros n Hn E. apply NoDup_remove_2 in Hnodup. apply Hnodup.
    apply in_or_app. right. rewrite <- E. apply in_map. exact Hn. }
  split.
  - intros -> Htop. unfold Compton.circulate_win. rewrite Hfind, Z.eqb_refl.
    destruct a as [| top a'].
    + (* the window is the top already *)
      rewrite Hl. cbn [app].
      assert (Hdw : destroyed w = false) by (apply (Htop w b); exact Hl).
      assert (Hres : restack_win ps p (id w)
                     = (set_ps_list (w :: b)
                          (set_reg_ignore_expire (update_reg_ignore_expire ps w) ps),
                        false)).
      { unfold Compton.restack_win. rewrite Hl. cbn [app index_of].
        rewrite Hw, Nat.eqb_refl. cbn [nth_error]. cbv zeta.
        change (old_above (set_reg_ignore_expire (update_reg_ignore_expire ps w) ps) p)
          with (old_above ps p).
        rewrite Hold.
        match goal with
        | |- context [negb (?x =? id w)] =>
            replace (x =? id w) with false
              by (symmetry; apply Z.eqb_neq; destruct b as [| n b'];
                  [intros E; apply Hidw; symmetry; exact E
                  | apply Hwb; left; reflexivity])
        end. cbn [negb ps_list set_reg_ignore_expire]. rewrite Hl.
        cbn [app find_above index_of]. rewrite Z.eqb_refl, Hdw, Hw, Nat.eqb_refl.
        cbn [andb negb]. rewrite andb_false_r. reflexivity. }
      rewrite Hres. eexists. split; reflexivity.
    + rewrite Hl. cbn [app].
      assert (Hdt : destroyed top = false) by (apply (Htop top (a' ++ w :: b)); exact Hl).
      assert (Hwt : id top <> id w) by (apply Hwa; left; reflexivity).
      assert (Hnw : is_above (id top) w = false).
      { unfold is_above. apply not_eq_sym in Hwt. apply Z.eqb_neq in Hwt.
        rewrite Hwt. reflexivity. }
      assert (Hold' : old_above ps p <> id top).
      { rewrite Hold. destruct b as [| n b'].
        - intros E. apply (Hnz top); [rewrite Hl; left; reflexivity | symmetry; exact E].
        - intros E. change (map id (top :: a')) with (id top :: map id a') in Hnodup.
          rewrite <- app_comm_cons in Hnodup.
          apply NoDup_cons_iff in Hnodup. destruct Hnodup as [Hnot _].
          apply Hnot. apply in_or_app. right. right. left. exact E. }
      rewrite (restack_win_relinks update_reg_ignore_expire ps p w (top :: a') b (id top)
                 Hl Hw Ha Hnw Hold').
      cbn [app find_above]. rewrite Z.eqb_refl, Hdt. cbn [andb negb fst snd].
      rewrite andb_false_r. eexists. split; reflexivity.
  - intros Hplace. unfold Compton.circulate_win. rewrite Hfind.
    apply Z.eqb_neq in Hplace. rewrite Hplace.
    destruct b as [| n b'].
    + (* the window is the bottom already *)
      unfold Compton.restack_win. rewrite Hl, (index_of_app p a [] w Hw Ha).
      rewrite nth_error_app2 by lia. rewrite Nat.sub_diag. cbn [nth_error]. cbv zeta.
      change (old_above (set_reg_ignore_expire (update_reg_ignore_expire ps w) ps) p)
        with (old_above ps p).
      rewrite Hold, Z.eqb_refl. cbn [negb]. eexists. split; [reflexivity |].
      cbn [ps_list set_reg_ignore_expire]. exact Hl.
    + assert (Hnw : is_above 0 w = false).
      { unfold is_above. apply Z.eqb_neq in Hidw. rewrite Hidw. reflexivity. }
      assert (Hold' : old_above ps p <> 0).
      { rewrite Hold. apply Hnz. rewrite Hl. apply in_or_app. right. right. left.
        reflexivity. }
      assert (Hnone : forall m, In m (a ++ n :: b') -> is_above 0 m = false).
      { intros m Hm. unfold is_above.
        assert (Hm0 : id m <> 0).
        { apply Hnz. rewrite Hl. apply in_app_or in Hm.
          apply in_or_app. destruct Hm; [left | right; right]; assumption. }
        apply Z.eqb_neq in Hm0. rewrite Hm0. reflexivity. }
      unfold XNone.
      rewrite (restack_win_relinks update_reg_ignore_expire ps p w a (n :: b') 0
                 Hl Hw Ha Hnw Hold').
      rewrite (find_above_none 0 _ Hnone). cbn [fst snd negb andb Z.eqb].
      rewrite firstn_all, skipn_all, <- app_assoc. eexists. split; reflexivity.
Qed.

End CirculateProofs.

Lemma circulate_win_top_or_bottom_witness :
  exists ps',
    circulate_win example_update_reg_ignore_expire example_find_win example_stack 9 PlaceOnTop
    = Some (ps', false)
    /\ map id (ps_list ps') = [9; 1; 5; 7].
Proof.
  destruct (circulate_win_top_or_bottom example_update_reg_ignore_expire example_find_win
              example_stack 9 PlaceOnTop 3
              (example_win 3 9 10 10 100 100 false OPAQUE OPAQUE)
              [example_win 0 1 10 10 100 100 false OPAQUE OPAQUE;
               example_win 1 5 10 10 100 100 true OPAQUE 0;
               example_win 2 7 10 10 100 100 false OPAQUE OPAQUE]
              []) as [Htop _].
  - reflexivity.
  - reflexivity.
  - reflexivity.
  - intros n [<- | [<- | [<- | []]]]; discriminate.
  - cbn. repeat constructor; cbn; intuition discriminate.
  - intros n [<- | [<- | [<- | [<- | []]]]]; discriminate.
  - destruct Htop as (ps' & Hres & Hstack).
    + reflexivity.
    + intros top rest H. cbn in H. injection H as <- _. reflexivity.
    + exists ps'. split; [exact Hres | rewrite Hstack; reflexivity].
Defined.

(** ** Fading to the end *)

(** X3.  [run_fade] never sets [idling] and touches nothing else of the
    session: the session is unchanged when the window is at its target
    after the call, and only [idling] is cleared when it is not.  A
    window that fades below its target moves to
    [opacity + fade_in_step * steps] capped at the target, one above
    to [opacity - fade_out_step * steps] floored at the target: it
    reaches its target exactly when the steps cover the distance, and
    from then on [run_fade] changes nothing.  A window that does not
    fade is at its target after the call.  The code computes the two
    assignments in double ([run_fade_double]): on 32-bit values that
    is [run_fade]. *)
Theorem run_fade_reaches_target :
  forall (ps : session_t) (w : win) (steps : Z),
    0 <= steps ->
    0 <= fade_in_step (o ps) ->
    0 <= fade_out_step (o ps) ->
    0 <= opacity w <= OPAQUE ->
    0 <= opacity_tgt w <= OPAQUE ->
    let ps' := fst (run_fade ps w steps) in
    let w' := snd (run_fade ps w steps) in
    opacity_tgt w' = opacity_tgt w /\
    (opacity w' = opacity_tgt w -> ps' = ps) /\
    (opacity w' <> opacity_tgt w -> ps' = set_idling false ps) /\
    (fade w = true -> opacity w < opacity_tgt w ->
     opacity_tgt w - opacity w <= fade_in_step (o ps) * steps ->
     opacity w' = opacity_tgt w) /\
    (fade w = true -> opacity_tgt w < opacity w ->
     opacity w - opacity_tgt w <= fade_out_step (o ps) * steps ->
     opacity w' = opacity_tgt w) /\
    (opacity w' = opacity_tgt w -> forall k, run_fade ps' w' k = (ps', w')) /\
    (fade w = true -> opacity w < opacity_tgt w ->
     opacity w' = Z.min (opacity w + fade_in_step (o ps) * steps) (opacity_tgt w) /\
     (opacity w' = opacity_tgt w
      <-> opacity_tgt w - opacity w <= fade_in_step (o ps) * steps)) /\
    (fade w = true -> opacity_tgt w < opacity w ->
     opacity w' = Z.max (opacity w - fade_out_step (o ps) * steps) (opacity_tgt w) /\
     (opacity w' = opacity_tgt w
      <-> opacity w - opacity_tgt w <= fade_out_step (o ps) * steps)) /\
    (fade w = true -> opacity w = opacity_tgt w -> opacity w' = opacity_tgt w) /\
    (fade w = false -> opacity w' = opacity_tgt w) /\
    (fade_in_step (o ps) <= OPAQUE -> fade_out_step (o ps) <= OPAQUE -> steps < 2 ^ 32 ->
     run_fade_double ps w steps = run_fade ps w steps).
Proof.
  intros ps w steps Hs Hin Hout Ho Ht ps' w'.
  pose proof (run_fade_opacity ps w steps Hs Hin Hout Ho Ht) as Hop. fold w' in Hop.
  assert (Hold :
    opacity_tgt w' = opacity_tgt w /\
    (opacity w' = opacity_tgt w -> ps' = ps) /\
    (opacity w' <> opacity_tgt w -> ps' = set_idling false ps) /\
    (opacity w' = opacity_tgt w -> forall k, run_fade ps' w' k = (ps', w'))).
  { subst ps' w'. clear Hop. unfold run_fade.
    destruct (Z.eqb_spec (opacity w) (opacity_tgt w)) as [E | E].
    - cbn [fst snd]. split; [reflexivity |]. split; [reflexivity |].
      split; [intros H; contradiction |].
      intros _ k. apply Z.eqb_eq in E. rewrite E. reflexivity.
    - cbv zeta. cbn [fst snd].
      set (w1 := if negb (fade w) then set_opacity (opacity_tgt w) w
                 else if negb (steps =? 0)
                      then if opacity w <? opacity_tgt w
                           then set_opacity
                                  (normalize_range (opacity w + fade_in_step (o ps) * steps) 0
                                     (opacity_tgt w)) w
                           else set_opacity
                                  (normalize_range (opacity w - fade_out_step (o ps) * steps)
                                     (opacity_tgt w) OPAQUE) w
                      else w).
      assert (Htgt : opacity_tgt w1 = opacity_tgt w).
      { subst w1. destruct (negb (fade w)); [reflexivity |].
        destruct (negb (steps =? 0)); [| reflexivity].
        destruct (opacity w <? opacity_tgt w); reflexivity. }
      rewrite Htgt. split; [reflexivity |].
      destruct (Z.eqb_spec (opacity w1) (opacity_tgt w)) as [E1 | E1]; cbn [negb].
      + split; [reflexivity |]. split; [intros H; contradiction |].
        intros _ k. reflexivity.
      + split; [intros H; contradiction |]. split; [reflexivity |].
        intros H; contradiction. }
  destruct Hold as (H1 & H2 & H3 & H6).
  split; [exact H1 |]. split; [exact H2 |]. split; [exact H3 |].
  split; [| split; [| split; [exact H6 |]]].
  - intros Hf Hlt Hcover. rewrite Hop, Hf. cbn [negb].
    destruct (Z.ltb_spec (opacity w) (opacity_tgt w)); lia.
  - intros Hf Hlt Hcover. rewrite Hop, Hf. cbn [negb].
    destruct (Z.ltb_spec (opacity w) (opacity_tgt w)); lia.
  - split; [| split; [| split]].
    + intros Hf Hlt. rewrite Hop, Hf. cbn [negb].
      destruct (Z.ltb_spec (opacity w) (opacity_tgt w)); [| lia].
      split; [reflexivity | lia].
    + intros Hf Hlt. rewrite Hop, Hf. cbn [negb].
      destruct (Z.ltb_spec (opacity w) (opacity_tgt w)); [lia |].
      split; [reflexivity | lia].
    + intros Hf He. rewrite Hop, Hf. cbn [negb].
      destruct (Z.ltb_spec (opacity w) (opacity_tgt w)); nia.
    + split.
      * intros Hf. rewrite Hop, Hf. reflexivity.
      * intros Hin' Hout' Hlt. apply run_fade_in_double; lia.
Qed.

Lemma run_fade_reaches_target_witness :
  opacity (snd (run_fade example_session example_fading_win 28)) = OPAQUE /\
  fst (run_fade example_session example_fading_win 28) = example_session /\
  opacity (snd (run_fade example_session example_fading_win 27)) <> OPAQUE.
Proof.
  destruct (run_fade_reaches_target example_session example_fading_win 28)
    as (_ & Hidle & _ & Hin & _).
  - discriminate.
  - discriminate.
  - discriminate.
  - split; discriminate.
  - split; discriminate.
  - assert (H : opacity (snd (run_fade example_session example_fading_win 28)) = OPAQUE).
    { apply Hin; [reflexivity | reflexivity | discriminate]. }
    split; [exact H |]. split; [apply Hidle; exact H |].
    destruct (run_fade_reaches_target example_session example_fading_win 27)
      as (_ & _ & _ & _ & _ & _ & Hexact & _).
    + discriminate.
    + discriminate.
    + discriminate.
    + split; discriminate.
    + split; discriminate.
    + destruct Hexact as [_ Hiff]; [reflexivity | reflexivity |].
      intros E. apply Hiff in E. vm_compute in E. apply E. reflexivity.
Defined.

(** ** Starting and stopping redirection *)

(** X6.  [redir_start] on a redirected screen and [redir_stop] on one
    that is not change nothing, so both are idempotent.  [redir_start]
    on a screen that is not redirected redirects it and damages the
    whole screen: [ev_received] is set and the screen region is added
    to [all_damage]. *)
Theorem redir_start_damages_screen :
  forall (ps : session_t),
    (redirected ps = true -> redir_start ps = ps) /\
    (redirected ps = false -> redir_stop ps = ps) /\
    redir_start (redir_start ps) = redir_start ps /\
    redir_stop (redir_stop ps) = redir_stop ps /\
    redirected (redir_stop (redir_start ps)) = false /\
    (redirected ps = false ->
     forall reg, screen_reg ps = Some reg ->
       redirected (redir_start ps) = true /\
       ev_received (redir_start ps) = true /\
       all_damage (redir_start ps)
       = Some (match all_damage ps with Some a => a ++ reg | None => reg end)).
Proof.
  intros ps.
  assert (Hstart : redirected ps = true -> redir_start ps = ps).
  { intros H. unfold redir_start. rewrite H. reflexivity. }
  assert (Hstop : redirected ps = false -> redir_stop ps = ps).
  { intros H. unfold redir_stop. rewrite H. reflexivity. }
  split; [exact Hstart |]. split; [exact Hstop |].
  split; [| split; [| split]].
  - destruct (redir_start_spec ps) as [_ Hr].
    unfold redir_start at 1. rewrite Hr. reflexivity.
  - destruct (redir_stop_spec ps) as [_ Hr].
    unfold redir_stop at 1. rewrite Hr. reflexivity.
  - apply redir_stop_spec.
  - intros Hr reg Hreg. unfold redir_start, force_repaint, copy_region.
    rewrite Hr. cbn [negb screen_reg set_redirected]. rewrite Hreg.
    unfold add_damage. cbn [redirected set_ev_received negb free_region all_damage].
    cbn. destruct (all_damage ps); cbn; repeat split; reflexivity.
Qed.

(** ** The ignore list *)

Lemma discard_ignore_suffix (l : list Z) (sequence : Z) :
  exists dropped,
    l = dropped ++ discard_ignore l sequence /\
    (forall s, In s dropped -> s < sequence).
Proof.
  induction l as [| s l IH]; simpl.
  - exists []. split; [reflexivity | intros s []].
  - destruct (Z.ltb_spec s sequence) as [Hlt | Hge].
    + destruct IH as (dropped & E & Hd). exists (s :: dropped). split.
      * simpl. rewrite <- E. reflexivity.
      * intros s' [<- | Hs']; [exact Hlt | apply Hd; exact Hs'].
    + exists []. split; [reflexivity | intros s' []].
Qed.

Lemma discard_ignore_head (l : list Z) (sequence s : Z) (rest : list Z) :
  discard_ignore l sequence = s :: rest -> sequence <= s.
Proof.
  induction l as [| s0 l IH]; simpl; [discriminate |].
  destruct (Z.ltb_spec s0 sequence) as [Hlt | Hge]; [exact IH |].
  intros E. injection E as <- _. exact Hge.
Qed.

Lemma discard_ignore_ascending (l : list Z) (sequence : Z) :
  ascending l -> discard_ignore l sequence = filter (fun s => sequence <=? s) l.
Proof.
  induction l as [| s l IH]; simpl; [reflexivity |].
  intros [Hs Hl]. destruct (Z.ltb_spec s sequence) as [Hlt | Hge].
  - destruct (Z.leb_spec sequence s); [lia | apply IH; exact Hl].
  - destruct (Z.leb_spec sequence s); [| lia]. f_equal.
    clear IH Hl. induction l as [| s' l IH]; simpl; [reflexivity |].
    destruct (Z.leb_spec sequence s') as [_ | Hlt].
    + f_equal. apply IH. intros x Hx. apply Hs. right. exact Hx.
    + specialize (Hs s' (or_introl eq_refl)). lia.
Qed.

(** X7.  [discard_ignore] drops a prefix of the ignore list, all of it
    older than [sequence], and stops at the first entry that is not
    older.  On a list in ascending order, as requests are numbered, it
    leaves exactly the entries that are not older than [sequence], and
    [should_ignore] says whether [sequence] is in the list. *)
Theorem should_ignore_finds_sequence :
  forall (ignore_head : list Z) (sequence : Z),
    (exists dropped,
        ignore_head = dropped ++ fst (should_ignore ignore_head sequence) /\
        (forall s, In s dropped -> s < sequence)) /\
    (forall s rest, fst (should_ignore ignore_head sequence) = s :: rest -> sequence <= s) /\
    (ascending ignore_head ->
     fst (should_ignore ignore_head sequence)
     = filter (fun s => sequence <=? s) ignore_head /\
     (snd (should_ignore ignore_head sequence) = true <-> In sequence ignore_head)).
Proof.
  intros l sequence. unfold should_ignore. cbn [fst snd].
  split; [apply discard_ignore_suffix |]. split; [apply discard_ignore_head |].
  intros Hasc. split; [apply discard_ignore_ascending; exact Hasc |].
  pose proof (discard_ignore_head l sequence) as Hhead.
  destruct (discard_ignore_suffix l sequence) as (dropped & E & Hd).
  rewrite (discard_ignore_ascending l sequence Hasc) in *.
  destruct (filter (fun s => sequence <=? s) l) as [| s rest] eqn:Ef.
  - split; [discriminate |]. intros Hin.
    assert (Hf : In sequence (filter (fun s => sequence <=? s) l)).
    { apply filter_In. split; [exact Hin | apply Z.leb_refl]. }
    rewrite Ef in Hf. destruct Hf.
  - split.
    + intros Heq. apply Z.eqb_eq in Heq. subst s.
      rewrite E. apply in_or_app. right. left. reflexivity.
    + intros Hin. apply Z.eqb_eq.
      assert (Hf : In sequence (s :: rest)).
      { rewrite <- Ef. apply filter_In. split; [exact Hin | apply Z.leb_refl]. }
      specialize (Hhead s rest eq_refl).
      destruct Hf as [Hs | Hrest]; [exact Hs |].
      (* the kept part is ascending too *)
      assert (Hle : s <= sequence).
      { clear - Hasc E Hrest. revert l Hasc E.
        induction dropped as [| d dropped IH]; intros l Hasc E; subst l.
        - destruct Hasc as [Hs _]. apply Hs. exact Hrest.
        - destruct Hasc as [_ Hasc]. apply (IH _ Hasc eq_refl). }
      lia.
Qed.

(** Errors of the requests 12, 15 and 20 are to be ignored: the error
    of request 15 is, that of request 16 is not, and request 12 is
    forgotten after either. *)
Example should_ignore_example :
  should_ignore [12; 15; 20] 15 = ([15; 20], true) /\
  should_ignore [12; 15; 20] 16 = ([20], false).
Proof. split; reflexivity. Qed.

(** ** Timeouts *)

Lemma timeout_drop_missing (l : list timeout_t) (prm : nat) :
  ~ In prm (map tm_ptr l) -> timeout_drop l prm = (l, false).
Proof.
  induction l as [| t l IH]; simpl; [reflexivity |].
  intros Hnot. destruct (Nat.eqb_spec prm (tm_ptr t)) as [E | _].
  - exfalso. apply Hnot. left. symmetry. exact E.
  - rewrite IH; [reflexivity |]. intros Hin. apply Hnot. right. exact Hin.
Qed.

Lemma timeout_drop_present (l : list timeout_t) (prm : nat) :
  In prm (map tm_ptr l) -> NoDup (map tm_ptr l) ->
  timeout_drop l prm = (filter (fun t => negb (Nat.eqb prm (tm_ptr t))) l, true).
Proof.
  induction l as [| t l IH]; simpl; [intros [] |].
  intros Hin Hnd. apply NoDup_cons_iff in Hnd. destruct Hnd as [Hnot Hnd].
  destruct (Nat.eqb_spec prm (tm_ptr t)) as [E | Hne]; cbn [negb].
  - f_equal. symmetry. apply forallb_filter_id. apply forallb_forall.
    intros t' Ht'. apply negb_true_iff. apply Nat.eqb_neq. intros E'.
    apply Hnot. rewrite <- E, E'. apply in_map. exact Ht'.
  - destruct Hin as [E | Hin]; [exfalso; apply Hne; symmetry; exact E |].
    rewrite (IH Hin Hnd). reflexivity.
Qed.

(** X8.  Dropping the timeout that [timeout_insert] returned gives the
    list back; dropping a timeout that is not in the list changes
    nothing and returns false; dropping one that is in it removes that
    node and no other.  A new timeout is enabled, and its first and
    last run are the time of its insertion. *)
Theorem timeout_drop_undoes_insert :
  forall (tmout_lst : list timeout_t) (p prm : nat) (interval : Z) (callback data : nat)
         (now : Z),
    let inserted := timeout_insert tmout_lst p interval callback data now in
    timeout_drop (fst inserted) (snd inserted) = (tmout_lst, true) /\
    (exists t rest,
        fst inserted = t :: rest /\ tm_ptr t = snd inserted /\ tm_enabled t = true /\
        tm_firstrun t = now /\ tm_lastrun t = now /\ tm_interval t = interval) /\
    (~ In prm (map tm_ptr tmout_lst) -> timeout_drop tmout_lst prm = (tmout_lst, false)) /\
    (In prm (map tm_ptr tmout_lst) -> NoDup (map tm_ptr tmout_lst) ->
     timeout_drop tmout_lst prm
     = (filter (fun t => negb (Nat.eqb prm (tm_ptr t))) tmout_lst, true)).
Proof.
  intros l p prm interval callback data now inserted. subst inserted.
  split; [| split; [| split]].
  - cbn. rewrite Nat.eqb_refl. reflexivity.
  - cbn. eexists. eexists. repeat split.
  - apply timeout_drop_missing.
  - apply timeout_drop_present.
Qed.

Section PollTimeProofs.

Variable timeout_get_newrun : timeout_t -> Z.
Variable TIME_MS_MAX : Z.

Local Abbreviation timeout_get_poll_time_loop :=
  (Compton.timeout_get_poll_time_loop timeout_get_newrun).
Local Abbreviation timeout_get_poll_time :=
  (Compton.timeout_get_poll_time timeout_get_newrun TIME_MS_MAX).

Local Abbreviation due := (Compton.timeout_due timeout_get_newrun).

Lemma poll_loop_spec (now : Z) (l : list timeout_t) (wait : Z) :
  0 < wait ->
  let r := timeout_get_poll_time_loop now wait l in
  0 <= r <= wait /\
  (r = 0 <-> exists t, In t l /\ due now t = true) /\
  (forall t, In t l -> tm_enabled t = true -> r <= Z.max 0 (timeout_get_newrun t - now)) /\
  (r = 0 \/ r = wait
   \/ exists t, In t l /\ tm_enabled t = true /\ r = timeout_get_newrun t - now).
Proof.
  revert wait. induction l as [| t l IH]; intros wait Hwait; cbn [Compton.timeout_get_poll_time_loop].
  - cbv zeta. split; [lia |]. split.
    + split; [lia | intros (t & [] & _)].
    + split; [intros t [] | right; left; reflexivity].
  - unfold Compton.timeout_due in *. destruct (tm_enabled t) eqn:Een.
    + destruct (Z.leb_spec (timeout_get_newrun t) now) as [Hdue | Hnot].
      * cbv zeta. split; [lia |]. split.
        -- split; [| reflexivity]. intros _. exists t. split; [left; reflexivity |].
           rewrite Een. apply Z.leb_le in Hdue. rewrite Hdue. reflexivity.
        -- split; [intros; lia | left; reflexivity].
      * set (wait' := if timeout_get_newrun t - now <? wait
                      then timeout_get_newrun t - now else wait).
        assert (Hw' : 0 < wait' <= wait /\ wait' <= timeout_get_newrun t - now
                      /\ (wait' = wait \/ wait' = timeout_get_newrun t - now)).
        { subst wait'. destruct (Z.ltb_spec (timeout_get_newrun t - now) wait); lia. }
        destruct Hw' as (Hw1 & Hw2 & Hw3).
        specialize (IH wait' (proj1 Hw1)). cbv zeta in IH.
        destruct IH as (I1 & I2 & I3 & I4). cbv zeta.
        split; [lia |]. split; [| split].
        -- rewrite I2. split.
           ++ intros (t' & Hin & Hd). exists t'. split; [right; exact Hin | exact Hd].
           ++ intros (t' & [<- | Hin] & Hd).
              ** rewrite Een in Hd. cbn in Hd. apply Z.leb_le in Hd. lia.
              ** exists t'. split; assumption.
        -- intros t' [<- | Hin] Hen; [lia | apply I3; assumption].
        -- destruct I4 as [I4 | [I4 | (t' & Hin & Hen & I4)]].
           ++ left. exact I4.
           ++ destruct Hw3 as [Hw3 | Hw3].
              ** right. left. lia.
              ** right. right. exists t. split; [left; reflexivity |].
                 split; [exact Een | lia].
           ++ right. right. exists t'. split; [right; exact Hin | split; assumption].
    + specialize (IH wait Hwait). cbv zeta in IH. destruct IH as (I1 & I2 & I3 & I4).
      cbv zeta. split; [exact I1 |]. split; [| split].
      * rewrite I2. split.
        -- intros (t' & Hin & Hd). exists t'. split; [right; exact Hin | exact Hd].
        -- intros (t' & [<- | Hin] & Hd).
           ++ rewrite Een in Hd. discriminate.
           ++ exists t'. split; assumption.
      * intros t' [<- | Hin] Hen; [congruence | apply I3; assumption].
      * destruct I4 as [I4 | [I4 | (t' & Hin & Hen & I4)]]; auto.
        right. right. exists t'. split; [right; exact Hin | split; assumption].
Qed.

(** X9.  The poll time is 0 exactly when a timeout that is enabled is
    due, and otherwise the shortest wait for an enabled timeout, capped
    at [TIME_MS_MAX]: it is never negative and never past the next run
    of an enabled timeout. *)
Theorem timeout_get_poll_time_next_run :
  forall (tmout_lst : list timeout_t) (now : Z),
    0 < TIME_MS_MAX ->
    let r := timeout_get_poll_time tmout_lst now in
    0 <= r <= TIME_MS_MAX /\
    (r = 0 <-> exists t, In t tmout_lst /\ tm_enabled t = true
                         /\ timeout_get_newrun t <= now) /\
    (forall t, In t tmout_lst -> tm_enabled t = true ->
               r <= Z.max 0 (timeout_get_newrun t - now)) /\
    (r = 0 \/ r = TIME_MS_MAX
     \/ exists t, In t tmout_lst /\ tm_enabled t = true
                  /\ r = timeout_get_newrun t - now).
Proof.
  intros l now Hmax r. subst r. unfold Compton.timeout_get_poll_time.
  destruct (poll_loop_spec now l TIME_MS_MAX Hmax) as (H1 & H2 & H3 & H4).
  split; [exact H1 |]. split; [| split; assumption].
  rewrite H2. unfold Compton.timeout_due. split.
  - intros (t & Hin & Hd). apply andb_true_iff in Hd. destruct Hd as [He Hd].
    apply Z.leb_le in Hd. exists t. auto.
  - intros (t & Hin & He & Hd). exists t. split; [exact Hin |].
    rewrite He. apply Z.leb_le in Hd. rewrite Hd. reflexivity.
Qed.

End PollTimeProofs.

Lemma timeout_get_poll_time_next_run_witness :
  timeout_get_poll_time example_newrun (2 ^ 63 - 1) example_timeouts 1100 = 250 /\
  timeout_get_poll_time example_newrun (2 ^ 63 - 1) example_timeouts 1350 = 0.
Proof.
  destruct (timeout_get_poll_time_next_run example_newrun (2 ^ 63 - 1) example_timeouts 1350)
    as (_ & Hzero & _); [reflexivity |].
  split; [reflexivity |]. apply Hzero.
  exists {| tm_ptr := 1; tm_enabled := true; tm_data := 0; tm_callback := 7;
            tm_firstrun := 1050; tm_lastrun := 1050; tm_interval := 300 |}.
  split; [left; reflexivity |]. split; [reflexivity | discriminate].
Defined.

(** ** Software optimization of the timeout *)

Lemma rem_to_mod (a b : Z) :
  0 < b ->
  (if Z.rem a b <? 0 then Z.rem a b + b else Z.rem a b) = a mod b.
Proof.
  intros Hb. pose proof (Z.quot_rem' a b) as Hqr.
  pose proof (Z.rem_bound_abs a b ltac:(lia)) as Habs.
  destruct (Z.ltb_spec (Z.rem a b) 0) as [Hneg | Hpos].
  - apply (Z.mod_unique_pos a b (Z.quot a b - 1)); lia.
  - apply (Z.mod_unique_pos a b (Z.quot a b)); lia.
Qed.

Section SwoptiProofs.

Variable SWOPTI_TOLERANCE : Z.
Variable US_PER_SEC : Z.

Local Abbreviation swopti_handle_timeout :=
  (Compton.swopti_handle_timeout SWOPTI_TOLERANCE US_PER_SEC).
Local Abbreviation timeval_usec := (Compton.timeval_usec US_PER_SEC).

(** X10.  With a positive refresh interval the assertion of
    [swopti_handle_timeout] holds, and the timeout is either left as it
    is, when it ends within the tolerance of a refresh, or made longer
    so that it ends on a refresh: by at least the tolerance and at most
    an interval less the tolerance.  Microseconds above [US_PER_SEC] are
    carried into the seconds. *)
Theorem swopti_handle_timeout_aligns :
  forall (paint_tm_offset refresh_intv now_usec : Z) (tv : timeval),
    0 < refresh_intv ->
    exists tv',
      swopti_handle_timeout paint_tm_offset refresh_intv now_usec (Some tv) = Some (Some tv') /\
      (tv' = tv
       \/ (SWOPTI_TOLERANCE <= timeval_usec tv' - timeval_usec tv
                             <= refresh_intv - SWOPTI_TOLERANCE /\
           (tv_usec tv + (timeval_usec tv' - timeval_usec tv) + now_usec - paint_tm_offset)
             mod refresh_intv = 0)) /\
      (tv_usec tv <= US_PER_SEC -> refresh_intv <= US_PER_SEC ->
       tv_usec tv' <= US_PER_SEC).
Proof.
  intros pto intv now tv Hintv. unfold Compton.swopti_handle_timeout. cbv zeta.
  rewrite (rem_to_mod _ intv Hintv).
  set (x := tv_usec tv + now - pto).
  pose proof (Z.mod_pos_bound x intv Hintv) as Hbd.
  destruct (Z.leb_spec 0 (x mod intv)); [| lia].
  destruct (Z.ltb_spec (x mod intv) intv); [| lia]. cbn [andb].
  destruct ((x mod intv <? SWOPTI_TOLERANCE) || (intv - SWOPTI_TOLERANCE <? x mod intv))
    eqn:Etol.
  - exists tv. split; [reflexivity |]. split; [left; reflexivity | intros; assumption].
  - apply orb_false_iff in Etol. destruct Etol as [E1 E2].
    apply Z.ltb_ge in E1, E2.
    assert (Halign : (tv_usec tv + (intv - x mod intv) + now - pto) mod intv = 0).
    { replace (tv_usec tv + (intv - x mod intv) + now - pto)
        with (x - x mod intv + 1 * intv) by (subst x; ring).
      rewrite Z.mod_add by lia.
      rewrite (Z.div_mod x intv) at 1 by lia.
      replace (intv * (x / intv) + x mod intv - x mod intv) with ((x / intv) * intv) by ring.
      apply Z.mod_mul. lia. }
    destruct (Z.ltb_spec US_PER_SEC (tv_usec tv + (intv - x mod intv))) as [Hc | Hc].
    + eexists. split; [reflexivity |]. unfold Compton.timeval_usec. cbn [tv_sec tv_usec].
      split.
      * right.
        replace ((tv_sec tv + 1) * US_PER_SEC
                 + (tv_usec tv + (intv - x mod intv) - US_PER_SEC)
                 - (tv_sec tv * US_PER_SEC + tv_usec tv))
          with (intv - x mod intv) by ring.
        split; [lia | exact Halign].
      * intros. lia.
    + eexists. split; [reflexivity |]. unfold Compton.timeval_usec. cbn [tv_sec tv_usec].
      split.
      * right.
        replace (tv_sec tv * US_PER_SEC + (tv_usec tv + (intv - x mod intv))
                 - (tv_sec tv * US_PER_SEC + tv_usec tv))
          with (intv - x mod intv) by ring.
        split; [lia | exact Halign].
      * intros. lia.
Qed.

End SwoptiProofs.

Lemma swopti_handle_timeout_aligns_witness :
  swopti_handle_timeout 3000 1000000 250000 16667 400000
    (Some {| tv_sec := 0; tv_usec := 5000 |})
  = Some (Some {| tv_sec := 0; tv_usec := 16670 |}) /\
  (16670 + 400000 - 250000) mod 16667 = 0.
Proof.
  destruct (swopti_handle_timeout_aligns 3000 1000000 250000 16667 400000
              {| tv_sec := 0; tv_usec := 5000 |}) as (tv' & Hres & Hcases & _);
    [reflexivity |].
  vm_compute in Hres. injection Hres as <-.
  split; [reflexivity |].
  destruct Hcases as [Hsame | [_ Halign]]; [discriminate |].
  vm_compute in Halign. vm_compute. exact Halign.
Defined.

(** The iteration at 1100 ms of [example_fullscreen] ends idle; a pass
    at 5000 ms takes no fade step. *)
Lemma idle_iteration_restarts_fade_clock_witness :
  fade_time
    (session_run_iter 0x1.999999999999ap-3 example_keep example_keep example_no_frame
       example_always example_always example_percent 4 example_extents
       example_update_reg_ignore_expire example_free_wpaint example_keep
       example_resize_region example_keep example_get_newrun 0 example_fullscreen
       ([TimeoutRun 1100], 1100)) = 0 /\
  fade_steps 0x1.999999999999ap-3
    (set_idling true
       (session_run_events example_get_newrun 0
          (session_run_iter 0x1.999999999999ap-3 example_keep example_keep example_no_frame
             example_always example_always example_percent 4 example_extents
             example_update_reg_ignore_expire example_free_wpaint example_keep
             example_resize_region example_keep example_get_newrun 0 example_fullscreen
             ([TimeoutRun 1100], 1100))
          [TimeoutRun 5000]))
    5000 = (0, 5000).
Proof.
  destruct (idle_iteration_restarts_fade_clock 0x1.999999999999ap-3 example_keep
              example_keep example_no_frame example_always example_always
              example_percent 4 example_extents example_update_reg_ignore_expire example_free_wpaint example_keep example_resize_region example_keep
              example_get_newrun 0 example_fullscreen ([TimeoutRun 1100], 1100))
    as [H0 H].
  - vm_compute. reflexivity.
  - split; [exact H0 |].
    exact (proj1 (H [TimeoutRun 5000] 5000 example_fading_win)).
Defined.

(** An iteration in which the fade of a destroyed window ends is not
    idle: the window is not painted, [check_fade_fin] runs its
    callback, which frees the node and clears [idling], and the fade
    clock keeps the time of the last step. *)
Example fade_callback_ends_idle :
  let ps :=
    session_run_iter 0x1.999999999999ap-3 example_keep example_keep example_no_frame
      example_always example_always example_percent 4 example_extents
      example_update_reg_ignore_expire example_free_wpaint example_keep
      example_resize_region example_keep example_get_newrun 0
      (set_ps_list [example_win 0 16 10 10 100 100 true 0 0] example_session) ([], 150) in
  idling ps = false /\ fade_time ps = 150 /\ ps_list ps = [].
Proof. vm_compute. repeat split; reflexivity. Qed.


(** Damage reported between a timeout run and a change of the root
    window's size is still there afterwards. *)
Lemma damage_kept_until_pass_witness :
  exists a,
    all_damage
      (session_run_events example_get_newrun 0 example_fullscreen
         ([TimeoutRun 1100]
          ++ Damage (Some [(1, 2, 3, 4)])
          :: [ConfigureRoot 800 600 (Some [(0, 0, 800, 600)])])) = Some a /\
    In (1, 2, 3, 4) a.
Proof.
  apply (damage_kept_until_pass example_get_newrun 0 example_fullscreen
           [TimeoutRun 1100] [ConfigureRoot 800 600 (Some [(0, 0, 800, 600)])]
           [(1, 2, 3, 4)] (1, 2, 3, 4)).
  - reflexivity.
  - left. reflexivity.
Defined.

(** The damage of the run above: the rectangle handed to [add_damage],
    then the whole screen, which [configure_win] damages for the root
    window. *)
Example configure_root_repaints :
  all_damage
    (session_run_events example_get_newrun 0 example_fullscreen
       ([TimeoutRun 1100]
        ++ Damage (Some [(1, 2, 3, 4)])
        :: [ConfigureRoot 800 600 (Some [(0, 0, 800, 600)])]))
  = Some [(1, 2, 3, 4); (0, 0, 800, 600)].
Proof. vm_compute. reflexivity. Qed.


End ComptonProofs.
